(** * Lifetmm: transfer-matrix model of a planar multilayer

    A shallow embedding of [lifetmm/TransferMatrix.py],
    [lifetmm/HelperFunctions.py] and of the older
    [lifetmm/Methods/TransferMatrix.py].

    Numbers.  numpy's [float64] and [complex128] are idealised as exact
    real and complex numbers: [R] from the Standard Library and
    [C := R * R].  Division is the division of that field; where numpy
    would produce [inf] or [nan] the embedding says so explicitly (see
    [imatrix], [xmatrix], [xfloat]) instead of computing with them. *)

From Stdlib Require Import Reals Lra Lia List ZArith Bool Permutation Sorted.
From Stdlib Require Import Psatz.
Import ListNotations.

Set Implicit Arguments.
Local Open Scope R_scope.

(** ** Complex numbers *)

Module Cplx.

Definition C : Type := (R * R)%type.

Definition Re (z : C) : R := fst z.
Definition Im (z : C) : R := snd z.

Definition RtoC (x : R) : C := (x, 0).
Definition C0 : C := (0, 0).
Definition C1 : C := (1, 0).
(** Python's [1j]. *)
Definition Ci : C := (0, 1).

Definition Cadd (z w : C) : C := (Re z + Re w, Im z + Im w).
Definition Copp (z : C) : C := (- Re z, - Im z).
Definition Csub (z w : C) : C := Cadd z (Copp w).
Definition Cmul (z w : C) : C :=
  (Re z * Re w - Im z * Im w, Re z * Im w + Im z * Re w).
(** [|z|^2]. *)
Definition Cnorm2 (z : C) : R := Re z * Re z + Im z * Im z.
Definition Cinv (z : C) : C := (Re z / Cnorm2 z, - Im z / Cnorm2 z).
Definition Cdiv (z w : C) : C := Cmul z (Cinv w).
Definition Cconj (z : C) : C := (Re z, - Im z).
(** [abs(z)]. *)
Definition Cabs (z : C) : R := sqrt (Cnorm2 z).

(** [numpy.sqrt] on a complex argument: the principal square root, with
    non-negative real part, and the sign of the imaginary part that of
    the argument's (a zero imaginary part counts as [+0]). *)
Definition Csqrt (z : C) : C :=
  (sqrt ((Cabs z + Re z) / 2),
   (if Rle_dec 0 (Im z) then 1 else -1) * sqrt ((Cabs z - Re z) / 2)).

(** [numpy.exp] on a complex argument. *)
Definition Cexp (z : C) : C := (exp (Re z) * cos (Im z), exp (Re z) * sin (Im z)).

(** [numpy.cos] on a complex argument. *)
Definition Ccos (z : C) : C :=
  (cos (Re z) * cosh (Im z), - (sin (Re z) * sinh (Im z))).

Declare Scope C_scope.
Delimit Scope C_scope with C.
Bind Scope C_scope with C.
Infix "+" := Cadd : C_scope.
Infix "-" := Csub : C_scope.
Infix "*" := Cmul : C_scope.
Infix "/" := Cdiv : C_scope.
Notation "- z" := (Copp z) : C_scope.
Notation "/ z" := (Cinv z) : C_scope.

Lemma C_ext (z w : C) : Re z = Re w -> Im z = Im w -> z = w.
Proof. destruct z, w; simpl; intros -> ->; reflexivity. Qed.

Lemma Cnorm2_nonneg (z : C) : 0 <= Cnorm2 z.
Proof. unfold Cnorm2; nra. Qed.

Lemma Cnorm2_eq0 (z : C) : Cnorm2 z = 0 -> z = C0.
Proof.
  destruct z as [a b]; unfold Cnorm2, C0; simpl; intros H.
  assert (a = 0) by nra. assert (b = 0) by nra. subst; reflexivity.
Qed.

Lemma Cnorm2_pos (z : C) : z <> C0 -> 0 < Cnorm2 z.
Proof.
  intros Hz. destruct (Rle_lt_or_eq_dec _ _ (Cnorm2_nonneg z)) as [H|H]; auto.
  exfalso; apply Hz, Cnorm2_eq0; auto.
Qed.

Lemma C1_neq_C0 : C1 <> C0.
Proof. unfold C1, C0; intros H; inversion H; lra. Qed.

Lemma Cinv_l (z : C) : z <> C0 -> (/ z * z)%C = C1.
Proof.
  intros Hz. pose proof (Cnorm2_pos Hz) as Hp.
  destruct z as [a b]; unfold Cmul, Cinv, C1, Cnorm2 in *; simpl in *.
  apply C_ext; simpl; field; lra.
Qed.

Lemma C_field_theory :
  field_theory C0 C1 Cadd Cmul Csub Copp Cdiv Cinv (@eq C).
Proof.
  constructor.
  - constructor; intros; apply C_ext;
      unfold Cadd, Cmul, Csub, Copp, C0, C1; simpl; ring.
  - exact C1_neq_C0.
  - reflexivity.
  - intros p Hp; apply Cinv_l; exact Hp.
Qed.

Add Field C_field : C_field_theory.

Lemma Ceq_dec (z w : C) : {z = w} + {z <> w}.
Proof.
  destruct z as [a b], w as [c d].
  destruct (Req_dec_T a c) as [->|Hac]; [|right; congruence].
  destruct (Req_dec_T b d) as [->|Hbd]; [left; reflexivity|right; congruence].
Qed.

Lemma Cmul_integral (z w : C) : (z * w)%C = C0 -> z = C0 \/ w = C0.
Proof.
  intros H. destruct (Ceq_dec z C0) as [Hz|Hz]; [left; exact Hz|right].
  assert (Hw : w = (/ z * (z * w))%C).
  { field. exact Hz. }
  rewrite Hw, H. ring.
Qed.

Lemma Cmul_neq0 (z w : C) : z <> C0 -> w <> C0 -> (z * w)%C <> C0.
Proof. intros Hz Hw H; destruct (Cmul_integral H); contradiction. Qed.

Lemma Cnorm2_mul (z w : C) : Cnorm2 (z * w) = Cnorm2 z * Cnorm2 w.
Proof. unfold Cnorm2, Cmul; simpl; ring. Qed.

Lemma Cnorm2_inv (z : C) : z <> C0 -> Cnorm2 (/ z) = / Cnorm2 z.
Proof.
  intros Hz. pose proof (Cnorm2_pos Hz) as Hp.
  unfold Cinv. unfold Cnorm2 at 1; simpl. fold (Cnorm2 z).
  unfold Cnorm2 in *. field. lra.
Qed.

Lemma Cnorm2_div (z w : C) : w <> C0 -> Cnorm2 (z / w) = Cnorm2 z / Cnorm2 w.
Proof.
  intros Hw. unfold Cdiv. rewrite Cnorm2_mul, Cnorm2_inv by exact Hw.
  reflexivity.
Qed.

Lemma Cabs_sqr (z : C) : Cabs z ^ 2 = Cnorm2 z.
Proof.
  unfold Cabs. simpl. rewrite Rmult_1_r.
  apply sqrt_sqrt, Cnorm2_nonneg.
Qed.

Lemma RtoC_inj (x y : R) : RtoC x = RtoC y -> x = y.
Proof. unfold RtoC; intros H; inversion H; reflexivity. Qed.

Lemma RtoC_neq0 (x : R) : x <> 0 -> RtoC x <> C0.
Proof. intros Hx H; apply Hx; apply RtoC_inj; exact H. Qed.

End Cplx.

Import Cplx.

(** ** 2x2 complex matrices ([numpy] arrays of shape (2, 2)) *)

Record M2 : Type := mkM2 { m00 : C; m01 : C; m10 : C; m11 : C }.

(** [a @ b]. *)
Definition matmul (a b : M2) : M2 :=
  mkM2 (m00 a * m00 b + m01 a * m10 b) (m00 a * m01 b + m01 a * m11 b)
       (m10 a * m00 b + m11 a * m10 b) (m10 a * m01 b + m11 a * m11 b).

(** [c * a] for a scalar [c]. *)
Definition scale (c : C) (a : M2) : M2 :=
  mkM2 (c * m00 a) (c * m01 a) (c * m10 a) (c * m11 a).

(** What a matrix-valued method hands back.  [Finite m]: the exact matrix
    [m].  [AllInf]: the array [[inf, inf], [inf, inf]].  [AllNaN]: the
    array whose four entries are [nan].  [Ieee]: some array computed by
    IEEE arithmetic from [inf]/[nan] entries or through a division by
    zero; its entries are not tracked. *)
Inductive xmatrix : Type :=
| Finite (m : M2)
| AllInf
| AllNaN
| Ieee.

(** [a @ b] on such values: exact on exact operands. *)
Definition xmatmul (a b : xmatrix) : xmatrix :=
  match a, b with
  | Finite x, Finite y => Finite (matmul x y)
  | _, _ => Ieee
  end.

(** A scalar or tuple computed from such matrices: [Exact v] when no
    [inf]/[nan] and no division by zero was involved, [Special]
    otherwise (the IEEE value is not tracked). *)
Inductive ieee (A : Type) : Type :=
| Exact (a : A)
| Special.
Arguments Special {A}.

(** ** Exceptions and the state-and-error monad *)

Inductive assertion : Type :=
| ThicknessNonneg          (* 'Thickness must >= 0.' *)
| ThicknessWhole           (* 'Thickness must be a whole number (integer).' *)
| IncomingTransparent      (* 'Incomming medium must be transparent (n is real).' *)
| WavelengthPositive       (* 'Wavelength must > 0.' *)
| StructureFirst           (* 'Define the structure first before using this function.' *)
| NotIncident              (* 'The light is not incident on the structure. ...' *)
| LayerIndexRange          (* 'j must be between 0 and num_layers-1.' *)
| WavevectorUndefined      (* 'Wavevector not defined. Please set the vacuum wavelength.' *)
| LayerNoThickness         (* 'Layer {} does not have a thickness.' *)
| LMatrixUnstable          (* 'l_matrix is unstable.' *)
| DetZero                  (* 'Det=0 will give inf for field coefficient.' *)
| NoGuiding                (* 'This structure does not support wave guiding.' *)
| ModeCountMismatch        (* 'Number of guided modes must be equal when calculating the group velocity.' *)
| RootSearchBounds         (* 'a must be less than b' *)
| GuidedFlagUnset.         (* '"self.guided" must be set to true before running this function.' *)

(** [OutOfFuel] is not a Python exception: the [while] loops of
    [root_search] and [roots] are given a number of iterations, and
    [OutOfFuel] marks a run that needed more. *)
Inductive exn : Type :=
| AssertionError (a : assertion)
| ValueError
| IndexError
| ZeroDivisionError
| RuntimeError
| OutOfFuel.

Inductive result (A : Type) : Type :=
| Ok (a : A)
| Raise (e : exn).
Arguments Raise {A}.

Definition rbind {A B} (r : result A) (k : A -> result B) : result B :=
  match r with
  | Ok a => k a
  | Raise e => Raise e
  end.

(** [assert cond, err] *)
Definition assert (cond : bool) (a : assertion) : result unit :=
  if cond then Ok tt else Raise (AssertionError a).

Declare Scope result_scope.
Delimit Scope result_scope with result.
Notation "x <- r ;; k" := (rbind r (fun x => k))
  (at level 61, r at next level, right associativity) : result_scope.
Notation "r ;;; k" := (rbind r (fun _ => k))
  (at level 61, right associativity) : result_scope.

(** Methods that assign to [self]: the state is threaded, and the state
    reached when an exception leaves the method is kept. *)
Definition M (S A : Type) : Type := S -> result A * S.

Definition ret {S A} (a : A) : M S A := fun s => (Ok a, s).
Definition throw {S A} (e : exn) : M S A := fun s => (Raise e, s).
Definition bind {S A B} (m : M S A) (k : A -> M S B) : M S B :=
  fun s => match m s with
           | (Ok a, s') => k a s'
           | (Raise e, s') => (Raise e, s')
           end.
(** A method that only reads [self]. *)
Definition lift {S A} (f : S -> result A) : M S A := fun s => (f s, s).
(** A method that assigns to [self] after its assertions passed. *)
Definition update {S} (f : S -> result S) : M S unit :=
  fun s => match f s with
           | Ok s' => (Ok tt, s')
           | Raise e => (Raise e, s)
           end.

Declare Scope monad_scope.
Delimit Scope monad_scope with monad.
Notation "x <- m ;; k" := (bind m (fun x => k))
  (at level 61, m at next level, right associativity) : monad_scope.
Notation "m ;;; k" := (bind m (fun _ => k))
  (at level 61, right associativity) : monad_scope.

(** ** Comparisons and conversions of Python numbers *)

Definition Rltb (x y : R) : bool := if Rlt_dec x y then true else false.
Definition Rleb (x y : R) : bool := if Rle_dec x y then true else false.
Definition Reqb (x y : R) : bool := if Req_dec_T x y then true else false.
Definition Ceqb (z w : C) : bool := if Ceq_dec z w then true else false.

(** numpy orders complex numbers lexicographically, real part first. *)
Definition Cltb (z w : C) : bool :=
  Rltb (Re z) (Re w) || (Reqb (Re z) (Re w) && Rltb (Im z) (Im w)).

(** The builtin [max(a, b)]: [b] when [b > a], else [a]. *)
Definition pymax (a b : R) : R := if Rltb a b then b else a.
Definition pymin (a b : R) : R := if Rltb b a then b else a.
Definition Cpymax (a b : C) : C := if Cltb a b then b else a.

(** [max(l)] and [min(l)] on a non-empty sequence of floats. *)
Definition list_max (x : R) (l : list R) : R := fold_left pymax l x.
Definition list_min (x : R) (l : list R) : R := fold_left pymin l x.

(** [int(x)]: truncation towards zero. *)
Definition int_trunc (x : R) : Z :=
  if Rle_dec 0 x then Int_part x else (- Int_part (- x))%Z.

(** Round half to even, the rounding of the builtin [round]. *)
Definition rint (y : R) : Z :=
  let f := Int_part y in
  if Rlt_dec (y - IZR f) (1 / 2) then f
  else if Rlt_dec (1 / 2) (y - IZR f) then (f + 1)%Z
  else if Z.even f then f else (f + 1)%Z.

(** [round(x, ndigits)] on a float. *)
Definition py_round (x : R) (ndigits : Z) : R :=
  IZR (rint (x * powerRZ 10 ndigits)) / powerRZ 10 ndigits.

(** [numpy.cumsum] *)
Fixpoint cumsum_from (acc : R) (l : list R) : list R :=
  match l with
  | [] => []
  | x :: l' => (acc + x) :: cumsum_from (acc + x) l'
  end.
Definition cumsum (l : list R) : list R := cumsum_from 0 l.

(** [l[-1]] *)
Definition last_error {A} (l : list A) : option A :=
  match l with
  | [] => None
  | x :: l' => Some (last l' x)
  end.

(** [l[1:-1]] *)
Definition interior {A} (l : list A) : list A := removelast (tl l).

Definition index {A} (l : list A) (j : nat) : result A :=
  match nth_error l j with
  | Some x => Ok x
  | None => Raise IndexError
  end.

Definition index_last {A} (l : list A) : result A :=
  match last_error l with
  | Some x => Ok x
  | None => Raise IndexError
  end.

(** ** [lifetmm/HelperFunctions.py] *)

Module HelperFunctions.

(** [det(matrix)]: 2x2 determinant. *)
Definition det (m : M2) : C := (m00 m * m11 m - m10 m * m01 m)%C.

(** [scipy.arcsin] on a real argument: real inside [-1, 1], and outside
    it the complex principal value reached with a [+0] imaginary part. *)
Definition sp_arcsin (x : R) : C :=
  if Rle_dec (Rabs x) 1 then (asin x, 0)
  else if Rlt_dec 1 x then (PI / 2, ln (x + sqrt (x * x - 1)))
  else (- (PI / 2), ln (- x + sqrt (x * x - 1))).

(** [snell(n_1, n_2, th_1)]; [numpy.real_if_close] leaves a real argument
    as it is. *)
Definition snell (n_1 n_2 th_1 : R) : C := sp_arcsin (n_1 * sin th_1 / n_2).

(** [scipy.constants.c], as [lambda2nu] and [nu2lambda] read it. *)
Definition speed_of_light : R := 299792458.

(** [scipy.constants.lambda2nu(lambda_)]: [c / lambda_] on numpy floats,
    where a division by zero gives [inf] or [nan] and no exception. *)
Definition lambda2nu (lambda_ : R) : ieee R :=
  if Reqb lambda_ 0 then Special else Exact (speed_of_light / lambda_).

(** [scipy.constants.nu2lambda(nu)]: [c / nu]. *)
Definition nu2lambda (nu : R) : ieee R :=
  if Reqb nu 0 then Special else Exact (speed_of_light / nu).

(** [lambda2omega(lambda_)] *)
Definition lambda2omega (lambda_ : R) : ieee R :=
  match lambda2nu lambda_ with
  | Exact nu => Exact (2 * PI * nu)
  | Special => Special
  end.

(** [omega2lambda(omega)] *)
Definition omega2lambda (omega : R) : ieee R :=
  let nu := omega / (2 * PI) in nu2lambda nu.

(** [sinc(x)] on a float. *)
Definition sinc (x : R) : R := if Reqb x 0 then 1 else sin x / x.

Section Roots.

(** The object whose method [f] is; [f] may assign to it. *)
Variable S : Type.

(** The outcome of the test [f1 * f2 > 0.0] at the probes [x1], [x2] when
    one of the two values is not finite (IEEE arithmetic on [inf]/[nan]
    is not modelled). *)
Variable ieee_gt0 : R -> R -> bool.

(** [scipy.optimize.brentq(f, x1, x2)] is external.  It touches the
    object only by calling [f]; where it probes next, what it returns and
    whether it raises [ValueError] are its own business, given here by
    [brentq_next] as a function of the bracket and of the values seen so
    far.  It gives up with [RuntimeError] after [maxiter=100] iterations,
    the two end points being probed before. *)
Inductive solver_action : Type :=
| Probe (x : R)
| Return (root : R)
| Fail.

Variable brentq_next : R -> R -> list (R * ieee R) -> solver_action.

Fixpoint brentq_loop (iter : nat) (f : R -> M S (ieee R)) (x1 x2 : R)
    (seen : list (R * ieee R)) : M S R :=
  match iter with
  | O => throw RuntimeError
  | Datatypes.S iter' =>
      match brentq_next x1 x2 seen with
      | Probe x =>
          (v <- f x ;; brentq_loop iter' f x1 x2 (seen ++ [(x, v)]))%monad
      | Return root => ret root
      | Fail => throw ValueError
      end
  end.

Definition brentq (f : R -> M S (ieee R)) (x1 x2 : R) : M S R :=
  brentq_loop 102 f x1 x2 [].

Definition prod_gt0 (x1 x2 : R) (f1 f2 : ieee R) : bool :=
  match f1, f2 with
  | Exact v1, Exact v2 => Rltb 0 (v1 * v2)
  | _, _ => ieee_gt0 x1 x2
  end.

(** The [while f1 * f2 > 0.0] loop of [root_search]. *)
Fixpoint root_search_loop (fuel : nat) (f : R -> M S (ieee R)) (b dx : R)
    (x1 : R) (f1 : ieee R) (x2 : R) (f2 : ieee R) : M S (option (R * R)) :=
  match fuel with
  | O => throw OutOfFuel
  | Datatypes.S fuel' =>
      if prod_gt0 x1 x2 f1 f2 then
        if Rleb b x1 then ret None
        else
          (f2' <- f (x2 + dx) ;;
           root_search_loop fuel' f b dx x2 f2 (x2 + dx) f2')%monad
      else ret (Some (x1, x2))
  end.

(** [root_search(f, a, b, dx)]; [None] stands for [(None, None)]. *)
Definition root_search (fuel : nat) (f : R -> M S (ieee R)) (a b dx : R)
  : M S (option (R * R)) :=
  (lift (fun _ => assert (Rleb a b) RootSearchBounds) ;;;
   f1 <- f a ;;
   f2 <- f (a + dx) ;;
   root_search_loop fuel f b dx a f1 (a + dx) f2)%monad.

(** [-int(math.log(eps, 10))]; [math.log] raises [ValueError] on a
    non-positive argument. *)
Definition round_digits (eps : R) : result Z :=
  if Rlt_dec 0 eps then Ok (- int_trunc (ln eps / ln 10))%Z
  else Raise ValueError.

(** The [while 1] loop of [roots]. *)
Fixpoint roots_loop (fuel scan : nat) (f : R -> M S (ieee R)) (a b eps : R)
    (results : list R) : M S (list R) :=
  match fuel with
  | O => throw OutOfFuel
  | Datatypes.S fuel' =>
      (br <- root_search scan f a b eps ;;
       match br with
       | Some (x1, x2) =>
           root <- brentq f x1 x2 ;;
           if Reqb root 0 then roots_loop fuel' scan f x2 b eps results
           else
             nd <- lift (fun _ => round_digits eps) ;;
             roots_loop fuel' scan f x2 b eps (results ++ [py_round root nd])
       | None => ret results
       end)%monad
  end.

(** [roots(f, a, b, eps, verbose)]; logging is not modelled. *)
Definition roots (fuel : nat) (f : R -> M S (ieee R)) (a b eps : R)
  : M S (list R) :=
  roots_loop fuel fuel f a b eps [].

End Roots.

End HelperFunctions.

(** ** Values shared by the two implementations *)

Inductive polarization : Type := pol_s | pol_p | pol_TE | pol_TM.
Inductive field_kind : Type := field_E | field_H.
Inductive angle_units : Type := radians | degrees | other_units.

(** [pol in ['p', 'TM']]; the other two are [pol in ['s', 'TE']]. *)
Definition is_p (p : polarization) : bool :=
  match p with
  | pol_p | pol_TM => true
  | pol_s | pol_TE => false
  end.

(** [x / y] where a zero divisor gives an IEEE [inf] or [nan]. *)
Definition ediv (x y : C) : ieee C :=
  if Ceqb y C0 then Special else Exact (x / y)%C.

Definition imap {A B} (f : A -> B) (x : ieee A) : ieee B :=
  match x with
  | Exact a => Exact (f a)
  | Special => Special
  end.

Definition ibind {A B} (x : ieee A) (k : A -> ieee B) : ieee B :=
  match x with
  | Exact a => k a
  | Special => Special
  end.

(** The entries [s[0, 0]], ... of a matrix that may be non-finite. *)
Definition entry (f : M2 -> C) (s : xmatrix) : ieee C :=
  match s with
  | Finite m => Exact (f m)
  | _ => Special
  end.

Definition ipair {A B} (x : ieee A) (y : ieee B) : ieee (A * B) :=
  ibind x (fun a => imap (fun b => (a, b)) y).

Definition idiv (x y : ieee C) : ieee C :=
  ibind x (fun a => ibind y (fun b => ediv a b)).

(** Largest finite [float64], [numpy.finfo(complex).max]. *)
Definition float_max : R := (2 - / 2 ^ 52) * 2 ^ 1023.

(** [scipy.constants.c] *)
Definition c_light : R := 299792458.

(** The Fresnel coefficients [(r, t)] of the E field at the interface
    between media [nj] and [nk] with normalised perpendicular wave
    vectors [qj], [qk]. *)
Definition fresnel (p : polarization) (nj nk qj qk : C) : ieee C * ieee C :=
  if is_p p then
    (ediv (nk * nk * qj - nj * nj * qk) (nk * nk * qj + nj * nj * qk),
     ediv (RtoC 2 * nj * nk * qj) (qj * (nk * nk) + qk * (nj * nj)))%C
  else
    (ediv (qj - qk) (qj + qk), ediv (RtoC 2 * qj) (qj + qk))%C.

(** [t *= nk / nj] for the H field. *)
Definition to_field (f : field_kind) (nj nk : C) (t : ieee C) : ieee C :=
  match f with
  | field_E => t
  | field_H => ibind t (fun t' => imap (Cmul t') (ediv nk nj))
  end.

(** [(1 / t) * np.array([[1, r], [r, 1]])] *)
Definition interface_matrix (r t : C) : M2 :=
  scale (C1 / t)%C (mkM2 C1 r r C1).

(** [(r, t)] once [t] is converted to the requested field. *)
Definition coefficients (p : polarization) (f : field_kind)
    (nj nk qj qk : C) : ieee C * ieee C :=
  let (r, t) := fresnel p nj nk qj qk in (r, to_field f nj nk t).

(** The [if t == 0] at the end of the interface-matrix method;
    [degenerate] is what the method returns in that case. *)
Definition assemble (degenerate : xmatrix) (rt : ieee C * ieee C) : xmatrix :=
  match snd rt with
  | Exact t =>
      if Ceqb t C0 then degenerate
      else match fst rt with
           | Exact r => Finite (interface_matrix r t)
           | Special => Ieee
           end
  | Special => Ieee
  end.

(** [np.array([[exp(-1j*qj*dj), 0], [0, exp(1j*qj*dj)]])] *)
Definition propagation_matrix (qj : C) (dj : R) : M2 :=
  mkM2 (Cexp (- Ci * qj * RtoC dj)%C) C0 C0 (Cexp (Ci * qj * RtoC dj)%C).

(** ** [lifetmm/TransferMatrix.py] *)

Module Lifetmm.

Record TransferMatrix : Type := mkTM {
  d_list : list R;
  n_list : list C;
  d_cumulative : list R;
  num_layers : nat;
  (** [None] is the initial [nan]. *)
  lam_vac : option R;
  k_vac : option R;
  omega : option R;
  field : field_kind;
  pol : polarization;
  th : R;
  n_11 : C
}.

(** [__init__] *)
Definition init : TransferMatrix :=
  mkTM [] [] [] 0 None None None field_E pol_TE 0 C0.

Definition with_n_11 (tm : TransferMatrix) (x : C) : TransferMatrix :=
  mkTM (d_list tm) (n_list tm) (d_cumulative tm) (num_layers tm) (lam_vac tm)
       (k_vac tm) (omega tm) (field tm) (pol tm) (th tm) x.

Definition with_th (tm : TransferMatrix) (x : R) : TransferMatrix :=
  mkTM (d_list tm) (n_list tm) (d_cumulative tm) (num_layers tm) (lam_vac tm)
       (k_vac tm) (omega tm) (field tm) (pol tm) x (n_11 tm).

Definition add_layer (d : R) (n : C) (tm : TransferMatrix)
  : result TransferMatrix :=
  (assert (Rleb 0 d) ThicknessNonneg ;;;
   (if Nat.eqb (num_layers tm) 0
    then assert (Reqb (Im n) 0) IncomingTransparent else Ok tt) ;;;
   let d_list' := d_list tm ++ [d] in
   Ok (mkTM d_list' (n_list tm ++ [n]) (cumsum d_list') (length d_list')
            (lam_vac tm) (k_vac tm) (omega tm) (field tm) (pol tm) (th tm)
            (n_11 tm)))%result.

Definition set_vacuum_wavelength (lam : R) (tm : TransferMatrix)
  : result TransferMatrix :=
  (assert (Rltb 0 lam) WavelengthPositive ;;;
   assert (Nat.ltb 0 (num_layers tm)) StructureFirst ;;;
   let k := 2 * PI / lam in
   Ok (mkTM (d_list tm) (n_list tm) (d_cumulative tm) (num_layers tm)
            (Some lam) (Some k) (Some (c_light * k)) (field tm) (pol tm)
            (th tm) (n_11 tm)))%result.

Definition set_polarization (p : polarization) (tm : TransferMatrix)
  : TransferMatrix :=
  mkTM (d_list tm) (n_list tm) (d_cumulative tm) (num_layers tm) (lam_vac tm)
       (k_vac tm) (omega tm) (field tm) p (th tm) (n_11 tm).

Definition set_field (f : field_kind) (tm : TransferMatrix) : TransferMatrix :=
  mkTM (d_list tm) (n_list tm) (d_cumulative tm) (num_layers tm) (lam_vac tm)
       (k_vac tm) (omega tm) f (pol tm) (th tm) (n_11 tm).

(** [set_incident_angle(th, units)] for a scalar [th]: [self.th] is
    assigned before [self.n_list[0]] is read. *)
Definition set_incident_angle (a : R) (units : angle_units)
  : M TransferMatrix unit :=
  (update (fun tm =>
     match units with
     | radians =>
         (assert (Rleb 0 a && Rltb a (PI / 2)) NotIncident ;;;
          Ok (with_th tm a))%result
     | degrees =>
         (assert (Rleb 0 a && Rltb a 90) NotIncident ;;;
          Ok (with_th tm (a * (PI / 180))))%result
     | other_units => Raise ValueError
     end) ;;;
   update (fun tm =>
     (n0 <- index (n_list tm) 0 ;;
      Ok (with_n_11 tm (n0 * RtoC (sin (th tm)))%C))%result))%monad.

Definition set_mode_n_11 (x : C) (tm : TransferMatrix) : TransferMatrix :=
  with_n_11 tm x.

Definition calc_xi (tm : TransferMatrix) (j : nat) : result C :=
  (nj <- index (n_list tm) j ;;
   Ok (Csqrt (nj * nj - n_11 tm * n_11 tm)%C))%result.

Definition get_k_vac (tm : TransferMatrix) : result R :=
  match k_vac tm with
  | Some k => Ok k
  | None => Raise (AssertionError WavevectorUndefined)
  end.

Definition calc_k (tm : TransferMatrix) (j : nat) : result R :=
  (assert (Nat.leb j (num_layers tm - 1) && Nat.ltb 0 (num_layers tm))
          LayerIndexRange ;;;
   k <- get_k_vac tm ;;
   nj <- index (n_list tm) j ;;
   Ok (Re nj * k))%result.

Definition calc_q (tm : TransferMatrix) (j : nat) : result C :=
  (k <- get_k_vac tm ;;
   xi <- calc_xi tm j ;;
   Ok (xi * RtoC k)%C)%result.

Definition calc_k_11 (tm : TransferMatrix) : result C :=
  (k <- get_k_vac tm ;; Ok (n_11 tm * RtoC k)%C)%result.

Definition i_matrix (tm : TransferMatrix) (j k : nat) : result xmatrix :=
  (nj <- index (n_list tm) j ;;
   nk <- index (n_list tm) k ;;
   qj <- calc_xi tm j ;;
   qk <- calc_xi tm k ;;
   Ok (assemble AllInf (coefficients (pol tm) (field tm) nj nk qj qk)))%result.

Definition l_matrix (tm : TransferMatrix) (j : nat) : result M2 :=
  (qj <- calc_q tm j ;;
   dj <- index (d_list tm) j ;;
   assert (Rltb 0 dj) LayerNoThickness ;;;
   assert (Cltb (Cexp (- Ci * qj * RtoC dj)%C) (RtoC float_max))
          LMatrixUnstable ;;;
   Ok (propagation_matrix qj dj))%result.

(** The body [s = s @ l @ i] of the three composition loops, over the
    layer indices [js]. *)
Fixpoint chain (tm : TransferMatrix) (s : xmatrix) (js : list nat)
  : result xmatrix :=
  match js with
  | [] => Ok s
  | j :: js' =>
      (l <- l_matrix tm j ;;
       i <- i_matrix tm j (j + 1) ;;
       chain tm (xmatmul (xmatmul s (Finite l)) i) js')%result
  end.

(** [range(1, self.num_layers - 1)] is [seq 1 (num_layers - 2)]. *)
Definition s_matrix (tm : TransferMatrix) : result xmatrix :=
  (s <- i_matrix tm 0 1 ;;
   chain tm s (seq 1 (num_layers tm - 2)))%result.

Definition s_primed_matrix (tm : TransferMatrix) (layer : nat)
  : result xmatrix :=
  (s <- i_matrix tm 0 1 ;;
   chain tm s (seq 1 (layer - 1)))%result.

Definition s_dprimed_matrix (tm : TransferMatrix) (layer : nat)
  : result xmatrix :=
  (s <- i_matrix tm layer (layer + 1) ;;
   chain tm s (seq (layer + 1) (num_layers tm - 1 - (layer + 1))))%result.

(** [self.n_11 < max(n[0], n[-1])] with [n = self.n_list.real]. *)
Definition is_radiative (tm : TransferMatrix) : result bool :=
  (n0 <- index (n_list tm) 0 ;;
   nl <- index_last (n_list tm) ;;
   Ok (Cltb (n_11 tm) (RtoC (pymax (Re n0) (Re nl)))))%result.

(** The internal-layer branch of the radiative case. *)
Definition radiative_internal (s_prime s_dprime : xmatrix) (q : C) (d : R)
  : ieee (C * C) :=
  let t_prime := idiv (Exact C1) (entry m00 s_prime) in
  let r_prime_minus :=
    idiv (imap Copp (entry m01 s_prime)) (entry m00 s_prime) in
  let r_dprime := idiv (entry m10 s_dprime) (entry m00 s_dprime) in
  let ph := Cexp (Ci * RtoC 2 * q * RtoC d)%C in
  let field_plus :=
    idiv t_prime
         (ibind r_prime_minus (fun a =>
            imap (fun b => (C1 - a * b * ph)%C) r_dprime)) in
  let field_minus :=
    ibind field_plus (fun fp => imap (fun b => (fp * b * ph)%C) r_dprime) in
  ipair field_plus field_minus.

(** [np.isclose(z, 0)] with the default tolerances: [abs(z) <= 1e-8]. *)
Definition isclose0 (z : C) : bool := Rleb (Cabs z) (/ 10 ^ 8).

Definition layer_field_amplitudes (tm : TransferMatrix) (layer : nat)
  : result (ieee (C * C)) :=
  (rad <- is_radiative tm ;;
   if rad : bool then
     s <- s_matrix tm ;;
     let r := idiv (entry m10 s) (entry m00 s) in
     if Nat.eqb layer 0 then Ok (ipair (Exact C1) r)
     else if Nat.eqb layer (num_layers tm - 1) then
       Ok (ipair (idiv (Exact C1) (entry m00 s)) (Exact C0))
     else
       q <- calc_q tm layer ;;
       d <- index (d_list tm) layer ;;
       s_prime <- s_primed_matrix tm layer ;;
       s_dprime <- s_dprimed_matrix tm layer ;;
       Ok (radiative_internal s_prime s_dprime q d)
   else
     if Nat.eqb layer 0 then Ok (Exact (C0, C1))
     else if Nat.eqb layer (num_layers tm - 1) then
       s <- s_matrix tm ;;
       Ok (ipair (idiv (Exact C1) (entry m10 s)) (Exact C0))
     else
       s_prime <- s_primed_matrix tm layer ;;
       match s_prime with
       | Finite m =>
           assert (negb (isclose0 (HelperFunctions.det m))) DetZero ;;;
           Ok (ipair (ediv (- m01 m)%C (HelperFunctions.det m))
                     (ediv (m00 m) (HelperFunctions.det m)))
       | _ => Ok Special
       end)%result.

(** [calc_s11(n_11)]: assigns [self.n_11] first. *)
Definition calc_s11 (x : R) : M TransferMatrix (ieee R) :=
  (update (fun tm => Ok (with_n_11 tm (RtoC x))) ;;;
   s <- lift s_matrix ;;
   ret (imap Re (entry m00 s)))%monad.

(** [np.any(n[1:-1] > max(n[0], n[-1]))] on the complex [n_list]. *)
Definition supports_guiding (tm : TransferMatrix) : result bool :=
  (n0 <- index (n_list tm) 0 ;;
   nl <- index_last (n_list tm) ;;
   Ok (existsb (fun n => Cltb (Cpymax n0 nl) n) (interior (n_list tm))))%result.

(** [max(n)] and [min(n)] of the builtins on [n = self.n_list.real];
    they raise [ValueError] on an empty sequence. *)
Definition max_real (l : list C) : result R :=
  match map Re l with
  | [] => Raise ValueError
  | x :: l' => Ok (list_max x l')
  end.

Definition min_real (l : list C) : result R :=
  match map Re l with
  | [] => Raise ValueError
  | x :: l' => Ok (list_min x l')
  end.

(** [n_11 * self.k_vac]; a [nan] wave vector gives [nan]s. *)
Definition scale_by (k : option R) (l : list R) : list (ieee R) :=
  match k with
  | Some k' => map (fun x => Exact (x * k')) l
  | None => map (fun _ => Special) l
  end.

Section GuidedModes.

Variable ieee_gt0 : R -> R -> bool.
Variable brentq_next :
  R -> R -> list (R * ieee R) -> HelperFunctions.solver_action.

(** [roots] is called with its default [eps=1e-5]. *)
Definition default_eps : R := / 10 ^ 5.

(** The kept roots: [np.delete(n_11, np.where(n_11 - min(n) < 0.01))]. *)
Definition delete_near (lo : R) (l : list R) : list R :=
  filter (fun x => negb (Rltb (x - lo) (/ 100))) l.

Definition calc_guided_modes (fuel : nat) (normalised : bool)
  : M TransferMatrix (list (ieee R)) :=
  (g <- lift supports_guiding ;;
   lift (fun _ => assert g NoGuiding) ;;;
   n0 <- lift (fun tm => index (n_list tm) 0) ;;
   nl <- lift (fun tm => index_last (n_list tm)) ;;
   hi <- lift (fun tm => max_real (n_list tm)) ;;
   found <- HelperFunctions.roots ieee_gt0 brentq_next fuel calc_s11
              (1 * pymax (Re n0) (Re nl)) hi default_eps ;;
   let flipped := rev found in
   lo <- lift (fun tm => min_real (n_list tm)) ;;
   let kept := delete_near lo flipped in
   if normalised : bool then ret (map (@Exact R) kept)
   else fun tm => (Ok (scale_by (k_vac tm) kept), tm))%monad.

(** [int(x + lam_vac)]; [int(nan)] raises [ValueError]. *)
Definition shifted_wavelength (x : R) (lam : option R) : result R :=
  match lam with
  | Some l => Ok (IZR (int_trunc (x + l)))
  | None => Raise ValueError
  end.

(** [self.set_vacuum_wavelength(lam_vac)] with the saved attribute, which
    may still be the initial [nan]: [nan > 0] is false. *)
Definition reset_wavelength (lam : option R) : M TransferMatrix unit :=
  match lam with
  | Some l => update (set_vacuum_wavelength l)
  | None => throw (AssertionError WavelengthPositive)
  end.

(** [d_omega / d_beta] elementwise; a zero or [nan] difference gives a
    non-finite entry. *)
Definition group_velocities (omega1 omega2 : option R)
    (beta_lower beta_upper : list (ieee R)) : list (ieee R) :=
  map (fun lu : ieee R * ieee R =>
         match omega1, omega2, fst lu, snd lu with
         | Some o1, Some o2, Exact l, Exact u =>
             if Reqb (u - l) 0 then Special else Exact ((o2 - o1) / (u - l))
         | _, _, _, _ => Special
         end)
      (combine beta_lower beta_upper).

Definition calc_group_velocity (fuel : nat)
  : M TransferMatrix (list (ieee R)) :=
  (lam <- lift (fun tm => Ok (lam_vac tm)) ;;
   lam1 <- lift (fun _ => shifted_wavelength 1 lam) ;;
   update (set_vacuum_wavelength lam1) ;;;
   omega1 <- lift (fun tm => Ok (omega tm)) ;;
   beta_lower <- calc_guided_modes fuel false ;;
   lam2 <- lift (fun _ => shifted_wavelength (-1) lam) ;;
   update (set_vacuum_wavelength lam2) ;;;
   omega2 <- lift (fun tm => Ok (omega tm)) ;;
   beta_upper <- calc_guided_modes fuel false ;;
   lift (fun _ => assert (Nat.eqb (length beta_lower) (length beta_upper))
                         ModeCountMismatch) ;;;
   let vg := group_velocities omega1 omega2 beta_lower beta_upper in
   reset_wavelength lam ;;;
   ret vg)%monad.

End GuidedModes.

Definition calc_r_and_t (tm : TransferMatrix) : result (ieee (C * C)) :=
  (s <- s_matrix tm ;;
   Ok (ipair (idiv (entry m10 s) (entry m00 s))
             (idiv (Exact C1) (entry m00 s))))%result.

(** [rho * m] of the beam-expansion correction:
    [n_2 / n_1 * (cos(th_out) / cos(th))]. *)
Definition beam_correction (n_1 n_2 a : R) : ieee C :=
  if Reqb n_2 0 then Special
  else if Reqb n_1 0 then Special
  else if Reqb (cos a) 0 then Special
  else Exact (RtoC (n_2 / n_1)
              * (Ccos (HelperFunctions.snell n_1 n_2 a) / RtoC (cos a)))%C.

(** The reflectance is a float; the transmittance is a float or, when
    [snell] returns a complex angle, a complex number. *)
Definition calc_reflectance_and_transmittance (tm : TransferMatrix)
    (correction : bool) : result (ieee (R * C)) :=
  (rt <- calc_r_and_t tm ;;
   match rt with
   | Exact (r, t) =>
       let reflectance := Cabs r ^ 2 in
       let transmittance := RtoC (Cabs t ^ 2) in
       if correction then
         n_1 <- index (n_list tm) 0 ;;
         n_2 <- index_last (n_list tm) ;;
         Ok (imap (fun rm => (reflectance, (transmittance * rm)%C))
                  (beam_correction (Re n_1) (Re n_2) (th tm)))
       else Ok (Exact (reflectance, transmittance))
   | Special =>
       if correction then
         n_1 <- index (n_list tm) 0 ;;
         n_2 <- index_last (n_list tm) ;;
         Ok Special
       else Ok Special
   end)%result.

(** [flip]: [num_layers] is not reassigned. *)
Definition flip (tm : TransferMatrix) : TransferMatrix :=
  let d_list' := rev (d_list tm) in
  mkTM d_list' (rev (n_list tm)) (cumsum d_list') (num_layers tm) (lam_vac tm)
       (k_vac tm) (omega tm) (field tm) (pol tm) (th tm) (n_11 tm).

(** [calc_wave_vector_components(j)] *)
Definition calc_wave_vector_components (tm : TransferMatrix) (j : nat)
  : result (R * C * C) :=
  (k <- calc_k tm j ;;
   k_11 <- calc_k_11 tm ;;
   q <- calc_q tm j ;;
   Ok (k, q, k_11))%result.

(** [get_layer_boundaries()] *)
Definition get_layer_boundaries (tm : TransferMatrix) : list R :=
  d_cumulative tm.

(** [get_structure_thickness()]: [self.d_cumulative[-1]]. *)
Definition get_structure_thickness (tm : TransferMatrix) : result R :=
  index_last (d_cumulative tm).

End Lifetmm.

(** ** [lifetmm/Methods/TransferMatrix.py] *)

Module Methods.

Record TransferMatrix : Type := mkTM {
  d_list : list R;
  n_list : list C;
  d_cumulative : list R;
  num_layers : nat;
  lam_vac : R;
  (** [None] is a string outside ['s', 'p', 'TE', 'TM'], as the initial
      empty one. *)
  pol : option polarization;
  field : field_kind;
  th : R;
  z_step : Z;
  guided : bool;
  n_11 : C
}.

Definition init : TransferMatrix :=
  mkTM [] [] [] 0 0 None field_E 0 1 false C0.

Definition with_n_11 (tm : TransferMatrix) (x : C) : TransferMatrix :=
  mkTM (d_list tm) (n_list tm) (d_cumulative tm) (num_layers tm) (lam_vac tm)
       (pol tm) (field tm) (th tm) (z_step tm) (guided tm) x.

(** [d.is_integer()] *)
Definition is_integer (d : R) : bool := Reqb (IZR (Int_part d)) d.

Definition add_layer (d : R) (n : C) (tm : TransferMatrix)
  : result TransferMatrix :=
  (assert (is_integer d || Reqb d 0) ThicknessWhole ;;;
   let d_list' := d_list tm ++ [d] in
   Ok (mkTM d_list' (n_list tm ++ [n]) (cumsum d_list') (length d_list')
            (lam_vac tm) (pol tm) (field tm) (th tm) (z_step tm) (guided tm)
            (n_11 tm)))%result.

Definition flip (tm : TransferMatrix) : TransferMatrix :=
  let d_list' := rev (d_list tm) in
  mkTM d_list' (rev (n_list tm)) (cumsum d_list') (num_layers tm) (lam_vac tm)
       (pol tm) (field tm) (th tm) (z_step tm) (guided tm) (n_11 tm).

(** [calc_k(-1)]: the vacuum wave vector, in Python float arithmetic. *)
Definition calc_k_vacuum (tm : TransferMatrix) : result R :=
  if Reqb (lam_vac tm) 0 then Raise ZeroDivisionError
  else Ok (2 * PI * 1 / lam_vac tm).

Definition calc_n_11 (tm : TransferMatrix) : result C :=
  if guided tm then Ok (n_11 tm)
  else (n0 <- index (n_list tm) 0 ;; Ok (RtoC (Re n0 * sin (th tm))))%result.

Definition calc_xi (tm : TransferMatrix) (j : nat) : result C :=
  (nj <- index (n_list tm) j ;;
   x <- calc_n_11 tm ;;
   Ok (Csqrt (nj * nj - x * x)%C))%result.

Definition calc_q (tm : TransferMatrix) (j : nat) : result C :=
  (xi <- calc_xi tm j ;;
   k0 <- calc_k_vacuum tm ;;
   Ok (xi * RtoC k0)%C)%result.

(** When [t == 0], [t = np.nan] and the product is the all-[nan] array. *)
Definition calc_i_matrix (tm : TransferMatrix) (j k : nat) : result xmatrix :=
  (xi_j <- calc_xi tm j ;;
   xi_k <- calc_xi tm k ;;
   n_j <- index (n_list tm) j ;;
   n_k <- index (n_list tm) k ;;
   match pol tm with
   | None => Raise ValueError
   | Some p =>
       Ok (assemble AllNaN (coefficients p (field tm) n_j n_k xi_j xi_k))
   end)%result.

(** The assertion [-1j * qj * dj < 25] compares a complex number with an
    integer. *)
Definition calc_l_matrix (tm : TransferMatrix) (j : nat) : result M2 :=
  (qj <- calc_q tm j ;;
   dj <- index (d_list tm) j ;;
   assert (Cltb (- Ci * qj * RtoC dj)%C (RtoC 25)) LMatrixUnstable ;;;
   Ok (propagation_matrix qj dj))%result.

Fixpoint chain (tm : TransferMatrix) (s : xmatrix) (js : list nat)
  : result xmatrix :=
  match js with
  | [] => Ok s
  | j :: js' =>
      (l <- calc_l_matrix tm j ;;
       i <- calc_i_matrix tm j (j + 1) ;;
       chain tm (xmatmul (xmatmul s (Finite l)) i) js')%result
  end.

Definition calc_s_matrix (tm : TransferMatrix) : result xmatrix :=
  (s <- calc_i_matrix tm 0 1 ;;
   chain tm s (seq 1 (num_layers tm - 2)))%result.

Definition calc_s_primed_matrix (tm : TransferMatrix) (layer : nat)
  : result xmatrix :=
  (s <- calc_i_matrix tm 0 1 ;;
   chain tm s (seq 1 (layer - 1)))%result.

(** [numpy.linalg.det] of a 2x2 matrix, in exact arithmetic. *)
Definition det (m : M2) : C := (m00 m * m11 m - m01 m * m10 m)%C.

Definition calc_layer_field_amplitudes (tm : TransferMatrix) (layer : nat)
  : result (ieee (C * C)) :=
  (if negb (guided tm) then
     s <- calc_s_matrix tm ;;
     let r := idiv (entry m10 s) (entry m00 s) in
     if Nat.eqb layer 0 then Ok (ipair (Exact C1) r)
     else if Nat.eqb layer (num_layers tm - 1) then
       Ok (ipair (idiv (Exact C1) (entry m00 s)) (Exact C0))
     else
       s_prime <- calc_s_primed_matrix tm layer ;;
       let d := entry det s_prime in
       Ok (ipair
             (idiv (ibind r (fun r' =>
                      entry (fun m => (m11 m - r' * m01 m)%C) s_prime)) d)
             (idiv (ibind r (fun r' =>
                      entry (fun m => (r' * m00 m - m10 m)%C) s_prime)) d))
   else
     if Nat.eqb layer 0 then Ok (Exact (C0, C1))
     else if Nat.eqb layer (num_layers tm - 1) then
       s <- calc_s_matrix tm ;;
       Ok (ipair (idiv (Exact C1) (entry m01 s)) (Exact C0))
     else
       s_prime <- calc_s_primed_matrix tm layer ;;
       Ok (ipair (idiv (entry (fun m => (- m01 m)%C) s_prime)
                       (entry det s_prime))
                 (idiv (entry m00 s_prime) (entry det s_prime))))%result.

(** [calc_r_and_t()] *)
Definition calc_r_and_t (tm : TransferMatrix) : result (ieee (C * C)) :=
  (s <- calc_s_matrix tm ;;
   Ok (ipair (idiv (entry m10 s) (entry m00 s))
             (idiv (Exact C1) (entry m00 s))))%result.

End Methods.

(** * Properties *)

(** ** Structure bookkeeping *)

Definition sum_list (l : list R) : R := fold_right Rplus 0 l.

(** [cum] holds the prefix sums of [ds]. *)
Definition prefix_sums (ds cum : list R) : Prop :=
  length cum = length ds /\
  forall i, (i < length ds)%nat -> nth i cum 0 = sum_list (firstn (S i) ds).

Lemma cumsum_from_length (acc : R) (l : list R) :
  length (cumsum_from acc l) = length l.
Proof. revert acc; induction l as [|x l IH]; intros acc; simpl; auto. Qed.

Lemma cumsum_from_nth (l : list R) : forall (acc : R) (i : nat),
  (i < length l)%nat ->
  nth i (cumsum_from acc l) 0 = acc + sum_list (firstn (S i) l).
Proof.
  induction l as [|x l IH]; intros acc i Hi; simpl in Hi; [lia|].
  destruct i as [|i].
  - simpl. lra.
  - change (nth (S i) (cumsum_from acc (x :: l)) 0)
      with (nth i (cumsum_from (acc + x) l) 0).
    rewrite IH by lia.
    change (firstn (S (S i)) (x :: l)) with (x :: firstn (S i) l).
    unfold sum_list. cbn [fold_right]. lra.
Qed.

Lemma cumsum_prefix_sums (l : list R) : prefix_sums l (cumsum l).
Proof.
  split.
  - apply cumsum_from_length.
  - intros i Hi. unfold cumsum. rewrite cumsum_from_nth by exact Hi. lra.
Qed.

Lemma combine_snoc {A B} (l : list A) : forall (l' : list B) (x : A) (y : B),
  length l = length l' ->
  combine (l ++ [x]) (l' ++ [y]) = combine l l' ++ [(x, y)].
Proof.
  induction l as [|a l IH]; intros [|b l'] x y H; simpl in *;
    try discriminate; auto.
  injection H as H. rewrite IH by exact H. reflexivity.
Qed.

Lemma combine_rev {A B} (l : list A) (l' : list B) :
  length l = length l' -> combine (rev l) (rev l') = rev (combine l l').
Proof.
  revert l'; induction l as [|x l IH]; intros [|y l'] H; simpl in *;
    try discriminate; auto.
  injection H as H.
  rewrite <- IH by exact H.
  apply combine_snoc. rewrite !length_rev; exact H.
Qed.

(** The structure-mutating operations. *)
Inductive structure_op : Type :=
| OpAddLayer (d : R) (n : C)
| OpFlip.

Module LifetmmOps.
Import Lifetmm.

(** One call; a call whose assertion fails leaves the object as it was. *)
Definition apply_op (tm : TransferMatrix) (op : structure_op) : TransferMatrix :=
  match op with
  | OpAddLayer d n =>
      match add_layer d n tm with
      | Ok tm' => tm'
      | Raise _ => tm
      end
  | OpFlip => flip tm
  end.

Definition run (ops : list structure_op) : TransferMatrix :=
  fold_left apply_op ops init.

Definition layers (tm : TransferMatrix) : list (R * C) :=
  combine (d_list tm) (n_list tm).

Definition bookkeeping (tm : TransferMatrix) : Prop :=
  prefix_sums (d_list tm) (d_cumulative tm) /\
  num_layers tm = length (d_list tm) /\
  length (d_list tm) = length (n_list tm).

Lemma bookkeeping_init : bookkeeping init.
Proof.
  unfold bookkeeping, prefix_sums; simpl.
  repeat split; auto. intros i Hi; lia.
Qed.

Lemma bookkeeping_add_layer (d : R) (n : C) (tm tm' : TransferMatrix) :
  bookkeeping tm -> add_layer d n tm = Ok tm' -> bookkeeping tm'.
Proof.
  intros (_ & Hn & Hl) H. unfold add_layer in H.
  destruct (assert (Rleb 0 d) ThicknessNonneg); simpl in H; [|discriminate].
  destruct (if Nat.eqb (num_layers tm) 0
            then assert (Reqb (Im n) 0) IncomingTransparent else Ok tt);
    simpl in H; [|discriminate].
  injection H as <-. unfold bookkeeping; simpl.
  split; [apply cumsum_prefix_sums|].
  split; [reflexivity|]. rewrite !length_app; simpl; lia.
Qed.

Lemma bookkeeping_flip (tm : TransferMatrix) :
  bookkeeping tm -> bookkeeping (flip tm).
Proof.
  intros (_ & Hn & Hl). unfold bookkeeping, flip; simpl.
  split; [apply cumsum_prefix_sums|].
  rewrite !length_rev. auto.
Qed.

Lemma bookkeeping_apply_op (tm : TransferMatrix) (op : structure_op) :
  bookkeeping tm -> bookkeeping (apply_op tm op).
Proof.
  intros H. destruct op as [d n|]; simpl.
  - destruct (add_layer d n tm) eqn:E; [|exact H].
    eapply bookkeeping_add_layer; eauto.
  - apply bookkeeping_flip; exact H.
Qed.

Lemma bookkeeping_fold (ops : list structure_op) : forall tm,
  bookkeeping tm -> bookkeeping (fold_left apply_op ops tm).
Proof.
  induction ops as [|op ops IH]; intros tm H; simpl; [exact H|].
  apply IH, bookkeeping_apply_op, H.
Qed.

Lemma bookkeeping_run (ops : list structure_op) : bookkeeping (run ops).
Proof. apply bookkeeping_fold, bookkeeping_init. Qed.

Lemma flip_layers (tm : TransferMatrix) :
  bookkeeping tm -> layers (flip tm) = rev (layers tm).
Proof.
  intros (_ & _ & Hl). unfold layers, flip; simpl.
  apply combine_rev; exact Hl.
Qed.

End LifetmmOps.

Module MethodsOps.
Import Methods.

Definition apply_op (tm : TransferMatrix) (op : structure_op) : TransferMatrix :=
  match op with
  | OpAddLayer d n =>
      match add_layer d n tm with
      | Ok tm' => tm'
      | Raise _ => tm
      end
  | OpFlip => flip tm
  end.

Definition run (ops : list structure_op) : TransferMatrix :=
  fold_left apply_op ops init.

Definition layers (tm : TransferMatrix) : list (R * C) :=
  combine (d_list tm) (n_list tm).

Definition bookkeeping (tm : TransferMatrix) : Prop :=
  prefix_sums (d_list tm) (d_cumulative tm) /\
  num_layers tm = length (d_list tm) /\
  length (d_list tm) = length (n_list tm).

Lemma methods_bookkeeping_apply_op (tm : TransferMatrix) (op : structure_op) :
  bookkeeping tm -> bookkeeping (apply_op tm op).
Proof.
  intros (Hc & Hn & Hl). destruct op as [d n|]; simpl.
  - unfold add_layer.
    destruct (assert (is_integer d || Reqb d 0) ThicknessWhole); simpl;
      [|repeat split; auto; apply Hc].
    unfold bookkeeping; simpl.
    split; [apply cumsum_prefix_sums|].
    split; [reflexivity|]. rewrite !length_app; simpl; lia.
  - unfold bookkeeping, flip; simpl.
    split; [apply cumsum_prefix_sums|].
    rewrite !length_rev. auto.
Qed.

Lemma methods_bookkeeping_fold (ops : list structure_op) : forall tm,
  bookkeeping tm -> bookkeeping (fold_left apply_op ops tm).
Proof.
  induction ops as [|op ops IH]; intros tm H; simpl; [exact H|].
  apply IH, methods_bookkeeping_apply_op, H.
Qed.

Lemma methods_bookkeeping_run (ops : list structure_op) : bookkeeping (run ops).
Proof.
  apply methods_bookkeeping_fold.
  unfold bookkeeping, prefix_sums; simpl.
  repeat split; auto. intros i Hi; lia.
Qed.

Lemma methods_flip_layers (tm : TransferMatrix) :
  bookkeeping tm -> layers (flip tm) = rev (layers tm).
Proof.
  intros (_ & _ & Hl). unfold layers, flip; simpl.
  apply combine_rev; exact Hl.
Qed.

End MethodsOps.

(** C10. After every sequence of [add_layer] and [flip] calls on a fresh
    object, in either implementation, [d_cumulative] holds the prefix sums
    of [d_list], [num_layers] is the length of [d_list], and [d_list] and
    [n_list] have equal length; and [flip] reverses the sequence of
    (thickness, index) pairs, which are the same pairs up to order. *)
Theorem structure_bookkeeping_invariant (ops : list structure_op) :
  (LifetmmOps.bookkeeping (LifetmmOps.run ops) /\
   LifetmmOps.layers (Lifetmm.flip (LifetmmOps.run ops))
     = rev (LifetmmOps.layers (LifetmmOps.run ops)) /\
   Permutation (LifetmmOps.layers (LifetmmOps.run ops))
               (LifetmmOps.layers (Lifetmm.flip (LifetmmOps.run ops)))) /\
  (MethodsOps.bookkeeping (MethodsOps.run ops) /\
   MethodsOps.layers (Methods.flip (MethodsOps.run ops))
     = rev (MethodsOps.layers (MethodsOps.run ops)) /\
   Permutation (MethodsOps.layers (MethodsOps.run ops))
               (MethodsOps.layers (Methods.flip (MethodsOps.run ops)))).
Proof.
  split.
  - pose proof (LifetmmOps.bookkeeping_run ops) as H.
    split; [exact H|].
    rewrite (LifetmmOps.flip_layers H).
    split; [reflexivity|apply Permutation_rev].
  - pose proof (MethodsOps.methods_bookkeeping_run ops) as H.
    split; [exact H|].
    rewrite (MethodsOps.methods_flip_layers H).
    split; [reflexivity|apply Permutation_rev].
Qed.

(** ** Facts on the complex operations *)

Lemma RtoC_add (x y : R) : (RtoC x + RtoC y)%C = RtoC (x + y).
Proof. apply C_ext; simpl; ring. Qed.

Lemma RtoC_sub (x y : R) : (RtoC x - RtoC y)%C = RtoC (x - y).
Proof. apply C_ext; simpl; ring. Qed.

Lemma RtoC_mul (x y : R) : (RtoC x * RtoC y)%C = RtoC (x * y).
Proof. apply C_ext; simpl; ring. Qed.

Lemma RtoC_opp (x : R) : (- RtoC x)%C = RtoC (- x).
Proof. apply C_ext; simpl; ring. Qed.

Lemma RtoC_inv (x : R) : x <> 0 -> (/ RtoC x)%C = RtoC (/ x).
Proof.
  intros Hx. apply C_ext; unfold Cinv, RtoC, Cnorm2; simpl; field; exact Hx.
Qed.

Lemma RtoC_div (x y : R) : y <> 0 -> (RtoC x / RtoC y)%C = RtoC (x / y).
Proof.
  intros Hy. unfold Cdiv. rewrite RtoC_inv by exact Hy. apply RtoC_mul.
Qed.

Lemma Cnorm2_RtoC (x : R) : Cnorm2 (RtoC x) = x * x.
Proof. unfold Cnorm2, RtoC; simpl; ring. Qed.

Lemma Cabs_RtoC (x : R) : Cabs (RtoC x) = Rabs x.
Proof.
  unfold Cabs. rewrite Cnorm2_RtoC.
  replace (x * x) with (Rsqr x) by reflexivity. apply sqrt_Rsqr_abs.
Qed.

Lemma Csqrt_RtoC_nonneg (x : R) : 0 <= x -> Csqrt (RtoC x) = RtoC (sqrt x).
Proof.
  intros Hx. unfold Csqrt. rewrite Cabs_RtoC, Rabs_pos_eq by exact Hx.
  unfold RtoC; simpl.
  replace ((x + x) / 2) with x by lra.
  replace ((x - x) / 2) with 0 by lra.
  rewrite sqrt_0. destruct (Rle_dec 0 0); f_equal; ring.
Qed.

Lemma Csqrt_RtoC_neg (x : R) : x < 0 -> Csqrt (RtoC x) = (0, sqrt (- x)).
Proof.
  intros Hx. unfold Csqrt. rewrite Cabs_RtoC, Rabs_left by exact Hx.
  unfold RtoC; simpl.
  replace ((- x + x) / 2) with 0 by lra.
  replace ((- x - x) / 2) with (- x) by lra.
  rewrite sqrt_0. destruct (Rle_dec 0 0); [|lra]. f_equal; ring.
Qed.

(** The principal square root undoes squaring on the right half plane. *)
Lemma Csqrt_sqr (z : C) : 0 < Re z -> Csqrt (z * z) = z.
Proof.
  destruct z as [a b]; simpl; intros Ha.
  unfold Csqrt, Cabs, Cnorm2, Cmul; simpl.
  replace ((a * a - b * b) * (a * a - b * b) + (a * b + b * a) * (a * b + b * a))
    with (Rsqr (a * a + b * b)) by (unfold Rsqr; ring).
  rewrite sqrt_Rsqr by nra.
  replace ((a * a + b * b + (a * a - b * b)) / 2) with (Rsqr a)
    by (unfold Rsqr; field).
  replace ((a * a + b * b - (a * a - b * b)) / 2) with (Rsqr b)
    by (unfold Rsqr; field).
  rewrite sqrt_Rsqr by lra. rewrite sqrt_Rsqr_abs.
  f_equal.
  destruct (Rle_dec 0 (a * b + b * a)) as [H|H].
  - assert (0 <= b) by nra. rewrite Rabs_pos_eq by assumption. ring.
  - assert (b < 0) by nra. rewrite Rabs_left by assumption. ring.
Qed.

Lemma Cexp_0 : Cexp C0 = C1.
Proof.
  unfold Cexp, C0, C1; simpl. rewrite exp_0, cos_0, sin_0. f_equal; ring.
Qed.

Lemma Ceqb_true (z w : C) : Ceqb z w = true <-> z = w.
Proof. unfold Ceqb; destruct (Ceq_dec z w); split; congruence. Qed.

Lemma Ceqb_false (z w : C) : Ceqb z w = false <-> z <> w.
Proof. unfold Ceqb; destruct (Ceq_dec z w); split; congruence. Qed.

Lemma Rltb_true (x y : R) : Rltb x y = true <-> x < y.
Proof. unfold Rltb; destruct (Rlt_dec x y); split; auto; discriminate. Qed.

Lemma Rltb_false (x y : R) : Rltb x y = false <-> y <= x.
Proof.
  unfold Rltb; destruct (Rlt_dec x y); split; auto; try discriminate; lra.
Qed.

Lemma Rleb_true (x y : R) : Rleb x y = true <-> x <= y.
Proof. unfold Rleb; destruct (Rle_dec x y); split; auto; discriminate. Qed.

Lemma Rleb_false (x y : R) : Rleb x y = false <-> y < x.
Proof.
  unfold Rleb; destruct (Rle_dec x y); split; auto; try discriminate; lra.
Qed.

Lemma Reqb_true (x y : R) : Reqb x y = true <-> x = y.
Proof. unfold Reqb; destruct (Req_dec_T x y); split; auto; discriminate. Qed.

Lemma Reqb_false (x y : R) : Reqb x y = false <-> x <> y.
Proof.
  unfold Reqb; destruct (Req_dec_T x y); split; auto; try discriminate;
    contradiction.
Qed.

Lemma ediv_exact (x y : C) : y <> C0 -> ediv x y = Exact (x / y)%C.
Proof. intros H. unfold ediv. apply Ceqb_false in H. rewrite H. reflexivity. Qed.

Lemma ediv_special (x : C) : ediv x C0 = Special.
Proof.
  unfold ediv. assert (H : Ceqb C0 C0 = true) by (apply Ceqb_true; reflexivity).
  rewrite H. reflexivity.
Qed.

(** ** The interface matrix and its degenerate case *)

(** [xi_j] as [calc_xi] computes it from the layer index and [n_11]. *)
Definition xi_of (nj x : C) : C := Csqrt (nj * nj - x * x)%C.

Lemma lifetmm_calc_xi_index (tm : Lifetmm.TransferMatrix) (j : nat) (nj : C) :
  index (Lifetmm.n_list tm) j = Ok nj ->
  Lifetmm.calc_xi tm j = Ok (xi_of nj (Lifetmm.n_11 tm)).
Proof. intros H. unfold Lifetmm.calc_xi. rewrite H. reflexivity. Qed.

Lemma lifetmm_i_matrix_eq (tm : Lifetmm.TransferMatrix) (j k : nat) (nj nk : C) :
  index (Lifetmm.n_list tm) j = Ok nj ->
  index (Lifetmm.n_list tm) k = Ok nk ->
  Lifetmm.i_matrix tm j k =
  Ok (assemble AllInf
        (coefficients (Lifetmm.pol tm) (Lifetmm.field tm) nj nk
           (xi_of nj (Lifetmm.n_11 tm)) (xi_of nk (Lifetmm.n_11 tm)))).
Proof.
  intros Hj Hk. unfold Lifetmm.i_matrix.
  rewrite (lifetmm_calc_xi_index _ _ Hj), (lifetmm_calc_xi_index _ _ Hk).
  rewrite Hj, Hk. reflexivity.
Qed.

Lemma methods_calc_xi_index (tm : Methods.TransferMatrix) (j : nat) (nj x : C) :
  index (Methods.n_list tm) j = Ok nj ->
  Methods.calc_n_11 tm = Ok x ->
  Methods.calc_xi tm j = Ok (xi_of nj x).
Proof. intros H Hx. unfold Methods.calc_xi. rewrite H, Hx. reflexivity. Qed.

Lemma methods_i_matrix_eq (tm : Methods.TransferMatrix) (j k : nat)
    (nj nk x : C) (p : polarization) :
  index (Methods.n_list tm) j = Ok nj ->
  index (Methods.n_list tm) k = Ok nk ->
  Methods.calc_n_11 tm = Ok x ->
  Methods.pol tm = Some p ->
  Methods.calc_i_matrix tm j k =
  Ok (assemble AllNaN
        (coefficients p (Methods.field tm) nj nk (xi_of nj x) (xi_of nk x))).
Proof.
  intros Hj Hk Hx Hp. unfold Methods.calc_i_matrix.
  rewrite (methods_calc_xi_index _ _ Hj Hx), (methods_calc_xi_index _ _ Hk Hx).
  rewrite Hj, Hk, Hp. reflexivity.
Qed.

Lemma assemble_zero (deg : xmatrix) (r : ieee C) :
  assemble deg (r, Exact C0) = deg.
Proof.
  unfold assemble; simpl.
  assert (H : Ceqb C0 C0 = true) by (apply Ceqb_true; reflexivity).
  rewrite H. reflexivity.
Qed.

Lemma assemble_nonzero (deg : xmatrix) (r t : C) :
  t <> C0 -> assemble deg (Exact r, Exact t) = Finite (interface_matrix r t).
Proof.
  intros H. unfold assemble; simpl. apply Ceqb_false in H. rewrite H.
  reflexivity.
Qed.

(** A probe at grazing incidence in the entry medium: indices 1 and 2,
    [n_11 = 1], TE polarisation, E field. *)
Definition grazing : Lifetmm.TransferMatrix :=
  Lifetmm.mkTM [0; 0] [RtoC 1; RtoC 2] [0; 0] 2 None None None
               field_E pol_TE 0 (RtoC 1).

Definition methods_grazing : Methods.TransferMatrix :=
  Methods.mkTM [0; 0] [RtoC 1; RtoC 2] [0; 0] 2 0 (Some pol_TE)
               field_E 0 1 true (RtoC 1).

Lemma xi_of_grazing_entry : xi_of (RtoC 1) (RtoC 1) = C0.
Proof.
  unfold xi_of. rewrite !RtoC_mul, RtoC_sub.
  replace (1 * 1 - 1 * 1) with 0 by ring.
  rewrite Csqrt_RtoC_nonneg by lra. rewrite sqrt_0. reflexivity.
Qed.

Lemma xi_of_grazing_exit : xi_of (RtoC 2) (RtoC 1) = RtoC (sqrt 3).
Proof.
  unfold xi_of. rewrite !RtoC_mul, RtoC_sub.
  replace (2 * 2 - 1 * 1) with 3 by ring.
  apply Csqrt_RtoC_nonneg; lra.
Qed.

Lemma sqrt3_neq0 : RtoC (sqrt 3) <> C0.
Proof. apply RtoC_neq0. pose proof (sqrt_lt_R0 3); lra. Qed.

Lemma grazing_coefficients :
  coefficients pol_TE field_E (RtoC 1) (RtoC 2)
    (xi_of (RtoC 1) (RtoC 1)) (xi_of (RtoC 2) (RtoC 1))
  = (Exact (- C1)%C, Exact C0).
Proof.
  rewrite xi_of_grazing_entry, xi_of_grazing_exit.
  unfold coefficients, fresnel; simpl.
  assert (Hd : (C0 + RtoC (sqrt 3))%C <> C0).
  { replace (C0 + RtoC (sqrt 3))%C with (RtoC (sqrt 3)) by ring.
    exact sqrt3_neq0. }
  rewrite !ediv_exact by exact Hd.
  f_equal; f_equal; field; exact sqrt3_neq0.
Qed.

(** The claim's first half, as it is stated: whenever the transmission
    coefficient is zero the method raises. *)
Definition degenerate_case_raises : Prop :=
  forall (tm : Lifetmm.TransferMatrix) (j k : nat) (nj nk : C) (r : ieee C),
    index (Lifetmm.n_list tm) j = Ok nj ->
    index (Lifetmm.n_list tm) k = Ok nk ->
    coefficients (Lifetmm.pol tm) (Lifetmm.field tm) nj nk
      (xi_of nj (Lifetmm.n_11 tm)) (xi_of nk (Lifetmm.n_11 tm))
    = (r, Exact C0) ->
    exists e, Lifetmm.i_matrix tm j k = Raise e.

(** C7, amended. When the transmission coefficient is an exact zero the
    interface-matrix method raises nothing: [i_matrix] returns the array
    whose four entries are [inf] and the older [calc_i_matrix] the array
    whose four entries are [nan]. When [r] and [t] are finite and
    [t <> 0] both return [(1/t) * [[1, r], [r, 1]]]. *)
Theorem interface_matrix_degenerate_case :
  (forall (tm : Lifetmm.TransferMatrix) (j k : nat) (nj nk : C) (r : ieee C) (t : C),
     index (Lifetmm.n_list tm) j = Ok nj ->
     index (Lifetmm.n_list tm) k = Ok nk ->
     coefficients (Lifetmm.pol tm) (Lifetmm.field tm) nj nk
       (xi_of nj (Lifetmm.n_11 tm)) (xi_of nk (Lifetmm.n_11 tm))
     = (r, Exact t) ->
     (t = C0 -> Lifetmm.i_matrix tm j k = Ok AllInf) /\
     (t <> C0 -> forall r', r = Exact r' ->
      Lifetmm.i_matrix tm j k
      = Ok (Finite (scale (C1 / t)%C (mkM2 C1 r' r' C1))))) /\
  (forall (tm : Methods.TransferMatrix) (j k : nat) (nj nk x : C)
          (p : polarization) (r : ieee C) (t : C),
     index (Methods.n_list tm) j = Ok nj ->
     index (Methods.n_list tm) k = Ok nk ->
     Methods.calc_n_11 tm = Ok x ->
     Methods.pol tm = Some p ->
     coefficients p (Methods.field tm) nj nk (xi_of nj x) (xi_of nk x)
     = (r, Exact t) ->
     (t = C0 -> Methods.calc_i_matrix tm j k = Ok AllNaN) /\
     (t <> C0 -> forall r', r = Exact r' ->
      Methods.calc_i_matrix tm j k
      = Ok (Finite (scale (C1 / t)%C (mkM2 C1 r' r' C1))))).
Proof.
  split.
  - intros tm j k nj nk r t Hj Hk Hc.
    rewrite (lifetmm_i_matrix_eq _ _ _ Hj Hk), Hc. split.
    + intros ->. rewrite assemble_zero. reflexivity.
    + intros Ht r' ->. rewrite assemble_nonzero by exact Ht. reflexivity.
  - intros tm j k nj nk x p r t Hj Hk Hx Hp Hc.
    rewrite (methods_i_matrix_eq _ _ _ Hj Hk Hx Hp), Hc. split.
    + intros ->. rewrite assemble_zero. reflexivity.
    + intros Ht r' ->. rewrite assemble_nonzero by exact Ht. reflexivity.
Qed.

(** The grazing probe has [t = 0]; both methods return their non-finite
    array there. *)
Lemma interface_matrix_degenerate_case_witness :
  Lifetmm.i_matrix grazing 0 1 = Ok AllInf /\
  Methods.calc_i_matrix methods_grazing 0 1 = Ok AllNaN.
Proof.
  split.
  - apply (proj1 interface_matrix_degenerate_case grazing 0%nat 1%nat
             (RtoC 1) (RtoC 2) (Exact (- C1)%C) C0);
      [reflexivity|reflexivity|exact grazing_coefficients|reflexivity].
  - apply (proj2 interface_matrix_degenerate_case methods_grazing 0%nat 1%nat
             (RtoC 1) (RtoC 2) (RtoC 1) pol_TE (Exact (- C1)%C) C0);
      [reflexivity|reflexivity|reflexivity|reflexivity
      |exact grazing_coefficients|reflexivity].
Defined.

(** At the grazing probe [t = 0] and [i_matrix] returns without raising:
    the claim as stated fails. *)
Lemma degenerate_case_does_not_raise : ~ degenerate_case_raises.
Proof.
  intros H.
  destruct (H grazing 0%nat 1%nat (RtoC 1) (RtoC 2) (Exact (- C1)%C)
              eq_refl eq_refl grazing_coefficients) as [e He].
  rewrite (lifetmm_i_matrix_eq grazing 0 1 eq_refl eq_refl) in He.
  simpl Lifetmm.pol in He. simpl Lifetmm.field in He. simpl Lifetmm.n_11 in He.
  rewrite grazing_coefficients, assemble_zero in He. discriminate.
Qed.

(** ** Field amplitudes in the exit layer of a guided mode *)

Lemma sqrt_16 : sqrt 16 = 4.
Proof. replace 16 with (4 * 4) by ring. apply sqrt_square; lra. Qed.

Lemma sqrt_9 : sqrt 9 = 3.
Proof. replace 9 with (3 * 3) by ring. apply sqrt_square; lra. Qed.

(** Two media of index 3 and 4 probed at [n_11 = 5], where the wave is
    evanescent in both. *)
Definition evanescent_pair : Lifetmm.TransferMatrix :=
  Lifetmm.mkTM [0; 0] [RtoC 3; RtoC 4] [0; 0] 2 None None None
               field_E pol_TE 0 (RtoC 5).

Lemma xi_of_3_5 : xi_of (RtoC 3) (RtoC 5) = (0, 4).
Proof.
  unfold xi_of. rewrite !RtoC_mul, RtoC_sub.
  rewrite Csqrt_RtoC_neg by lra.
  replace (- (3 * 3 - 5 * 5)) with 16 by ring. rewrite sqrt_16. reflexivity.
Qed.

Lemma xi_of_4_5 : xi_of (RtoC 4) (RtoC 5) = (0, 3).
Proof.
  unfold xi_of. rewrite !RtoC_mul, RtoC_sub.
  rewrite Csqrt_RtoC_neg by lra.
  replace (- (4 * 4 - 5 * 5)) with 9 by ring. rewrite sqrt_9. reflexivity.
Qed.

Lemma C_neq0_im (z : C) : Im z <> 0 -> z <> C0.
Proof. intros H E. apply H. rewrite E. reflexivity. Qed.

Lemma C_neq0_re (z : C) : Re z <> 0 -> z <> C0.
Proof. intros H E. apply H. rewrite E. reflexivity. Qed.

Lemma evanescent_pair_coefficients :
  coefficients pol_TE field_E (RtoC 3) (RtoC 4)
    (xi_of (RtoC 3) (RtoC 5)) (xi_of (RtoC 4) (RtoC 5))
  = (Exact (RtoC (1 / 7)), Exact (RtoC (8 / 7))).
Proof.
  rewrite xi_of_3_5, xi_of_4_5.
  unfold coefficients, fresnel; simpl.
  assert (Hd : ((0, 4) + (0, 3))%C <> C0) by (apply C_neq0_im; simpl; lra).
  rewrite !ediv_exact by exact Hd.
  f_equal; f_equal; apply C_ext;
    unfold Cdiv, Cmul, Cinv, Cnorm2, Csub, Cadd, Copp, RtoC; simpl; field.
Qed.

Lemma evanescent_pair_s_matrix :
  Lifetmm.s_matrix evanescent_pair
  = Ok (Finite (interface_matrix (RtoC (1 / 7)) (RtoC (8 / 7)))).
Proof.
  unfold Lifetmm.s_matrix.
  rewrite (lifetmm_i_matrix_eq evanescent_pair 0 1 eq_refl eq_refl).
  simpl Lifetmm.pol. simpl Lifetmm.field. simpl Lifetmm.n_11.
  rewrite evanescent_pair_coefficients.
  rewrite assemble_nonzero by (apply C_neq0_re; simpl; lra).
  reflexivity.
Qed.

Lemma Cltb_RtoC (x y : R) : Cltb (RtoC x) (RtoC y) = Rltb x y.
Proof.
  unfold Cltb, RtoC; simpl.
  assert (H : Rltb 0 0 = false) by (apply Rltb_false; lra).
  rewrite H, andb_false_r, orb_false_r. reflexivity.
Qed.

Lemma Cltb_RtoC_pair (x y : R) : Cltb (x, 0) (RtoC y) = Rltb x y.
Proof. exact (Cltb_RtoC x y). Qed.

Lemma pymax_spec (a b : R) : pymax a b = Rmax a b.
Proof.
  unfold pymax, Rltb, Rmax.
  destruct (Rlt_dec a b), (Rle_dec a b); try reflexivity; lra.
Qed.

Lemma evanescent_pair_guided : Lifetmm.is_radiative evanescent_pair = Ok false.
Proof.
  unfold Lifetmm.is_radiative; simpl. rewrite Cltb_RtoC.
  f_equal. apply Rltb_false. rewrite pymax_spec.
  unfold Rmax; destruct (Rle_dec 3 4); lra.
Qed.

(** C3. In the guided classification ([n_11] not below the larger
    cladding index) the amplitudes returned for the exit layer [N - 1] are
    [field_plus = 1 / S[1, 0]] and [field_minus = 0], [S] being the system
    matrix. *)
Theorem guided_exit_layer_amplitudes (tm : Lifetmm.TransferMatrix) (s : M2) :
  Lifetmm.is_radiative tm = Ok false ->
  (1 < Lifetmm.num_layers tm)%nat ->
  Lifetmm.s_matrix tm = Ok (Finite s) ->
  m10 s <> C0 ->
  Lifetmm.layer_field_amplitudes tm (Lifetmm.num_layers tm - 1)
  = Ok (Exact ((C1 / m10 s)%C, C0)).
Proof.
  intros Hg HN Hs Hnz. unfold Lifetmm.layer_field_amplitudes.
  rewrite Hg. simpl rbind.
  destruct (Nat.eqb_spec (Lifetmm.num_layers tm - 1) 0) as [E|_]; [lia|].
  rewrite Nat.eqb_refl, Hs. simpl.
  rewrite ediv_exact by exact Hnz. reflexivity.
Qed.

Lemma guided_exit_layer_amplitudes_witness :
  Lifetmm.layer_field_amplitudes evanescent_pair 1
  = Ok (Exact ((C1 / m10 (interface_matrix (RtoC (1 / 7)) (RtoC (8 / 7))))%C,
               C0)).
Proof.
  apply (@guided_exit_layer_amplitudes evanescent_pair
           (interface_matrix (RtoC (1 / 7)) (RtoC (8 / 7)))).
  - exact evanescent_pair_guided.
  - simpl; lia.
  - exact evanescent_pair_s_matrix.
  - apply C_neq0_re. unfold interface_matrix, scale; simpl.
    unfold Cnorm2; simpl.
    match goal with
    | |- ?x <> 0 => replace x with (1 / 8) by field
    end.
    lra.
Defined.

(** The older implementation, with its [guided] flag set, takes the other
    off-diagonal entry: [field_plus = 1 / S[0, 1]]. *)
Lemma methods_guided_exit_layer (tm : Methods.TransferMatrix) (s : M2) :
  Methods.guided tm = true ->
  (1 < Methods.num_layers tm)%nat ->
  Methods.calc_s_matrix tm = Ok (Finite s) ->
  m01 s <> C0 ->
  Methods.calc_layer_field_amplitudes tm (Methods.num_layers tm - 1)
  = Ok (Exact ((C1 / m01 s)%C, C0)).
Proof.
  intros Hg HN Hs Hnz. unfold Methods.calc_layer_field_amplitudes.
  rewrite Hg. simpl negb. cbv iota.
  destruct (Nat.eqb_spec (Methods.num_layers tm - 1) 0) as [E|_]; [lia|].
  rewrite Nat.eqb_refl, Hs. simpl.
  rewrite ediv_exact by exact Hnz. reflexivity.
Qed.

(** ** A single interface at normal incidence *)

Lemma xi_of_normal (n : C) : 0 < Re n -> xi_of n C0 = n.
Proof.
  intros Hn. unfold xi_of.
  replace (n * n - C0 * C0)%C with (n * n)%C by ring.
  apply Csqrt_sqr; exact Hn.
Qed.

Lemma Re_pos_neq0 (z : C) : 0 < Re z -> z <> C0.
Proof. intros H. apply C_neq0_re. lra. Qed.

Lemma Re_add (z w : C) : Re (z + w) = Re z + Re w.
Proof. reflexivity. Qed.

(** The two-layer structures of the claim: entry index [n1], exit index
    [n2], the angle of incidence zero and [n_11] as [set_incident_angle]
    leaves it. *)
Definition single_interface (tm : Lifetmm.TransferMatrix) (n1 n2 : C) : Prop :=
  Lifetmm.n_list tm = [n1; n2] /\
  Lifetmm.num_layers tm = 2%nat /\
  Lifetmm.th tm = 0 /\
  Lifetmm.n_11 tm = (n1 * RtoC (sin (Lifetmm.th tm)))%C.

(** [r] as the code computes it: the p-polarised coefficient is defined
    with the E field flipped on reflection. *)
Definition fresnel_r (p : polarization) (n1 n2 : C) : C :=
  if is_p p then ((n2 - n1) / (n1 + n2))%C else ((n1 - n2) / (n1 + n2))%C.

Lemma single_interface_coefficients (p : polarization) (n1 n2 : C) :
  0 < Re n1 -> 0 < Re n2 ->
  coefficients p field_E n1 n2 n1 n2
  = (Exact (fresnel_r p n1 n2), Exact (RtoC 2 * n1 / (n1 + n2))%C).
Proof.
  intros H1 H2.
  assert (N1 : n1 <> C0) by (apply Re_pos_neq0; exact H1).
  assert (N2 : n2 <> C0) by (apply Re_pos_neq0; exact H2).
  assert (N12 : (n1 + n2)%C <> C0).
  { apply Re_pos_neq0. rewrite Re_add. lra. }
  unfold coefficients, fresnel, fresnel_r, to_field.
  destruct (is_p p).
  - assert (D1 : (n2 * n2 * n1 + n1 * n1 * n2)%C <> C0).
    { replace (n2 * n2 * n1 + n1 * n1 * n2)%C with (n1 * n2 * (n1 + n2))%C
        by ring.
      repeat apply Cmul_neq0; assumption. }
    assert (D2 : (n1 * (n2 * n2) + n2 * (n1 * n1))%C <> C0).
    { replace (n1 * (n2 * n2) + n2 * (n1 * n1))%C with (n1 * n2 * (n1 + n2))%C
        by ring.
      repeat apply Cmul_neq0; assumption. }
    rewrite (ediv_exact _ D1), (ediv_exact _ D2).
    f_equal; f_equal; field; repeat split; assumption.
  - rewrite !ediv_exact by exact N12. reflexivity.
Qed.

Lemma two_RtoC_neq0 : RtoC 2 <> C0.
Proof. apply RtoC_neq0; lra. Qed.

Lemma single_interface_r_and_t (tm : Lifetmm.TransferMatrix) (n1 n2 : C) :
  single_interface tm n1 n2 ->
  Lifetmm.field tm = field_E ->
  0 < Re n1 -> 0 < Re n2 ->
  Lifetmm.calc_r_and_t tm
  = Ok (Exact (fresnel_r (Lifetmm.pol tm) n1 n2,
               (RtoC 2 * n1 / (n1 + n2))%C)).
Proof.
  intros (Hn & HN & Hth & H11) Hf H1 H2.
  assert (N1 : n1 <> C0) by (apply Re_pos_neq0; exact H1).
  assert (N12 : (n1 + n2)%C <> C0).
  { apply Re_pos_neq0. rewrite Re_add. lra. }
  assert (H0 : Lifetmm.n_11 tm = C0).
  { rewrite H11, Hth, sin_0. unfold RtoC, C0. apply C_ext; simpl; ring. }
  unfold Lifetmm.calc_r_and_t, Lifetmm.s_matrix.
  rewrite (@lifetmm_i_matrix_eq tm 0 1 n1 n2)
    by (rewrite Hn; reflexivity).
  rewrite HN, H0, Hf, !xi_of_normal by assumption.
  rewrite single_interface_coefficients by assumption.
  set (t := (RtoC 2 * n1 / (n1 + n2))%C).
  assert (Ht : t <> C0).
  { unfold t, Cdiv. apply Cmul_neq0.
    - apply Cmul_neq0; [exact two_RtoC_neq0|exact N1].
    - intros E. apply C1_neq_C0.
      rewrite <- (Cinv_l N12), E. ring. }
  rewrite assemble_nonzero by exact Ht.
  cbn [seq Nat.sub Lifetmm.chain rbind].
  unfold idiv, entry, interface_matrix, scale.
  cbn [ibind m00 m10].
  assert (Hs : (C1 / t * C1)%C <> C0).
  { intros E. apply C1_neq_C0.
    replace C1 with (t * (C1 / t * C1))%C by (field; exact Ht).
    rewrite E. ring. }
  rewrite !ediv_exact by exact Hs.
  unfold ipair. cbn [ibind imap].
  f_equal. f_equal.
  f_equal; field; repeat split; solve [exact Ht|exact C1_neq_C0].
Qed.

(** The claim as it is stated: one closed form for both polarisations. *)
Definition single_interface_claim : Prop :=
  forall (tm : Lifetmm.TransferMatrix) (n1 n2 : C),
    single_interface tm n1 n2 ->
    Lifetmm.field tm = field_E ->
    0 < Re n1 -> 0 < Re n2 ->
    Lifetmm.calc_r_and_t tm
    = Ok (Exact (((n1 - n2) / (n1 + n2))%C, (RtoC 2 * n1 / (n1 + n2))%C)).

(** Air onto glass of index 2. *)
Definition air_glass (p : polarization) : Lifetmm.TransferMatrix :=
  Lifetmm.mkTM [0; 0] [RtoC 1; RtoC 2] [0; 0] 2 None None None
               field_E p 0 (RtoC 1 * RtoC (sin 0))%C.

Lemma air_glass_single_interface (p : polarization) :
  single_interface (air_glass p) (RtoC 1) (RtoC 2).
Proof. repeat split. Qed.

(** C2, amended. For a two-layer structure with indices of positive real
    part, at normal incidence and for the E field, [calc_r_and_t] returns
    [t = 2 n1 / (n1 + n2)] for both polarisations, [r = (n1 - n2) / (n1 + n2)]
    for 's' and 'TE', and [r = (n2 - n1) / (n1 + n2)] for 'p' and 'TM'. *)
Theorem single_interface_fresnel (tm : Lifetmm.TransferMatrix) (n1 n2 : C) :
  single_interface tm n1 n2 ->
  Lifetmm.field tm = field_E ->
  0 < Re n1 -> 0 < Re n2 ->
  Lifetmm.calc_r_and_t tm
  = Ok (Exact ((if is_p (Lifetmm.pol tm)
                then (n2 - n1) / (n1 + n2) else (n1 - n2) / (n1 + n2))%C,
               (RtoC 2 * n1 / (n1 + n2))%C)).
Proof. exact (@single_interface_r_and_t tm n1 n2). Qed.

Lemma single_interface_fresnel_witness :
  Lifetmm.calc_r_and_t (air_glass pol_s)
  = Ok (Exact (((RtoC 1 - RtoC 2) / (RtoC 1 + RtoC 2))%C,
               (RtoC 2 * RtoC 1 / (RtoC 1 + RtoC 2))%C)) /\
  Lifetmm.calc_r_and_t (air_glass pol_p)
  = Ok (Exact (((RtoC 2 - RtoC 1) / (RtoC 1 + RtoC 2))%C,
               (RtoC 2 * RtoC 1 / (RtoC 1 + RtoC 2))%C)).
Proof.
  split.
  - apply (@single_interface_fresnel (air_glass pol_s) (RtoC 1) (RtoC 2));
      [apply air_glass_single_interface|reflexivity|simpl; lra|simpl; lra].
  - apply (@single_interface_fresnel (air_glass pol_p) (RtoC 1) (RtoC 2));
      [apply air_glass_single_interface|reflexivity|simpl; lra|simpl; lra].
Defined.

(** For 'p' the reflection coefficient of air onto glass is [1/3], not
    [(1 - 2) / (1 + 2)]. *)
Lemma single_interface_claim_fails_for_p : ~ single_interface_claim.
Proof.
  intros H.
  assert (H1 : 0 < Re (RtoC 1)) by (simpl; lra).
  assert (H2 : 0 < Re (RtoC 2)) by (simpl; lra).
  pose proof (H (air_glass pol_p) (RtoC 1) (RtoC 2)
                (air_glass_single_interface pol_p) eq_refl H1 H2) as Hc.
  rewrite (single_interface_r_and_t (air_glass_single_interface pol_p)
             eq_refl H1 H2) in Hc.
  unfold fresnel_r in Hc. simpl is_p in Hc. cbv iota in Hc.
  injection Hc as Hre _.
  unfold Cdiv, Cmul, Cinv, Cnorm2, Csub, Cadd, Copp, RtoC in Hre.
  simpl in Hre.
  assert (E : (2 + - (1)) * ((1 + 2) / ((1 + 2) * (1 + 2) + (0 + 0) * (0 + 0)))
              = 1 / 3) by field.
  assert (E' : (1 + - (2)) * ((1 + 2) / ((1 + 2) * (1 + 2) + (0 + 0) * (0 + 0)))
              = - (1 / 3)) by field.
  lra.
Qed.

(** ** Rounding *)

Lemma Int_part_bounds (x : R) : IZR (Int_part x) <= x < IZR (Int_part x) + 1.
Proof. destruct (base_Int_part x) as [H1 H2]. lra. Qed.

Lemma Int_part_mono (x y : R) : x <= y -> (Int_part x <= Int_part y)%Z.
Proof.
  intros H. pose proof (Int_part_bounds x) as Hx.
  pose proof (Int_part_bounds y) as Hy.
  apply Z.lt_succ_r. apply lt_IZR. rewrite succ_IZR. lra.
Qed.

Lemma rint_bounds (y : R) :
  (Int_part y <= rint y <= Int_part y + 1)%Z /\
  - (1 / 2) <= IZR (rint y) - y <= 1 / 2.
Proof.
  pose proof (Int_part_bounds y) as Hy. unfold rint.
  destruct (Rlt_dec (y - IZR (Int_part y)) (1 / 2)) as [H1|H1].
  - split; [lia|lra].
  - destruct (Rlt_dec (1 / 2) (y - IZR (Int_part y))) as [H2|H2].
    + split; [lia|]. rewrite plus_IZR. lra.
    + destruct (Z.even (Int_part y)).
      * split; [lia|lra].
      * split; [lia|]. rewrite plus_IZR. lra.
Qed.

Lemma rint_mono (x y : R) : x <= y -> (rint x <= rint y)%Z.
Proof.
  intros H. pose proof (Int_part_mono H) as Hf.
  destruct (Z.eq_dec (Int_part x) (Int_part y)) as [E|NE].
  - unfold rint. rewrite E.
    destruct (Rlt_dec (x - IZR (Int_part y)) (1 / 2)) as [H1|H1];
    destruct (Rlt_dec (y - IZR (Int_part y)) (1 / 2)) as [H2|H2];
      try lia; try lra.
    + destruct (Rlt_dec (1 / 2) (y - IZR (Int_part y)));
        destruct (Z.even (Int_part y)); lia.
    + destruct (Rlt_dec (1 / 2) (x - IZR (Int_part y))) as [H3|H3];
      destruct (Rlt_dec (1 / 2) (y - IZR (Int_part y))) as [H4|H4];
        try lia; try lra.
      destruct (Z.even (Int_part y)); lia.
  - destruct (rint_bounds x) as [[_ Hx] _].
    destruct (rint_bounds y) as [[Hy _] _]. lia.
Qed.

Lemma powerRZ_10_pos (nd : Z) : 0 < powerRZ 10 nd.
Proof. apply powerRZ_lt; lra. Qed.

Lemma py_round_mono (nd : Z) (x y : R) :
  x <= y -> py_round x nd <= py_round y nd.
Proof.
  intros H. unfold py_round. pose proof (powerRZ_10_pos nd) as Hp.
  apply Rmult_le_compat_r; [left; apply Rinv_0_lt_compat; exact Hp|].
  apply IZR_le, rint_mono. apply Rmult_le_compat_r; lra.
Qed.

(** A rounded value is within half a unit of the last digit kept. *)
Lemma py_round_close (nd : Z) (x : R) :
  - (1 / 2 / powerRZ 10 nd) <= py_round x nd - x <= 1 / 2 / powerRZ 10 nd.
Proof.
  unfold py_round. pose proof (powerRZ_10_pos nd) as Hp.
  destruct (rint_bounds (x * powerRZ 10 nd)) as [_ Hb].
  set (p := powerRZ 10 nd) in *. set (z := IZR (rint (x * p))) in *.
  assert (Hi : 0 < / p) by (apply Rinv_0_lt_compat; exact Hp).
  replace (z / p - x) with ((z - x * p) * / p) by (field; lra).
  replace (1 / 2 / p) with (1 / 2 * / p) by (field; lra).
  split; nra.
Qed.

(** [eps = 1e-5] keeps five digits. *)
Lemma round_digits_default :
  HelperFunctions.round_digits Lifetmm.default_eps = Ok 5%Z.
Proof.
  unfold HelperFunctions.round_digits, Lifetmm.default_eps.
  destruct (Rlt_dec 0 (/ 10 ^ 5)) as [_|H];
    [|exfalso; apply H; apply Rinv_0_lt_compat; lra].
  f_equal.
  assert (Hl : 0 < ln 10).
  { rewrite <- ln_1. apply ln_increasing; lra. }
  replace (ln (/ 10 ^ 5) / ln 10) with (- 5).
  - unfold int_trunc. destruct (Rle_dec 0 (- 5)) as [H|_]; [lra|].
    replace (- - 5) with (IZR 5) by (simpl; lra).
    replace (Int_part (IZR 5)) with 5%Z; [reflexivity|].
    apply Int_part_spec. simpl. lra.
  - rewrite ln_Rinv by lra. rewrite ln_pow by lra. simpl INR. field. lra.
Qed.

(** ** The root finder *)

Lemma raise_neq_cast {A B : Type} (e e' : exn) :
  @Raise A e <> Raise e' -> @Raise B e <> Raise e'.
Proof. intros H E. apply H. injection E as ->. reflexivity. Qed.

Section RootsFacts.

Variable S : Type.
Variable ieee_gt0 : R -> R -> bool.
Variable brentq_next :
  R -> R -> list (R * ieee R) -> HelperFunctions.solver_action.
Variable f : R -> M S (ieee R).

(** What a call of [f] does to the object: it records its argument
    ([probed s x]: the object [s] holds the probe [x]) and leaves the
    rest as it was ([frame]); and it is not one of the loops that are
    given fuel. *)
Variable probed : S -> R -> Prop.
Variable frame : S -> S -> Prop.
Hypothesis frame_refl : forall s, frame s s.
Hypothesis frame_trans : forall s1 s2 s3, frame s1 s2 -> frame s2 s3 -> frame s1 s3.
Hypothesis f_probe : forall x s r s', f x s = (r, s') -> probed s' x.
Hypothesis f_frame : forall x s r s', f x s = (r, s') -> frame s s'.
Hypothesis f_fuel : forall x s s', f x s <> (Raise OutOfFuel, s').

#[warnings="-notation-for-abbreviation"]
Notation root_search_loop := (HelperFunctions.root_search_loop ieee_gt0).
#[warnings="-notation-for-abbreviation"]
Notation root_search := (HelperFunctions.root_search ieee_gt0).
#[warnings="-notation-for-abbreviation"]
Notation brentq_loop := (HelperFunctions.brentq_loop brentq_next).
#[warnings="-notation-for-abbreviation"]
Notation brentq := (HelperFunctions.brentq brentq_next).
#[warnings="-notation-for-abbreviation"]
Notation roots_loop := (HelperFunctions.roots_loop ieee_gt0 brentq_next).
#[warnings="-notation-for-abbreviation"]
Notation roots := (HelperFunctions.roots ieee_gt0 brentq_next).

(** The object holds a probe of the scan that started at [a]: a point
    [a + k * dx] at least one step beyond [b]. *)
Definition scan_ended (a b dx : R) (s : S) : Prop :=
  exists x k, probed s x /\ b + dx <= x /\ x = a + INR k * dx.

Lemma root_search_loop_ok (b dx : R) (Hdx : 0 < dx) :
  forall (fuel : nat) (x1 : R) (f1 : ieee R) (x2 : R) (f2 : ieee R)
         (s s' : S) (res : option (R * R)),
    root_search_loop fuel f b dx x1 f1 x2 f2 s = (Ok res, s') ->
    x2 = x1 + dx -> probed s x2 ->
    frame s s' /\
    match res with
    | Some (y1, y2) =>
        y2 = y1 + dx /\ exists k, y1 = x1 + INR k * dx
    | None =>
        exists y1 k, b <= y1 /\ y1 = x1 + INR k * dx /\ probed s' (y1 + dx)
    end.
Proof.
  induction fuel as [|fuel IH]; intros x1 f1 x2 f2 s s' res H Hx Hs;
    simpl in H; [discriminate|].
  destruct (HelperFunctions.prod_gt0 ieee_gt0 x1 x2 f1 f2).
  - destruct (Rleb b x1) eqn:Hb.
    + injection H as <- <-. split; [apply frame_refl|].
      exists x1, 0%nat. apply Rleb_true in Hb. split; [exact Hb|].
      split; [simpl; ring|congruence].
    + unfold bind in H. destruct (f (x2 + dx) s) as [[v|e] s1] eqn:Hf;
        [|discriminate].
      apply IH in H; [|reflexivity|eapply f_probe; exact Hf].
      destruct H as [Hfr Hres]. split.
      * eapply frame_trans; [eapply f_frame; exact Hf|exact Hfr].
      * destruct res as [[y1 y2]|].
        -- destruct Hres as (H2 & k & Hk). split; [exact H2|].
           exists (Datatypes.S k). rewrite S_INR. lra.
        -- destruct Hres as (y1 & k & H1 & Hk & H2).
           exists y1, (Datatypes.S k). split; [exact H1|].
           split; [rewrite S_INR; lra|exact H2].
  - injection H as <- <-. split; [apply frame_refl|].
    split; [exact Hx|]. exists 0%nat. simpl; ring.
Qed.

Lemma root_search_ok (fuel : nat) (a b dx : R) (s s' : S)
    (res : option (R * R)) :
  0 < dx ->
  root_search fuel f a b dx s = (Ok res, s') ->
  frame s s' /\ a <= b /\
  match res with
  | Some (y1, y2) => y2 = y1 + dx /\ exists k, y1 = a + INR k * dx
  | None => scan_ended a b dx s'
  end.
Proof.
  intros Hdx H. unfold HelperFunctions.root_search, bind, lift in H.
  unfold assert in H. destruct (Rleb a b) eqn:Hab; [|discriminate].
  apply Rleb_true in Hab.
  destruct (f a s) as [[v1|e] s1] eqn:H1; [|discriminate].
  destruct (f (a + dx) s1) as [[v2|e] s2] eqn:H2; [|discriminate].
  apply (@root_search_loop_ok b dx Hdx) in H;
    [|reflexivity|eapply f_probe; exact H2].
  destruct H as [Hfr Hres]. split; [|split; [exact Hab|]].
  - eapply frame_trans; [eapply f_frame; exact H1|].
    eapply frame_trans; [eapply f_frame; exact H2|exact Hfr].
  - destruct res as [[y1 y2]|]; [exact Hres|].
    destruct Hres as (y1 & k & H3 & Hk & H4).
    exists (y1 + dx), (Datatypes.S k). split; [exact H4|].
    split; [lra|]. rewrite S_INR. lra.
Qed.

Lemma brentq_loop_ok (x1 x2 : R) :
  forall (iter : nat) (seen : list (R * ieee R)) (s s' : S) (root : R),
    brentq_loop iter f x1 x2 seen s = (Ok root, s') ->
    frame s s' /\ exists seen', brentq_next x1 x2 seen' = HelperFunctions.Return root.
Proof.
  induction iter as [|iter IH]; intros seen s s' root H; simpl in H;
    [discriminate|].
  destruct (brentq_next x1 x2 seen) as [x|r|] eqn:Hn.
  - unfold bind in H. destruct (f x s) as [[v|e] s1] eqn:Hf; [|discriminate].
    apply IH in H. destruct H as [Hfr Hex]. split; [|exact Hex].
    eapply frame_trans; [eapply f_frame; exact Hf|exact Hfr].
  - injection H as <- <-. split; [apply frame_refl|]. exists seen. exact Hn.
  - discriminate.
Qed.

(** The contract of the bracketing solver: a root it returns lies in the
    bracket. *)
Definition solver_in_bracket : Prop :=
  forall x1 x2 seen root,
    x1 <= x2 ->
    brentq_next x1 x2 seen = HelperFunctions.Return root -> x1 <= root <= x2.

(** The roots [roots] appends, before rounding: ascending, in [[a, b]]. *)
Definition ascending_in (a b : R) (rs : list R) : Prop :=
  StronglySorted Rle rs /\ Forall (fun r => a <= r <= b) rs.

Lemma scan_ended_from (a a' b dx : R) (k : nat) (s : S) :
  a' = a + INR k * dx -> scan_ended a' b dx s -> scan_ended a b dx s.
Proof.
  intros Ha (x & k' & Hp & Hb & Hx). exists x, (k + k')%nat.
  split; [exact Hp|]. split; [exact Hb|]. rewrite plus_INR. lra.
Qed.

Lemma roots_loop_ok (scan : nat) (b eps : R) (Heps : 0 < eps) :
  forall (fuel : nat) (a : R) (results : list R) (s s' : S) (out : list R),
    roots_loop fuel scan f a b eps results s = (Ok out, s') ->
    frame s s' /\ a <= b /\ scan_ended a b eps s' /\
    exists nd rs,
      HelperFunctions.round_digits eps = Ok nd /\
      out = results ++ map (fun r => py_round r nd) rs /\
      (solver_in_bracket -> ascending_in a b rs).
Proof.
  induction fuel as [|fuel IH]; intros a results s s' out H; simpl in H;
    [discriminate|].
  unfold bind in H.
  destruct (root_search scan f a b eps s) as [[br|e] s1] eqn:Hrs;
    [|discriminate].
  apply root_search_ok in Hrs; [|exact Heps].
  destruct Hrs as (Hfr1 & Hab & Hbr).
  assert (Hnd : exists nd, HelperFunctions.round_digits eps = Ok nd).
  { unfold HelperFunctions.round_digits.
    destruct (Rlt_dec 0 eps); [eauto|contradiction]. }
  destruct Hnd as [nd Hnd].
  destruct br as [[x1 x2]|].
  - destruct Hbr as [Hx2 [k1 Hx1]].
    assert (Hax1 : a <= x1) by (pose proof (pos_INR k1); nra).
    destruct (HelperFunctions.brentq brentq_next f x1 x2 s1)
      as [[root|e] s2] eqn:Hb; [|discriminate].
    apply brentq_loop_ok in Hb. destruct Hb as [Hfr2 [seen Hret]].
    assert (Hrec : exists results',
               roots_loop fuel scan f x2 b eps results' s2 = (Ok out, s') /\
               (results' = results \/
                results' = results ++ [py_round root nd])).
    { destruct (Reqb root 0).
      - exists results. split; [exact H|left; reflexivity].
      - unfold lift in H. rewrite Hnd in H.
        exists (results ++ [py_round root nd]). split; [exact H|right; reflexivity]. }
    destruct Hrec as (results' & Hrec & Hres').
    apply IH in Hrec.
    destruct Hrec as (Hfr3 & Hx2b & Hend & nd' & rs & Hnd' & Hout & Hasc).
    rewrite Hnd in Hnd'. injection Hnd' as <-.
    split; [eapply frame_trans; [exact Hfr1|eapply frame_trans; eassumption]|].
    split; [exact Hab|].
    split.
    { apply (@scan_ended_from a x2 b eps (Datatypes.S k1) s'); [|exact Hend].
      rewrite S_INR. lra. }
    exists nd. destruct Hres' as [->| ->].
    + exists rs. split; [exact Hnd|]. split; [exact Hout|].
      intros Hsol. destruct (Hasc Hsol) as [Hs Hf]. split; [exact Hs|].
      eapply Forall_impl; [|exact Hf]. simpl. intros r Hr. lra.
    + exists (root :: rs). split; [exact Hnd|]. split.
      * rewrite Hout. rewrite <- app_assoc. reflexivity.
      * intros Hsol. destruct (Hasc Hsol) as [Hs Hf].
        assert (Hx12 : x1 <= x2) by lra.
        destruct (Hsol _ _ _ _ Hx12 Hret) as [Hr1 Hr2]. split.
        -- constructor; [exact Hs|].
           eapply Forall_impl; [|exact Hf]. simpl. intros r Hr. lra.
        -- constructor; [lra|].
           eapply Forall_impl; [|exact Hf]. simpl. intros r Hr. lra.
  - injection H as <- <-.
    split; [exact Hfr1|]. split; [exact Hab|]. split; [exact Hbr|].
    exists nd, []. split; [exact Hnd|]. split; [rewrite app_nil_r; reflexivity|].
    intros _. split; constructor.
Qed.

Lemma roots_ok (fuel : nat) (a b eps : R) (s s' : S) (out : list R) :
  0 < eps ->
  roots fuel f a b eps s = (Ok out, s') ->
  frame s s' /\ a <= b /\ scan_ended a b eps s' /\
  exists nd rs,
    HelperFunctions.round_digits eps = Ok nd /\
    out = map (fun r => py_round r nd) rs /\
    (solver_in_bracket -> ascending_in a b rs).
Proof.
  intros Heps H. unfold HelperFunctions.roots in H.
  apply roots_loop_ok in H; [exact H|exact Heps].
Qed.

(** *** Enough fuel *)

Lemma root_search_loop_S (fuel : nat) (b dx x1 : R) (f1 : ieee R) (x2 : R)
    (f2 : ieee R) :
  root_search_loop (Datatypes.S fuel) f b dx x1 f1 x2 f2 =
  if HelperFunctions.prod_gt0 ieee_gt0 x1 x2 f1 f2 then
    if Rleb b x1 then ret None
    else
      (f2' <- f (x2 + dx) ;;
       root_search_loop fuel f b dx x2 f2 (x2 + dx) f2')%monad
  else ret (Some (x1, x2)).
Proof. reflexivity. Qed.

Lemma roots_loop_S (fuel scan : nat) (a b eps : R) (results : list R) :
  roots_loop (Datatypes.S fuel) scan f a b eps results =
  (br <- root_search scan f a b eps ;;
   match br with
   | Some (x1, x2) =>
       root <- brentq f x1 x2 ;;
       if Reqb root 0 then roots_loop fuel scan f x2 b eps results
       else
         nd <- lift (fun _ => HelperFunctions.round_digits eps) ;;
         roots_loop fuel scan f x2 b eps (results ++ [py_round root nd])
   | None => ret results
   end)%monad.
Proof. reflexivity. Qed.

Lemma root_search_loop_fuel (b dx : R) (Hdx : 0 < dx) :
  forall (n : nat) (x1 : R) (f1 : ieee R) (x2 : R) (f2 : ieee R) (s : S),
    b - x1 <= INR n * dx -> x2 = x1 + dx ->
    fst (root_search_loop (Datatypes.S n) f b dx x1 f1 x2 f2 s)
    <> Raise OutOfFuel.
Proof.
  induction n as [|n IH]; intros x1 f1 x2 f2 s Hb Hx.
  - simpl in Hb. simpl.
    destruct (HelperFunctions.prod_gt0 ieee_gt0 x1 x2 f1 f2);
      [|simpl; discriminate].
    assert (E : Rleb b x1 = true) by (apply Rleb_true; lra).
    rewrite E. simpl. discriminate.
  - rewrite S_INR in Hb.
    rewrite root_search_loop_S.
    destruct (HelperFunctions.prod_gt0 ieee_gt0 x1 x2 f1 f2);
      [|simpl; discriminate].
    destruct (Rleb b x1); [simpl; discriminate|].
    unfold bind. destruct (f (x2 + dx) s) as [[v|e] s1] eqn:Hf.
    + apply IH; [nra|reflexivity].
    + simpl. intros E. injection E as ->. eapply f_fuel; exact Hf.
Qed.

Lemma root_search_fuel (n : nat) (a b dx : R) (s : S) :
  0 < dx -> b - a <= INR n * dx ->
  fst (root_search (Datatypes.S n) f a b dx s) <> Raise OutOfFuel.
Proof.
  intros Hdx Hb. unfold HelperFunctions.root_search, bind, lift, assert.
  destruct (Rleb a b); [|simpl; discriminate].
  destruct (f a s) as [[v1|e] s1] eqn:H1;
    [|simpl; intros E; injection E as ->; eapply f_fuel; exact H1].
  destruct (f (a + dx) s1) as [[v2|e] s2] eqn:H2;
    [|simpl; intros E; injection E as ->; eapply f_fuel; exact H2].
  apply root_search_loop_fuel; [exact Hdx|exact Hb|reflexivity].
Qed.

Lemma brentq_loop_fuel (x1 x2 : R) :
  forall (iter : nat) (seen : list (R * ieee R)) (s : S),
    fst (brentq_loop iter f x1 x2 seen s) <> Raise OutOfFuel.
Proof.
  induction iter as [|iter IH]; intros seen s; simpl; [discriminate|].
  destruct (brentq_next x1 x2 seen) as [x|r|]; try (simpl; discriminate).
  unfold bind. destruct (f x s) as [[v|e] s1] eqn:Hf.
  - apply IH.
  - simpl. intros E. injection E as ->. eapply f_fuel; exact Hf.
Qed.

Lemma roots_loop_fuel (m : nat) (b eps : R) (Heps : 0 < eps) :
  forall (n : nat) (a : R) (results : list R) (s : S),
    (n <= m)%nat -> b - a <= INR n * eps ->
    fst (roots_loop (Datatypes.S (Datatypes.S n)) (Datatypes.S m) f a b eps
           results s)
    <> Raise OutOfFuel.
Proof.
  assert (Hscan : forall a s, b - a <= INR m * eps ->
            fst (root_search (Datatypes.S m) f a b eps s) <> Raise OutOfFuel).
  { intros a s H. apply root_search_fuel; assumption. }
  assert (Hnd : exists nd, HelperFunctions.round_digits eps = Ok nd).
  { unfold HelperFunctions.round_digits.
    destruct (Rlt_dec 0 eps); [eauto|contradiction]. }
  destruct Hnd as [nd Hnd].
  assert (Hlast : forall a results s, b < a ->
            fst (roots_loop 1 (Datatypes.S m) f a b eps results s)
            <> Raise OutOfFuel).
  { intros a results s Hab. simpl. unfold bind.
    unfold HelperFunctions.root_search at 1. unfold bind, lift, assert.
    assert (E : Rleb a b = false) by (apply Rleb_false; exact Hab).
    rewrite E. simpl. discriminate. }
  induction n as [|n IH]; intros a results s Hnm Hb.
  - simpl INR in Hb.
    rewrite roots_loop_S.
    unfold bind at 1.
    pose proof (@Hscan a s) as Hsc.
    destruct (root_search (Datatypes.S m) f a b eps s) as [[br|e] s1] eqn:Hrs;
      [|simpl; simpl in Hsc; intros E; injection E as ->;
        apply Hsc; [pose proof (pos_INR m); nra|reflexivity]].
    apply root_search_ok in Hrs; [|exact Heps].
    destruct Hrs as (_ & Hab & Hbr).
    destruct br as [[x1 x2]|]; [|simpl; discriminate].
    destruct Hbr as [Hx2' [k1 Hx1]].
    assert (Hx1' : a <= x1) by (pose proof (pos_INR k1); nra).
    unfold bind at 1.
    pose proof (@brentq_loop_fuel x1 x2 102 [] s1) as Hbq.
    fold (brentq f x1 x2) in Hbq.
    destruct (brentq f x1 x2 s1) as [[root|e] s2];
      [|simpl; simpl in Hbq; eapply raise_neq_cast; exact Hbq].
    destruct (Reqb root 0).
    + apply Hlast. lra.
    + unfold bind at 1, lift. rewrite Hnd. apply Hlast. lra.
  - rewrite S_INR in Hb.
    rewrite roots_loop_S.
    unfold bind at 1.
    pose proof (@Hscan a s) as Hsc.
    assert (Hm : INR (Datatypes.S n) <= INR m) by (apply le_INR; exact Hnm).
    rewrite S_INR in Hm.
    destruct (root_search (Datatypes.S m) f a b eps s) as [[br|e] s1] eqn:Hrs;
      [|simpl; simpl in Hsc; intros E; injection E as ->;
        apply Hsc; [pose proof (pos_INR m); nra|reflexivity]].
    apply root_search_ok in Hrs; [|exact Heps].
    destruct Hrs as (_ & Hab & Hbr).
    destruct br as [[x1 x2]|]; [|simpl; discriminate].
    destruct Hbr as [Hx2' [k1 Hx1]].
    assert (Hx1' : a <= x1) by (pose proof (pos_INR k1); nra).
    unfold bind at 1.
    pose proof (@brentq_loop_fuel x1 x2 102 [] s1) as Hbq.
    fold (brentq f x1 x2) in Hbq.
    destruct (brentq f x1 x2 s1) as [[root|e] s2];
      [|simpl; simpl in Hbq; eapply raise_neq_cast; exact Hbq].
    destruct (Reqb root 0).
    + apply IH; [lia|nra].
    + unfold bind at 1, lift. rewrite Hnd. apply IH; [lia|nra].
Qed.

End RootsFacts.

(** ** [calc_s11] and the guided-mode scan *)

(** The Python exceptions, as opposed to the fuel marker. *)
Definition python_result {A} (r : result A) : Prop := r <> Raise OutOfFuel.

Lemma python_index {A} (l : list A) (j : nat) : python_result (index l j).
Proof. unfold python_result, index. destruct (nth_error l j); discriminate. Qed.

Lemma python_rbind {A B} (r : result A) (k : A -> result B) :
  python_result r -> (forall a, python_result (k a)) -> python_result (rbind r k).
Proof.
  intros Hr Hk. destruct r as [a|e]; simpl; [apply Hk|].
  unfold python_result in *. intros E. apply Hr. injection E as ->. reflexivity.
Qed.

Lemma python_assert (c : bool) (a : assertion) : python_result (assert c a).
Proof. unfold python_result, assert. destruct c; discriminate. Qed.

Lemma python_ok {A} (a : A) : python_result (Ok a).
Proof. discriminate. Qed.

Create HintDb python.
#[local] Hint Resolve python_index python_assert python_ok : python.

Lemma python_calc_xi (tm : Lifetmm.TransferMatrix) (j : nat) :
  python_result (Lifetmm.calc_xi tm j).
Proof.
  unfold Lifetmm.calc_xi. apply python_rbind; auto with python.
Qed.

Lemma python_calc_q (tm : Lifetmm.TransferMatrix) (j : nat) :
  python_result (Lifetmm.calc_q tm j).
Proof.
  unfold Lifetmm.calc_q. apply python_rbind.
  - unfold Lifetmm.get_k_vac. destruct (Lifetmm.k_vac tm); discriminate.
  - intros k. apply python_rbind; [apply python_calc_xi|auto with python].
Qed.

Lemma python_i_matrix (tm : Lifetmm.TransferMatrix) (j k : nat) :
  python_result (Lifetmm.i_matrix tm j k).
Proof.
  unfold Lifetmm.i_matrix.
  repeat (apply python_rbind;
          [first [apply python_index|apply python_calc_xi]|intros ?]).
  apply python_ok.
Qed.

Lemma python_l_matrix (tm : Lifetmm.TransferMatrix) (j : nat) :
  python_result (Lifetmm.l_matrix tm j).
Proof.
  unfold Lifetmm.l_matrix.
  apply python_rbind; [apply python_calc_q|intros qj].
  apply python_rbind; [apply python_index|intros dj].
  apply python_rbind; [apply python_assert|intros _].
  apply python_rbind; [apply python_assert|intros _].
  apply python_ok.
Qed.

Lemma python_chain (tm : Lifetmm.TransferMatrix) (js : list nat) :
  forall s, python_result (Lifetmm.chain tm s js).
Proof.
  induction js as [|j js IH]; intros s; simpl; [apply python_ok|].
  apply python_rbind; [apply python_l_matrix|intros l].
  apply python_rbind; [apply python_i_matrix|intros i]. apply IH.
Qed.

Lemma python_s_matrix (tm : Lifetmm.TransferMatrix) :
  python_result (Lifetmm.s_matrix tm).
Proof.
  unfold Lifetmm.s_matrix.
  apply python_rbind; [apply python_i_matrix|intros s]. apply python_chain.
Qed.

Lemma calc_s11_eq (x : R) (tm : Lifetmm.TransferMatrix) :
  Lifetmm.calc_s11 x tm =
  (match Lifetmm.s_matrix (Lifetmm.with_n_11 tm (RtoC x)) with
   | Ok s => Ok (imap Re (entry m00 s))
   | Raise e => Raise e
   end, Lifetmm.with_n_11 tm (RtoC x)).
Proof.
  unfold Lifetmm.calc_s11, bind, update, lift, ret.
  destruct (Lifetmm.s_matrix (Lifetmm.with_n_11 tm (RtoC x))); reflexivity.
Qed.

(** Everything but [n_11] is as before. *)
Definition only_n_11_changed (tm tm' : Lifetmm.TransferMatrix) : Prop :=
  tm' = Lifetmm.with_n_11 tm (Lifetmm.n_11 tm').

Lemma only_n_11_refl (tm : Lifetmm.TransferMatrix) : only_n_11_changed tm tm.
Proof. unfold only_n_11_changed. destruct tm; reflexivity. Qed.

Lemma only_n_11_trans (t1 t2 t3 : Lifetmm.TransferMatrix) :
  only_n_11_changed t1 t2 -> only_n_11_changed t2 t3 -> only_n_11_changed t1 t3.
Proof.
  unfold only_n_11_changed. intros H12 H23. rewrite H23 at 1. rewrite H12.
  destruct t1; reflexivity.
Qed.

Lemma calc_s11_n_11 (x : R) (tm : Lifetmm.TransferMatrix)
    (r : result (ieee R)) (tm' : Lifetmm.TransferMatrix) :
  Lifetmm.calc_s11 x tm = (r, tm') -> Lifetmm.n_11 tm' = RtoC x.
Proof. rewrite calc_s11_eq. intros H. injection H as _ <-. reflexivity. Qed.

Lemma calc_s11_frame (x : R) (tm : Lifetmm.TransferMatrix)
    (r : result (ieee R)) (tm' : Lifetmm.TransferMatrix) :
  Lifetmm.calc_s11 x tm = (r, tm') -> only_n_11_changed tm tm'.
Proof.
  rewrite calc_s11_eq. intros H. injection H as _ <-.
  unfold only_n_11_changed. destruct tm; reflexivity.
Qed.

Lemma calc_s11_fuel (x : R) (tm tm' : Lifetmm.TransferMatrix) :
  Lifetmm.calc_s11 x tm <> (Raise OutOfFuel, tm').
Proof.
  rewrite calc_s11_eq. intros H. injection H as H _.
  pose proof (python_s_matrix (Lifetmm.with_n_11 tm (RtoC x))) as Hp.
  destruct (Lifetmm.s_matrix (Lifetmm.with_n_11 tm (RtoC x))); [discriminate|].
  apply Hp. injection H as ->. reflexivity.
Qed.

Lemma default_eps_pos : 0 < Lifetmm.default_eps.
Proof. unfold Lifetmm.default_eps. apply Rinv_0_lt_compat. lra. Qed.

(** The scan interval of [calc_guided_modes]. *)
Definition scan_lower (tm : Lifetmm.TransferMatrix) : result R :=
  (n0 <- index (Lifetmm.n_list tm) 0 ;;
   nl <- index_last (Lifetmm.n_list tm) ;;
   Ok (pymax (Re n0) (Re nl)))%result.

Definition scan_upper (tm : Lifetmm.TransferMatrix) : result R :=
  Lifetmm.max_real (Lifetmm.n_list tm).

Section GuidedModesFacts.

Variable ieee_gt0 : R -> R -> bool.
Variable brentq_next :
  R -> R -> list (R * ieee R) -> HelperFunctions.solver_action.

#[warnings="-notation-for-abbreviation"]
Notation calc_guided_modes := (Lifetmm.calc_guided_modes ieee_gt0 brentq_next).

(** [self.n_11] holds the float [x]. *)
Definition holds_probe (tm : Lifetmm.TransferMatrix) (x : R) : Prop :=
  Lifetmm.n_11 tm = RtoC x.

(** The values kept from the roots [rs] of the scan: rounded to five
    digits, reversed, and without those within 0.01 of [min(n)]. *)
Definition kept_modes (nmin : R) (rs : list R) : list R :=
  Lifetmm.delete_near nmin (rev (map (fun r => py_round r 5) rs)).

(** What a returning call of [calc_guided_modes] has done. *)
Lemma calc_guided_modes_ok (fuel : nat) (normalised : bool)
    (tm tm' : Lifetmm.TransferMatrix) (res : list (ieee R)) :
  calc_guided_modes fuel normalised tm = (Ok res, tm') ->
  exists lo hi nmin rs,
    Lifetmm.supports_guiding tm = Ok true /\
    scan_lower tm = Ok lo /\ scan_upper tm = Ok hi /\
    Lifetmm.min_real (Lifetmm.n_list tm) = Ok nmin /\
    lo <= hi /\
    only_n_11_changed tm tm' /\
    scan_ended holds_probe lo hi Lifetmm.default_eps tm' /\
    (solver_in_bracket brentq_next -> ascending_in lo hi rs) /\
    res = if normalised then map (@Exact R) (kept_modes nmin rs)
          else Lifetmm.scale_by (Lifetmm.k_vac tm) (kept_modes nmin rs).
Proof.
  unfold Lifetmm.calc_guided_modes, bind, lift, scan_lower, scan_upper.
  intros H.
  destruct (Lifetmm.supports_guiding tm) as [g|e] eqn:Hg; [|discriminate].
  destruct g; simpl assert in H; [|discriminate].
  destruct (index (Lifetmm.n_list tm) 0) as [n0|e] eqn:H0; [|discriminate].
  destruct (index_last (Lifetmm.n_list tm)) as [nl|e] eqn:Hl; [|discriminate].
  destruct (Lifetmm.max_real (Lifetmm.n_list tm)) as [hi|e] eqn:Hhi;
    [|discriminate].
  destruct (HelperFunctions.roots ieee_gt0 brentq_next fuel Lifetmm.calc_s11
              (1 * pymax (Re n0) (Re nl)) hi Lifetmm.default_eps tm)
    as [[found|e] tm1] eqn:Hr; [|discriminate].
  apply (@roots_ok _ ieee_gt0 brentq_next Lifetmm.calc_s11
           holds_probe only_n_11_changed
           only_n_11_refl only_n_11_trans calc_s11_n_11 calc_s11_frame)
    in Hr; [|exact default_eps_pos].
  destruct Hr as (Hfr & Hab & Hend & nd & rs & Hnd & Hfound & Hasc).
  rewrite round_digits_default in Hnd. injection Hnd as <-.
  assert (Hmin : Lifetmm.min_real (Lifetmm.n_list tm1)
                 = Lifetmm.min_real (Lifetmm.n_list tm)).
  { rewrite Hfr. reflexivity. }
  rewrite Hmin in H.
  destruct (Lifetmm.min_real (Lifetmm.n_list tm)) as [nmin|e] eqn:Hnmin;
    [|discriminate].
  rewrite Rmult_1_l in *.
  assert (Hk : Lifetmm.k_vac tm1 = Lifetmm.k_vac tm).
  { rewrite Hfr. reflexivity. }
  exists (pymax (Re n0) (Re nl)), hi, nmin, rs.
  simpl rbind. unfold kept_modes. rewrite <- Hfound.
  assert (Hres : tm' = tm1 /\
                 res = if normalised
                       then map (@Exact R) (Lifetmm.delete_near nmin (rev found))
                       else Lifetmm.scale_by (Lifetmm.k_vac tm)
                              (Lifetmm.delete_near nmin (rev found))).
  { destruct normalised.
    - unfold ret in H. injection H as <- <-. auto.
    - injection H as <- <-. rewrite Hk. auto. }
  destruct Hres as [-> ->].
  split; [reflexivity|]. split; [reflexivity|]. split; [reflexivity|].
  split; [reflexivity|]. split; [exact Hab|]. split; [exact Hfr|].
  split; [exact Hend|]. split; [exact Hasc|reflexivity].
Qed.

(** With a step of [1e-5] and [hi - lo <= n * 1e-5], fuel [n + 2] is
    enough. *)
Lemma calc_guided_modes_fuel (n : nat) (normalised : bool)
    (tm : Lifetmm.TransferMatrix) (lo hi : R) :
  scan_lower tm = Ok lo -> scan_upper tm = Ok hi ->
  hi - lo <= INR n * Lifetmm.default_eps ->
  fst (calc_guided_modes (Datatypes.S (Datatypes.S n)) normalised tm)
  <> Raise OutOfFuel.
Proof.
  unfold Lifetmm.calc_guided_modes, bind, lift, scan_lower, scan_upper.
  intros Hlo Hhi Hn.
  destruct (Lifetmm.supports_guiding tm) as [g|e] eqn:Hg.
  2:{ simpl. intros E. injection E as ->. revert Hg.
      unfold Lifetmm.supports_guiding.
      destruct (index (Lifetmm.n_list tm) 0); [|discriminate].
      destruct (index_last (Lifetmm.n_list tm)); discriminate. }
  destruct g; simpl assert; [|simpl; discriminate].
  destruct (index (Lifetmm.n_list tm) 0) as [n0|e] eqn:H0; [|discriminate].
  destruct (index_last (Lifetmm.n_list tm)) as [nl|e] eqn:Hl; [|discriminate].
  simpl in Hlo. injection Hlo as Hlo. rewrite Hhi.
  rewrite Rmult_1_l, Hlo.
  pose proof (@roots_loop_fuel _ ieee_gt0 brentq_next Lifetmm.calc_s11
                holds_probe only_n_11_changed
                only_n_11_refl only_n_11_trans calc_s11_n_11 calc_s11_frame
                calc_s11_fuel (Datatypes.S n) hi Lifetmm.default_eps
                default_eps_pos n lo [] tm (Nat.le_succ_diag_r n) Hn) as Hf.
  unfold HelperFunctions.roots.
  destruct (HelperFunctions.roots_loop ieee_gt0 brentq_next
              (Datatypes.S (Datatypes.S n)) (Datatypes.S (Datatypes.S n))
              Lifetmm.calc_s11 lo hi Lifetmm.default_eps [] tm)
    as [[found|e] tm1];
    [|simpl; simpl in Hf; eapply raise_neq_cast; exact Hf].
  destruct (Lifetmm.min_real (Lifetmm.n_list tm1)) as [nmin|e] eqn:Hmin.
  - destruct normalised; simpl; discriminate.
  - simpl. revert Hmin. unfold Lifetmm.min_real.
    destruct (map Re (Lifetmm.n_list tm1)); [|discriminate].
    intros E1 E2. injection E1 as <-. discriminate.
Qed.

End GuidedModesFacts.

(** ** A film between two claddings, TE polarisation *)

Lemma xi_of_real_below (n x : R) :
  x * x <= n * n -> xi_of (RtoC n) (RtoC x) = RtoC (sqrt (n * n - x * x)).
Proof.
  intros H. unfold xi_of. rewrite !RtoC_mul, RtoC_sub.
  apply Csqrt_RtoC_nonneg. lra.
Qed.

Lemma xi_of_real_above (n x : R) :
  n * n < x * x -> xi_of (RtoC n) (RtoC x) = (0, sqrt (x * x - n * n)).
Proof.
  intros H. unfold xi_of. rewrite !RtoC_mul, RtoC_sub.
  rewrite Csqrt_RtoC_neg by lra. f_equal. f_equal. ring.
Qed.

(** The system matrix of a three-layer structure. *)
Definition film_matrix (xi0 xi1 xi2 : C) (k d : R) : M2 :=
  matmul
    (matmul (interface_matrix ((xi0 - xi1) / (xi0 + xi1)) (RtoC 2 * xi0 / (xi0 + xi1)))
            (propagation_matrix (xi1 * RtoC k) d))
    (interface_matrix ((xi1 - xi2) / (xi1 + xi2)) (RtoC 2 * xi1 / (xi1 + xi2)))%C.

Lemma Cdiv_neq0 (z w : C) : z <> C0 -> w <> C0 -> (z / w)%C <> C0.
Proof.
  intros Hz Hw E. apply Hz.
  replace z with (z / w * w)%C by (field; exact Hw). rewrite E. ring.
Qed.

Lemma film_s_matrix (tm : Lifetmm.TransferMatrix) (n0 n1 n2 : C)
    (d0 d d2 k : R) :
  Lifetmm.n_list tm = [n0; n1; n2] ->
  Lifetmm.d_list tm = [d0; d; d2] ->
  Lifetmm.num_layers tm = 3%nat ->
  Lifetmm.k_vac tm = Some k ->
  is_p (Lifetmm.pol tm) = false ->
  Lifetmm.field tm = field_E ->
  let xi0 := xi_of n0 (Lifetmm.n_11 tm) in
  let xi1 := xi_of n1 (Lifetmm.n_11 tm) in
  let xi2 := xi_of n2 (Lifetmm.n_11 tm) in
  xi0 <> C0 -> xi1 <> C0 -> (xi0 + xi1)%C <> C0 -> (xi1 + xi2)%C <> C0 ->
  0 < d ->
  Cltb (Cexp (- Ci * (xi1 * RtoC k) * RtoC d)%C) (RtoC float_max) = true ->
  Lifetmm.s_matrix tm = Ok (Finite (film_matrix xi0 xi1 xi2 k d)).
Proof.
  intros Hn Hd HN Hk Hp Hf xi0 xi1 xi2 N0 N1 N01 N12 Hdpos Hst.
  unfold Lifetmm.s_matrix. rewrite HN.
  cbn [Nat.sub seq Lifetmm.chain].
  rewrite (@lifetmm_i_matrix_eq tm 0 1 n0 n1) by (rewrite Hn; reflexivity).
  rewrite (@lifetmm_i_matrix_eq tm 1 (1 + 1) n1 n2) by (rewrite Hn; reflexivity).
  unfold Lifetmm.l_matrix, Lifetmm.calc_q, Lifetmm.get_k_vac.
  rewrite Hk. cbn [rbind].
  rewrite (@lifetmm_calc_xi_index tm 1 n1) by (rewrite Hn; reflexivity).
  cbn [rbind]. rewrite Hd. cbn [index nth_error rbind].
  fold xi0 xi1 xi2.
  assert (Hd' : Rltb 0 d = true) by (apply Rltb_true; exact Hdpos).
  rewrite Hd'. cbn [assert rbind]. rewrite Hst. cbn [assert rbind].
  unfold coefficients, fresnel. rewrite Hp, Hf. cbn [to_field].
  rewrite !ediv_exact by assumption.
  rewrite !assemble_nonzero.
  - reflexivity.
  - apply Cdiv_neq0; [apply Cmul_neq0; [exact two_RtoC_neq0|exact N1]|exact N12].
  - apply Cdiv_neq0; [apply Cmul_neq0; [exact two_RtoC_neq0|exact N0]|exact N01].
Qed.

(** [S[0, 0]] of the film in closed form. *)
Lemma film_matrix_m00 (xi0 xi1 xi2 : C) (k d : R) :
  xi0 <> C0 -> xi1 <> C0 -> (xi0 + xi1)%C <> C0 -> (xi1 + xi2)%C <> C0 ->
  m00 (film_matrix xi0 xi1 xi2 k d)
  = (((xi0 + xi1) * (xi1 + xi2) * Cexp (- Ci * (xi1 * RtoC k) * RtoC d)
      + (xi0 - xi1) * (xi1 - xi2) * Cexp (Ci * (xi1 * RtoC k) * RtoC d))
     / (RtoC 4 * xi0 * xi1))%C.
Proof.
  intros N0 N1 N01 N12.
  unfold film_matrix, matmul, interface_matrix, propagation_matrix, scale.
  cbn [m00 m01 m10 m11].
  assert (N2 : RtoC 2 <> C0) by exact two_RtoC_neq0.
  assert (N4 : RtoC 4 <> C0) by (apply RtoC_neq0; lra).
  assert (E4 : RtoC 4 = (RtoC 2 * RtoC 2)%C) by (rewrite RtoC_mul; f_equal; ring).
  rewrite E4.
  field. repeat split; assumption.
Qed.

Lemma xi_of_real_ge (n x : R) :
  n * n <= x * x -> xi_of (RtoC n) (RtoC x) = (0, sqrt (x * x - n * n)).
Proof.
  intros H. destruct (Rle_lt_or_eq_dec _ _ H) as [Hlt|Heq].
  - apply xi_of_real_above; exact Hlt.
  - rewrite xi_of_real_below by lra.
    replace (n * n - x * x) with 0 by lra.
    replace (x * x - n * n) with 0 by lra.
    rewrite sqrt_0. reflexivity.
Qed.

Lemma Cexp_imag (y : R) : Cexp (0, y) = (cos y, sin y).
Proof. unfold Cexp; simpl. rewrite exp_0. f_equal; ring. Qed.

Lemma Cexp_real (y : R) : Cexp (y, 0) = (exp y, 0).
Proof. unfold Cexp; simpl. rewrite cos_0, sin_0. f_equal; ring. Qed.

(** [f(n_11) = Re(S[0, 0])] where the wave is evanescent in the two
    claddings and propagates in the film. *)
Definition guided_value (kappa0 beta kappa2 phi : R) : R :=
  (beta * (kappa0 + kappa2) * cos phi
   - (beta * beta - kappa0 * kappa2) * sin phi) / (2 * kappa0 * beta).

Lemma film_guided_re (kappa0 beta kappa2 k d : R) :
  0 < kappa0 -> 0 < beta ->
  Re (m00 (film_matrix (0, kappa0) (RtoC beta) (0, kappa2) k d))
  = guided_value kappa0 beta kappa2 (beta * k * d).
Proof.
  intros H0 H1.
  rewrite film_matrix_m00;
    try (apply C_neq0_im; simpl; lra); try (apply C_neq0_re; simpl; lra).
  replace (- Ci * (RtoC beta * RtoC k) * RtoC d)%C with (0, - (beta * k * d))
    by (apply C_ext; simpl; ring).
  replace (Ci * (RtoC beta * RtoC k) * RtoC d)%C with (0, beta * k * d)
    by (apply C_ext; simpl; ring).
  rewrite !Cexp_imag, cos_neg, sin_neg.
  unfold guided_value, Cdiv, Cmul, Cinv, Cnorm2, Cadd, Csub, Copp, RtoC.
  simpl. field. lra.
Qed.

(** The same where the wave is evanescent in all three layers. *)
Definition evanescent_value (kappa0 kappa1 kappa2 y : R) : R :=
  ((kappa0 + kappa1) * (kappa1 + kappa2) * exp y
   + (kappa0 - kappa1) * (kappa1 - kappa2) * exp (- y))
  / (4 * kappa0 * kappa1).

Lemma film_evanescent_re (kappa0 kappa1 kappa2 k d : R) :
  0 < kappa0 -> 0 < kappa1 -> 0 <= kappa2 ->
  Re (m00 (film_matrix (0, kappa0) (0, kappa1) (0, kappa2) k d))
  = evanescent_value kappa0 kappa1 kappa2 (kappa1 * k * d).
Proof.
  intros H0 H1 H2.
  rewrite film_matrix_m00; try (apply C_neq0_im; simpl; lra).
  replace (- Ci * ((0, kappa1) * RtoC k) * RtoC d)%C with (kappa1 * k * d, 0)
    by (apply C_ext; simpl; ring).
  replace (Ci * ((0, kappa1) * RtoC k) * RtoC d)%C with (- (kappa1 * k * d), 0)
    by (apply C_ext; simpl; ring).
  rewrite !Cexp_real.
  unfold evanescent_value, Cdiv, Cmul, Cinv, Cnorm2, Cadd, Csub, Copp, RtoC.
  simpl. field. lra.
Qed.

Lemma exp_ge_1 (y : R) : 0 <= y -> 1 <= exp y.
Proof.
  intros [H|<-]; [|rewrite exp_0; lra].
  rewrite <- exp_0. left. apply exp_increasing. exact H.
Qed.

Lemma exp_neg_le_1 (y : R) : 0 <= y -> 0 < exp (- y) <= 1.
Proof.
  intros H. split; [apply exp_pos|].
  destruct H as [H|<-]; [|rewrite Ropp_0, exp_0; lra].
  rewrite <- exp_0. left. apply exp_increasing. lra.
Qed.

Lemma evanescent_value_pos (kappa0 kappa1 kappa2 y : R) :
  0 < kappa0 -> 0 < kappa1 -> 0 <= kappa2 -> 0 <= y ->
  0 < evanescent_value kappa0 kappa1 kappa2 y.
Proof.
  intros H0 H1 H2 Hy. unfold evanescent_value.
  pose proof (exp_ge_1 Hy) as He. pose proof (exp_neg_le_1 Hy) as [Hn1 Hn2].
  apply Rdiv_lt_0_compat; [|nra].
  set (P := (kappa0 + kappa1) * (kappa1 + kappa2)).
  set (Q := (kappa0 - kappa1) * (kappa1 - kappa2)).
  assert (HP : 0 < P) by (unfold P; nra).
  assert (HPQ : 0 < P + Q).
  { replace (P + Q) with (2 * kappa1 * (kappa0 + kappa2)) by (unfold P, Q; ring).
    nra. }
  assert (Ha : P <= P * exp y) by nra.
  destruct (Rle_dec 0 Q) as [Hq|Hq]; [nra|].
  assert (Hc : Q <= Q * exp (- y)) by nra.
  lra.
Qed.

Lemma guided_value_pos (kappa0 beta kappa2 phi : R) :
  0 < kappa0 -> 0 < beta -> 0 <= kappa2 ->
  beta * beta <= kappa0 * kappa2 ->
  0 < phi < PI / 2 ->
  0 < guided_value kappa0 beta kappa2 phi.
Proof.
  intros H0 H1 H2 Hb Hphi. unfold guided_value.
  assert (Hc : 0 < cos phi) by (apply cos_gt_0; lra).
  assert (Hs : 0 < sin phi) by (apply sin_gt_0; lra).
  apply Rdiv_lt_0_compat; [|nra].
  assert (Ha : 0 < beta * (kappa0 + kappa2) * cos phi).
  { apply Rmult_lt_0_compat; [nra|exact Hc]. }
  assert (Hd : 0 <= (kappa0 * kappa2 - beta * beta) * sin phi).
  { apply Rmult_le_pos; lra. }
  nra.
Qed.

Lemma float_max_large : 27 < float_max.
Proof.
  unfold float_max.
  assert (H1 : 32 <= 2 ^ 1023).
  { replace 32 with (2 ^ 5) by (simpl; ring). apply Rle_pow; [lra|lia]. }
  assert (H2 : 0 < / 2 ^ 52 <= 1).
  { split; [apply Rinv_0_lt_compat, pow_lt; lra|].
    rewrite <- Rinv_1. apply Rinv_le_contravar; [lra|].
    apply pow_R1_Rle. lra. }
  nra.
Qed.

Lemma exp_3_le : exp 3 <= 27.
Proof.
  replace 3 with (1 + (1 + 1)) by ring. rewrite !exp_plus.
  pose proof exp_le_3 as H. pose proof (exp_pos 1) as Hp. nra.
Qed.

(** A film of real index [n1] between claddings of real indices [n0] and
    [n2], TE polarisation and E field, the wavelength set. *)
Record real_film (tm : Lifetmm.TransferMatrix) (n0 n1 n2 d k : R) : Prop := {
  rf_n : Lifetmm.n_list tm = [RtoC n0; RtoC n1; RtoC n2];
  rf_d : exists d0 d2, Lifetmm.d_list tm = [d0; d; d2];
  rf_N : Lifetmm.num_layers tm = 3%nat;
  rf_k : Lifetmm.k_vac tm = Some k;
  rf_pol : is_p (Lifetmm.pol tm) = false;
  rf_field : Lifetmm.field tm = field_E;
  rf_dpos : 0 < d;
  rf_kpos : 0 < k
}.

Lemma real_film_with_n_11 (tm : Lifetmm.TransferMatrix) (n0 n1 n2 d k : R)
    (z : C) :
  real_film tm n0 n1 n2 d k -> real_film (Lifetmm.with_n_11 tm z) n0 n1 n2 d k.
Proof. intros [H1 H2 H3 H4 H5 H6 H7 H8]. constructor; assumption. Qed.

Lemma film_probe_guided (tm : Lifetmm.TransferMatrix) (n0 n1 n2 d k x : R) :
  real_film tm n0 n1 n2 d k ->
  n0 * n0 < x * x -> n2 * n2 <= x * x -> x * x < n1 * n1 ->
  Lifetmm.calc_s11 x tm =
  (Ok (Exact (guided_value (sqrt (x * x - n0 * n0)) (sqrt (n1 * n1 - x * x))
                (sqrt (x * x - n2 * n2)) (sqrt (n1 * n1 - x * x) * k * d))),
   Lifetmm.with_n_11 tm (RtoC x)).
Proof.
  intros Hrf H0 H2 H1. rewrite calc_s11_eq. f_equal.
  apply (real_film_with_n_11 (RtoC x)) in Hrf.
  destruct Hrf as [Hn [d0 [d2 Hd]] HN Hk Hp Hf Hdpos Hkpos].
  set (tm' := Lifetmm.with_n_11 tm (RtoC x)) in *.
  assert (K0 : 0 < sqrt (x * x - n0 * n0)) by (apply sqrt_lt_R0; lra).
  assert (B1 : 0 < sqrt (n1 * n1 - x * x)) by (apply sqrt_lt_R0; lra).
  assert (E0 : xi_of (RtoC n0) (Lifetmm.n_11 tm') = (0, sqrt (x * x - n0 * n0))).
  { apply xi_of_real_ge. lra. }
  assert (E1 : xi_of (RtoC n1) (Lifetmm.n_11 tm') = RtoC (sqrt (n1 * n1 - x * x))).
  { apply xi_of_real_below. lra. }
  assert (E2 : xi_of (RtoC n2) (Lifetmm.n_11 tm') = (0, sqrt (x * x - n2 * n2))).
  { apply xi_of_real_ge. exact H2. }
  rewrite (@film_s_matrix tm' (RtoC n0) (RtoC n1) (RtoC n2) d0 d d2 k
             Hn Hd HN Hk Hp Hf); rewrite ?E0, ?E1, ?E2.
  - cbn [entry imap]. rewrite film_guided_re by assumption. reflexivity.
  - apply C_neq0_im; simpl; lra.
  - apply C_neq0_re; simpl; lra.
  - apply C_neq0_re; simpl; lra.
  - apply C_neq0_re; simpl; lra.
  - exact Hdpos.
  - replace (- Ci * (RtoC (sqrt (n1 * n1 - x * x)) * RtoC k) * RtoC d)%C
      with (0, - (sqrt (n1 * n1 - x * x) * k * d))
      by (apply C_ext; simpl; ring).
    rewrite Cexp_imag. unfold Cltb. cbn [Re Im fst snd RtoC].
    assert (Hlt : Rltb (cos (- (sqrt (n1 * n1 - x * x) * k * d))) float_max = true).
    { apply Rltb_true.
      pose proof (COS_bound (- (sqrt (n1 * n1 - x * x) * k * d))) as [_ Hc].
      pose proof float_max_large. lra. }
    rewrite Hlt. reflexivity.
Qed.

Lemma film_probe_evanescent (tm : Lifetmm.TransferMatrix)
    (n0 n1 n2 d k x : R) :
  real_film tm n0 n1 n2 d k ->
  n0 * n0 < x * x -> n2 * n2 <= x * x -> n1 * n1 < x * x ->
  sqrt (x * x - n1 * n1) * k * d <= 3 ->
  Lifetmm.calc_s11 x tm =
  (Ok (Exact (evanescent_value (sqrt (x * x - n0 * n0))
                (sqrt (x * x - n1 * n1)) (sqrt (x * x - n2 * n2))
                (sqrt (x * x - n1 * n1) * k * d))),
   Lifetmm.with_n_11 tm (RtoC x)).
Proof.
  intros Hrf H0 H2 H1 Hy. rewrite calc_s11_eq. f_equal.
  apply (real_film_with_n_11 (RtoC x)) in Hrf.
  destruct Hrf as [Hn [d0 [d2 Hd]] HN Hk Hp Hf Hdpos Hkpos].
  set (tm' := Lifetmm.with_n_11 tm (RtoC x)) in *.
  assert (K0 : 0 < sqrt (x * x - n0 * n0)) by (apply sqrt_lt_R0; lra).
  assert (K1 : 0 < sqrt (x * x - n1 * n1)) by (apply sqrt_lt_R0; lra).
  assert (K2 : 0 <= sqrt (x * x - n2 * n2)) by apply sqrt_pos.
  assert (E0 : xi_of (RtoC n0) (Lifetmm.n_11 tm') = (0, sqrt (x * x - n0 * n0))).
  { apply xi_of_real_ge. lra. }
  assert (E1 : xi_of (RtoC n1) (Lifetmm.n_11 tm') = (0, sqrt (x * x - n1 * n1))).
  { apply xi_of_real_ge. lra. }
  assert (E2 : xi_of (RtoC n2) (Lifetmm.n_11 tm') = (0, sqrt (x * x - n2 * n2))).
  { apply xi_of_real_ge. exact H2. }
  rewrite (@film_s_matrix tm' (RtoC n0) (RtoC n1) (RtoC n2) d0 d d2 k
             Hn Hd HN Hk Hp Hf); rewrite ?E0, ?E1, ?E2.
  - cbn [entry imap]. rewrite film_evanescent_re by assumption. reflexivity.
  - apply C_neq0_im; simpl; lra.
  - apply C_neq0_im; simpl; lra.
  - apply C_neq0_im; simpl; lra.
  - apply C_neq0_im; simpl; lra.
  - exact Hdpos.
  - replace (- Ci * ((0, sqrt (x * x - n1 * n1)) * RtoC k) * RtoC d)%C
      with (sqrt (x * x - n1 * n1) * k * d, 0)
      by (apply C_ext; simpl; ring).
    rewrite Cexp_real. rewrite Cltb_RtoC_pair.
    apply Rltb_true.
    assert (He : exp (sqrt (x * x - n1 * n1) * k * d) <= exp 3).
    { destruct Hy as [Hy| ->]; [left; apply exp_increasing; exact Hy|lra]. }
    pose proof exp_3_le. pose proof float_max_large. lra.
Qed.

(** ** A weakly guiding film near cut-off

    Air, a film of index 1.2000075 and thickness 125/3, and a substrate of
    index 1.1999925, lengths in units in which the wavelengths below are
    1, 2 and 3.  The scan interval is one and a half steps wide. *)

Definition n_film : R := 480003 / 400000.
Definition n_sub : R := 479997 / 400000.
Definition d_film : R := 125 / 3.

Definition slab (lam : R) : Lifetmm.TransferMatrix :=
  Lifetmm.mkTM [0; d_film; 0] [RtoC 1; RtoC n_film; RtoC n_sub]
               (cumsum [0; d_film; 0]) 3
               (Some lam) (Some (2 * PI / lam)) (Some (c_light * (2 * PI / lam)))
               field_E pol_TE 0 C0.

Lemma add_layer_ok (d : R) (n : C) (tm : Lifetmm.TransferMatrix) :
  0 <= d -> (Lifetmm.num_layers tm = 0%nat -> Im n = 0) ->
  Lifetmm.add_layer d n tm
  = Ok (Lifetmm.mkTM (Lifetmm.d_list tm ++ [d]) (Lifetmm.n_list tm ++ [n])
          (cumsum (Lifetmm.d_list tm ++ [d])) (length (Lifetmm.d_list tm ++ [d]))
          (Lifetmm.lam_vac tm) (Lifetmm.k_vac tm) (Lifetmm.omega tm)
          (Lifetmm.field tm) (Lifetmm.pol tm) (Lifetmm.th tm) (Lifetmm.n_11 tm)).
Proof.
  intros Hd Hn. unfold Lifetmm.add_layer.
  assert (E : Rleb 0 d = true) by (apply Rleb_true; exact Hd).
  rewrite E. cbn [assert rbind].
  destruct (Nat.eqb_spec (Lifetmm.num_layers tm) 0) as [H0|H0].
  - assert (E' : Reqb (Im n) 0 = true) by (apply Reqb_true; auto).
    rewrite E'. reflexivity.
  - reflexivity.
Qed.

Lemma set_vacuum_wavelength_ok (lam : R) (tm : Lifetmm.TransferMatrix) :
  0 < lam -> (0 < Lifetmm.num_layers tm)%nat ->
  Lifetmm.set_vacuum_wavelength lam tm
  = Ok (Lifetmm.mkTM (Lifetmm.d_list tm) (Lifetmm.n_list tm)
          (Lifetmm.d_cumulative tm) (Lifetmm.num_layers tm)
          (Some lam) (Some (2 * PI / lam)) (Some (c_light * (2 * PI / lam)))
          (Lifetmm.field tm) (Lifetmm.pol tm) (Lifetmm.th tm) (Lifetmm.n_11 tm)).
Proof.
  intros Hlam HN. unfold Lifetmm.set_vacuum_wavelength.
  assert (E : Rltb 0 lam = true) by (apply Rltb_true; exact Hlam).
  assert (E' : Nat.ltb 0 (Lifetmm.num_layers tm) = true)
    by (apply Nat.ltb_lt; exact HN).
  rewrite E, E'. reflexivity.
Qed.

(** The object is the one the public methods build. *)
Lemma slab_built (lam : R) :
  0 < lam ->
  (s1 <- Lifetmm.add_layer 0 (RtoC 1) Lifetmm.init ;;
   s2 <- Lifetmm.add_layer d_film (RtoC n_film) s1 ;;
   s3 <- Lifetmm.add_layer 0 (RtoC n_sub) s2 ;;
   Lifetmm.set_vacuum_wavelength lam s3)%result = Ok (slab lam).
Proof.
  intros Hlam.
  rewrite add_layer_ok by (try reflexivity; lra). cbn [rbind].
  rewrite add_layer_ok by (try (simpl; discriminate); unfold d_film; lra).
  cbn [rbind].
  rewrite add_layer_ok by (try (simpl; discriminate); lra). cbn [rbind].
  rewrite set_vacuum_wavelength_ok by (try exact Hlam; simpl; lia).
  reflexivity.
Qed.

Lemma slab_real_film (lam : R) (tm : Lifetmm.TransferMatrix) :
  0 < lam -> only_n_11_changed (slab lam) tm ->
  real_film tm 1 n_film n_sub d_film (2 * PI / lam).
Proof.
  intros Hlam Hfr. rewrite Hfr. apply real_film_with_n_11.
  constructor; try reflexivity.
  - exists 0, 0. reflexivity.
  - unfold d_film; lra.
  - pose proof PI_RGT_0. apply Rdiv_lt_0_compat; lra.
Qed.

Lemma slab_with_n_11 (lam : R) (tm : Lifetmm.TransferMatrix) (z : C) :
  only_n_11_changed (slab lam) tm ->
  Lifetmm.with_n_11 tm z = Lifetmm.with_n_11 (slab lam) z.
Proof. intros ->. reflexivity. Qed.

(** The four probes of the scan. *)
Definition p0 : R := n_sub.
Definition p1 : R := p0 + Lifetmm.default_eps.
Definition p2 : R := p1 + Lifetmm.default_eps.
Definition p3 : R := p2 + Lifetmm.default_eps.

Ltac unfold_probes :=
  unfold p3, p2, p1, p0, n_film, n_sub, d_film, Lifetmm.default_eps in *.

(** [Re S[0, 0]] at the four probes. *)
Definition v0 (lam : R) : R :=
  guided_value (sqrt (p0 * p0 - 1 * 1)) (sqrt (n_film * n_film - p0 * p0))
    (sqrt (p0 * p0 - n_sub * n_sub))
    (sqrt (n_film * n_film - p0 * p0) * (2 * PI / lam) * d_film).

Definition v1 (lam : R) : R :=
  guided_value (sqrt (p1 * p1 - 1 * 1)) (sqrt (n_film * n_film - p1 * p1))
    (sqrt (p1 * p1 - n_sub * n_sub))
    (sqrt (n_film * n_film - p1 * p1) * (2 * PI / lam) * d_film).

Definition v_beyond (lam x : R) : R :=
  evanescent_value (sqrt (x * x - 1 * 1)) (sqrt (x * x - n_film * n_film))
    (sqrt (x * x - n_sub * n_sub))
    (sqrt (x * x - n_film * n_film) * (2 * PI / lam) * d_film).

Lemma slab_probe0 (lam : R) (tm : Lifetmm.TransferMatrix) :
  0 < lam -> only_n_11_changed (slab lam) tm ->
  Lifetmm.calc_s11 p0 tm
  = (Ok (Exact (v0 lam)), Lifetmm.with_n_11 (slab lam) (RtoC p0)).
Proof.
  intros Hlam Hfr.
  rewrite (@film_probe_guided tm 1 n_film n_sub d_film (2 * PI / lam) p0
             (slab_real_film Hlam Hfr)); try (unfold_probes; lra).
  rewrite (slab_with_n_11 _ Hfr). reflexivity.
Qed.

Lemma slab_probe1 (lam : R) (tm : Lifetmm.TransferMatrix) :
  0 < lam -> only_n_11_changed (slab lam) tm ->
  Lifetmm.calc_s11 p1 tm
  = (Ok (Exact (v1 lam)), Lifetmm.with_n_11 (slab lam) (RtoC p1)).
Proof.
  intros Hlam Hfr.
  rewrite (@film_probe_guided tm 1 n_film n_sub d_film (2 * PI / lam) p1
             (slab_real_film Hlam Hfr)); try (unfold_probes; lra).
  rewrite (slab_with_n_11 _ Hfr). reflexivity.
Qed.

Lemma sqrt_le_bound (x c : R) : 0 <= c -> x <= c * c -> sqrt x <= c.
Proof.
  intros Hc Hx. destruct (Rle_dec 0 x) as [H|H].
  - rewrite <- (sqrt_square c) by exact Hc. apply sqrt_le_1; nra.
  - rewrite sqrt_neg_0 by lra. exact Hc.
Qed.

Lemma sqrt_lt_bound (x c : R) : 0 < c -> x < c * c -> sqrt x < c.
Proof.
  intros Hc Hx. destruct (Rle_dec 0 x) as [H|H].
  - rewrite <- (sqrt_square c) by lra. apply sqrt_lt_1; nra.
  - rewrite sqrt_neg_0 by lra. exact Hc.
Qed.

Lemma sqrt_ge_bound (x c : R) : 0 <= c -> c * c <= x -> c <= sqrt x.
Proof.
  intros Hc Hx. rewrite <- (sqrt_square c) at 1 by exact Hc.
  apply sqrt_le_1; nra.
Qed.

Lemma slab_beyond_bound (lam x : R) :
  1 <= lam -> x * x - n_film * n_film <= (7 / 1000) * (7 / 1000) ->
  sqrt (x * x - n_film * n_film) * (2 * PI / lam) * d_film <= 3.
Proof.
  intros Hlam Hx.
  assert (Hs : sqrt (x * x - n_film * n_film) <= 7 / 1000)
    by (apply sqrt_le_bound; lra).
  pose proof (sqrt_pos (x * x - n_film * n_film)) as Hs0.
  pose proof PI_4 as Hpi. pose proof PI_RGT_0 as Hpi0.
  assert (Hk : 0 < 2 * PI / lam <= 8).
  { split; [apply Rdiv_lt_0_compat; lra|].
    apply Rle_trans with (2 * PI / 1); [|lra].
    unfold Rdiv. apply Rmult_le_compat_l; [lra|].
    apply Rinv_le_contravar; lra. }
  unfold d_film.
  assert (Hp : sqrt (x * x - n_film * n_film) * (2 * PI / lam) <= 7 / 1000 * 8).
  { apply Rmult_le_compat; lra. }
  nra.
Qed.

Lemma slab_probe_beyond (lam x : R) (tm : Lifetmm.TransferMatrix) :
  1 <= lam -> only_n_11_changed (slab lam) tm ->
  n_film * n_film < x * x ->
  x * x - n_film * n_film <= (7 / 1000) * (7 / 1000) ->
  Lifetmm.calc_s11 x tm
  = (Ok (Exact (v_beyond lam x)), Lifetmm.with_n_11 (slab lam) (RtoC x))
  /\ 0 < v_beyond lam x.
Proof.
  intros Hlam Hfr Hx Hb.
  assert (Hlam0 : 0 < lam) by lra.
  pose proof (slab_beyond_bound Hlam Hb) as Hy. split.
  - rewrite (@film_probe_evanescent tm 1 n_film n_sub d_film (2 * PI / lam) x
               (slab_real_film Hlam0 Hfr));
      try exact Hy; try (unfold_probes; lra).
    rewrite (slab_with_n_11 _ Hfr). reflexivity.
  - unfold v_beyond. apply evanescent_value_pos.
    + apply sqrt_lt_R0. unfold_probes; lra.
    + apply sqrt_lt_R0. lra.
    + apply sqrt_pos.
    + pose proof PI_RGT_0.
      assert (0 < 2 * PI / lam) by (apply Rdiv_lt_0_compat; lra).
      pose proof (sqrt_pos (x * x - n_film * n_film)).
      unfold d_film. apply Rmult_le_pos; [apply Rmult_le_pos|]; lra.
Qed.

(** The signs of [Re S[0, 0]] at the probes inside the interval. *)
Lemma beta0_value : sqrt (n_film * n_film - p0 * p0) = 3 / 500.
Proof.
  replace (n_film * n_film - p0 * p0) with ((3 / 500) * (3 / 500))
    by (unfold_probes; field).
  apply sqrt_square. lra.
Qed.

Lemma kappa2_at_p0 : sqrt (p0 * p0 - n_sub * n_sub) = 0.
Proof.
  replace (p0 * p0 - n_sub * n_sub) with 0 by (unfold p0; ring).
  apply sqrt_0.
Qed.

Lemma kappa0_at_p0 : 3 / 5 <= sqrt (p0 * p0 - 1 * 1).
Proof. apply sqrt_ge_bound; unfold_probes; lra. Qed.

Lemma phase_at_p0 (lam : R) :
  lam <> 0 ->
  sqrt (n_film * n_film - p0 * p0) * (2 * PI / lam) * d_film = PI / (2 * lam).
Proof. intros H. rewrite beta0_value. unfold d_film. field. exact H. Qed.

(** At the wavelength 1 the film is a quarter wave thick at the lower end
    of the interval, and [Re S[0, 0]] is negative there. *)
Lemma v0_neg : v0 1 < 0.
Proof.
  unfold v0. rewrite phase_at_p0 by lra. rewrite kappa2_at_p0, beta0_value.
  replace (PI / (2 * 1)) with (PI / 2) by field.
  unfold guided_value. rewrite cos_PI2, sin_PI2.
  pose proof kappa0_at_p0 as Hk.
  set (kappa0 := sqrt (p0 * p0 - 1 * 1)) in *.
  replace ((3 / 500 * (kappa0 + 0) * 0 - (3 / 500 * (3 / 500) - kappa0 * 0) * 1)
           / (2 * kappa0 * (3 / 500)))
    with (- ((3 / 500) / (2 * kappa0))) by (field; lra).
  assert (0 < 3 / 500 / (2 * kappa0)) by (apply Rdiv_lt_0_compat; lra).
  lra.
Qed.

(** At the wavelength 3 it is positive. *)
Lemma v0_pos : 0 < v0 3.
Proof.
  unfold v0. rewrite phase_at_p0 by lra. rewrite kappa2_at_p0, beta0_value.
  replace (PI / (2 * 3)) with (PI / 6) by field.
  unfold guided_value. rewrite cos_PI6, sin_PI6.
  pose proof kappa0_at_p0 as Hk.
  set (kappa0 := sqrt (p0 * p0 - 1 * 1)) in *.
  assert (H3 : 1 <= sqrt 3).
  { rewrite <- sqrt_1 at 1. apply sqrt_le_1; lra. }
  apply Rdiv_lt_0_compat; [|lra].
  nra.
Qed.

Lemma v1_pos (lam : R) : 1 <= lam -> 0 < v1 lam.
Proof.
  intros Hlam. unfold v1.
  assert (B : 0 < sqrt (n_film * n_film - p1 * p1) < 3 / 500).
  { split; [apply sqrt_lt_R0; unfold_probes; lra|].
    apply sqrt_lt_bound; [lra|unfold_probes; lra]. }
  assert (K0 : 3 / 500 <= sqrt (p1 * p1 - 1 * 1))
    by (apply sqrt_ge_bound; unfold_probes; lra).
  assert (K2 : sqrt (n_film * n_film - p1 * p1) <= sqrt (p1 * p1 - n_sub * n_sub)).
  { apply sqrt_le_1; unfold_probes; lra. }
  pose proof PI_RGT_0 as Hpi.
  apply guided_value_pos; try lra.
  - nra.
  - set (beta := sqrt (n_film * n_film - p1 * p1)) in *.
    unfold d_film.
    replace (beta * (2 * PI / lam) * (125 / 3))
      with (PI / 2 * (beta * (500 / 3) / lam)) by (field; lra).
    assert (Hq : 0 < beta * (500 / 3) / lam < 1).
    { split; [apply Rdiv_lt_0_compat; lra|].
      apply Rle_lt_trans with (beta * (500 / 3)); [|lra].
      unfold Rdiv at 1. rewrite <- (Rmult_1_r (beta * (500 / 3))) at 2.
      apply Rmult_le_compat_l; [lra|].
      rewrite <- Rinv_1. apply Rinv_le_contravar; lra. }
    nra.
Qed.

(** *** The scans of the film *)

Section SlabScan.

Variable ieee_gt0 : R -> R -> bool.
Variable brentq_next :
  R -> R -> list (R * ieee R) -> HelperFunctions.solver_action.

#[warnings="-notation-for-abbreviation"]
Notation root_search := (HelperFunctions.root_search ieee_gt0).
#[warnings="-notation-for-abbreviation"]
Notation roots_loop := (HelperFunctions.roots_loop ieee_gt0 brentq_next).

Lemma prod_gt0_exact (x y v w : R) :
  HelperFunctions.prod_gt0 ieee_gt0 x y (Exact v) (Exact w) = Rltb 0 (v * w).
Proof. reflexivity. Qed.

Lemma only_n_11_slab (lam : R) (z : C) :
  only_n_11_changed (slab lam) (Lifetmm.with_n_11 (slab lam) z).
Proof. reflexivity. Qed.

Lemma hi_reached_p2 : Rleb n_film p2 = true.
Proof. apply Rleb_true. unfold_probes. lra. Qed.

Lemma hi_not_reached_p1 : Rleb n_film p1 = false.
Proof. apply Rleb_false. unfold_probes. lra. Qed.

Lemma hi_not_reached_p0 : Rleb n_film p0 = false.
Proof. apply Rleb_false. unfold_probes. lra. Qed.

Lemma p2_beyond : n_film * n_film < p2 * p2
                  /\ p2 * p2 - n_film * n_film <= 7 / 1000 * (7 / 1000).
Proof. unfold_probes. lra. Qed.

Lemma p3_beyond : n_film * n_film < p3 * p3
                  /\ p3 * p3 - n_film * n_film <= 7 / 1000 * (7 / 1000).
Proof. unfold_probes. lra. Qed.

(** From the lower end, at the wavelength 1: the first two probes bracket
    a sign change. *)
Lemma slab_search_bracket (tm : Lifetmm.TransferMatrix) :
  only_n_11_changed (slab 1) tm ->
  root_search 4 Lifetmm.calc_s11 p0 n_film Lifetmm.default_eps tm
  = (Ok (Some (p0, p1)), Lifetmm.with_n_11 (slab 1) (RtoC p1)).
Proof.
  intros Hfr. unfold HelperFunctions.root_search, bind, lift.
  assert (E : Rleb p0 n_film = true) by (apply Rleb_true; unfold_probes; lra).
  rewrite E. cbn [assert].
  rewrite (slab_probe0 (lam := 1)) by (try exact Hfr; lra).
  change (p0 + Lifetmm.default_eps) with p1.
  rewrite (slab_probe1 (lam := 1)) by (try apply only_n_11_slab; lra).
  rewrite root_search_loop_S, prod_gt0_exact.
  assert (Hs : Rltb 0 (v0 1 * v1 1) = false).
  { apply Rltb_false. pose proof v0_neg. pose proof (@v1_pos 1 (Rle_refl 1)). nra. }
  rewrite Hs. reflexivity.
Qed.

(** From the second probe on, at any wavelength not below 1: no sign
    change up to the end of the scan. *)
Lemma slab_search_rest (lam : R) (tm : Lifetmm.TransferMatrix) :
  1 <= lam -> only_n_11_changed (slab lam) tm ->
  root_search 4 Lifetmm.calc_s11 p1 n_film Lifetmm.default_eps tm
  = (Ok None, Lifetmm.with_n_11 (slab lam) (RtoC p3)).
Proof.
  intros Hlam Hfr. assert (Hlam0 : 0 < lam) by lra.
  unfold HelperFunctions.root_search, bind, lift.
  assert (E : Rleb p1 n_film = true) by (apply Rleb_true; unfold_probes; lra).
  rewrite E. cbn [assert].
  rewrite (slab_probe1 Hlam0 Hfr).
  change (p1 + Lifetmm.default_eps) with p2.
  destruct p2_beyond as [H2a H2b]. destruct p3_beyond as [H3a H3b].
  destruct (@slab_probe_beyond lam p2 _ Hlam (only_n_11_slab lam (RtoC p1)) H2a H2b)
    as [E2 V2].
  rewrite E2.
  rewrite root_search_loop_S, prod_gt0_exact.
  assert (Hs1 : Rltb 0 (v1 lam * v_beyond lam p2) = true).
  { apply Rltb_true. pose proof (v1_pos Hlam). nra. }
  rewrite Hs1, hi_not_reached_p1. unfold bind.
  change (p2 + Lifetmm.default_eps) with p3.
  destruct (@slab_probe_beyond lam p3 _ Hlam (only_n_11_slab lam (RtoC p2)) H3a H3b)
    as [E3 V3].
  rewrite E3.
  rewrite root_search_loop_S, prod_gt0_exact.
  assert (Hs2 : Rltb 0 (v_beyond lam p2 * v_beyond lam p3) = true).
  { apply Rltb_true. nra. }
  rewrite Hs2, hi_reached_p2. reflexivity.
Qed.

(** From the lower end, at the wavelength 3: no sign change at all. *)
Lemma slab_search_none (tm : Lifetmm.TransferMatrix) :
  only_n_11_changed (slab 3) tm ->
  root_search 4 Lifetmm.calc_s11 p0 n_film Lifetmm.default_eps tm
  = (Ok None, Lifetmm.with_n_11 (slab 3) (RtoC p3)).
Proof.
  intros Hfr. assert (Hlam : 1 <= 3) by lra. assert (Hlam0 : 0 < 3) by lra.
  unfold HelperFunctions.root_search, bind, lift.
  assert (E : Rleb p0 n_film = true) by (apply Rleb_true; unfold_probes; lra).
  rewrite E. cbn [assert].
  rewrite (slab_probe0 Hlam0 Hfr).
  change (p0 + Lifetmm.default_eps) with p1.
  rewrite (slab_probe1 Hlam0 (only_n_11_slab 3 (RtoC p0))).
  rewrite root_search_loop_S, prod_gt0_exact.
  assert (Hs0 : Rltb 0 (v0 3 * v1 3) = true).
  { apply Rltb_true. pose proof v0_pos. pose proof (v1_pos Hlam). nra. }
  rewrite Hs0, hi_not_reached_p0. unfold bind.
  change (p1 + Lifetmm.default_eps) with p2.
  destruct p2_beyond as [H2a H2b]. destruct p3_beyond as [H3a H3b].
  destruct (@slab_probe_beyond 3 p2 _ Hlam (only_n_11_slab 3 (RtoC p1)) H2a H2b)
    as [E2 V2].
  rewrite E2.
  rewrite root_search_loop_S, prod_gt0_exact.
  assert (Hs1 : Rltb 0 (v1 3 * v_beyond 3 p2) = true).
  { apply Rltb_true. pose proof (v1_pos Hlam). nra. }
  rewrite Hs1, hi_not_reached_p1. unfold bind.
  change (p2 + Lifetmm.default_eps) with p3.
  destruct (@slab_probe_beyond 3 p3 _ Hlam (only_n_11_slab 3 (RtoC p2)) H3a H3b)
    as [E3 V3].
  rewrite E3.
  rewrite root_search_loop_S, prod_gt0_exact.
  assert (Hs2 : Rltb 0 (v_beyond 3 p2 * v_beyond 3 p3) = true).
  { apply Rltb_true. nra. }
  rewrite Hs2, hi_reached_p2. reflexivity.
Qed.

End SlabScan.

Lemma pymax_left (a b : R) : b <= a -> pymax a b = a.
Proof. intros H. unfold pymax. apply Rltb_false in H. rewrite H. reflexivity. Qed.

Lemma pymax_right (a b : R) : a < b -> pymax a b = b.
Proof. intros H. unfold pymax. apply Rltb_true in H. rewrite H. reflexivity. Qed.

Lemma pymin_left (a b : R) : a <= b -> pymin a b = a.
Proof. intros H. unfold pymin. apply Rltb_false in H. rewrite H. reflexivity. Qed.

Lemma slab_supports_guiding (lam : R) (tm : Lifetmm.TransferMatrix) :
  only_n_11_changed (slab lam) tm -> Lifetmm.supports_guiding tm = Ok true.
Proof.
  intros ->. unfold Lifetmm.supports_guiding.
  cbn [Lifetmm.with_n_11 Lifetmm.n_list slab index nth_error index_last
       last_error last rbind interior tl removelast existsb].
  unfold Cpymax. rewrite Cltb_RtoC.
  assert (E1 : Rltb 1 n_sub = true) by (apply Rltb_true; unfold n_sub; lra).
  rewrite E1, Cltb_RtoC.
  assert (E2 : Rltb n_sub n_film = true)
    by (apply Rltb_true; unfold n_sub, n_film; lra).
  rewrite E2. reflexivity.
Qed.

Lemma slab_scan_lower (lam : R) (tm : Lifetmm.TransferMatrix) :
  only_n_11_changed (slab lam) tm -> scan_lower tm = Ok p0.
Proof.
  intros ->. unfold scan_lower.
  cbn [Lifetmm.with_n_11 Lifetmm.n_list slab index nth_error index_last
       last_error last rbind Re RtoC fst].
  rewrite pymax_right by (unfold n_sub; lra). reflexivity.
Qed.

Lemma slab_scan_upper (lam : R) (tm : Lifetmm.TransferMatrix) :
  only_n_11_changed (slab lam) tm -> scan_upper tm = Ok n_film.
Proof.
  intros ->. unfold scan_upper, Lifetmm.max_real, list_max.
  cbn [Lifetmm.with_n_11 Lifetmm.n_list slab map Re RtoC fst fold_left].
  rewrite (pymax_right (a := 1)) by (unfold n_film; lra).
  rewrite pymax_left by (unfold n_sub, n_film; lra). reflexivity.
Qed.

Lemma slab_min_real (lam : R) (tm : Lifetmm.TransferMatrix) :
  only_n_11_changed (slab lam) tm ->
  Lifetmm.min_real (Lifetmm.n_list tm) = Ok 1.
Proof.
  intros ->. unfold Lifetmm.min_real, list_min.
  cbn [Lifetmm.with_n_11 Lifetmm.n_list slab map Re RtoC fst fold_left].
  rewrite (pymin_left (a := 1)) by (unfold n_film; lra).
  rewrite pymin_left by (unfold n_sub; lra). reflexivity.
Qed.

Section SlabModes.

Variable ieee_gt0 : R -> R -> bool.
Variable brentq_next :
  R -> R -> list (R * ieee R) -> HelperFunctions.solver_action.

#[warnings="-notation-for-abbreviation"]
Notation calc_guided_modes := (Lifetmm.calc_guided_modes ieee_gt0 brentq_next).
#[warnings="-notation-for-abbreviation"]
Notation brentq := (HelperFunctions.brentq brentq_next).

(** The prelude of [calc_guided_modes] on the film: it reaches [roots]
    with the interval [[p0, n_film]]. *)
Lemma slab_guided_modes_eq (fuel : nat) (normalised : bool) (lam : R)
    (tm : Lifetmm.TransferMatrix) :
  only_n_11_changed (slab lam) tm ->
  calc_guided_modes fuel normalised tm =
  match HelperFunctions.roots ieee_gt0 brentq_next fuel Lifetmm.calc_s11
          p0 n_film Lifetmm.default_eps tm with
  | (Ok found, tm1) =>
      match Lifetmm.min_real (Lifetmm.n_list tm1) with
      | Ok lo =>
          (Ok (if normalised
               then map (@Exact R) (Lifetmm.delete_near lo (rev found))
               else Lifetmm.scale_by (Lifetmm.k_vac tm1)
                      (Lifetmm.delete_near lo (rev found))), tm1)
      | Raise e => (Raise e, tm1)
      end
  | (Raise e, tm1) => (Raise e, tm1)
  end.
Proof.
  intros Hfr. unfold Lifetmm.calc_guided_modes, bind, lift.
  rewrite (slab_supports_guiding Hfr). cbn [assert].
  pose proof (slab_scan_lower Hfr) as Hlo. pose proof (slab_scan_upper Hfr) as Hhi.
  unfold scan_lower, scan_upper in Hlo, Hhi.
  destruct (index (Lifetmm.n_list tm) 0) as [n0|e]; [|discriminate].
  destruct (index_last (Lifetmm.n_list tm)) as [nl|e]; [|discriminate].
  cbn [rbind] in Hlo. injection Hlo as Hlo.
  rewrite Hhi, Rmult_1_l, Hlo.
  destruct (HelperFunctions.roots ieee_gt0 brentq_next fuel Lifetmm.calc_s11
              p0 n_film Lifetmm.default_eps tm) as [[found|e] tm1];
    [|reflexivity].
  destruct (Lifetmm.min_real (Lifetmm.n_list tm1)); [|reflexivity].
  destruct normalised; reflexivity.
Qed.

(** At the wavelength 3 the film guides nothing. *)
Lemma slab_guided_modes_none (normalised : bool) (tm : Lifetmm.TransferMatrix) :
  only_n_11_changed (slab 3) tm ->
  calc_guided_modes 4 normalised tm
  = (Ok [], Lifetmm.with_n_11 (slab 3) (RtoC p3)).
Proof.
  intros Hfr. rewrite (slab_guided_modes_eq _ _ Hfr).
  unfold HelperFunctions.roots. rewrite roots_loop_S. unfold bind at 1.
  rewrite (slab_search_none ieee_gt0 Hfr). unfold ret.
  rewrite (slab_min_real (only_n_11_slab 3 (RtoC p3))).
  destruct normalised; reflexivity.
Qed.

Lemma py_round_near (x : R) : x - 1 / 200000 <= py_round x 5.
Proof.
  pose proof (py_round_close 5 x) as H.
  assert (E : 1 / 2 / powerRZ 10 5 = 1 / 200000).
  { simpl. field. }
  rewrite E in H. lra.
Qed.

(** At the wavelength 1 it guides one mode, the root [brentq] finds
    between the first two probes. *)
Lemma slab_guided_modes_one (normalised : bool) (tm tmb : Lifetmm.TransferMatrix)
    (root : R) :
  only_n_11_changed (slab 1) tm ->
  brentq Lifetmm.calc_s11 p0 p1 (Lifetmm.with_n_11 (slab 1) (RtoC p1))
  = (Ok root, tmb) ->
  p0 <= root ->
  calc_guided_modes 4 normalised tm
  = (Ok (if normalised then [Exact (py_round root 5)]
         else [Exact (py_round root 5 * (2 * PI / 1))]),
     Lifetmm.with_n_11 (slab 1) (RtoC p3)).
Proof.
  intros Hfr Hb Hroot. rewrite (slab_guided_modes_eq _ _ Hfr).
  unfold HelperFunctions.roots. rewrite roots_loop_S. unfold bind at 1.
  rewrite (slab_search_bracket ieee_gt0 Hfr). unfold bind at 1. rewrite Hb.
  assert (Hfrb : only_n_11_changed (slab 1) tmb).
  { apply (@only_n_11_trans _ (Lifetmm.with_n_11 (slab 1) (RtoC p1)));
      [apply only_n_11_slab|].
    unfold HelperFunctions.brentq in Hb.
    apply (@brentq_loop_ok _ brentq_next Lifetmm.calc_s11 only_n_11_changed
             only_n_11_refl only_n_11_trans calc_s11_frame) in Hb.
    exact (proj1 Hb). }
  assert (Hnz : Reqb root 0 = false).
  { apply Reqb_false. unfold p0, n_sub in Hroot. lra. }
  rewrite Hnz. unfold bind at 1, lift. rewrite round_digits_default.
  rewrite roots_loop_S. unfold bind at 1.
  rewrite (@slab_search_rest ieee_gt0 1 tmb (Rle_refl 1) Hfrb). unfold ret.
  rewrite (slab_min_real (only_n_11_slab 1 (RtoC p3))).
  cbn [app rev]. unfold Lifetmm.delete_near. cbn [filter].
  assert (Hkeep : Rltb (py_round root 5 - 1) (/ 100) = false).
  { apply Rltb_false. pose proof (py_round_near root).
    unfold p0, n_sub in Hroot. lra. }
  rewrite Hkeep. cbn [negb].
  destruct normalised; reflexivity.
Qed.

End SlabModes.

(** A solver that answers with the left end of the bracket at once. *)
Definition left_end_solver (x1 x2 : R) (seen : list (R * ieee R))
  : HelperFunctions.solver_action := HelperFunctions.Return x1.

Lemma left_end_solver_in_bracket : solver_in_bracket left_end_solver.
Proof. intros x1 x2 seen root Hx H. injection H as <-. lra. Qed.

(** ** Order of the guided modes *)

Lemma StronglySorted_map_mono (g : R -> R) (l : list R) :
  (forall x y, x <= y -> g x <= g y) ->
  StronglySorted Rle l -> StronglySorted Rle (map g l).
Proof.
  intros Hg H. induction H as [|x l Hs IH Hf]; simpl; constructor; auto.
  apply Forall_map. eapply Forall_impl; [|exact Hf]. intros y Hy. apply Hg, Hy.
Qed.

Lemma StronglySorted_snoc_ge (l : list R) (x : R) :
  StronglySorted Rge l -> Forall (fun y => y >= x) l ->
  StronglySorted Rge (l ++ [x]).
Proof.
  intros H Hf. induction H as [|y l Hs IH Hy]; simpl.
  - constructor; constructor.
  - inversion Hf as [|? ? Hyx Hf']; subst. constructor; [apply IH; exact Hf'|].
    apply Forall_app. split; [exact Hy|]. constructor; [exact Hyx|constructor].
Qed.

Lemma StronglySorted_rev_ge (l : list R) :
  StronglySorted Rle l -> StronglySorted Rge (rev l).
Proof.
  intros H. induction H as [|x l Hs IH Hf]; simpl; [constructor|].
  apply StronglySorted_snoc_ge; [exact IH|].
  apply Forall_rev. eapply Forall_impl; [|exact Hf]. intros y Hy. lra.
Qed.

Lemma StronglySorted_filter_ge (p : R -> bool) (l : list R) :
  StronglySorted Rge l -> StronglySorted Rge (filter p l).
Proof.
  intros H. induction H as [|x l Hs IH Hf]; simpl; [constructor|].
  destruct (p x); [|exact IH]. constructor; [exact IH|].
  apply Forall_forall. intros y Hy. apply filter_In in Hy.
  rewrite Forall_forall in Hf. apply Hf, Hy.
Qed.

Lemma StronglySorted_scale_ge (k : R) (l : list R) :
  0 <= k -> StronglySorted Rge l ->
  StronglySorted Rge (map (fun x => x * k) l).
Proof.
  intros Hk H. induction H as [|x l Hs IH Hf]; simpl; constructor; auto.
  apply Forall_map. eapply Forall_impl; [|exact Hf]. intros y Hy. simpl. nra.
Qed.

Lemma kept_modes_descending (nmin lo hi : R) (rs : list R) :
  ascending_in lo hi rs -> StronglySorted Rge (kept_modes nmin rs).
Proof.
  intros [Hs _]. unfold kept_modes, Lifetmm.delete_near.
  apply StronglySorted_filter_ge, StronglySorted_rev_ge.
  apply StronglySorted_map_mono; [|exact Hs].
  intros x y Hxy. apply py_round_mono. exact Hxy.
Qed.

Lemma scale_by_some (k : R) (l : list R) :
  Lifetmm.scale_by (Some k) l = map (@Exact R) (map (fun x => x * k) l).
Proof. unfold Lifetmm.scale_by. rewrite map_map. reflexivity. Qed.

(** ** The roots the scan finds

    What [roots] computes, told from the values of [f] alone: the scan
    walks from [a] in steps of [eps]; a pair of neighbouring probes at
    which [f1 * f2 > 0.0] fails is a bracket, the solver's answer on it is
    a root (kept unless it is zero), and the scan goes on from the upper
    end of the bracket, which must not lie beyond [b]; the scan ends at
    the first pair without a sign change whose lower probe has reached
    [b]. *)

Section RootsTrace.

Variable S : Type.
Variable ieee_gt0 : R -> R -> bool.
Variable brentq_next :
  R -> R -> list (R * ieee R) -> HelperFunctions.solver_action.
Variable f : R -> M S (ieee R).

(** [F x] is the value [f] returns at [x] on every object that satisfies
    [inv], and [f] keeps [inv]. *)
Variable F : R -> ieee R.
Variable inv : S -> Prop.
Hypothesis f_value :
  forall x s v s', inv s -> f x s = (Ok v, s') -> v = F x /\ inv s'.

#[warnings="-notation-for-abbreviation"]
Notation root_search_loop := (HelperFunctions.root_search_loop ieee_gt0).
#[warnings="-notation-for-abbreviation"]
Notation root_search := (HelperFunctions.root_search ieee_gt0).
#[warnings="-notation-for-abbreviation"]
Notation brentq_loop := (HelperFunctions.brentq_loop brentq_next).
#[warnings="-notation-for-abbreviation"]
Notation brentq := (HelperFunctions.brentq brentq_next).
#[warnings="-notation-for-abbreviation"]
Notation roots_loop := (HelperFunctions.roots_loop ieee_gt0 brentq_next).
#[warnings="-notation-for-abbreviation"]
Notation roots := (HelperFunctions.roots ieee_gt0 brentq_next).

(** The test [f1 * f2 > 0.0] at the probes [x1] and [x2]. *)
Definition same_sign (x1 x2 : R) : bool :=
  HelperFunctions.prod_gt0 ieee_gt0 x1 x2 (F x1) (F x2).

(** [root] is what the solver returns on the bracket [(x1, x2)], having
    seen values of [f] only. *)
Definition solver_answer (x1 x2 root : R) : Prop :=
  exists seen,
    Forall (fun p => snd p = F (fst p)) seen /\
    brentq_next x1 x2 seen = HelperFunctions.Return root.

Inductive scan (b eps : R) : R -> list R -> Prop :=
| scan_end (a : R) :
    same_sign a (a + eps) = true -> b <= a -> scan b eps a []
| scan_on (a : R) (rs : list R) :
    same_sign a (a + eps) = true -> a < b ->
    scan b eps (a + eps) rs -> scan b eps a rs
| scan_root (a root : R) (rs : list R) :
    same_sign a (a + eps) = false -> a + eps <= b ->
    solver_answer a (a + eps) root ->
    scan b eps (a + eps) rs ->
    scan b eps a (if Reqb root 0 then rs else root :: rs).

Lemma root_search_loop_trace (b dx : R) :
  forall (fuel : nat) (x1 x2 : R) (s s' : S) (res : option (R * R)),
    inv s -> x2 = x1 + dx ->
    root_search_loop fuel f b dx x1 (F x1) x2 (F x2) s = (Ok res, s') ->
    inv s' /\
    match res with
    | Some (y1, y2) =>
        y2 = y1 + dx /\ same_sign y1 (y1 + dx) = false /\
        forall rs, scan b dx y1 rs -> scan b dx x1 rs
    | None => scan b dx x1 []
    end.
Proof.
  induction fuel as [|fuel IH]; intros x1 x2 s s' res Hinv Hx H;
    simpl in H; [discriminate|].
  fold (same_sign x1 x2) in H.
  destruct (same_sign x1 x2) eqn:Hss.
  - destruct (Rleb b x1) eqn:Hb.
    + injection H as <- <-. split; [exact Hinv|].
      apply scan_end; [rewrite <- Hx; exact Hss|apply Rleb_true; exact Hb].
    + unfold bind in H.
      destruct (f (x2 + dx) s) as [[v|e] s1] eqn:Hf; [|discriminate].
      destruct (f_value Hinv Hf) as [-> Hinv1].
      apply IH in H; [|exact Hinv1|reflexivity].
      destruct H as [Hinv' Hres]. split; [exact Hinv'|].
      apply Rleb_false in Hb.
      destruct res as [[y1 y2]|].
      * destruct Hres as (Hy & Hs & Hk). split; [exact Hy|].
        split; [exact Hs|]. intros rs Hrs.
        apply scan_on; [rewrite <- Hx; exact Hss|lra|].
        rewrite <- Hx. apply Hk, Hrs.
      * apply scan_on; [rewrite <- Hx; exact Hss|lra|].
        rewrite <- Hx. exact Hres.
  - injection H as <- <-. split; [exact Hinv|].
    split; [exact Hx|]. split; [rewrite <- Hx; exact Hss|auto].
Qed.

Lemma root_search_trace (fuel : nat) (a b dx : R) (s s' : S)
    (res : option (R * R)) :
  inv s ->
  root_search fuel f a b dx s = (Ok res, s') ->
  inv s' /\ a <= b /\
  match res with
  | Some (y1, y2) =>
      y2 = y1 + dx /\ same_sign y1 (y1 + dx) = false /\
      forall rs, scan b dx y1 rs -> scan b dx a rs
  | None => scan b dx a []
  end.
Proof.
  intros Hinv H. unfold HelperFunctions.root_search, bind, lift in H.
  unfold assert in H. destruct (Rleb a b) eqn:Hab; [|discriminate].
  apply Rleb_true in Hab.
  destruct (f a s) as [[v1|e] s1] eqn:H1; [|discriminate].
  destruct (f_value Hinv H1) as [-> Hinv1].
  destruct (f (a + dx) s1) as [[v2|e] s2] eqn:H2; [|discriminate].
  destruct (f_value Hinv1 H2) as [-> Hinv2].
  apply root_search_loop_trace in H; [|exact Hinv2|reflexivity].
  destruct H as [Hinv' Hres]. auto.
Qed.

Lemma brentq_loop_trace (x1 x2 : R) :
  forall (iter : nat) (seen : list (R * ieee R)) (s s' : S) (root : R),
    inv s -> Forall (fun p => snd p = F (fst p)) seen ->
    brentq_loop iter f x1 x2 seen s = (Ok root, s') ->
    inv s' /\ solver_answer x1 x2 root.
Proof.
  induction iter as [|iter IH]; intros seen s s' root Hinv Hseen H;
    simpl in H; [discriminate|].
  destruct (brentq_next x1 x2 seen) as [x|r|] eqn:Hn.
  - unfold bind in H. destruct (f x s) as [[v|e] s1] eqn:Hf; [|discriminate].
    destruct (f_value Hinv Hf) as [-> Hinv1].
    apply IH in H; [exact H|exact Hinv1|].
    apply Forall_app. split; [exact Hseen|]. constructor; [reflexivity|constructor].
  - injection H as <- <-. split; [exact Hinv|]. exists seen. auto.
  - discriminate.
Qed.

Lemma roots_loop_trace (scanfuel : nat) (b eps : R) :
  0 < eps ->
  forall (fuel : nat) (a : R) (results : list R) (s s' : S) (out : list R),
    inv s ->
    roots_loop fuel scanfuel f a b eps results s = (Ok out, s') ->
    inv s' /\ a <= b /\
    exists nd rs,
      HelperFunctions.round_digits eps = Ok nd /\
      scan b eps a rs /\
      out = results ++ map (fun r => py_round r nd) rs.
Proof.
  intros Heps.
  assert (Hnd : exists nd, HelperFunctions.round_digits eps = Ok nd).
  { unfold HelperFunctions.round_digits.
    destruct (Rlt_dec 0 eps); [eauto|contradiction]. }
  destruct Hnd as [nd Hnd].
  induction fuel as [|fuel IH]; intros a results s s' out Hinv H; simpl in H;
    [discriminate|].
  unfold bind in H.
  destruct (root_search scanfuel f a b eps s) as [[br|e] s1] eqn:Hrs;
    [|discriminate].
  apply root_search_trace in Hrs; [|exact Hinv].
  destruct Hrs as (Hinv1 & Hab & Hbr).
  destruct br as [[x1 x2]|].
  - destruct Hbr as (Hx2 & Hss & Hk).
    destruct (HelperFunctions.brentq brentq_next f x1 x2 s1)
      as [[root|e] s2] eqn:Hb; [|discriminate].
    apply brentq_loop_trace in Hb; [|exact Hinv1|constructor].
    destruct Hb as [Hinv2 Hans].
    assert (Hrec : exists results',
               roots_loop fuel scanfuel f x2 b eps results' s2 = (Ok out, s') /\
               results' = (if Reqb root 0 then results
                           else results ++ [py_round root nd])).
    { destruct (Reqb root 0).
      - exists results. split; [exact H|reflexivity].
      - unfold lift in H. rewrite Hnd in H.
        exists (results ++ [py_round root nd]). split; [exact H|reflexivity]. }
    destruct Hrec as (results' & Hrec & Hres').
    apply IH in Hrec; [|exact Hinv2].
    destruct Hrec as (Hinv' & Hx2b & nd' & rs & Hnd' & Hscan & Hout).
    rewrite Hnd in Hnd'. injection Hnd' as <-.
    split; [exact Hinv'|]. split; [exact Hab|].
    exists nd, (if Reqb root 0 then rs else root :: rs).
    split; [exact Hnd|]. split.
    + apply Hk. rewrite Hx2 in Hscan, Hx2b, Hans.
      apply scan_root; assumption.
    + rewrite Hout, Hres'. destruct (Reqb root 0); [reflexivity|].
      rewrite <- app_assoc. reflexivity.
  - injection H as <- <-.
    split; [exact Hinv1|]. split; [exact Hab|].
    exists nd, []. split; [exact Hnd|]. split; [exact Hbr|].
    rewrite app_nil_r. reflexivity.
Qed.

Lemma roots_trace (fuel : nat) (a b eps : R) (s s' : S) (out : list R) :
  0 < eps -> inv s ->
  roots fuel f a b eps s = (Ok out, s') ->
  inv s' /\ a <= b /\
  exists nd rs,
    HelperFunctions.round_digits eps = Ok nd /\
    scan b eps a rs /\
    out = map (fun r => py_round r nd) rs.
Proof.
  intros Heps Hinv H. unfold HelperFunctions.roots in H.
  apply roots_loop_trace in H; assumption.
Qed.

(** With a solver that answers inside its bracket the roots come in
    ascending order and lie in the interval. *)
Lemma scan_ascending (b eps a : R) (rs : list R) :
  solver_in_bracket brentq_next -> 0 < eps ->
  scan b eps a rs -> ascending_in a b rs.
Proof.
  intros Hsol Heps H. induction H as [a Hs Hb|a rs Hs Hb H IH|a root rs Hs Hb Ha H IH].
  - split; constructor.
  - destruct IH as [IH1 IH2]. split; [exact IH1|].
    eapply Forall_impl; [|exact IH2]. simpl. intros r Hr. lra.
  - destruct IH as [IH1 IH2].
    destruct Ha as (seen & _ & Hret).
    assert (Hle : a <= a + eps) by lra.
    destruct (Hsol _ _ _ _ Hle Hret) as [Hr1 Hr2].
    destruct (Reqb root 0).
    + split; [exact IH1|].
      eapply Forall_impl; [|exact IH2]. simpl. intros r Hr. lra.
    + split.
      * constructor; [exact IH1|].
        eapply Forall_impl; [|exact IH2]. simpl. intros r Hr. lra.
      * constructor; [lra|].
        eapply Forall_impl; [|exact IH2]. simpl. intros r Hr. lra.
Qed.

End RootsTrace.

(** [f(n_11) = Re(S[0, 0])] at [n_11 = x], on the layers of [tm]: what
    [calc_s11(x)] returns. *)
Definition s11_value (tm : Lifetmm.TransferMatrix) (x : R) : ieee R :=
  match Lifetmm.s_matrix (Lifetmm.with_n_11 tm (RtoC x)) with
  | Ok s => imap Re (entry m00 s)
  | Raise _ => Special
  end.

Lemma calc_s11_value (tm : Lifetmm.TransferMatrix) (x : R)
    (s : Lifetmm.TransferMatrix) (v : ieee R) (s' : Lifetmm.TransferMatrix) :
  only_n_11_changed tm s ->
  Lifetmm.calc_s11 x s = (Ok v, s') ->
  v = s11_value tm x /\ only_n_11_changed tm s'.
Proof.
  intros Hs H.
  assert (E : Lifetmm.with_n_11 s (RtoC x) = Lifetmm.with_n_11 tm (RtoC x)).
  { rewrite Hs. reflexivity. }
  split.
  - rewrite calc_s11_eq, E in H. unfold s11_value.
    destruct (Lifetmm.s_matrix (Lifetmm.with_n_11 tm (RtoC x)));
      [|discriminate].
    injection H as <- _. reflexivity.
  - eapply only_n_11_trans; [exact Hs|]. eapply calc_s11_frame; exact H.
Qed.

(** The eigenvalues the scan of [calc_guided_modes] finds on [tm] between
    [lo] and [hi], in the order found. *)
Definition eigenvalue_scan (ieee_gt0 : R -> R -> bool)
    (brentq_next : R -> R -> list (R * ieee R) -> HelperFunctions.solver_action)
    (tm : Lifetmm.TransferMatrix) (lo hi : R) (rs : list R) : Prop :=
  scan ieee_gt0 brentq_next (s11_value tm) hi Lifetmm.default_eps lo rs.

Lemma calc_guided_modes_trace (ieee_gt0 : R -> R -> bool)
    (brentq_next : R -> R -> list (R * ieee R) -> HelperFunctions.solver_action)
    (fuel : nat) (normalised : bool)
    (tm tm' : Lifetmm.TransferMatrix) (res : list (ieee R)) :
  Lifetmm.calc_guided_modes ieee_gt0 brentq_next fuel normalised tm
  = (Ok res, tm') ->
  exists lo hi nmin rs,
    scan_lower tm = Ok lo /\ scan_upper tm = Ok hi /\
    Lifetmm.min_real (Lifetmm.n_list tm) = Ok nmin /\
    eigenvalue_scan ieee_gt0 brentq_next tm lo hi rs /\
    res = if normalised then map (@Exact R) (kept_modes nmin rs)
          else Lifetmm.scale_by (Lifetmm.k_vac tm) (kept_modes nmin rs).
Proof.
  unfold Lifetmm.calc_guided_modes, bind, lift, scan_lower, scan_upper.
  intros H.
  destruct (Lifetmm.supports_guiding tm) as [g|e] eqn:Hg; [|discriminate].
  destruct g; simpl assert in H; [|discriminate].
  destruct (index (Lifetmm.n_list tm) 0) as [n0|e] eqn:H0; [|discriminate].
  destruct (index_last (Lifetmm.n_list tm)) as [nl|e] eqn:Hl; [|discriminate].
  destruct (Lifetmm.max_real (Lifetmm.n_list tm)) as [hi|e] eqn:Hhi;
    [|discriminate].
  destruct (HelperFunctions.roots ieee_gt0 brentq_next fuel Lifetmm.calc_s11
              (1 * pymax (Re n0) (Re nl)) hi Lifetmm.default_eps tm)
    as [[found|e] tm1] eqn:Hr; [|discriminate].
  apply (@roots_trace _ ieee_gt0 brentq_next Lifetmm.calc_s11
           (s11_value tm) (only_n_11_changed tm) (@calc_s11_value tm))
    in Hr; [|exact default_eps_pos|apply only_n_11_refl].
  destruct Hr as (Hfr & Hab & nd & rs & Hnd & Hscan & Hfound).
  rewrite round_digits_default in Hnd. injection Hnd as <-.
  assert (Hmin : Lifetmm.min_real (Lifetmm.n_list tm1)
                 = Lifetmm.min_real (Lifetmm.n_list tm)).
  { rewrite Hfr. reflexivity. }
  rewrite Hmin in H.
  destruct (Lifetmm.min_real (Lifetmm.n_list tm)) as [nmin|e] eqn:Hnmin;
    [|discriminate].
  rewrite Rmult_1_l in *.
  assert (Hk : Lifetmm.k_vac tm1 = Lifetmm.k_vac tm).
  { rewrite Hfr. reflexivity. }
  exists (pymax (Re n0) (Re nl)), hi, nmin, rs.
  simpl rbind. unfold kept_modes. rewrite <- Hfound.
  split; [reflexivity|]. split; [reflexivity|]. split; [reflexivity|].
  split; [exact Hscan|].
  destruct normalised.
  - unfold ret in H. injection H as <- _. reflexivity.
  - injection H as <- _. rewrite Hk. reflexivity.
Qed.


(** The sign test on non-finite values, where a [nan] is involved. *)
Definition nan_compare (x1 x2 : R) : bool := false.

Lemma left_end_brentq (tm : Lifetmm.TransferMatrix) (x1 x2 : R) :
  HelperFunctions.brentq left_end_solver Lifetmm.calc_s11 x1 x2 tm = (Ok x1, tm).
Proof. reflexivity. Qed.

(** The run of [calc_guided_modes] on the film at the wavelength 1 with
    that solver. *)
Lemma slab_run (normalised : bool) :
  Lifetmm.calc_guided_modes nan_compare left_end_solver 4 normalised (slab 1)
  = (Ok (if normalised then [Exact (py_round p0 5)]
         else [Exact (py_round p0 5 * (2 * PI / 1))]),
     Lifetmm.with_n_11 (slab 1) (RtoC p3)).
Proof.
  apply (@slab_guided_modes_one nan_compare left_end_solver normalised (slab 1)
           (Lifetmm.with_n_11 (slab 1) (RtoC p1)) p0).
  - apply only_n_11_refl.
  - apply left_end_brentq.
  - lra.
Qed.



(** ** A film that guides two modes

    Air, a film of index 1.1995725 and thickness 437500/3549, and a
    substrate of index 1.1995515, at the wavelength 1.  The scan interval
    is a little over two steps wide, and [Re S[0, 0]] changes sign
    between the first and the second probe and again between the second
    and the third. *)

Definition n_core : R := 2399145 / 2000000.
Definition n_clad : R := 2399103 / 2000000.
Definition d_core : R := 437500 / 3549.

Definition two_mode_film : Lifetmm.TransferMatrix :=
  Lifetmm.mkTM [0; d_core; 0] [RtoC 1; RtoC n_core; RtoC n_clad]
               (cumsum [0; d_core; 0]) 3
               (Some 1) (Some (2 * PI / 1)) (Some (c_light * (2 * PI / 1)))
               field_E pol_TE 0 C0.

(** The object is the one the public methods build. *)
Lemma two_mode_film_built :
  (s1 <- Lifetmm.add_layer 0 (RtoC 1) Lifetmm.init ;;
   s2 <- Lifetmm.add_layer d_core (RtoC n_core) s1 ;;
   s3 <- Lifetmm.add_layer 0 (RtoC n_clad) s2 ;;
   Lifetmm.set_vacuum_wavelength 1 s3)%result = Ok two_mode_film.
Proof.
  rewrite add_layer_ok by (try reflexivity; lra). cbn [rbind].
  rewrite add_layer_ok by (try (simpl; discriminate); unfold d_core; lra).
  cbn [rbind].
  rewrite add_layer_ok by (try (simpl; discriminate); lra). cbn [rbind].
  rewrite set_vacuum_wavelength_ok by (try lra; simpl; lia).
  reflexivity.
Qed.

(** The five probes of the scan. *)
Definition q0 : R := n_clad.
Definition q1 : R := q0 + Lifetmm.default_eps.
Definition q2 : R := q1 + Lifetmm.default_eps.
Definition q3 : R := q2 + Lifetmm.default_eps.
Definition q4 : R := q3 + Lifetmm.default_eps.

Ltac unfold_film :=
  unfold q4, q3, q2, q1, q0, n_core, n_clad, d_core, Lifetmm.default_eps in *.

Lemma two_mode_real_film (tm : Lifetmm.TransferMatrix) :
  only_n_11_changed two_mode_film tm ->
  real_film tm 1 n_core n_clad d_core (2 * PI / 1).
Proof.
  intros Hfr. rewrite Hfr. apply real_film_with_n_11.
  constructor; try reflexivity.
  - exists 0, 0. reflexivity.
  - unfold d_core; lra.
  - pose proof PI_RGT_0. lra.
Qed.

Lemma two_mode_with_n_11 (tm : Lifetmm.TransferMatrix) (z : C) :
  only_n_11_changed two_mode_film tm ->
  Lifetmm.with_n_11 tm z = Lifetmm.with_n_11 two_mode_film z.
Proof. intros ->. reflexivity. Qed.

Lemma only_n_11_two_mode (z : C) :
  only_n_11_changed two_mode_film (Lifetmm.with_n_11 two_mode_film z).
Proof. reflexivity. Qed.

(** [Re S[0, 0]] at a probe inside the interval and at one beyond it. *)
Definition w_in (x : R) : R :=
  guided_value (sqrt (x * x - 1 * 1)) (sqrt (n_core * n_core - x * x))
    (sqrt (x * x - n_clad * n_clad))
    (sqrt (n_core * n_core - x * x) * (2 * PI / 1) * d_core).

Definition w_out (x : R) : R :=
  evanescent_value (sqrt (x * x - 1 * 1)) (sqrt (x * x - n_core * n_core))
    (sqrt (x * x - n_clad * n_clad))
    (sqrt (x * x - n_core * n_core) * (2 * PI / 1) * d_core).

Lemma two_mode_probe_in (x : R) (tm : Lifetmm.TransferMatrix) :
  only_n_11_changed two_mode_film tm ->
  n_clad <= x -> x < n_core ->
  Lifetmm.calc_s11 x tm
  = (Ok (Exact (w_in x)), Lifetmm.with_n_11 two_mode_film (RtoC x)).
Proof.
  intros Hfr Hlo Hhi.
  assert (Hx : 1 < x) by (unfold n_clad in Hlo; lra).
  rewrite (@film_probe_guided tm 1 n_core n_clad d_core (2 * PI / 1) x
             (two_mode_real_film Hfr)).
  - rewrite (two_mode_with_n_11 _ Hfr). reflexivity.
  - nra.
  - unfold n_clad in *. nra.
  - unfold n_core, n_clad in *. nra.
Qed.

Lemma float_max_larger : 2187 < float_max.
Proof.
  unfold float_max.
  assert (H1 : 4096 <= 2 ^ 1023).
  { replace 4096 with (2 ^ 12) by (simpl; ring). apply Rle_pow; [lra|lia]. }
  assert (H2 : 0 < / 2 ^ 52 <= 1).
  { split; [apply Rinv_0_lt_compat, pow_lt; lra|].
    rewrite <- Rinv_1. apply Rinv_le_contravar; [lra|].
    apply pow_R1_Rle. lra. }
  nra.
Qed.

Lemma exp_7_le : exp 7 <= 2187.
Proof.
  replace 7 with (1 + (1 + (1 + (1 + (1 + (1 + 1)))))) by ring.
  rewrite !exp_plus.
  pose proof exp_le_3 as H. pose proof (exp_pos 1) as Hp.
  assert (H2 : exp 1 * exp 1 <= 9) by nra.
  assert (H3 : exp 1 * (exp 1 * exp 1) <= 27) by nra.
  assert (H4 : exp 1 * (exp 1 * (exp 1 * exp 1)) <= 81) by nra.
  assert (H5 : exp 1 * (exp 1 * (exp 1 * (exp 1 * exp 1))) <= 243) by nra.
  assert (H6 : exp 1 * (exp 1 * (exp 1 * (exp 1 * (exp 1 * exp 1)))) <= 729)
    by nra.
  nra.
Qed.

(** The probe beyond the film index, where the propagation matrix stays
    well below the largest float. *)
Lemma film_probe_evanescent_wide (tm : Lifetmm.TransferMatrix)
    (n0 n1 n2 d k x : R) :
  real_film tm n0 n1 n2 d k ->
  n0 * n0 < x * x -> n2 * n2 <= x * x -> n1 * n1 < x * x ->
  sqrt (x * x - n1 * n1) * k * d <= 7 ->
  Lifetmm.calc_s11 x tm =
  (Ok (Exact (evanescent_value (sqrt (x * x - n0 * n0))
                (sqrt (x * x - n1 * n1)) (sqrt (x * x - n2 * n2))
                (sqrt (x * x - n1 * n1) * k * d))),
   Lifetmm.with_n_11 tm (RtoC x)).
Proof.
  intros Hrf H0 H2 H1 Hy. rewrite calc_s11_eq. f_equal.
  apply (real_film_with_n_11 (RtoC x)) in Hrf.
  destruct Hrf as [Hn [d0 [d2 Hd]] HN Hk Hp Hf Hdpos Hkpos].
  set (tm' := Lifetmm.with_n_11 tm (RtoC x)) in *.
  assert (K0 : 0 < sqrt (x * x - n0 * n0)) by (apply sqrt_lt_R0; lra).
  assert (K1 : 0 < sqrt (x * x - n1 * n1)) by (apply sqrt_lt_R0; lra).
  assert (K2 : 0 <= sqrt (x * x - n2 * n2)) by apply sqrt_pos.
  assert (E0 : xi_of (RtoC n0) (Lifetmm.n_11 tm') = (0, sqrt (x * x - n0 * n0))).
  { apply xi_of_real_ge. lra. }
  assert (E1 : xi_of (RtoC n1) (Lifetmm.n_11 tm') = (0, sqrt (x * x - n1 * n1))).
  { apply xi_of_real_ge. lra. }
  assert (E2 : xi_of (RtoC n2) (Lifetmm.n_11 tm') = (0, sqrt (x * x - n2 * n2))).
  { apply xi_of_real_ge. exact H2. }
  rewrite (@film_s_matrix tm' (RtoC n0) (RtoC n1) (RtoC n2) d0 d d2 k
             Hn Hd HN Hk Hp Hf); rewrite ?E0, ?E1, ?E2.
  - cbn [entry imap]. rewrite film_evanescent_re by assumption. reflexivity.
  - apply C_neq0_im; simpl; lra.
  - apply C_neq0_im; simpl; lra.
  - apply C_neq0_im; simpl; lra.
  - apply C_neq0_im; simpl; lra.
  - exact Hdpos.
  - replace (- Ci * ((0, sqrt (x * x - n1 * n1)) * RtoC k) * RtoC d)%C
      with (sqrt (x * x - n1 * n1) * k * d, 0)
      by (apply C_ext; simpl; ring).
    rewrite Cexp_real. rewrite Cltb_RtoC_pair.
    apply Rltb_true.
    assert (He : exp (sqrt (x * x - n1 * n1) * k * d) <= exp 7).
    { destruct Hy as [Hy| ->]; [left; apply exp_increasing; exact Hy|lra]. }
    pose proof exp_7_le. pose proof float_max_larger. lra.
Qed.

Lemma two_mode_probe_out (x : R) (tm : Lifetmm.TransferMatrix) :
  only_n_11_changed two_mode_film tm ->
  n_core < x -> x <= q4 ->
  Lifetmm.calc_s11 x tm
  = (Ok (Exact (w_out x)), Lifetmm.with_n_11 two_mode_film (RtoC x))
  /\ 0 < w_out x.
Proof.
  intros Hfr Hlo Hhi.
  assert (Hx : 1 < x) by (unfold n_core in Hlo; lra).
  assert (Hs : sqrt (x * x - n_core * n_core) <= 7 / 1000).
  { apply sqrt_le_bound; [lra|]. unfold_film. nra. }
  pose proof (sqrt_pos (x * x - n_core * n_core)) as Hs0.
  pose proof PI_4 as Hpi. pose proof PI_RGT_0 as Hpi0.
  assert (Hy : sqrt (x * x - n_core * n_core) * (2 * PI / 1) * d_core <= 7).
  { unfold d_core.
    assert (Hp : sqrt (x * x - n_core * n_core) * (2 * PI / 1) <= 7 / 1000 * 8).
    { apply Rmult_le_compat; lra. }
    nra. }
  split.
  - rewrite (@film_probe_evanescent_wide tm 1 n_core n_clad d_core (2 * PI / 1) x
               (two_mode_real_film Hfr)); try exact Hy.
    + rewrite (two_mode_with_n_11 _ Hfr). reflexivity.
    + nra.
    + unfold n_core, n_clad in *. nra.
    + unfold n_core in *. nra.
  - unfold w_out. apply evanescent_value_pos.
    + apply sqrt_lt_R0. nra.
    + apply sqrt_lt_R0. unfold n_core in *. nra.
    + apply sqrt_pos.
    + unfold d_core. apply Rmult_le_pos; [apply Rmult_le_pos|]; lra.
Qed.

Lemma cos_pos_fourth (phi : R) : 3 * (PI / 2) < phi < 2 * PI -> 0 < cos phi.
Proof.
  intros H. pose proof PI_RGT_0 as Hpi.
  replace phi with (phi - 2 * PI + 2 * INR 1 * PI) by (simpl; ring).
  rewrite cos_period. apply cos_gt_0; lra.
Qed.

(** The sign of [Re S[0, 0]] in the other quadrants of the phase. *)
Lemma guided_value_pos_fourth (kappa0 beta kappa2 phi : R) :
  0 < kappa0 -> 0 < beta -> 0 <= kappa2 ->
  kappa0 * kappa2 <= beta * beta ->
  3 * (PI / 2) < phi < 2 * PI ->
  0 < guided_value kappa0 beta kappa2 phi.
Proof.
  intros H0 H1 H2 Hb Hphi. unfold guided_value.
  assert (Hc : 0 < cos phi) by (apply cos_pos_fourth; lra).
  assert (Hs : sin phi < 0).
  { apply sin_lt_0; [|lra]. pose proof PI_RGT_0. lra. }
  apply Rdiv_lt_0_compat; [|nra].
  assert (Ha : 0 < beta * (kappa0 + kappa2) * cos phi).
  { apply Rmult_lt_0_compat; [nra|exact Hc]. }
  assert (Hd : 0 <= (beta * beta - kappa0 * kappa2) * (- sin phi)).
  { apply Rmult_le_pos; lra. }
  nra.
Qed.

Lemma guided_value_neg_third (kappa0 beta kappa2 phi : R) :
  0 < kappa0 -> 0 < beta -> 0 <= kappa2 ->
  beta * beta <= kappa0 * kappa2 ->
  PI < phi < 3 * (PI / 2) ->
  guided_value kappa0 beta kappa2 phi < 0.
Proof.
  intros H0 H1 H2 Hb Hphi. unfold guided_value.
  pose proof PI_RGT_0 as Hpi.
  assert (Hc : cos phi < 0) by (apply cos_lt_0; lra).
  assert (Hs : sin phi < 0) by (apply sin_lt_0; lra).
  assert (Ha : 0 < beta * (kappa0 + kappa2) * (- cos phi)).
  { apply Rmult_lt_0_compat; [nra|lra]. }
  assert (Hd : 0 <= (kappa0 * kappa2 - beta * beta) * (- sin phi)).
  { apply Rmult_le_pos; lra. }
  assert (Hn : beta * (kappa0 + kappa2) * cos phi
               - (beta * beta - kappa0 * kappa2) * sin phi < 0) by nra.
  assert (Hp : 0 < 2 * kappa0 * beta) by nra.
  unfold Rdiv.
  assert (Hi : 0 < / (2 * kappa0 * beta)) by (apply Rinv_0_lt_compat; exact Hp).
  nra.
Qed.

Lemma core_beta0 : sqrt (n_core * n_core - q0 * q0) = 3549 / 500000.
Proof.
  replace (n_core * n_core - q0 * q0) with ((3549 / 500000) * (3549 / 500000))
    by (unfold_film; field).
  apply sqrt_square. lra.
Qed.

Lemma core_phase (beta : R) :
  beta * (2 * PI / 1) * d_core = PI * (beta * (875000 / 3549)).
Proof. unfold d_core. field. Qed.

(** At the lower end of the interval the phase is [7 pi / 4]. *)
Lemma w0_pos : 0 < w_in q0.
Proof.
  unfold w_in. rewrite core_phase, core_beta0.
  replace (sqrt (q0 * q0 - n_clad * n_clad)) with 0.
  2:{ replace (q0 * q0 - n_clad * n_clad) with 0 by (unfold q0; ring).
      symmetry. apply sqrt_0. }
  pose proof PI_RGT_0 as Hpi.
  apply guided_value_pos_fourth; try lra.
  apply sqrt_lt_R0. unfold_film. lra.
Qed.

Lemma w1_neg : w_in q1 < 0.
Proof.
  unfold w_in. rewrite core_phase.
  assert (B : 45 / 10000 <= sqrt (n_core * n_core - q1 * q1) < 6 / 1000).
  { split; [apply sqrt_ge_bound; unfold_film; lra|].
    apply sqrt_lt_bound; [lra|unfold_film; lra]. }
  assert (K0 : 6 / 10 <= sqrt (q1 * q1 - 1 * 1))
    by (apply sqrt_ge_bound; unfold_film; lra).
  assert (K2 : 4 / 1000 <= sqrt (q1 * q1 - n_clad * n_clad))
    by (apply sqrt_ge_bound; unfold_film; lra).
  pose proof PI_RGT_0 as Hpi.
  set (beta := sqrt (n_core * n_core - q1 * q1)) in *.
  apply guided_value_neg_third; try lra.
  - nra.
  - split; nra.
Qed.

Lemma w2_pos : 0 < w_in q2.
Proof.
  unfold w_in. rewrite core_phase.
  assert (B : 0 < sqrt (n_core * n_core - q2 * q2) < 2 / 1000).
  { split; [apply sqrt_lt_R0; unfold_film; lra|].
    apply sqrt_lt_bound; [lra|unfold_film; lra]. }
  assert (K0 : 6 / 10 <= sqrt (q2 * q2 - 1 * 1))
    by (apply sqrt_ge_bound; unfold_film; lra).
  assert (K2 : 4 / 1000 <= sqrt (q2 * q2 - n_clad * n_clad))
    by (apply sqrt_ge_bound; unfold_film; lra).
  pose proof PI_RGT_0 as Hpi.
  set (beta := sqrt (n_core * n_core - q2 * q2)) in *.
  apply guided_value_pos; try lra.
  - nra.
  - split; nra.
Qed.

Lemma two_mode_supports_guiding :
  Lifetmm.supports_guiding two_mode_film = Ok true.
Proof.
  unfold Lifetmm.supports_guiding.
  cbn [Lifetmm.n_list two_mode_film index nth_error index_last
       last_error last rbind interior tl removelast existsb].
  unfold Cpymax. rewrite Cltb_RtoC.
  assert (E1 : Rltb 1 n_clad = true) by (apply Rltb_true; unfold n_clad; lra).
  rewrite E1, Cltb_RtoC.
  assert (E2 : Rltb n_clad n_core = true)
    by (apply Rltb_true; unfold n_clad, n_core; lra).
  rewrite E2. reflexivity.
Qed.

Lemma two_mode_scan_lower : scan_lower two_mode_film = Ok q0.
Proof.
  unfold scan_lower.
  cbn [Lifetmm.n_list two_mode_film index nth_error index_last
       last_error last rbind Re RtoC fst].
  rewrite pymax_right by (unfold n_clad; lra). reflexivity.
Qed.

Lemma two_mode_scan_upper : scan_upper two_mode_film = Ok n_core.
Proof.
  unfold scan_upper, Lifetmm.max_real, list_max.
  cbn [Lifetmm.n_list two_mode_film map Re RtoC fst fold_left].
  rewrite (pymax_right (a := 1)) by (unfold n_core; lra).
  rewrite pymax_left by (unfold n_clad, n_core; lra). reflexivity.
Qed.

Lemma two_mode_min_real (z : C) :
  Lifetmm.min_real (Lifetmm.n_list (Lifetmm.with_n_11 two_mode_film z)) = Ok 1.
Proof.
  unfold Lifetmm.min_real, list_min.
  cbn [Lifetmm.with_n_11 Lifetmm.n_list two_mode_film map Re RtoC fst fold_left].
  rewrite (pymin_left (a := 1)) by (unfold n_core; lra).
  rewrite pymin_left by (unfold n_clad; lra). reflexivity.
Qed.

Section TwoModeScan.

Variable ieee_gt0 : R -> R -> bool.

#[warnings="-notation-for-abbreviation"]
Notation root_search := (HelperFunctions.root_search ieee_gt0).

(** From the lower end: the first two probes bracket a sign change. *)
Lemma two_mode_search_first (tm : Lifetmm.TransferMatrix) :
  only_n_11_changed two_mode_film tm ->
  root_search 5 Lifetmm.calc_s11 q0 n_core Lifetmm.default_eps tm
  = (Ok (Some (q0, q1)), Lifetmm.with_n_11 two_mode_film (RtoC q1)).
Proof.
  intros Hfr. unfold HelperFunctions.root_search, bind, lift.
  assert (E : Rleb q0 n_core = true) by (apply Rleb_true; unfold_film; lra).
  rewrite E. cbn [assert].
  rewrite (two_mode_probe_in (x := q0)) by (try exact Hfr; unfold_film; lra).
  change (q0 + Lifetmm.default_eps) with q1.
  rewrite (two_mode_probe_in (x := q1))
    by (try apply only_n_11_two_mode; unfold_film; lra).
  rewrite root_search_loop_S, prod_gt0_exact.
  assert (Hs : Rltb 0 (w_in q0 * w_in q1) = false).
  { apply Rltb_false. pose proof w0_pos. pose proof w1_neg. nra. }
  rewrite Hs. reflexivity.
Qed.

(** From the second probe: the next pair brackets another one. *)
Lemma two_mode_search_second (tm : Lifetmm.TransferMatrix) :
  only_n_11_changed two_mode_film tm ->
  root_search 5 Lifetmm.calc_s11 q1 n_core Lifetmm.default_eps tm
  = (Ok (Some (q1, q2)), Lifetmm.with_n_11 two_mode_film (RtoC q2)).
Proof.
  intros Hfr. unfold HelperFunctions.root_search, bind, lift.
  assert (E : Rleb q1 n_core = true) by (apply Rleb_true; unfold_film; lra).
  rewrite E. cbn [assert].
  rewrite (two_mode_probe_in (x := q1)) by (try exact Hfr; unfold_film; lra).
  change (q1 + Lifetmm.default_eps) with q2.
  rewrite (two_mode_probe_in (x := q2))
    by (try apply only_n_11_two_mode; unfold_film; lra).
  rewrite root_search_loop_S, prod_gt0_exact.
  assert (Hs : Rltb 0 (w_in q1 * w_in q2) = false).
  { apply Rltb_false. pose proof w1_neg. pose proof w2_pos. nra. }
  rewrite Hs. reflexivity.
Qed.

(** From the third probe: no sign change up to the end of the scan. *)
Lemma two_mode_search_rest (tm : Lifetmm.TransferMatrix) :
  only_n_11_changed two_mode_film tm ->
  root_search 5 Lifetmm.calc_s11 q2 n_core Lifetmm.default_eps tm
  = (Ok None, Lifetmm.with_n_11 two_mode_film (RtoC q4)).
Proof.
  intros Hfr. unfold HelperFunctions.root_search, bind, lift.
  assert (E : Rleb q2 n_core = true) by (apply Rleb_true; unfold_film; lra).
  rewrite E. cbn [assert].
  rewrite (two_mode_probe_in (x := q2)) by (try exact Hfr; unfold_film; lra).
  change (q2 + Lifetmm.default_eps) with q3.
  destruct (@two_mode_probe_out q3 _ (only_n_11_two_mode (RtoC q2)))
    as [E3 V3]; try (unfold_film; lra).
  rewrite E3.
  rewrite root_search_loop_S, prod_gt0_exact.
  assert (Hs1 : Rltb 0 (w_in q2 * w_out q3) = true).
  { apply Rltb_true. pose proof w2_pos. nra. }
  assert (Hb2 : Rleb n_core q2 = false) by (apply Rleb_false; unfold_film; lra).
  rewrite Hs1, Hb2. unfold bind.
  change (q3 + Lifetmm.default_eps) with q4.
  destruct (@two_mode_probe_out q4 _ (only_n_11_two_mode (RtoC q3)))
    as [E4 V4]; try (unfold_film; lra).
  rewrite E4.
  rewrite root_search_loop_S, prod_gt0_exact.
  assert (Hs2 : Rltb 0 (w_out q3 * w_out q4) = true).
  { apply Rltb_true. nra. }
  assert (Hb3 : Rleb n_core q3 = true) by (apply Rleb_true; unfold_film; lra).
  rewrite Hs2, Hb3. reflexivity.
Qed.

(** The run of [calc_guided_modes] on the film with the solver that
    answers with the left end of the bracket: two modes. *)
Lemma two_mode_run (normalised : bool) :
  Lifetmm.calc_guided_modes ieee_gt0 left_end_solver 5 normalised two_mode_film
  = (Ok (if normalised
         then [Exact (py_round q1 5); Exact (py_round q0 5)]
         else [Exact (py_round q1 5 * (2 * PI / 1));
               Exact (py_round q0 5 * (2 * PI / 1))]),
     Lifetmm.with_n_11 two_mode_film (RtoC q4)).
Proof.
  unfold Lifetmm.calc_guided_modes, bind, lift.
  rewrite two_mode_supports_guiding. cbn [assert].
  pose proof two_mode_scan_lower as Hlo. pose proof two_mode_scan_upper as Hhi.
  unfold scan_lower, scan_upper in Hlo, Hhi.
  destruct (index (Lifetmm.n_list two_mode_film) 0) as [n0|e]; [|discriminate].
  destruct (index_last (Lifetmm.n_list two_mode_film)) as [nl|e];
    [|discriminate].
  cbn [rbind] in Hlo. injection Hlo as Hlo.
  rewrite Hhi, Rmult_1_l, Hlo.
  unfold HelperFunctions.roots. rewrite roots_loop_S. unfold bind at 1.
  rewrite (two_mode_search_first (only_n_11_refl two_mode_film)).
  unfold bind at 1. rewrite left_end_brentq.
  assert (Hnz0 : Reqb q0 0 = false) by (apply Reqb_false; unfold_film; lra).
  rewrite Hnz0. unfold bind at 1, lift. rewrite round_digits_default.
  rewrite roots_loop_S. unfold bind at 1.
  rewrite (two_mode_search_second (only_n_11_two_mode (RtoC q1))).
  unfold bind at 1. rewrite left_end_brentq.
  assert (Hnz1 : Reqb q1 0 = false) by (apply Reqb_false; unfold_film; lra).
  rewrite Hnz1. unfold bind at 1, lift. rewrite round_digits_default.
  rewrite roots_loop_S. unfold bind at 1.
  rewrite (two_mode_search_rest (only_n_11_two_mode (RtoC q2))). unfold ret.
  rewrite two_mode_min_real.
  cbn [app rev]. unfold Lifetmm.delete_near. cbn [filter].
  assert (Hk0 : Rltb (py_round q0 5 - 1) (/ 100) = false).
  { apply Rltb_false. pose proof (py_round_near q0). unfold_film. lra. }
  assert (Hk1 : Rltb (py_round q1 5 - 1) (/ 100) = false).
  { apply Rltb_false. pose proof (py_round_near q1). unfold_film. lra. }
  rewrite Hk0, Hk1. cbn [negb].
  destruct normalised; reflexivity.
Qed.

End TwoModeScan.

Lemma two_mode_scan_width :
  n_core - q0 <= INR 3 * Lifetmm.default_eps.
Proof. simpl INR. unfold_film. lra. Qed.


(** ** The scan overwrites [n_11] *)

Lemma with_n_11_neq (tm : Lifetmm.TransferMatrix) (z : C) :
  Lifetmm.n_11 tm <> z -> Lifetmm.with_n_11 tm z <> tm.
Proof. intros H E. apply H. rewrite <- E at 1. reflexivity. Qed.

(** C9. A returning call of [calc_guided_modes] leaves every attribute of
    the object as it was except [n_11], which holds a probe of the scan:
    a point [lo + k * 1e-5] at least one step beyond the upper end [hi]
    of the scan interval, and not the value set before the call whenever
    that value did not exceed [hi]. *)
Theorem guided_modes_overwrite_n_11 (ieee_gt0 : R -> R -> bool)
    (brentq_next : R -> R -> list (R * ieee R) -> HelperFunctions.solver_action)
    (fuel : nat) (normalised : bool) (tm tm' : Lifetmm.TransferMatrix)
    (res : list (ieee R)) :
  Lifetmm.calc_guided_modes ieee_gt0 brentq_next fuel normalised tm
  = (Ok res, tm') ->
  exists lo hi x k,
    scan_lower tm = Ok lo /\ scan_upper tm = Ok hi /\
    tm' = Lifetmm.with_n_11 tm (RtoC x) /\
    x = lo + INR k * Lifetmm.default_eps /\
    hi + Lifetmm.default_eps <= x /\
    (Re (Lifetmm.n_11 tm) <= hi -> tm' <> tm).
Proof.
  intros H. apply calc_guided_modes_ok in H.
  destruct H as (lo & hi & nmin & rs & _ & Hlo & Hhi & _ & _ & Hfr & Hend & _).
  destruct Hend as (x & k & Hp & Hx & Hk). unfold holds_probe in Hp.
  exists lo, hi, x, k.
  assert (E : tm' = Lifetmm.with_n_11 tm (RtoC x)).
  { unfold only_n_11_changed in Hfr. rewrite Hp in Hfr. exact Hfr. }
  repeat (split; [assumption|]).
  intros Hre. rewrite E. apply with_n_11_neq.
  intros E'. rewrite E' in Hre. simpl in Hre.
  pose proof default_eps_pos. lra.
Qed.

Lemma guided_modes_overwrite_n_11_witness :
  exists lo hi x k,
    scan_lower (slab 1) = Ok lo /\ scan_upper (slab 1) = Ok hi /\
    Lifetmm.with_n_11 (slab 1) (RtoC p3) = Lifetmm.with_n_11 (slab 1) (RtoC x) /\
    x = lo + INR k * Lifetmm.default_eps /\
    hi + Lifetmm.default_eps <= x /\
    (Re (Lifetmm.n_11 (slab 1)) <= hi ->
     Lifetmm.with_n_11 (slab 1) (RtoC p3) <> slab 1).
Proof.
  exact (@guided_modes_overwrite_n_11 nan_compare left_end_solver 4 true
           (slab 1) (Lifetmm.with_n_11 (slab 1) (RtoC p3))
           [Exact (py_round p0 5)] (slab_run true)).
Defined.

(** ** The scan interval and the returned values *)

Lemma list_max_ge_init (l : list R) : forall x, x <= list_max x l.
Proof.
  unfold list_max. induction l as [|y l IH]; intros x; simpl; [lra|].
  eapply Rle_trans; [|apply IH]. rewrite pymax_spec. apply Rmax_l.
Qed.

Lemma list_max_upper (l : list R) : forall x,
  Forall (fun y => y <= list_max x l) l.
Proof.
  unfold list_max. induction l as [|y l IH]; intros x; simpl; constructor.
  - eapply Rle_trans; [|apply (list_max_ge_init l)].
    rewrite pymax_spec. apply Rmax_r.
  - apply IH.
Qed.

Lemma list_max_in (l : list R) : forall x, In (list_max x l) (x :: l).
Proof.
  unfold list_max. induction l as [|y l IH]; intros x; simpl; [auto|].
  destruct (IH (pymax x y)) as [E|Hin].
  - rewrite <- E. unfold pymax. destruct (Rltb x y); auto.
  - right. right. exact Hin.
Qed.

(** [scan_upper] is the largest real part of a layer index. *)
Lemma scan_upper_spec (tm : Lifetmm.TransferMatrix) (hi : R) :
  scan_upper tm = Ok hi ->
  In hi (map Re (Lifetmm.n_list tm)) /\
  Forall (fun y => y <= hi) (map Re (Lifetmm.n_list tm)).
Proof.
  unfold scan_upper, Lifetmm.max_real.
  destruct (map Re (Lifetmm.n_list tm)) as [|x l]; [discriminate|].
  intros H. injection H as <-. split; [apply list_max_in|].
  constructor; [apply list_max_ge_init|apply list_max_upper].
Qed.

(** [scan_lower] is the larger real part of the two cladding indices. *)
Lemma scan_lower_spec (tm : Lifetmm.TransferMatrix) (lo : R) :
  scan_lower tm = Ok lo ->
  exists n0 nl,
    index (Lifetmm.n_list tm) 0 = Ok n0 /\
    index_last (Lifetmm.n_list tm) = Ok nl /\
    lo = Rmax (Re n0) (Re nl).
Proof.
  unfold scan_lower.
  destruct (index (Lifetmm.n_list tm) 0) as [n0|]; [|discriminate].
  destruct (index_last (Lifetmm.n_list tm)) as [nl|]; [|discriminate].
  simpl. intros H. injection H as <-. exists n0, nl.
  rewrite pymax_spec. auto.
Qed.

(** What [calc_guided_modes] hands back for the root [r]. *)
Definition returned_value (normalised : bool) (k_vac : option R) (r : R)
  : ieee R :=
  if normalised then Exact (py_round r 5)
  else match k_vac with
       | Some k => Exact (py_round r 5 * k)
       | None => Special
       end.

Lemma in_scale_by (k : option R) (l : list R) (v : ieee R) :
  In v (Lifetmm.scale_by k l) ->
  exists x, In x l /\
            v = match k with Some k' => Exact (x * k') | None => Special end.
Proof.
  unfold Lifetmm.scale_by. destruct k as [k'|]; intros H;
    apply in_map_iff in H; destruct H as (x & <- & Hx); eauto.
Qed.

(** The claim as it is stated: the returned eigenvalues lie in the scan
    interval. *)
Definition eigenvalues_in_scan_interval : Prop :=
  forall (ieee_gt0 : R -> R -> bool)
         (brentq_next : R -> R -> list (R * ieee R) -> HelperFunctions.solver_action)
         (fuel : nat) (normalised : bool) (tm tm' : Lifetmm.TransferMatrix)
         (res : list (ieee R)) (lo hi v : R),
    solver_in_bracket brentq_next ->
    Lifetmm.calc_guided_modes ieee_gt0 brentq_next fuel normalised tm
    = (Ok res, tm') ->
    scan_lower tm = Ok lo -> scan_upper tm = Ok hi ->
    In (Exact v) res -> lo <= v < hi.




(** ** Group velocity across a change of the mode count *)

Lemma int_trunc_nonneg_bound (x : R) : 0 < IZR (int_trunc x) -> IZR (int_trunc x) <= x.
Proof.
  unfold int_trunc. destruct (Rle_dec 0 x) as [H|H].
  - intros _. apply Int_part_bounds.
  - intros Hp. exfalso.
    pose proof (Int_part_bounds (- x)) as [Hb _].
    rewrite opp_IZR in Hp.
    assert (Hz : (0 <= Int_part (- x))%Z).
    { apply Z.lt_succ_r. apply lt_IZR. rewrite succ_IZR.
      pose proof (Int_part_bounds (- x)) as [_ Hu]. simpl. lra. }
    apply IZR_le in Hz. simpl in Hz. lra.
Qed.

Lemma int_trunc_IZR (z : Z) (x : R) : (0 <= z)%Z -> x = IZR z -> int_trunc x = z.
Proof.
  intros Hz ->. unfold int_trunc.
  destruct (Rle_dec 0 (IZR z)) as [_|H]; [|exfalso; apply H; apply IZR_le in Hz; exact Hz].
  symmetry. apply Int_part_spec. lra.
Qed.

Lemma set_vacuum_wavelength_inv (lam : R) (tm tm' : Lifetmm.TransferMatrix) :
  Lifetmm.set_vacuum_wavelength lam tm = Ok tm' ->
  0 < lam /\ Lifetmm.lam_vac tm' = Some lam.
Proof.
  unfold Lifetmm.set_vacuum_wavelength, assert.
  destruct (Rltb 0 lam) eqn:E; [|discriminate].
  destruct (Nat.ltb 0 (Lifetmm.num_layers tm)); [|discriminate].
  simpl. intros H. injection H as <-. apply Rltb_true in E. auto.
Qed.

Lemma calc_guided_modes_lam_vac (ieee_gt0 : R -> R -> bool)
    (brentq_next : R -> R -> list (R * ieee R) -> HelperFunctions.solver_action)
    (fuel : nat) (normalised : bool) (tm tm' : Lifetmm.TransferMatrix)
    (res : list (ieee R)) :
  Lifetmm.calc_guided_modes ieee_gt0 brentq_next fuel normalised tm
  = (Ok res, tm') ->
  Lifetmm.lam_vac tm' = Lifetmm.lam_vac tm.
Proof.
  intros H. apply calc_guided_modes_ok in H.
  destruct H as (lo & hi & nmin & rs & _ & _ & _ & _ & _ & Hfr & _).
  rewrite Hfr. reflexivity.
Qed.

(** C8. When the guided-mode counts at the two wavelengths [int(lam + 1)]
    and [int(lam - 1)] differ, [calc_group_velocity] fails with the
    mode-count assertion; it does so before the wavelength is set back,
    and the object is left with [lam_vac = int(lam - 1)], which is not
    the wavelength it had before the call. *)
Theorem group_velocity_mismatch_keeps_shifted_wavelength
    (ieee_gt0 : R -> R -> bool)
    (brentq_next : R -> R -> list (R * ieee R) -> HelperFunctions.solver_action)
    (fuel : nat) (lam : R) (tm tma tmb tmc tmd : Lifetmm.TransferMatrix)
    (beta_lower beta_upper : list (ieee R)) :
  Lifetmm.lam_vac tm = Some lam ->
  Lifetmm.set_vacuum_wavelength (IZR (int_trunc (1 + lam))) tm = Ok tma ->
  Lifetmm.calc_guided_modes ieee_gt0 brentq_next fuel false tma
  = (Ok beta_lower, tmb) ->
  Lifetmm.set_vacuum_wavelength (IZR (int_trunc (-1 + lam))) tmb = Ok tmc ->
  Lifetmm.calc_guided_modes ieee_gt0 brentq_next fuel false tmc
  = (Ok beta_upper, tmd) ->
  length beta_lower <> length beta_upper ->
  Lifetmm.calc_group_velocity ieee_gt0 brentq_next fuel tm
  = (Raise (AssertionError ModeCountMismatch), tmd) /\
  Lifetmm.lam_vac tmd = Some (IZR (int_trunc (-1 + lam))) /\
  Lifetmm.lam_vac tmd <> Lifetmm.lam_vac tm.
Proof.
  intros Hlam H1 H2 H3 H4 Hlen.
  destruct (set_vacuum_wavelength_inv _ _ H3) as [Hpos Hc].
  pose proof (calc_guided_modes_lam_vac _ _ _ _ _ H4) as Hd.
  split; [|split].
  - unfold Lifetmm.calc_group_velocity, bind, lift, update.
    rewrite Hlam. cbn [Lifetmm.shifted_wavelength].
    rewrite H1, H2. cbn [Lifetmm.shifted_wavelength].
    rewrite H3, H4.
    apply Nat.eqb_neq in Hlen. rewrite Hlen. reflexivity.
  - rewrite Hd, Hc. reflexivity.
  - rewrite Hd, Hc, Hlam. intros E. injection E as E.
    pose proof (int_trunc_nonneg_bound _ Hpos). lra.
Qed.

Lemma slab_set_wavelength (lam lam' : R) (z : C) :
  0 < lam' ->
  Lifetmm.set_vacuum_wavelength lam' (Lifetmm.with_n_11 (slab lam) z)
  = Ok (Lifetmm.with_n_11 (slab lam') z).
Proof.
  intros H. rewrite set_vacuum_wavelength_ok by (try exact H; simpl; lia).
  reflexivity.
Qed.

(** The film at the wavelength 2: no mode at [int(2 + 1) = 3], one at
    [int(2 - 1) = 1]. *)
Lemma group_velocity_mismatch_keeps_shifted_wavelength_witness :
  Lifetmm.calc_group_velocity nan_compare left_end_solver 4 (slab 2)
  = (Raise (AssertionError ModeCountMismatch),
     Lifetmm.with_n_11 (slab 1) (RtoC p3)) /\
  Lifetmm.lam_vac (Lifetmm.with_n_11 (slab 1) (RtoC p3))
  = Some (IZR (int_trunc (-1 + 2))) /\
  Lifetmm.lam_vac (Lifetmm.with_n_11 (slab 1) (RtoC p3))
  <> Lifetmm.lam_vac (slab 2).
Proof.
  assert (E3 : int_trunc (1 + 2) = 3%Z) by (apply int_trunc_IZR; [lia|simpl; lra]).
  assert (E1 : int_trunc (-1 + 2) = 1%Z) by (apply int_trunc_IZR; [lia|simpl; lra]).
  apply (@group_velocity_mismatch_keeps_shifted_wavelength
           nan_compare left_end_solver 4 2 (slab 2) (slab 3)
           (Lifetmm.with_n_11 (slab 3) (RtoC p3))
           (Lifetmm.with_n_11 (slab 1) (RtoC p3))
           (Lifetmm.with_n_11 (slab 1) (RtoC p3))
           [] [Exact (py_round p0 5 * (2 * PI / 1))]).
  - reflexivity.
  - rewrite E3. apply (@slab_set_wavelength 2 3 C0). simpl; lra.
  - apply slab_guided_modes_none. apply only_n_11_refl.
  - rewrite E1. apply (@slab_set_wavelength 3 1 (RtoC p3)). simpl; lra.
  - apply (@slab_guided_modes_one nan_compare left_end_solver false
             (Lifetmm.with_n_11 (slab 1) (RtoC p3))
             (Lifetmm.with_n_11 (slab 1) (RtoC p1)) p0).
    + apply only_n_11_slab.
    + apply left_end_brentq.
    + lra.
  - simpl. discriminate.
Defined.

(** ** The two formulas for the amplitudes in an internal layer *)

Lemma matmul_assoc (a b c : M2) : matmul (matmul a b) c = matmul a (matmul b c).
Proof.
  destruct a, b, c; unfold matmul; cbn [m00 m01 m10 m11]. f_equal; ring.
Qed.

Lemma Cexp_add (z w : C) : Cexp (z + w) = (Cexp z * Cexp w)%C.
Proof.
  destruct z as [a b], w as [c d]. unfold Cexp, Cadd, Cmul; simpl.
  rewrite exp_plus, cos_plus, sin_plus. f_equal; ring.
Qed.

Lemma Cexp_neq0 (z : C) : Cexp z <> C0.
Proof.
  intros E. pose proof (Cexp_add z (- z)%C) as H.
  replace (z + - z)%C with C0 in H by ring.
  rewrite Cexp_0, E in H. apply C1_neq_C0. rewrite H. ring.
Qed.

Lemma Cexp_opp (z : C) : (Cexp (- z) * Cexp z)%C = C1.
Proof.
  rewrite <- Cexp_add. replace (- z + z)%C with C0 by ring. apply Cexp_0.
Qed.

(** The same object in the two implementations, lit at an angle: the
    structure, polarisation, field and angle agree, the wavelength is set,
    and [n_11] is what the older code derives from the angle. *)
Record same_setup (tm : Lifetmm.TransferMatrix) (tm' : Methods.TransferMatrix)
  : Prop := {
  ss_d : Methods.d_list tm' = Lifetmm.d_list tm;
  ss_n : Methods.n_list tm' = Lifetmm.n_list tm;
  ss_N : Methods.num_layers tm' = Lifetmm.num_layers tm;
  ss_pol : Methods.pol tm' = Some (Lifetmm.pol tm);
  ss_field : Methods.field tm' = Lifetmm.field tm;
  ss_lam : Methods.lam_vac tm' <> 0;
  ss_k : Lifetmm.k_vac tm = Some (2 * PI / Methods.lam_vac tm');
  ss_guided : Methods.guided tm' = false;
  ss_n_11 : Methods.calc_n_11 tm' = Ok (Lifetmm.n_11 tm)
}.

(** Both finite and equal, or both non-finite. *)
Definition xm_agree (a b : xmatrix) : Prop :=
  match a, b with
  | Finite m, Finite m' => m = m'
  | Finite _, _ => False
  | _, Finite _ => False
  | _, _ => True
  end.

Lemma xm_agree_matmul (a b a' b' : xmatrix) :
  xm_agree a a' -> xm_agree b b' -> xm_agree (xmatmul a b) (xmatmul a' b').
Proof.
  destruct a, a', b, b'; simpl; try contradiction; try exact (fun _ _ => I).
  intros -> ->. reflexivity.
Qed.

Lemma xm_agree_assemble (rt : ieee C * ieee C) :
  xm_agree (assemble AllInf rt) (assemble AllNaN rt).
Proof.
  unfold assemble. destruct (snd rt) as [t|]; [|exact I].
  destruct (Ceqb t C0); [exact I|].
  destruct (fst rt); [reflexivity|exact I].
Qed.

Lemma same_setup_calc_xi (tm : Lifetmm.TransferMatrix)
    (tm' : Methods.TransferMatrix) (j : nat) :
  same_setup tm tm' -> Methods.calc_xi tm' j = Lifetmm.calc_xi tm j.
Proof.
  intros H. unfold Methods.calc_xi, Lifetmm.calc_xi.
  rewrite (ss_n H), (ss_n_11 H). reflexivity.
Qed.

Lemma same_setup_i_matrix (tm : Lifetmm.TransferMatrix)
    (tm' : Methods.TransferMatrix) (j k : nat) (a b : xmatrix) :
  same_setup tm tm' ->
  Lifetmm.i_matrix tm j k = Ok a -> Methods.calc_i_matrix tm' j k = Ok b ->
  xm_agree a b.
Proof.
  intros H. unfold Lifetmm.i_matrix, Methods.calc_i_matrix.
  rewrite !(same_setup_calc_xi _ H), (ss_n H), (ss_pol H), (ss_field H).
  destruct (index (Lifetmm.n_list tm) j) as [nj|]; [|discriminate].
  destruct (index (Lifetmm.n_list tm) k) as [nk|]; [|discriminate].
  destruct (Lifetmm.calc_xi tm j) as [qj|]; [|discriminate].
  destruct (Lifetmm.calc_xi tm k) as [qk|]; [|discriminate].
  simpl. intros E1 E2. injection E1 as <-. injection E2 as <-.
  apply xm_agree_assemble.
Qed.

Lemma same_setup_calc_q (tm : Lifetmm.TransferMatrix)
    (tm' : Methods.TransferMatrix) (j : nat) (q q' : C) :
  same_setup tm tm' ->
  Lifetmm.calc_q tm j = Ok q -> Methods.calc_q tm' j = Ok q' -> q' = q.
Proof.
  intros H. unfold Lifetmm.calc_q, Methods.calc_q, Lifetmm.get_k_vac,
    Methods.calc_k_vacuum.
  rewrite (same_setup_calc_xi _ H), (ss_k H).
  assert (E : Reqb (Methods.lam_vac tm') 0 = false)
    by (apply Reqb_false; exact (ss_lam H)).
  rewrite E. simpl.
  destruct (Lifetmm.calc_xi tm j) as [xi|]; [|discriminate].
  simpl. intros E1 E2. injection E1 as <-. injection E2 as <-.
  f_equal. f_equal. field. exact (ss_lam H).
Qed.

Lemma same_setup_l_matrix (tm : Lifetmm.TransferMatrix)
    (tm' : Methods.TransferMatrix) (j : nat) (l l' : M2) :
  same_setup tm tm' ->
  Lifetmm.l_matrix tm j = Ok l -> Methods.calc_l_matrix tm' j = Ok l' ->
  l' = l.
Proof.
  intros H. unfold Lifetmm.l_matrix, Methods.calc_l_matrix.
  pose proof (@same_setup_calc_q tm tm' j) as Hq.
  destruct (Lifetmm.calc_q tm j) as [q|]; [|discriminate].
  destruct (Methods.calc_q tm' j) as [q'|]; [|discriminate].
  rewrite (Hq q q' H eq_refl eq_refl). rewrite (ss_d H).
  destruct (index (Lifetmm.d_list tm) j) as [dj|]; [|discriminate].
  cbn [rbind].
  destruct (assert (Rltb 0 dj) LayerNoThickness); [|discriminate].
  cbn [rbind].
  destruct (assert (Cltb (Cexp (- Ci * q * RtoC dj)%C) (RtoC float_max))
              LMatrixUnstable); [|discriminate].
  destruct (assert (Cltb (- Ci * q * RtoC dj)%C (RtoC 25)) LMatrixUnstable);
    [|discriminate].
  cbn [rbind]. intros E1 E2. injection E1 as <-. injection E2 as <-.
  reflexivity.
Qed.

Lemma same_setup_chain (tm : Lifetmm.TransferMatrix)
    (tm' : Methods.TransferMatrix) (js : list nat) :
  same_setup tm tm' ->
  forall (s s' r r' : xmatrix),
    xm_agree s s' ->
    Lifetmm.chain tm s js = Ok r -> Methods.chain tm' s' js = Ok r' ->
    xm_agree r r'.
Proof.
  intros H. induction js as [|j js IH]; intros s s' r r' Hs; simpl.
  - intros E1 E2. injection E1 as <-. injection E2 as <-. exact Hs.
  - pose proof (@same_setup_l_matrix tm tm' j) as Hl.
    pose proof (@same_setup_i_matrix tm tm' j (j + 1)) as Hi.
    destruct (Lifetmm.l_matrix tm j) as [l|]; [|discriminate].
    destruct (Methods.calc_l_matrix tm' j) as [l'|]; [|discriminate].
    destruct (Lifetmm.i_matrix tm j (j + 1)) as [i|]; [|discriminate].
    destruct (Methods.calc_i_matrix tm' j (j + 1)) as [i'|]; [|discriminate].
    cbn [rbind]. apply IH.
    apply xm_agree_matmul; [apply xm_agree_matmul; [exact Hs|]|].
    + simpl. symmetry. apply (Hl l l' H eq_refl eq_refl).
    + apply (Hi i i' H eq_refl eq_refl).
Qed.

Lemma methods_chain_app (tm : Methods.TransferMatrix) (js1 js2 : list nat) :
  forall s,
    Methods.chain tm s (js1 ++ js2)
    = rbind (Methods.chain tm s js1) (fun s1 => Methods.chain tm s1 js2).
Proof.
  induction js1 as [|j js1 IH]; intros s; simpl; [reflexivity|].
  destruct (Methods.calc_l_matrix tm j) as [l|]; [|reflexivity].
  destruct (Methods.calc_i_matrix tm j (j + 1)) as [i|]; [|reflexivity].
  simpl. apply IH.
Qed.

Lemma methods_chain_finite (tm : Methods.TransferMatrix) (js : list nat) :
  forall s m, Methods.chain tm s js = Ok (Finite m) -> exists m0, s = Finite m0.
Proof.
  induction js as [|j js IH]; intros s m; simpl.
  - intros E. injection E as ->. eauto.
  - destruct (Methods.calc_l_matrix tm j) as [l|]; [|discriminate].
    destruct (Methods.calc_i_matrix tm j (j + 1)) as [i|]; [|discriminate].
    simpl. intros E. apply IH in E. destruct E as [m0 E].
    destruct s; try discriminate. eauto.
Qed.

(** The product accumulated from [a @ b] is [a] times the one accumulated
    from [b]. *)
Lemma methods_chain_suffix (tm : Methods.TransferMatrix) (js : list nat) :
  forall a b r,
    Methods.chain tm (Finite (matmul a b)) js = Ok (Finite r) ->
    exists t, Methods.chain tm (Finite b) js = Ok (Finite t) /\ r = matmul a t.
Proof.
  induction js as [|j js IH]; intros a b r; simpl.
  - intros E. injection E as <-. eauto.
  - destruct (Methods.calc_l_matrix tm j) as [l|]; [|discriminate].
    destruct (Methods.calc_i_matrix tm j (j + 1)) as [i|]; [|discriminate].
    simpl. intros E. pose proof (methods_chain_finite _ _ _ E) as [m0 Hm0].
    destruct i as [i| | |]; try discriminate.
    rewrite !matmul_assoc in E. apply IH in E. destruct E as (t & Ht & ->).
    exists t. rewrite matmul_assoc. auto.
Qed.

Lemma seq_split_at (layer N : nat) :
  (0 < layer)%nat -> (layer < N - 1)%nat ->
  seq 1 (N - 2)
  = seq 1 (layer - 1) ++ layer :: seq (layer + 1) (N - 1 - (layer + 1)).
Proof.
  intros H0 H1.
  replace (N - 2)%nat with ((layer - 1) + (1 + (N - 1 - (layer + 1))))%nat by lia.
  rewrite seq_app. f_equal.
  replace (1 + (layer - 1))%nat with layer by lia.
  simpl. f_equal. f_equal. lia.
Qed.

(** The system matrix of the older implementation is the product of the
    two partial matrices of the newer one around the layer. *)
Lemma system_matrix_factors (tm : Lifetmm.TransferMatrix)
    (tm' : Methods.TransferMatrix) (layer : nat) (s sp sd : M2) (q : C) (d : R) :
  same_setup tm tm' ->
  (0 < layer)%nat -> (layer < Lifetmm.num_layers tm - 1)%nat ->
  Methods.calc_s_matrix tm' = Ok (Finite s) ->
  Lifetmm.s_primed_matrix tm layer = Ok (Finite sp) ->
  Lifetmm.s_dprimed_matrix tm layer = Ok (Finite sd) ->
  Lifetmm.calc_q tm layer = Ok q ->
  index (Lifetmm.d_list tm) layer = Ok d ->
  s = matmul (matmul sp (propagation_matrix q d)) sd /\
  Methods.calc_s_primed_matrix tm' layer = Ok (Finite sp).
Proof.
  intros H H0 H1 Hs Hsp Hsd Hq Hd.
  unfold Methods.calc_s_matrix in Hs. unfold Methods.calc_s_primed_matrix.
  unfold Lifetmm.s_primed_matrix in Hsp. unfold Lifetmm.s_dprimed_matrix in Hsd.
  rewrite (ss_N H), (@seq_split_at layer (Lifetmm.num_layers tm) H0 H1) in Hs.
  destruct (Methods.calc_i_matrix tm' 0 1) as [i01'|] eqn:Ei'; [|discriminate].
  destruct (Lifetmm.i_matrix tm 0 1) as [i01|] eqn:Ei; [|discriminate].
  cbn [rbind] in *.
  rewrite methods_chain_app in Hs.
  destruct (Methods.chain tm' i01' (seq 1 (layer - 1))) as [sp'|] eqn:Esp';
    [|discriminate].
  cbn [rbind] in Hs.
  pose proof (@same_setup_chain tm tm' _ H _ _ _ _
                (@same_setup_i_matrix tm tm' 0 1 _ _ H Ei Ei') Hsp Esp') as Hag.
  destruct sp' as [sp'| | |]; simpl in Hag; try contradiction. subst sp'.
  split; [|reflexivity].
  simpl in Hs.
  destruct (Methods.calc_l_matrix tm' layer) as [l'|] eqn:El'; [|discriminate].
  destruct (Methods.calc_i_matrix tm' layer (layer + 1)) as [i'|] eqn:Eil';
    [|discriminate].
  cbn [rbind] in Hs.
  destruct (Lifetmm.i_matrix tm layer (layer + 1)) as [i|] eqn:Eil; [|discriminate].
  cbn [rbind] in Hsd.
  pose proof (methods_chain_finite _ _ _ Hs) as [m0 Hm0].
  destruct i' as [i'| | |]; try discriminate.
  pose proof (@same_setup_i_matrix tm tm' _ _ _ _ H Eil Eil') as Hagi.
  destruct i as [i| | |]; simpl in Hagi; try contradiction. subst i'.
  cbn [xmatmul] in Hs.
  apply methods_chain_suffix in Hs. destruct Hs as (t & Ht & ->).
  pose proof (@same_setup_chain tm tm' _ H (Finite i) (Finite i) _ _ eq_refl Hsd Ht)
    as Hagt.
  simpl in Hagt. subst t.
  f_equal. f_equal.
  (* the propagation matrix of the layer *)
  unfold Methods.calc_l_matrix in El'.
  destruct (Methods.calc_q tm' layer) as [q'|] eqn:Eq'; [|discriminate].
  rewrite (@same_setup_calc_q tm tm' layer q q' H Hq Eq') in El'.
  rewrite (ss_d H), Hd in El'. cbn [rbind] in El'.
  destruct (assert (Cltb (- Ci * q * RtoC d)%C (RtoC 25)) LMatrixUnstable);
    [|discriminate].
  cbn [rbind] in El'. injection El' as <-. reflexivity.
Qed.

Lemma RtoC_2 : RtoC 2 = (C1 + C1)%C.
Proof. apply C_ext; simpl; ring. Qed.

(** Inverting [S'] against [(1, r)] and recombining the reflections of
    the two half stacks give the same pair of amplitudes. *)
Lemma amplitudes_agree (a b c d' p q' u v E : C) :
  E <> C0 ->
  a <> C0 -> p <> C0 ->
  (a * d' - b * c)%C <> C0 ->
  (a * (C1 / E) * p + b * E * q')%C <> C0 ->
  (C1 - - b / a * (q' / p) * (E * E))%C <> C0 ->
  let s00 := (a * (C1 / E) * p + b * E * q')%C in
  let s10 := (c * (C1 / E) * p + d' * E * q')%C in
  let r := (s10 / s00)%C in
  let fp := (C1 / a / (C1 - - b / a * (q' / p) * (E * E)))%C in
  ((d' - r * b) / (a * d' - b * c) = fp /\
   (r * a - c) / (a * d' - b * c) = fp * (q' / p) * (E * E))%C.
Proof.
  intros HE Ha Hp Hdet Hs Hden s00 s10 r fp.
  unfold fp, r, s10, s00.
  assert (Hs' : (a * p + b * E * E * q')%C <> C0).
  { intros Z. apply Hs.
    replace (a * (C1 / E) * p + b * E * q')%C
      with ((a * p + b * E * E * q') / E)%C by (field; exact HE).
    rewrite Z. field. exact HE. }
  assert (Hs'' : (a * p - - b * q' * (E * E))%C <> C0).
  { replace (a * p - - b * q' * (E * E))%C with (a * p + b * E * E * q')%C
      by ring.
    exact Hs'. }
  split; field; repeat split; assumption.
Qed.

Lemma ediv_inv (x y z : C) : ediv x y = Exact z -> y <> C0 /\ z = (x / y)%C.
Proof.
  unfold ediv. destruct (Ceqb y C0) eqn:E; [discriminate|].
  apply Ceqb_false in E. intros H. injection H as <-. auto.
Qed.

Lemma radiative_internal_inv (sp sd : xmatrix) (q : C) (d : R) (v : C * C) :
  Lifetmm.radiative_internal sp sd q d = Exact v ->
  exists Sp Sd,
    sp = Finite Sp /\ sd = Finite Sd /\
    m00 Sp <> C0 /\ m00 Sd <> C0 /\
    let ph := Cexp (Ci * RtoC 2 * q * RtoC d)%C in
    let den := (C1 - - m01 Sp / m00 Sp * (m10 Sd / m00 Sd) * ph)%C in
    den <> C0 /\
    v = ((C1 / m00 Sp / den)%C,
         (C1 / m00 Sp / den * (m10 Sd / m00 Sd) * ph)%C).
Proof.
  unfold Lifetmm.radiative_internal.
  destruct sp as [Sp| | |]; try discriminate.
  destruct sd as [Sd| | |]; cbn [entry idiv ibind imap ipair];
    try (destruct (ediv C1 (m00 Sp)); cbn [ibind];
         try destruct (ediv (- m01 Sp)%C (m00 Sp)); discriminate).
  destruct (ediv C1 (m00 Sp)) as [t'|] eqn:Et; [|discriminate].
  apply ediv_inv in Et. destruct Et as [Ha ->].
  rewrite (ediv_exact _ Ha). cbn [ibind imap].
  destruct (ediv (m10 Sd) (m00 Sd)) as [rd|] eqn:Er; cbn [ibind imap];
    [|discriminate].
  apply ediv_inv in Er. destruct Er as [Hp ->].
  cbn [idiv ibind imap].
  destruct (ediv (C1 / m00 Sp)
              (C1 - - m01 Sp / m00 Sp * (m10 Sd / m00 Sd)
                    * Cexp (Ci * RtoC 2 * q * RtoC d))%C) as [fp|] eqn:Ef;
    [|discriminate].
  apply ediv_inv in Ef. destruct Ef as [Hden ->].
  cbn [ibind imap]. intros H. injection H as <-.
  exists Sp, Sd. repeat split; assumption.
Qed.

Lemma methods_internal_inv (s sp : xmatrix) (v : C * C) :
  ipair
    (idiv (ibind (idiv (entry m10 s) (entry m00 s)) (fun r' =>
             entry (fun m => (m11 m - r' * m01 m)%C) sp)) (entry Methods.det sp))
    (idiv (ibind (idiv (entry m10 s) (entry m00 s)) (fun r' =>
             entry (fun m => (r' * m00 m - m10 m)%C) sp)) (entry Methods.det sp))
  = Exact v ->
  exists S Sp,
    s = Finite S /\ sp = Finite Sp /\ m00 S <> C0 /\ Methods.det Sp <> C0 /\
    v = (((m11 Sp - m10 S / m00 S * m01 Sp) / Methods.det Sp)%C,
         ((m10 S / m00 S * m00 Sp - m10 Sp) / Methods.det Sp)%C).
Proof.
  destruct s as [S| | |]; cbn [entry idiv ibind imap ipair];
    try discriminate.
  destruct sp as [Sp| | |]; cbn [entry idiv ibind imap ipair];
    try (destruct (ediv (m10 S) (m00 S)); discriminate).
  destruct (ediv (m10 S) (m00 S)) as [r|] eqn:Er; [|discriminate].
  apply ediv_inv in Er. destruct Er as [Hs ->]. cbn [ibind idiv].
  destruct (ediv (m11 Sp - m10 S / m00 S * m01 Sp)%C (Methods.det Sp))
    as [fp|] eqn:Ef; [|discriminate].
  apply ediv_inv in Ef. destruct Ef as [Hdet ->]. cbn [ibind imap].
  rewrite (ediv_exact _ Hdet). cbn [imap].
  intros H. injection H as <-. exists S, Sp. repeat split; assumption.
Qed.

(** C4. In a radiative configuration and an internal layer, the amplitude
    pair the older implementation obtains by inverting the partial matrix
    [S'] against the entry amplitudes [(1, r)] equals the pair the newer
    one obtains by the multiple-reflection recombination
    [field_plus = t' / (1 - r'_minus * r'' * exp(2i q d))],
    [field_minus = field_plus * r'' * exp(2i q d)], wherever both are
    computed without a division by zero. *)
Theorem radiative_internal_amplitudes_agree (tm : Lifetmm.TransferMatrix)
    (tm' : Methods.TransferMatrix) (layer : nat) (v v' : C * C) :
  same_setup tm tm' ->
  Lifetmm.is_radiative tm = Ok true ->
  (0 < layer)%nat -> (layer < Lifetmm.num_layers tm - 1)%nat ->
  Lifetmm.layer_field_amplitudes tm layer = Ok (Exact v) ->
  Methods.calc_layer_field_amplitudes tm' layer = Ok (Exact v') ->
  v' = v.
Proof.
  intros H Hrad H0 H1 Hmain Hold.
  unfold Lifetmm.layer_field_amplitudes in Hmain.
  rewrite Hrad in Hmain. cbn [rbind] in Hmain.
  destruct (Lifetmm.s_matrix tm) as [s0|]; [|discriminate].
  cbn [rbind] in Hmain.
  destruct (Nat.eqb_spec layer 0) as [E|_]; [lia|].
  destruct (Nat.eqb_spec layer (Lifetmm.num_layers tm - 1)) as [E|_]; [lia|].
  destruct (Lifetmm.calc_q tm layer) as [q|] eqn:Hq; [|discriminate].
  cbn [rbind] in Hmain.
  destruct (index (Lifetmm.d_list tm) layer) as [d|] eqn:Hd; [|discriminate].
  cbn [rbind] in Hmain.
  destruct (Lifetmm.s_primed_matrix tm layer) as [sp|] eqn:Hsp; [|discriminate].
  cbn [rbind] in Hmain.
  destruct (Lifetmm.s_dprimed_matrix tm layer) as [sd|] eqn:Hsd; [|discriminate].
  cbn [rbind] in Hmain. injection Hmain as Hmain.
  apply radiative_internal_inv in Hmain.
  destruct Hmain as (Sp & Sd & -> & -> & Ha & Hp & Hden & ->).
  unfold Methods.calc_layer_field_amplitudes in Hold.
  rewrite (ss_guided H), (ss_N H) in Hold. cbn [negb] in Hold.
  destruct (Methods.calc_s_matrix tm') as [s|] eqn:Hs; [|discriminate].
  cbn [rbind] in Hold.
  destruct (Nat.eqb_spec layer 0) as [E|_]; [lia|].
  destruct (Nat.eqb_spec layer (Lifetmm.num_layers tm - 1)) as [E|_]; [lia|].
  destruct (Methods.calc_s_primed_matrix tm' layer) as [sp'|] eqn:Hsp';
    [|discriminate].
  cbn [rbind] in Hold. injection Hold as Hold.
  apply methods_internal_inv in Hold.
  destruct Hold as (S & Sp' & -> & -> & Hs00 & Hdet & ->).
  destruct (@system_matrix_factors tm tm' layer S Sp Sd q d H H0 H1 Hs Hsp Hsd
              Hq Hd) as [HS Hsp''].
  rewrite Hsp' in Hsp''. injection Hsp'' as ->.
  (* the phases *)
  set (E := Cexp (Ci * q * RtoC d)%C).
  assert (HE : E <> C0) by apply Cexp_neq0.
  assert (Hem : Cexp (- Ci * q * RtoC d)%C = (C1 / E)%C).
  { replace (- Ci * q * RtoC d)%C with (- (Ci * q * RtoC d))%C by ring.
    pose proof (Cexp_opp (Ci * q * RtoC d)%C) as Ho. fold E in Ho.
    replace (Cexp (- (Ci * q * RtoC d)))%C
      with (Cexp (- (Ci * q * RtoC d)) * E / E)%C by (field; exact HE).
    rewrite Ho. reflexivity. }
  assert (Hph : Cexp (Ci * RtoC 2 * q * RtoC d)%C = (E * E)%C).
  { unfold E. rewrite <- Cexp_add. f_equal. rewrite RtoC_2. ring. }
  rewrite Hph in *.
  assert (HS00 : m00 S = (m00 Sp * (C1 / E) * m00 Sd + m01 Sp * E * m10 Sd)%C).
  { rewrite HS. unfold matmul, propagation_matrix. cbn [m00 m01 m10 m11].
    rewrite Hem. fold E. ring. }
  assert (HS10 : m10 S = (m10 Sp * (C1 / E) * m00 Sd + m11 Sp * E * m10 Sd)%C).
  { rewrite HS. unfold matmul, propagation_matrix. cbn [m00 m01 m10 m11].
    rewrite Hem. fold E. ring. }
  rewrite HS00 in Hs00. rewrite HS00, HS10. unfold Methods.det in *.
  destruct (@amplitudes_agree (m00 Sp) (m01 Sp) (m10 Sp) (m11 Sp) (m00 Sd)
              (m10 Sd) C0 C0 E HE Ha Hp Hdet Hs00 Hden) as [Efp Efm].
  cbv zeta in Efp, Efm. rewrite Efp, Efm. reflexivity.
Qed.

(** *** A half-wave film at normal incidence *)

Definition halfwave : Lifetmm.TransferMatrix :=
  Lifetmm.mkTM [0; 1; 0] [RtoC 1; RtoC 2; RtoC 1] (cumsum [0; 1; 0]) 3
               (Some 4) (Some (2 * PI / 4)) (Some (c_light * (2 * PI / 4)))
               field_E pol_TE 0 (RtoC 1 * RtoC (sin 0))%C.

Definition methods_halfwave : Methods.TransferMatrix :=
  Methods.mkTM [0; 1; 0] [RtoC 1; RtoC 2; RtoC 1] (cumsum [0; 1; 0]) 3
               4 (Some pol_TE) field_E 0 1 false C0.

Lemma halfwave_n_11 : Lifetmm.n_11 halfwave = C0.
Proof. simpl. rewrite sin_0. apply C_ext; simpl; ring. Qed.

Lemma halfwave_same_setup : same_setup halfwave methods_halfwave.
Proof.
  constructor; try reflexivity.
  - simpl. lra.
  - unfold Methods.calc_n_11. simpl. rewrite sin_0. f_equal.
    apply C_ext; simpl; ring.
Qed.

(** The real 2x2 matrices. *)
Definition RM (a b c d : R) : M2 := mkM2 (RtoC a) (RtoC b) (RtoC c) (RtoC d).

Lemma interface_matrix_real (r t : R) :
  t <> 0 -> interface_matrix (RtoC r) (RtoC t) = RM (/ t) (r / t) (r / t) (/ t).
Proof.
  intros Ht. unfold interface_matrix, scale, RM. cbn [m00 m01 m10 m11].
  replace C1 with (RtoC 1) by reflexivity.
  rewrite RtoC_div by exact Ht. rewrite !RtoC_mul.
  f_equal; f_equal; field; exact Ht.
Qed.

Lemma te_real_interface (deg : xmatrix) (nj nk : R) :
  0 < nj -> 0 < nk ->
  assemble deg (coefficients pol_TE field_E (RtoC nj) (RtoC nk)
                  (xi_of (RtoC nj) C0) (xi_of (RtoC nk) C0))
  = Finite (RM ((nj + nk) / (2 * nj)) ((nj - nk) / (2 * nj))
               ((nj - nk) / (2 * nj)) ((nj + nk) / (2 * nj))).
Proof.
  intros Pj Pk.
  rewrite !xi_of_normal by (simpl; assumption).
  rewrite single_interface_coefficients by (simpl; assumption).
  unfold fresnel_r. cbn [is_p].
  rewrite RtoC_sub, RtoC_add, !RtoC_mul, !RtoC_div by lra.
  assert (Ht : 2 * nj / (nj + nk) <> 0).
  { assert (0 < 2 * nj / (nj + nk)) by (apply Rdiv_lt_0_compat; lra). lra. }
  rewrite assemble_nonzero by (apply RtoC_neq0; exact Ht).
  rewrite interface_matrix_real by exact Ht.
  f_equal. unfold RM. f_equal; f_equal; field; lra.
Qed.

Lemma halfwave_i_matrix (j k : nat) (nj nk : R) :
  index (Lifetmm.n_list halfwave) j = Ok (RtoC nj) ->
  index (Lifetmm.n_list halfwave) k = Ok (RtoC nk) ->
  0 < nj -> 0 < nk ->
  Lifetmm.i_matrix halfwave j k
  = Ok (Finite (RM ((nj + nk) / (2 * nj)) ((nj - nk) / (2 * nj))
                   ((nj - nk) / (2 * nj)) ((nj + nk) / (2 * nj)))).
Proof.
  intros Hj Hk Pj Pk.
  rewrite (lifetmm_i_matrix_eq _ _ _ Hj Hk), halfwave_n_11.
  change (Lifetmm.pol halfwave) with pol_TE.
  change (Lifetmm.field halfwave) with field_E.
  rewrite te_real_interface by assumption. reflexivity.
Qed.

Lemma methods_halfwave_n_11 : Methods.calc_n_11 methods_halfwave = Ok C0.
Proof.
  unfold Methods.calc_n_11. simpl. rewrite sin_0. f_equal.
  apply C_ext; simpl; ring.
Qed.

Lemma methods_halfwave_i_matrix (j k : nat) (nj nk : R) :
  index (Methods.n_list methods_halfwave) j = Ok (RtoC nj) ->
  index (Methods.n_list methods_halfwave) k = Ok (RtoC nk) ->
  0 < nj -> 0 < nk ->
  Methods.calc_i_matrix methods_halfwave j k
  = Ok (Finite (RM ((nj + nk) / (2 * nj)) ((nj - nk) / (2 * nj))
                   ((nj - nk) / (2 * nj)) ((nj + nk) / (2 * nj)))).
Proof.
  intros Hj Hk Pj Pk.
  rewrite (methods_i_matrix_eq _ _ _ Hj Hk methods_halfwave_n_11 eq_refl).
  change (Methods.field methods_halfwave) with field_E.
  rewrite te_real_interface by assumption. reflexivity.
Qed.

Lemma halfwave_q : Lifetmm.calc_q halfwave 1 = Ok (RtoC PI).
Proof.
  unfold Lifetmm.calc_q, Lifetmm.get_k_vac. cbn [Lifetmm.k_vac halfwave rbind].
  rewrite (@lifetmm_calc_xi_index halfwave 1 (RtoC 2)) by reflexivity.
  rewrite halfwave_n_11, xi_of_normal by (simpl; lra).
  cbn [rbind]. rewrite RtoC_mul. f_equal. f_equal. field.
Qed.

Lemma Cexp_i_pi : Cexp (Ci * RtoC PI * RtoC 1)%C = RtoC (- 1).
Proof.
  replace (Ci * RtoC PI * RtoC 1)%C with (0, PI) by (apply C_ext; simpl; ring).
  rewrite Cexp_imag, cos_PI, sin_PI. reflexivity.
Qed.

Lemma Cexp_minus_i_pi : Cexp (- Ci * RtoC PI * RtoC 1)%C = RtoC (- 1).
Proof.
  replace (- Ci * RtoC PI * RtoC 1)%C with (0, - PI) by (apply C_ext; simpl; ring).
  rewrite Cexp_imag, cos_neg, sin_neg, cos_PI, sin_PI.
  unfold RtoC. f_equal. ring.
Qed.

Lemma Cexp_2i_pi : Cexp (Ci * RtoC 2 * RtoC PI * RtoC 1)%C = RtoC 1.
Proof.
  replace (Ci * RtoC 2 * RtoC PI * RtoC 1)%C with (0, 2 * PI)
    by (apply C_ext; simpl; ring).
  rewrite Cexp_imag, cos_2PI, sin_2PI. reflexivity.
Qed.

Lemma halfwave_l_matrix :
  Lifetmm.l_matrix halfwave 1 = Ok (RM (- 1) 0 0 (- 1)).
Proof.
  unfold Lifetmm.l_matrix. rewrite halfwave_q.
  cbn [rbind Lifetmm.d_list halfwave index nth_error].
  assert (E1 : Rltb 0 1 = true) by (apply Rltb_true; lra).
  rewrite E1. cbn [assert rbind]. rewrite Cexp_minus_i_pi, Cltb_RtoC.
  assert (E2 : Rltb (- 1) float_max = true).
  { apply Rltb_true. pose proof float_max_large. lra. }
  rewrite E2. cbn [assert rbind].
  unfold propagation_matrix. rewrite Cexp_minus_i_pi, Cexp_i_pi. reflexivity.
Qed.

Lemma RM_matmul (a b c d a' b' c' d' : R) :
  matmul (RM a b c d) (RM a' b' c' d')
  = RM (a * a' + b * c') (a * b' + b * d') (c * a' + d * c') (c * b' + d * d').
Proof.
  unfold matmul, RM. cbn [m00 m01 m10 m11].
  rewrite !RtoC_mul, !RtoC_add. reflexivity.
Qed.

Lemma ediv_real (x y : R) :
  y <> 0 -> ediv (RtoC x) (RtoC y) = Exact (RtoC (x / y)).
Proof.
  intros H. rewrite ediv_exact by (apply RtoC_neq0; exact H).
  rewrite RtoC_div by exact H. reflexivity.
Qed.

Lemma halfwave_radiative : Lifetmm.is_radiative halfwave = Ok true.
Proof.
  unfold Lifetmm.is_radiative. rewrite halfwave_n_11.
  unfold index_last, pymax. simpl.
  change C0 with (RtoC 0).
  assert (E : Rltb 0 1 = true) by (apply Rltb_true; lra).
  destruct (Rltb 1 1); rewrite Cltb_RtoC, E; reflexivity.
Qed.

Lemma halfwave_i_01 :
  Lifetmm.i_matrix halfwave 0 1
  = Ok (Finite (RM (3 / 2) (- (1 / 2)) (- (1 / 2)) (3 / 2))).
Proof.
  rewrite (@halfwave_i_matrix 0 1 1 2) by (reflexivity || lra).
  unfold RM. repeat f_equal; field.
Qed.

Lemma halfwave_i_12 :
  Lifetmm.i_matrix halfwave 1 2
  = Ok (Finite (RM (3 / 4) (1 / 4) (1 / 4) (3 / 4))).
Proof.
  rewrite (@halfwave_i_matrix 1 2 2 1) by (reflexivity || lra).
  unfold RM. repeat f_equal; field.
Qed.

Lemma halfwave_s_matrix :
  Lifetmm.s_matrix halfwave = Ok (Finite (RM (- 1) 0 0 (- 1))).
Proof.
  unfold Lifetmm.s_matrix. rewrite halfwave_i_01.
  cbn [rbind Lifetmm.num_layers halfwave Nat.sub seq Lifetmm.chain].
  rewrite halfwave_l_matrix. cbn [rbind Nat.add].
  rewrite halfwave_i_12. cbn [rbind xmatmul].
  rewrite !RM_matmul. unfold RM. repeat f_equal; field.
Qed.

Lemma halfwave_main_amplitudes :
  Lifetmm.layer_field_amplitudes halfwave 1
  = Ok (Exact (RtoC (3 / 4), RtoC (1 / 4))).
Proof.
  unfold Lifetmm.layer_field_amplitudes.
  rewrite halfwave_radiative, halfwave_s_matrix, halfwave_q.
  cbn [rbind Nat.eqb Lifetmm.num_layers halfwave Nat.sub Lifetmm.d_list index
       nth_error].
  unfold Lifetmm.s_primed_matrix, Lifetmm.s_dprimed_matrix.
  rewrite halfwave_i_01.
  cbn [rbind Nat.sub seq Lifetmm.chain Nat.add Lifetmm.num_layers halfwave].
  rewrite halfwave_i_12.
  cbn [rbind Nat.sub seq Lifetmm.chain Nat.add Lifetmm.num_layers halfwave].
  unfold Lifetmm.radiative_internal.
  rewrite Cexp_2i_pi.
  cbn [entry idiv ibind imap ipair RM m00 m01 m10 m11].

  change C1 with (RtoC 1). rewrite RtoC_opp.
  rewrite !ediv_real by lra.
  cbn [idiv ibind imap ipair].
  rewrite !RtoC_mul, !RtoC_sub.
  rewrite !ediv_real.
  2:{ lra. }
  cbn [idiv ibind imap ipair]. rewrite !RtoC_mul.
  do 2 f_equal. f_equal; f_equal; field.
Qed.

Lemma methods_halfwave_q :
  Methods.calc_q methods_halfwave 1 = Ok (RtoC PI).
Proof.
  unfold Methods.calc_q.
  rewrite (@methods_calc_xi_index methods_halfwave 1 (RtoC 2) C0 eq_refl
             methods_halfwave_n_11).
  rewrite xi_of_normal by (simpl; lra).
  unfold Methods.calc_k_vacuum. cbn [Methods.lam_vac methods_halfwave].
  assert (E : Reqb 4 0 = false) by (apply Reqb_false; lra).
  rewrite E. cbn [rbind]. rewrite RtoC_mul. do 2 f_equal. field.
Qed.

Lemma methods_halfwave_l_matrix :
  Methods.calc_l_matrix methods_halfwave 1 = Ok (RM (- 1) 0 0 (- 1)).
Proof.
  unfold Methods.calc_l_matrix. rewrite methods_halfwave_q.
  cbn [rbind Methods.d_list methods_halfwave index nth_error].
  replace (- Ci * RtoC PI * RtoC 1)%C with (0, - PI)
    by (apply C_ext; simpl; ring).
  assert (E : Cltb (0, - PI) (RtoC 25) = true).
  { unfold Cltb. simpl. assert (E : Rltb 0 25 = true) by (apply Rltb_true; lra).
    rewrite E. reflexivity. }
  rewrite E. cbn [assert rbind].
  unfold propagation_matrix. rewrite Cexp_minus_i_pi, Cexp_i_pi. reflexivity.
Qed.

Lemma methods_halfwave_i_01 :
  Methods.calc_i_matrix methods_halfwave 0 1
  = Ok (Finite (RM (3 / 2) (- (1 / 2)) (- (1 / 2)) (3 / 2))).
Proof.
  rewrite (@methods_halfwave_i_matrix 0 1 1 2) by (reflexivity || lra).
  unfold RM. repeat f_equal; field.
Qed.

Lemma methods_halfwave_i_12 :
  Methods.calc_i_matrix methods_halfwave 1 2
  = Ok (Finite (RM (3 / 4) (1 / 4) (1 / 4) (3 / 4))).
Proof.
  rewrite (@methods_halfwave_i_matrix 1 2 2 1) by (reflexivity || lra).
  unfold RM. repeat f_equal; field.
Qed.

Lemma methods_halfwave_s_matrix :
  Methods.calc_s_matrix methods_halfwave = Ok (Finite (RM (- 1) 0 0 (- 1))).
Proof.
  unfold Methods.calc_s_matrix. rewrite methods_halfwave_i_01.
  cbn [rbind Methods.num_layers methods_halfwave Nat.sub seq Methods.chain].
  rewrite methods_halfwave_l_matrix. cbn [rbind Nat.add].
  rewrite methods_halfwave_i_12. cbn [rbind xmatmul].
  rewrite !RM_matmul. unfold RM. repeat f_equal; field.
Qed.

Lemma halfwave_methods_amplitudes :
  Methods.calc_layer_field_amplitudes methods_halfwave 1
  = Ok (Exact (RtoC (3 / 4), RtoC (1 / 4))).
Proof.
  unfold Methods.calc_layer_field_amplitudes.
  cbn [Methods.guided methods_halfwave negb].
  rewrite methods_halfwave_s_matrix.
  cbn [rbind Nat.eqb Methods.num_layers methods_halfwave Nat.sub].
  unfold Methods.calc_s_primed_matrix. rewrite methods_halfwave_i_01.
  cbn [rbind Nat.sub seq Methods.chain].
  cbn [entry idiv ibind imap ipair RM m00 m01 m10 m11].
  rewrite !ediv_real by lra.
  cbn [entry idiv ibind imap ipair RM m00 m01 m10 m11].
  unfold Methods.det. cbn [RM m00 m01 m10 m11].
  rewrite !RtoC_mul, !RtoC_sub.
  rewrite !ediv_real by lra.
  cbn [idiv ibind imap ipair].
  do 2 f_equal. f_equal; f_equal; field.
Qed.

Lemma radiative_internal_amplitudes_agree_witness :
  exists v v' : C * C,
    Lifetmm.layer_field_amplitudes halfwave 1 = Ok (Exact v) /\
    Methods.calc_layer_field_amplitudes methods_halfwave 1 = Ok (Exact v') /\
    v' = v.
Proof.
  exists (RtoC (3 / 4), RtoC (1 / 4)), (RtoC (3 / 4), RtoC (1 / 4)).
  split; [exact halfwave_main_amplitudes|].
  split; [exact halfwave_methods_amplitudes|].
  apply (@radiative_internal_amplitudes_agree halfwave methods_halfwave 1).
  - exact halfwave_same_setup.
  - exact halfwave_radiative.
  - simpl; lia.
  - simpl; lia.
  - exact halfwave_main_amplitudes.
  - exact halfwave_methods_amplitudes.
Defined.

(** ** Energy conservation *)

(** A matrix applied to the pair of amplitudes of the two waves. *)
Definition mulv (m : M2) (v : C * C) : C * C :=
  (m00 m * fst v + m01 m * snd v, m10 m * fst v + m11 m * snd v)%C.

(** The power that the two waves [v = (A, B)] carry across a plane of a
    layer with normalised perpendicular wave vector [xi], up to a
    constant: [Re (conj (A + B) * xi * (A - B))]. *)
Definition flux (xi : C) (v : C * C) : R :=
  Re (Cconj (fst v + snd v) * xi * (fst v - snd v))%C.

(** [m] takes amplitudes in a medium [xb] to amplitudes in a medium [xa]
    carrying the same power. *)
Definition transports (xa xb : C) (m : M2) : Prop :=
  forall v : C * C, flux xa (mulv m v) = flux xb v.

Definition real_or_imaginary (z : C) : Prop := Im z = 0 \/ Re z = 0.

Lemma mulv_matmul (a b : M2) (v : C * C) :
  mulv (matmul a b) v = mulv a (mulv b v).
Proof.
  destruct v as [x y]. unfold mulv, matmul. cbn [m00 m01 m10 m11 fst snd].
  f_equal; ring.
Qed.

Lemma transports_matmul (xa xb xc : C) (a b : M2) :
  transports xa xb a -> transports xb xc b -> transports xa xc (matmul a b).
Proof.
  intros Ha Hb v. rewrite mulv_matmul, Ha, Hb. reflexivity.
Qed.

Lemma Cconj_mul (z w : C) : Cconj (z * w) = (Cconj z * Cconj w)%C.
Proof. apply C_ext; simpl; ring. Qed.

Lemma Cconj_RtoC (x : R) : Cconj (RtoC x) = RtoC x.
Proof. apply C_ext; simpl; ring. Qed.

Lemma transports_interface (r t qj qk : C) :
  t <> C0 ->
  (Cconj ((C1 + r) / t) * qj * ((C1 - r) / t))%C = qk ->
  transports qj qk (interface_matrix r t).
Proof.
  intros Ht Hq [A B]. unfold flux, mulv, interface_matrix, scale.
  cbn [m00 m01 m10 m11 fst snd].
  replace (C1 / t * C1 * A + C1 / t * r * B + (C1 / t * r * A + C1 / t * C1 * B))%C
    with ((C1 + r) / t * (A + B))%C by (field; exact Ht).
  replace (C1 / t * C1 * A + C1 / t * r * B - (C1 / t * r * A + C1 / t * C1 * B))%C
    with ((C1 - r) / t * (A - B))%C by (field; exact Ht).
  rewrite Cconj_mul, <- Hq. f_equal. ring.
Qed.

Lemma assemble_finite_inv (rt : ieee C * ieee C) (m : M2) :
  assemble AllInf rt = Finite m ->
  exists r t, rt = (Exact r, Exact t) /\ t <> C0 /\ m = interface_matrix r t.
Proof.
  destruct rt as [r t]. unfold assemble. cbn [fst snd].
  destruct t as [t|]; [|discriminate].
  destruct (Ceqb t C0) eqn:E; [discriminate|].
  destruct r as [r|]; [|discriminate].
  intros H. injection H as <-. apply Ceqb_false in E. eauto.
Qed.

Lemma Cdiv_neq0_num (x y : C) : (x / y)%C <> C0 -> x <> C0.
Proof. intros H E. apply H. rewrite E. unfold Cdiv. ring. Qed.

Lemma Cmul_neq0_l (x y : C) : (x * y)%C <> C0 -> x <> C0.
Proof. intros H E. apply H. rewrite E. ring. Qed.

Lemma Cmul_neq0_r (x y : C) : (x * y)%C <> C0 -> y <> C0.
Proof. intros H E. apply H. rewrite E. ring. Qed.

(** Across an interface between two media of real index the Fresnel
    coefficients of either polarisation conserve the power. *)
Lemma transports_fresnel (p : polarization) (nj nk : R) (qj qk : C) (m : M2) :
  assemble AllInf (coefficients p field_E (RtoC nj) (RtoC nk) qj qk) = Finite m ->
  transports qj qk m.
Proof.
  intros H. apply assemble_finite_inv in H. destruct H as (r & t & E & Ht & ->).
  unfold coefficients, fresnel, to_field in E.
  destruct (is_p p); injection E as Er Et;
    apply ediv_inv in Er; apply ediv_inv in Et;
    destruct Er as [Dr ->]; destruct Et as [Dt ->].
  - (* p *)
    pose proof (Cdiv_neq0_num Ht) as Hn.
    pose proof (Cmul_neq0_r Hn) as Qj.
    pose proof (Cmul_neq0_r (Cmul_neq0_l Hn)) as Nk.
    pose proof (Cmul_neq0_r (Cmul_neq0_l (Cmul_neq0_l Hn))) as Nj.
    pose proof (RtoC_neq0 (x:=2) ltac:(lra)) as N2.
    assert (Nj' : nj <> 0) by (intros E; apply Nj; rewrite E; reflexivity).
    apply transports_interface; [exact Ht|].
    match goal with |- (Cconj ?c * _ * _)%C = _ =>
      replace c with (RtoC (nk / nj)) end.
    + rewrite Cconj_RtoC, <- RtoC_div by exact Nj'.
      rewrite RtoC_2 in *. field.
      repeat split; solve [assumption | exact N2].
    + rewrite <- RtoC_div by exact Nj'. rewrite RtoC_2 in *. field.
      repeat split; solve [assumption | exact N2].
  - (* s *)
    pose proof (Cdiv_neq0_num Ht) as Hn.
    pose proof (Cmul_neq0_r Hn) as Qj.
    pose proof (RtoC_neq0 (x:=2) ltac:(lra)) as N2.
    apply transports_interface; [exact Ht|].
    match goal with |- (Cconj ?c * _ * _)%C = _ =>
      replace c with (RtoC 1) end.
    + rewrite Cconj_RtoC. change (RtoC 1) with C1. rewrite RtoC_2 in *. field.
      repeat split; solve [assumption | exact N2].
    + change (RtoC 1) with C1. rewrite RtoC_2 in *. field.
      repeat split; solve [assumption | exact N2].
Qed.

Lemma flux_expand (xi A B : C) :
  flux xi (A, B)
  = Re xi * (Cnorm2 A - Cnorm2 B) - 2 * Im xi * Im (Cconj B * A)%C.
Proof.
  destruct xi as [x y], A as [a1 a2], B as [b1 b2].
  unfold flux, Cnorm2. simpl. ring.
Qed.

Lemma Cnorm2_Cexp (z : C) : Cnorm2 (Cexp z) = exp (Re z) * exp (Re z).
Proof.
  unfold Cnorm2, Cexp. simpl.
  pose proof (sin2_cos2 (Im z)) as H. unfold Rsqr in H.
  replace (exp (Re z) * cos (Im z) * (exp (Re z) * cos (Im z)) +
           exp (Re z) * sin (Im z) * (exp (Re z) * sin (Im z)))
    with (exp (Re z) * exp (Re z) * (sin (Im z) * sin (Im z) + cos (Im z) * cos (Im z)))
    by ring.
  rewrite H. ring.
Qed.

(** Across a layer the power is conserved when the perpendicular wave
    vector is real (the two waves change phase) or purely imaginary (one
    grows as the other decays). *)
Lemma transports_propagation (xi : C) (k d : R) :
  real_or_imaginary xi ->
  transports xi xi (propagation_matrix (xi * RtoC k) d).
Proof.
  intros Hxi [A B]. unfold mulv, propagation_matrix.
  cbn [m00 m01 m10 m11 fst snd].
  replace (Cexp (- Ci * (xi * RtoC k) * RtoC d) * A + C0 * B)%C
    with (Cexp (- Ci * (xi * RtoC k) * RtoC d) * A)%C by ring.
  replace (C0 * A + Cexp (Ci * (xi * RtoC k) * RtoC d) * B)%C
    with (Cexp (Ci * (xi * RtoC k) * RtoC d) * B)%C by ring.
  rewrite !flux_expand.
  destruct Hxi as [Hi|Hr].
  - rewrite Hi, !Cnorm2_mul, !Cnorm2_Cexp.
    replace (Re (- Ci * (xi * RtoC k) * RtoC d)%C) with 0
      by (destruct xi as [x y]; simpl in *; subst y; ring).
    replace (Re (Ci * (xi * RtoC k) * RtoC d)%C) with 0
      by (destruct xi as [x y]; simpl in *; subst y; ring).
    rewrite exp_0. ring.
  - destruct xi as [x y]. simpl in Hr. subst x.
    replace (- Ci * ((0, y) * RtoC k) * RtoC d)%C with (y * k * d, 0)
      by (apply C_ext; simpl; ring).
    replace (Ci * ((0, y) * RtoC k) * RtoC d)%C with (- (y * k * d), 0)
      by (apply C_ext; simpl; ring).
    rewrite !Cexp_real, exp_Ropp.
    pose proof (exp_pos (y * k * d)) as He.
    destruct A as [a1 a2], B as [b1 b2]. unfold Cnorm2. simpl. field. lra.
Qed.

(** Every layer has a real refractive index. *)
Definition lossless (tm : Lifetmm.TransferMatrix) : Prop :=
  Forall (fun n : C => Im n = 0) (Lifetmm.n_list tm).

Lemma index_Forall {A} (P : A -> Prop) (l : list A) (j : nat) (x : A) :
  Forall P l -> index l j = Ok x -> P x.
Proof.
  intros H. unfold index. destruct (nth_error l j) as [y|] eqn:E; [|discriminate].
  intros E'. injection E' as <-. rewrite Forall_forall in H.
  apply H. eapply nth_error_In; eassumption.
Qed.

Lemma real_RtoC (z : C) : Im z = 0 -> z = RtoC (Re z).
Proof. intros H. apply C_ext; simpl; [reflexivity|exact H]. Qed.

Lemma xi_real_or_imaginary (n x : C) :
  Im n = 0 -> Im x = 0 -> real_or_imaginary (xi_of n x).
Proof.
  intros Hn Hx. rewrite (real_RtoC _ Hn), (real_RtoC _ Hx).
  destruct (Rle_dec (Re x * Re x) (Re n * Re n)) as [H|H].
  - left. rewrite xi_of_real_below by exact H. reflexivity.
  - right. rewrite xi_of_real_ge by lra. reflexivity.
Qed.

Lemma lifetmm_chain_finite (tm : Lifetmm.TransferMatrix) (js : list nat) :
  forall s m, Lifetmm.chain tm s js = Ok (Finite m) -> exists m0, s = Finite m0.
Proof.
  induction js as [|j js IH]; intros s m; simpl.
  - intros E. injection E as ->. eauto.
  - destruct (Lifetmm.l_matrix tm j) as [l|]; [|discriminate].
    destruct (Lifetmm.i_matrix tm j (j + 1)) as [i|]; [|discriminate].
    simpl. intros E. apply IH in E. destruct E as [m0 E].
    destruct s; try discriminate. eauto.
Qed.

Lemma l_matrix_inv (tm : Lifetmm.TransferMatrix) (j : nat) (l : M2) :
  Lifetmm.l_matrix tm j = Ok l ->
  exists nj k d,
    index (Lifetmm.n_list tm) j = Ok nj /\
    l = propagation_matrix (xi_of nj (Lifetmm.n_11 tm) * RtoC k) d.
Proof.
  unfold Lifetmm.l_matrix, Lifetmm.calc_q, Lifetmm.get_k_vac, Lifetmm.calc_xi.
  destruct (Lifetmm.k_vac tm) as [k|]; [|discriminate].
  destruct (index (Lifetmm.n_list tm) j) as [nj|]; [|discriminate].
  cbn [rbind].
  destruct (index (Lifetmm.d_list tm) j) as [d|]; [|discriminate].
  cbn [rbind].
  destruct (assert (Rltb 0 d) LayerNoThickness); [|discriminate].
  cbn [rbind].
  match goal with |- context [assert ?b ?e] => destruct (assert b e) end;
    [|discriminate].
  cbn [rbind]. intros E. injection E as <-.
  exists nj, k, d. split; reflexivity.
Qed.

Lemma i_matrix_inv (tm : Lifetmm.TransferMatrix) (j k : nat) (i : xmatrix) :
  Lifetmm.i_matrix tm j k = Ok i ->
  exists nj nk,
    index (Lifetmm.n_list tm) j = Ok nj /\
    index (Lifetmm.n_list tm) k = Ok nk /\
    i = assemble AllInf
          (coefficients (Lifetmm.pol tm) (Lifetmm.field tm) nj nk
             (xi_of nj (Lifetmm.n_11 tm)) (xi_of nk (Lifetmm.n_11 tm))).
Proof.
  intros H.
  destruct (index (Lifetmm.n_list tm) j) as [nj|] eqn:Ej.
  - destruct (index (Lifetmm.n_list tm) k) as [nk|] eqn:Ek.
    + rewrite (lifetmm_i_matrix_eq _ _ _ Ej Ek) in H. injection H as <-.
      exists nj, nk. auto.
    + unfold Lifetmm.i_matrix in H. rewrite Ej, Ek in H. discriminate.
  - unfold Lifetmm.i_matrix in H. rewrite Ej in H. discriminate.
Qed.

Lemma i_matrix_transports (tm : Lifetmm.TransferMatrix) (j k : nat) (m : M2) :
  lossless tm -> Lifetmm.field tm = field_E ->
  Lifetmm.i_matrix tm j k = Ok (Finite m) ->
  exists nj nk,
    index (Lifetmm.n_list tm) j = Ok nj /\
    index (Lifetmm.n_list tm) k = Ok nk /\
    transports (xi_of nj (Lifetmm.n_11 tm)) (xi_of nk (Lifetmm.n_11 tm)) m.
Proof.
  intros Hl Hf H. apply i_matrix_inv in H.
  destruct H as (nj & nk & Ej & Ek & E).
  exists nj, nk. split; [exact Ej|]. split; [exact Ek|].
  rewrite Hf in E. symmetry in E.
  pose proof (@index_Forall _ _ _ _ _ Hl Ej) as Rj. pose proof (@index_Forall _ _ _ _ _ Hl Ek) as Rk.
  simpl in Rj, Rk.
  rewrite (real_RtoC _ Rj) in E at 1. rewrite (real_RtoC _ Rk) in E at 1.
  eapply transports_fresnel. exact E.
Qed.

(** The matrix accumulated over the layers [a, ..., a + len - 1] takes
    amplitudes in layer [a + len] to amplitudes in the entry medium with
    the same power. *)
Lemma chain_transports (tm : Lifetmm.TransferMatrix) (x0 : C) :
  lossless tm -> Im (Lifetmm.n_11 tm) = 0 -> Lifetmm.field tm = field_E ->
  forall (len a : nat) (s s' : M2) (na : C),
    index (Lifetmm.n_list tm) a = Ok na ->
    transports x0 (xi_of na (Lifetmm.n_11 tm)) s ->
    Lifetmm.chain tm (Finite s) (seq a len) = Ok (Finite s') ->
    exists nb,
      index (Lifetmm.n_list tm) (a + len) = Ok nb /\
      transports x0 (xi_of nb (Lifetmm.n_11 tm)) s'.
Proof.
  intros Hl Hx Hf. induction len as [|len IH]; intros a s s' na Ha Hs Hc.
  - simpl in Hc. injection Hc as <-. rewrite Nat.add_0_r. eauto.
  - cbn [seq Lifetmm.chain] in Hc.
    destruct (Lifetmm.l_matrix tm a) as [l|] eqn:El; [|discriminate].
    destruct (Lifetmm.i_matrix tm a (a + 1)) as [i|] eqn:Ei; [|discriminate].
    cbn [rbind] in Hc.
    pose proof (lifetmm_chain_finite _ _ _ Hc) as [m0 Hm0].
    destruct i as [i| | |]; try discriminate.
    cbn [xmatmul] in Hc.
    apply l_matrix_inv in El. destruct El as (nj & k & d & Ej & ->).
    rewrite Ha in Ej. injection Ej as <-.
    destruct (i_matrix_transports _ _ Hl Hf Ei) as (nj & nk & Ej & Ek & Hi).
    rewrite Ha in Ej. injection Ej as <-.
    replace (a + 1)%nat with (S a) in Ek by lia.
    replace (a + S len)%nat with (S a + len)%nat by lia.
    refine (IH (S a) _ s' nk Ek _ Hc).
    apply transports_matmul with (xb := xi_of na (Lifetmm.n_11 tm)); [|exact Hi].
    apply transports_matmul with (xb := xi_of na (Lifetmm.n_11 tm)); [exact Hs|].
    apply transports_propagation. apply xi_real_or_imaginary; [|exact Hx].
    exact (@index_Forall _ _ _ _ _ Hl Ha).
Qed.

Lemma s_matrix_transports (tm : Lifetmm.TransferMatrix) (s : M2) :
  lossless tm -> Im (Lifetmm.n_11 tm) = 0 -> Lifetmm.field tm = field_E ->
  Lifetmm.s_matrix tm = Ok (Finite s) ->
  exists n0 nN,
    index (Lifetmm.n_list tm) 0 = Ok n0 /\
    index (Lifetmm.n_list tm) (1 + (Lifetmm.num_layers tm - 2)) = Ok nN /\
    transports (xi_of n0 (Lifetmm.n_11 tm)) (xi_of nN (Lifetmm.n_11 tm)) s.
Proof.
  intros Hl Hx Hf H. unfold Lifetmm.s_matrix in H.
  destruct (Lifetmm.i_matrix tm 0 1) as [i|] eqn:Ei; [|discriminate].
  cbn [rbind] in H.
  pose proof (lifetmm_chain_finite _ _ _ H) as [i0 ->].
  destruct (i_matrix_transports _ _ Hl Hf Ei) as (n0 & n1 & E0 & E1 & Hi).
  destruct (chain_transports Hl Hx Hf _ _ E1 Hi H) as (nN & EN & HN).
  exists n0, nN. auto.
Qed.

(** The power arriving, less the power reflected, is the power carried
    away in the exit medium. *)
Lemma power_balance (s : M2) (x0 : R) (xiN : C) :
  m00 s <> C0 ->
  transports (RtoC x0) xiN s ->
  x0 * (1 - Cnorm2 (m10 s / m00 s)) = Re xiN * Cnorm2 (C1 / m00 s).
Proof.
  intros H0 H. specialize (H ((C1 / m00 s)%C, C0)).
  unfold mulv in H. cbn [fst snd] in H.
  replace (m00 s * (C1 / m00 s) + m01 s * C0)%C with C1 in H
    by (field; exact H0).
  replace (m10 s * (C1 / m00 s) + m11 s * C0)%C with (m10 s / m00 s)%C in H
    by (field; exact H0).
  rewrite !flux_expand in H.
  replace (Cnorm2 C1) with 1 in H by (unfold Cnorm2; simpl; ring).
  replace (Cnorm2 C0) with 0 in H by (unfold Cnorm2; simpl; ring).
  replace (Im (Cconj C0 * (C1 / m00 s))%C) with 0 in H by (simpl; ring).
  simpl (Re (RtoC x0)) in H. simpl (Im (RtoC x0)) in H. lra.
Qed.

Lemma last_cons {A} (l : list A) : forall x y, last (y :: l) x = last l y.
Proof.
  induction l as [|z l IH]; intros x y; [reflexivity|].
  change (last (y :: z :: l) x) with (last (z :: l) x).
  rewrite !IH. reflexivity.
Qed.

Lemma index_last_length {A} (l : list A) :
  l <> [] -> index l (length l - 1) = index_last l.
Proof.
  unfold index, index_last, last_error.
  destruct l as [|x l]; [congruence|]. intros _.
  cbn [length]. replace (S (length l) - 1)%nat with (length l) by lia.
  assert (H : nth_error (x :: l) (length l) = Some (last l x)).
  { revert x. induction l as [|y l IH]; intros x; [reflexivity|].
    cbn [length nth_error]. rewrite IH, last_cons. reflexivity. }
  rewrite H. reflexivity.
Qed.

(** What [set_incident_angle] leaves behind when it returns. *)
Lemma set_incident_angle_inv (a : R) (u : angle_units)
    (tm0 tm : Lifetmm.TransferMatrix) :
  Lifetmm.set_incident_angle a u tm0 = (Ok tt, tm) ->
  exists n0 th,
    0 <= th < PI / 2 /\
    index (Lifetmm.n_list tm0) 0 = Ok n0 /\
    tm = Lifetmm.with_n_11 (Lifetmm.with_th tm0 th) (n0 * RtoC (sin th))%C.
Proof.
  unfold Lifetmm.set_incident_angle, bind, update.
  destruct u.
  - destruct (Rleb 0 a && Rltb a (PI / 2)) eqn:E; cbn [assert rbind];
      [|discriminate].
    cbn [Lifetmm.with_th Lifetmm.n_list Lifetmm.th].
    destruct (index (Lifetmm.n_list tm0) 0) as [n0|]; cbn [rbind];
      [|discriminate].
    intros H. injection H as <-. exists n0, a.
    apply andb_prop in E. destruct E as [E1 E2].
    apply Rleb_true in E1. apply Rltb_true in E2.
    repeat split; assumption || reflexivity.
  - destruct (Rleb 0 a && Rltb a 90) eqn:E; cbn [assert rbind];
      [|discriminate].
    cbn [Lifetmm.with_th Lifetmm.n_list Lifetmm.th].
    destruct (index (Lifetmm.n_list tm0) 0) as [n0|]; cbn [rbind];
      [|discriminate].
    intros H. injection H as <-. exists n0, (a * (PI / 180)).
    apply andb_prop in E. destruct E as [E1 E2].
    apply Rleb_true in E1. apply Rltb_true in E2.
    pose proof PI_RGT_0 as Hpi.
    repeat split; try reflexivity; nra.
  - cbn. discriminate.
Qed.

Lemma reflectance_and_transmittance_inv (tm : Lifetmm.TransferMatrix)
    (Rf : R) (T : C) :
  Lifetmm.calc_reflectance_and_transmittance tm true = Ok (Exact (Rf, T)) ->
  exists s n_1 n_2 rm,
    Lifetmm.s_matrix tm = Ok (Finite s) /\ m00 s <> C0 /\
    index (Lifetmm.n_list tm) 0 = Ok n_1 /\
    index_last (Lifetmm.n_list tm) = Ok n_2 /\
    Lifetmm.beam_correction (Re n_1) (Re n_2) (Lifetmm.th tm) = Exact rm /\
    Rf = Cnorm2 (m10 s / m00 s) /\
    T = (RtoC (Cnorm2 (C1 / m00 s)) * rm)%C.
Proof.
  unfold Lifetmm.calc_reflectance_and_transmittance, Lifetmm.calc_r_and_t.
  destruct (Lifetmm.s_matrix tm) as [s|]; [|discriminate].
  cbn [rbind].
  destruct s as [s| | |]; cbn [entry idiv ibind imap ipair].
  2-4: destruct (index (Lifetmm.n_list tm) 0); cbn [rbind]; try discriminate;
       destruct (index_last (Lifetmm.n_list tm)); cbn [rbind]; discriminate.
  unfold ediv. destruct (Ceqb (m00 s) C0) eqn:E0; cbn [ibind imap].
  - destruct (index (Lifetmm.n_list tm) 0); cbn [rbind]; try discriminate;
      destruct (index_last (Lifetmm.n_list tm)); cbn [rbind]; discriminate.
  - apply Ceqb_false in E0.
    destruct (index (Lifetmm.n_list tm) 0) as [n_1|]; cbn [rbind];
      [|discriminate].
    destruct (index_last (Lifetmm.n_list tm)) as [n_2|]; cbn [rbind];
      [|discriminate].
    destruct (Lifetmm.beam_correction (Re n_1) (Re n_2) (Lifetmm.th tm))
      as [rm|] eqn:Eb; cbn [imap ipair ibind]; [|discriminate].
    intros H. injection H as <- <-.
    exists s, n_1, n_2, rm.
    change (Cabs (m10 s / m00 s) * (Cabs (m10 s / m00 s) * 1))
      with (Cabs (m10 s / m00 s) ^ 2).
    change (Cabs (C1 / m00 s) * (Cabs (C1 / m00 s) * 1))
      with (Cabs (C1 / m00 s) ^ 2).
    rewrite !Cabs_sqr. repeat split; auto.
Qed.

(** The beam-expansion factor below the critical angle of the exit
    medium: the ratio of the perpendicular wave vectors. *)
Lemma beam_correction_propagating (n_in n_out a : R) :
  0 < n_in -> 0 <= a < PI / 2 -> n_in * sin a < n_out ->
  Lifetmm.beam_correction n_in n_out a
  = Exact (RtoC (sqrt (n_out * n_out - n_in * sin a * (n_in * sin a))
                 / (n_in * cos a))).
Proof.
  intros Hin Ha Hc.
  assert (Hs : 0 <= sin a) by (apply sin_ge_0; lra).
  assert (Hcos : 0 < cos a) by (apply cos_gt_0; lra).
  assert (Hout : 0 < n_out) by nra.
  unfold Lifetmm.beam_correction.
  assert (E1 : Reqb n_out 0 = false) by (apply Reqb_false; lra).
  assert (E2 : Reqb n_in 0 = false) by (apply Reqb_false; lra).
  assert (E3 : Reqb (cos a) 0 = false) by (apply Reqb_false; lra).
  rewrite E1, E2, E3. f_equal.
  unfold HelperFunctions.snell, HelperFunctions.sp_arcsin.
  set (y := n_in * sin a / n_out).
  assert (Hy : 0 <= y < 1).
  { unfold y. split.
    - apply Rmult_le_pos; [nra|]. apply Rlt_le, Rinv_0_lt_compat. exact Hout.
    - apply Rmult_lt_reg_r with n_out; [exact Hout|]. field_simplify; lra. }
  destruct (Rle_dec (Rabs y) 1) as [_|N].
  2:{ exfalso. apply N. rewrite Rabs_pos_eq; lra. }
  unfold Ccos. cbn [Re Im fst snd].
  rewrite cos_asin by lra. rewrite cosh_0, sinh_0.
  replace ((sqrt (1 - y²) * 1)%R, (- (sin (asin y) * 0))%R)
    with (RtoC (sqrt (1 - y²))) by (apply C_ext; simpl; ring).
  rewrite RtoC_div by lra. rewrite RtoC_mul. f_equal.
  replace (n_out * n_out - n_in * sin a * (n_in * sin a))
    with (n_out * n_out * (1 - y²)) by (unfold y, Rsqr; field; lra).
  rewrite sqrt_mult; [|nra|unfold Rsqr; nra].
  rewrite sqrt_square by lra. field. lra.
Qed.


(** The claim as it is stated: any lossless structure, either
    polarisation, any angle of incidence that [set_incident_angle]
    accepts. *)
Definition energy_conservation_claim : Prop :=
  forall (tm0 tm : Lifetmm.TransferMatrix) (a : R) (u : angle_units)
         (Rf : R) (T : C),
    lossless tm0 ->
    Lifetmm.num_layers tm0 = length (Lifetmm.n_list tm0) ->
    Lifetmm.field tm0 = field_E ->
    Lifetmm.set_incident_angle a u tm0 = (Ok tt, tm) ->
    Lifetmm.calc_reflectance_and_transmittance tm true = Ok (Exact (Rf, T)) ->
    (RtoC Rf + T)%C = C1.

(** Energy conservation below the critical angle.  For every structure
    whose layers all have real refractive indices, with a positive index
    of the entry medium, evaluated for the E field, for either
    polarisation and every angle of incidence that [set_incident_angle]
    accepts and that is below the critical angle of the exit medium
    ([n_in * sin th < n_out]): whenever
    [calc_reflectance_and_transmittance] with the beam-expansion correction
    returns finite values [R] and [T], they satisfy [R + T = 1] in exact
    arithmetic.  Layers in between may be beyond their own critical
    angle. *)
Theorem energy_conservation (tm0 tm : Lifetmm.TransferMatrix) (a : R)
    (u : angle_units) (n_in n_out : C) (Rf : R) (T : C) :
  lossless tm0 ->
  Lifetmm.num_layers tm0 = length (Lifetmm.n_list tm0) ->
  Lifetmm.field tm0 = field_E ->
  Lifetmm.set_incident_angle a u tm0 = (Ok tt, tm) ->
  index (Lifetmm.n_list tm0) 0 = Ok n_in ->
  index_last (Lifetmm.n_list tm0) = Ok n_out ->
  0 < Re n_in ->
  Re n_in * sin (Lifetmm.th tm) < Re n_out ->
  Lifetmm.calc_reflectance_and_transmittance tm true = Ok (Exact (Rf, T)) ->
  (RtoC Rf + T)%C = C1.
Proof.
  intros Hl HN Hf Hset Hin Hout Pin Hcrit Hres.
  apply set_incident_angle_inv in Hset.
  destruct Hset as (n0 & th & Hth & E0 & Htm).
  rewrite Hin in E0. injection E0 as <-.
  assert (Hn : Lifetmm.n_list tm = Lifetmm.n_list tm0) by (rewrite Htm; reflexivity).
  assert (HN' : Lifetmm.num_layers tm = Lifetmm.num_layers tm0)
    by (rewrite Htm; reflexivity).
  assert (Hf' : Lifetmm.field tm = field_E) by (rewrite Htm; exact Hf).
  assert (Hx : Lifetmm.n_11 tm = (n_in * RtoC (sin th))%C)
    by (rewrite Htm; reflexivity).
  assert (Ht : Lifetmm.th tm = th) by (rewrite Htm; reflexivity).
  clear Htm. rewrite Ht in *.
  assert (Hl' : lossless tm) by (unfold lossless; rewrite Hn; exact Hl).
  pose proof (@index_Forall _ _ _ _ _ Hl Hin) as Rin.
  assert (Rout : Im n_out = 0).
  { rewrite <- index_last_length in Hout.
    - exact (@index_Forall _ _ _ _ _ Hl Hout).
    - intros E. rewrite E in Hin. discriminate. }
  simpl in Rin.
  rewrite (real_RtoC _ Rin) in Hx. rewrite RtoC_mul in Hx.
  apply reflectance_and_transmittance_inv in Hres.
  destruct Hres as (s & n_1 & n_2 & rm & Hs & H00 & E1 & E2 & Eb & -> & ->).
  rewrite Hn in E1, E2. rewrite Hin in E1. rewrite Hout in E2.
  injection E1 as <-. injection E2 as <-.
  rewrite Ht, beam_correction_propagating in Eb by assumption.
  injection Eb as <-.
  destruct (s_matrix_transports Hl' ltac:(rewrite Hx; reflexivity) Hf' Hs)
    as (n0 & nN & E0 & EN & Htr).
  rewrite Hn, Hin in E0. injection E0 as <-.
  assert (E : index (Lifetmm.n_list tm) (1 + (Lifetmm.num_layers tm - 2))
              = Ok n_out).
  { rewrite Hn, HN', HN in EN |- *.
    assert (Hlen : (1 + (length (Lifetmm.n_list tm0) - 2)
                    < length (Lifetmm.n_list tm0))%nat).
    { apply nth_error_Some. unfold index in EN.
      destruct (nth_error (Lifetmm.n_list tm0)
                          (1 + (length (Lifetmm.n_list tm0) - 2)));
        [discriminate|discriminate EN]. }
    rewrite <- Hout, <- index_last_length.
    - f_equal. lia.
    - intros E. rewrite E in Hin. discriminate. }
  rewrite EN in E. injection E as ->.
  rewrite (real_RtoC _ Rin), (real_RtoC _ Rout) in Htr.
  rewrite Hx in Htr.
  assert (Hs0 : 0 <= sin th) by (apply sin_ge_0; lra).
  assert (Hc0 : 0 < cos th) by (apply cos_gt_0; lra).
  assert (Hx0 : 0 <= Re n_in * sin th) by (apply Rmult_le_pos; lra).
  pose proof (sin2_cos2 th) as Hsc. unfold Rsqr in Hsc.
  rewrite (@xi_of_real_below (Re n_out)) in Htr
    by (apply Rmult_le_compat; lra).
  rewrite (@xi_of_real_below (Re n_in)) in Htr.
  2:{ replace (Re n_in * sin th * (Re n_in * sin th))
        with (Re n_in * Re n_in * (1 - cos th * cos th)) by nra.
      assert (0 <= Re n_in * Re n_in * (cos th * cos th)) by
        (apply Rmult_le_pos; nra).
      lra. }
  replace (Re n_in * Re n_in - Re n_in * sin th * (Re n_in * sin th))
    with ((Re n_in * cos th) * (Re n_in * cos th)) in Htr by nra.
  rewrite sqrt_square in Htr by nra.
  pose proof (power_balance H00 Htr) as Hp. simpl (Re (RtoC _)) in Hp.
  set (Rr := Cnorm2 (m10 s / m00 s)) in *.
  set (Tt := Cnorm2 (C1 / m00 s)) in *.
  rewrite RtoC_mul, RtoC_add. change C1 with (RtoC 1). f_equal.
  set (q := sqrt (Re n_out * Re n_out - Re n_in * sin th * (Re n_in * sin th))) in *.
  replace (Tt * (q / (Re n_in * cos th))) with (q * Tt / (Re n_in * cos th))
    by (field; lra).
  rewrite <- Hp. field. lra.
Qed.

Lemma halfwave_set_incident_angle :
  Lifetmm.set_incident_angle 0 radians halfwave = (Ok tt, halfwave).
Proof.
  unfold Lifetmm.set_incident_angle, bind, update.
  assert (E : Rleb 0 0 && Rltb 0 (PI / 2) = true).
  { apply andb_true_intro. split.
    - apply Rleb_true. lra.
    - apply Rltb_true. pose proof PI_RGT_0. lra. }
  rewrite E. reflexivity.
Qed.

Lemma halfwave_lossless : lossless halfwave.
Proof. unfold lossless. simpl. repeat constructor. Qed.

Lemma halfwave_reflectance_and_transmittance :
  exists Rf T,
    Lifetmm.calc_reflectance_and_transmittance halfwave true
    = Ok (Exact (Rf, T)).
Proof.
  unfold Lifetmm.calc_reflectance_and_transmittance, Lifetmm.calc_r_and_t.
  rewrite halfwave_s_matrix.
  cbn [rbind entry idiv ibind imap ipair RM m00 m01 m10 m11].
  change C1 with (RtoC 1). rewrite !ediv_real by lra.
  cbn [rbind entry idiv ibind imap ipair].
  unfold index_last.
  cbn [rbind Lifetmm.n_list halfwave index nth_error last_error last Lifetmm.th].
  simpl (Re (RtoC 1)).
  rewrite beam_correction_propagating.
  - cbn [imap]. eexists. eexists. reflexivity.
  - lra.
  - pose proof PI_RGT_0. lra.
  - rewrite sin_0. lra.
Qed.

Lemma energy_conservation_witness :
  exists (Rf : R) (T : C),
    Lifetmm.calc_reflectance_and_transmittance halfwave true
    = Ok (Exact (Rf, T)) /\ (RtoC Rf + T)%C = C1.
Proof.
  destruct halfwave_reflectance_and_transmittance as (Rf & T & H).
  exists Rf, T. split; [exact H|].
  apply (@energy_conservation halfwave halfwave 0 radians (RtoC 1) (RtoC 1) Rf T).
  - exact halfwave_lossless.
  - reflexivity.
  - reflexivity.
  - exact halfwave_set_incident_angle.
  - reflexivity.
  - reflexivity.
  - simpl. lra.
  - simpl. rewrite sin_0. lra.
  - exact H.
Defined.

(** *** Total internal reflection *)

(** Glass of index 2 onto air, at 60 degrees: beyond the critical angle
    of 30 degrees. *)
Definition glass_air : Lifetmm.TransferMatrix :=
  Lifetmm.mkTM [0; 0] [RtoC 2; RtoC 1] [0; 0] 2 None None None
               field_E pol_TE (PI / 3) (RtoC 2 * RtoC (sin (PI / 3)))%C.

Lemma glass_air_set_incident_angle :
  Lifetmm.set_incident_angle (PI / 3) radians glass_air = (Ok tt, glass_air).
Proof.
  unfold Lifetmm.set_incident_angle, bind, update.
  assert (E : Rleb 0 (PI / 3) && Rltb (PI / 3) (PI / 2) = true).
  { pose proof PI_RGT_0. apply andb_true_intro. split.
    - apply Rleb_true. lra.
    - apply Rltb_true. lra. }
  rewrite E. reflexivity.
Qed.

Lemma glass_air_n_11 : Lifetmm.n_11 glass_air = RtoC (sqrt 3).
Proof.
  simpl. rewrite sin_PI3, RtoC_mul. f_equal. field.
Qed.

Lemma glass_air_s_matrix :
  exists s, Lifetmm.s_matrix glass_air = Ok (Finite s) /\ m00 s <> C0.
Proof.
  unfold Lifetmm.s_matrix.
  rewrite (@lifetmm_i_matrix_eq glass_air 0 1 (RtoC 2) (RtoC 1) eq_refl eq_refl).
  rewrite glass_air_n_11.
  pose proof (sqrt_sqrt 3 ltac:(lra)) as H3.
  rewrite xi_of_real_below by lra.
  rewrite xi_of_real_above by lra.
  replace (2 * 2 - sqrt 3 * sqrt 3) with 1 by lra.
  replace (sqrt 3 * sqrt 3 - 1 * 1) with 2 by lra.
  rewrite sqrt_1.
  change (Lifetmm.pol glass_air) with pol_TE.
  change (Lifetmm.field glass_air) with field_E.
  unfold coefficients, fresnel, to_field. cbn [is_p].
  assert (D : (RtoC 1 + (0, sqrt 2))%C <> C0).
  { apply C_neq0_re. simpl. lra. }
  rewrite !ediv_exact by exact D.
  assert (Ht : (RtoC 2 * RtoC 1 / (RtoC 1 + (0, sqrt 2)))%C <> C0).
  { apply Cdiv_neq0; [|exact D]. rewrite RtoC_mul. apply RtoC_neq0. lra. }
  rewrite assemble_nonzero by exact Ht.
  cbn [rbind Lifetmm.num_layers glass_air Nat.sub seq Lifetmm.chain].
  eexists. split; [reflexivity|].
  unfold interface_matrix, scale. cbn [m00].
  replace (C1 / (RtoC 2 * RtoC 1 / (RtoC 1 + (0, sqrt 2))) * C1)%C
    with (C1 / (RtoC 2 * RtoC 1 / (RtoC 1 + (0, sqrt 2))))%C by ring.
  apply Cdiv_neq0; [exact C1_neq_C0|exact Ht].
Qed.

Lemma sinh_pos (y : R) : 0 < y -> 0 < sinh y.
Proof.
  intros H. unfold sinh.
  pose proof (exp_increasing 0 y H) as H1.
  pose proof (exp_increasing (- y) 0 ltac:(lra)) as H2.
  rewrite exp_0 in H1, H2. lra.
Qed.

(** Beyond the critical angle [snell] returns a complex angle, and the
    beam-expansion factor is imaginary. *)
Lemma glass_air_beam_correction :
  exists y, 0 < y /\
    Lifetmm.beam_correction 2 1 (PI / 3) = Exact (0, - sinh y).
Proof.
  assert (H1 : 1 < sqrt 3).
  { rewrite <- sqrt_1 at 1. apply sqrt_lt_1; lra. }
  exists (ln (sqrt 3 + sqrt (sqrt 3 * sqrt 3 - 1))). split.
  - rewrite <- ln_1. apply ln_increasing; [lra|].
    pose proof (sqrt_pos (sqrt 3 * sqrt 3 - 1)). lra.
  - unfold Lifetmm.beam_correction.
    assert (E1 : Reqb 1 0 = false) by (apply Reqb_false; lra).
    assert (E2 : Reqb 2 0 = false) by (apply Reqb_false; lra).
    assert (E3 : Reqb (cos (PI / 3)) 0 = false).
    { apply Reqb_false. rewrite cos_PI3. lra. }
    rewrite E1, E2, E3. f_equal.
    unfold HelperFunctions.snell, HelperFunctions.sp_arcsin.
    replace (2 * sin (PI / 3) / 1) with (sqrt 3) by (rewrite sin_PI3; field).
    destruct (Rle_dec (Rabs (sqrt 3)) 1) as [A|_].
    { exfalso. rewrite Rabs_pos_eq in A by lra. lra. }
    destruct (Rlt_dec 1 (sqrt 3)) as [_|N]; [|contradiction].
    unfold Ccos. cbn [Re Im fst snd].
    rewrite cos_PI2, sin_PI2, cos_PI3.
    set (y := ln (sqrt 3 + sqrt (sqrt 3 * sqrt 3 - 1))).
    replace (0 * cosh y, - (1 * sinh y)) with (0, - sinh y)
      by (f_equal; ring).
    apply C_ext; simpl; unfold Cnorm2; simpl; field.
Qed.

(** Glass onto air beyond the critical angle: the reflectance is a
    float, the transmittance an imaginary number, and their sum is not 1. *)
Lemma total_internal_reflection_breaks_energy_conservation :
  ~ energy_conservation_claim.
Proof.
  intros H.
  destruct glass_air_s_matrix as (s & Hs & H00).
  destruct glass_air_beam_correction as (y & Hy & Hb).
  assert (Hres : Lifetmm.calc_reflectance_and_transmittance glass_air true
                 = Ok (Exact (Cabs (m10 s / m00 s) ^ 2,
                              Cmul (RtoC (Cabs (C1 / m00 s) ^ 2))
                                   (0, - sinh y)))).
  { unfold Lifetmm.calc_reflectance_and_transmittance, Lifetmm.calc_r_and_t.
    rewrite Hs. cbn [rbind entry idiv ibind imap ipair].
    rewrite !ediv_exact by exact H00.
    cbn [rbind entry idiv ibind imap ipair].
    unfold index_last.
    cbn [rbind Lifetmm.n_list glass_air index nth_error last_error last
         Lifetmm.th].
    simpl (Re (RtoC 2)). simpl (Re (RtoC 1)).
    rewrite Hb. reflexivity. }
  assert (Hl : lossless glass_air) by (unfold lossless; simpl; repeat constructor).
  pose proof (H glass_air glass_air (PI / 3) radians _ _ Hl eq_refl eq_refl
                glass_air_set_incident_angle Hres) as E.
  apply (f_equal Im) in E.
  pose proof (Cnorm2_pos (Cdiv_neq0 C1_neq_C0 H00)) as Ht.
  pose proof (sinh_pos Hy) as Hsh.
  assert (Ha : 0 < Cabs (C1 / m00 s)) by (apply sqrt_lt_R0; exact Ht).
  simpl in E.
  assert (0 < Cabs (C1 / m00 s) * (Cabs (C1 / m00 s) * 1) * sinh y)
    by (apply Rmult_lt_0_compat; [apply Rmult_lt_0_compat; lra|exact Hsh]).
  lra.
Qed.

(** * Further properties of the transfer matrices *)

Definition identity : M2 := mkM2 C1 C0 C0 C1.

(** One pass of the composition loops, for a property [P a n_a s] of the
    matrix [s] accumulated up to the interface into layer [a], of index
    [n_a]. *)
Lemma chain_induction (tm : Lifetmm.TransferMatrix) (P : nat -> C -> M2 -> Prop) :
  (forall a na nb l i s,
      index (Lifetmm.n_list tm) a = Ok na ->
      index (Lifetmm.n_list tm) (S a) = Ok nb ->
      Lifetmm.l_matrix tm a = Ok l ->
      Lifetmm.i_matrix tm a (a + 1) = Ok (Finite i) ->
      P a na s -> P (S a) nb (matmul (matmul s l) i)) ->
  forall (len a : nat) (s s' : M2) (na : C),
    index (Lifetmm.n_list tm) a = Ok na ->
    P a na s ->
    Lifetmm.chain tm (Finite s) (seq a len) = Ok (Finite s') ->
    exists nb, index (Lifetmm.n_list tm) (a + len) = Ok nb /\ P (a + len)%nat nb s'.
Proof.
  intros Hstep. induction len as [|len IH]; intros a s s' na Ha Hs Hc.
  - simpl in Hc. injection Hc as <-. rewrite Nat.add_0_r. eauto.
  - cbn [seq Lifetmm.chain] in Hc.
    destruct (Lifetmm.l_matrix tm a) as [l|] eqn:El; [|discriminate].
    destruct (Lifetmm.i_matrix tm a (a + 1)) as [i|] eqn:Ei; [|discriminate].
    cbn [rbind] in Hc.
    pose proof (lifetmm_chain_finite _ _ _ Hc) as [m0 Hm0].
    destruct i as [i| | |]; try discriminate.
    cbn [xmatmul] in Hc.
    destruct (i_matrix_inv _ _ _ Ei) as (nj & nk & Ej & Ek & _).
    replace (a + 1)%nat with (S a) in Ek by lia.
    replace (a + S len)%nat with (S a + len)%nat by lia.
    refine (IH (S a) _ s' nk Ek _ Hc).
    exact (Hstep a na nk l i s Ha Ek El Ei Hs).
Qed.

Lemma det_matmul (a b : M2) :
  HelperFunctions.det (matmul a b)
  = (HelperFunctions.det a * HelperFunctions.det b)%C.
Proof.
  unfold HelperFunctions.det, matmul. cbn [m00 m01 m10 m11]. ring.
Qed.

Lemma det_interface_matrix (r t : C) :
  t <> C0 ->
  HelperFunctions.det (interface_matrix r t) = ((C1 - r * r) / (t * t))%C.
Proof.
  intros Ht. unfold HelperFunctions.det, interface_matrix, scale.
  cbn [m00 m01 m10 m11]. field. exact Ht.
Qed.

Lemma det_propagation_matrix (q : C) (d : R) :
  HelperFunctions.det (propagation_matrix q d) = C1.
Proof.
  unfold HelperFunctions.det, propagation_matrix. cbn [m00 m01 m10 m11].
  replace (- Ci * q * RtoC d)%C with (- (Ci * q * RtoC d))%C by ring.
  rewrite Cexp_opp. ring.
Qed.

(** The factor by which the determinant of the matrices for the H field
    differs from the one for the E field. *)
Definition field_factor (f : field_kind) (na nb : C) : C :=
  match f with
  | field_E => C1
  | field_H => (na / nb * (na / nb))%C
  end.

Lemma to_field_H_inv (x y nj nk t : C) :
  ibind (ediv x y) (fun t' => imap (Cmul t') (ediv nk nj)) = Exact t ->
  y <> C0 /\ nj <> C0 /\ t = (x / y * (nk / nj))%C.
Proof.
  unfold ediv. destruct (Ceqb y C0) eqn:Ey; [discriminate|].
  cbn [ibind]. destruct (Ceqb nj C0) eqn:En; [discriminate|].
  cbn [imap]. intros H. injection H as <-.
  apply Ceqb_false in Ey. apply Ceqb_false in En. auto.
Qed.

Lemma det_fresnel (p : polarization) (f : field_kind) (nj nk qj qk : C) (m : M2) :
  assemble AllInf (coefficients p f nj nk qj qk) = Finite m ->
  qj <> C0 /\
  (f = field_H -> nj <> C0 /\ nk <> C0) /\
  HelperFunctions.det m = (qk / qj * field_factor f nj nk)%C.
Proof.
  intros H. apply assemble_finite_inv in H. destruct H as (r & t & E & Ht & ->).
  rewrite det_interface_matrix by exact Ht.
  pose proof (RtoC_neq0 (x:=2) ltac:(lra)) as N2.
  unfold coefficients, fresnel in E.
  destruct (is_p p), f; cbn [to_field] in E; injection E as Er Et;
    apply ediv_inv in Er; destruct Er as [Dr ->].
  - apply ediv_inv in Et. destruct Et as [Dt ->].
    pose proof (Cdiv_neq0_num Ht) as Hn.
    pose proof (Cmul_neq0_r Hn) as Qj.
    pose proof (Cmul_neq0_r (Cmul_neq0_l Hn)) as Nk.
    pose proof (Cmul_neq0_r (Cmul_neq0_l (Cmul_neq0_l Hn))) as Nj.
    split; [exact Qj|]. split; [discriminate|].
    cbn [field_factor]. rewrite RtoC_2 in *. field.
    repeat split; solve [assumption | exact N2].
  - apply to_field_H_inv in Et. destruct Et as (Dt & Nj & ->).
    pose proof (Cmul_neq0_l Ht) as Ht1. pose proof (Cmul_neq0_r Ht) as Ht2.
    pose proof (Cdiv_neq0_num Ht1) as Hn. pose proof (Cdiv_neq0_num Ht2) as Nk.
    pose proof (Cmul_neq0_r Hn) as Qj.
    split; [exact Qj|]. split; [auto|].
    cbn [field_factor]. rewrite RtoC_2 in *. field.
    repeat split; solve [assumption | exact N2].
  - apply ediv_inv in Et. destruct Et as [Dt ->].
    pose proof (Cdiv_neq0_num Ht) as Hn.
    pose proof (Cmul_neq0_r Hn) as Qj.
    split; [exact Qj|]. split; [discriminate|].
    cbn [field_factor]. rewrite RtoC_2 in *. field.
    repeat split; solve [assumption | exact N2].
  - apply to_field_H_inv in Et. destruct Et as (Dt & Nj & ->).
    pose proof (Cmul_neq0_l Ht) as Ht1. pose proof (Cmul_neq0_r Ht) as Ht2.
    pose proof (Cdiv_neq0_num Ht1) as Hn. pose proof (Cdiv_neq0_num Ht2) as Nk.
    pose proof (Cmul_neq0_r Hn) as Qj.
    split; [exact Qj|]. split; [auto|].
    cbn [field_factor]. rewrite RtoC_2 in *. field.
    repeat split; solve [assumption | exact N2].
Qed.

(** The determinant of the matrix accumulated from the entry medium up to
    the interface into a layer. *)
Definition det_upto (tm : Lifetmm.TransferMatrix) (n0 : C) (a : nat) (na : C)
    (s : M2) : Prop :=
  xi_of n0 (Lifetmm.n_11 tm) <> C0 /\
  (Lifetmm.field tm = field_H -> n0 <> C0 /\ na <> C0) /\
  HelperFunctions.det s
  = (xi_of na (Lifetmm.n_11 tm) / xi_of n0 (Lifetmm.n_11 tm)
     * field_factor (Lifetmm.field tm) n0 na)%C.

Lemma det_upto_first (tm : Lifetmm.TransferMatrix) (i : M2) :
  Lifetmm.i_matrix tm 0 1 = Ok (Finite i) ->
  exists n0 n1,
    index (Lifetmm.n_list tm) 0 = Ok n0 /\
    index (Lifetmm.n_list tm) 1 = Ok n1 /\ det_upto tm n0 1 n1 i.
Proof.
  intros H. destruct (i_matrix_inv _ _ _ H) as (n0 & n1 & E0 & E1 & E).
  exists n0, n1. split; [exact E0|]. split; [exact E1|].
  symmetry in E. apply det_fresnel in E. destruct E as (Q0 & HH & Hd).
  split; [exact Q0|]. split; [exact HH|exact Hd].
Qed.

Lemma det_upto_step (tm : Lifetmm.TransferMatrix) (n0 : C) :
  forall a na nb l i s,
    index (Lifetmm.n_list tm) a = Ok na ->
    index (Lifetmm.n_list tm) (S a) = Ok nb ->
    Lifetmm.l_matrix tm a = Ok l ->
    Lifetmm.i_matrix tm a (a + 1) = Ok (Finite i) ->
    det_upto tm n0 a na s -> det_upto tm n0 (S a) nb (matmul (matmul s l) i).
Proof.
  intros a na nb l i s Ha Hb Hl Hi (Q0 & HH & Hd).
  apply l_matrix_inv in Hl. destruct Hl as (nj & k & d & Ej & ->).
  rewrite Ha in Ej. injection Ej as <-.
  destruct (i_matrix_inv _ _ _ Hi) as (nj & nk & Ej & Ek & E).
  rewrite Ha in Ej. injection Ej as <-.
  replace (a + 1)%nat with (S a) in Ek by lia.
  rewrite Hb in Ek. injection Ek as <-.
  symmetry in E. apply det_fresnel in E. destruct E as (Qa & HH' & Hd').
  split; [exact Q0|]. split.
  - intros Hf. split; [apply HH; exact Hf|apply HH'; exact Hf].
  - rewrite !det_matmul, det_propagation_matrix, Hd, Hd'.
    destruct (Lifetmm.field tm) eqn:Hf; cbn [field_factor].
    + field. split; assumption.
    + destruct (HH eq_refl) as [N0 Na]. destruct (HH' eq_refl) as [_ Nb].
      field. repeat split; assumption.
Qed.

(** The determinant of the partial system matrix up to a layer is the
    ratio of the normalised perpendicular wave vectors of that layer and of
    the entry medium (for the H field, times the squared ratio of the
    indices). *)
Theorem partial_matrix_determinant (tm : Lifetmm.TransferMatrix) (layer : nat)
    (s : M2) :
  (1 <= layer)%nat ->
  Lifetmm.s_primed_matrix tm layer = Ok (Finite s) ->
  exists n0 nl,
    index (Lifetmm.n_list tm) 0 = Ok n0 /\
    index (Lifetmm.n_list tm) layer = Ok nl /\
    xi_of n0 (Lifetmm.n_11 tm) <> C0 /\
    HelperFunctions.det s
    = (xi_of nl (Lifetmm.n_11 tm) / xi_of n0 (Lifetmm.n_11 tm)
       * field_factor (Lifetmm.field tm) n0 nl)%C.
Proof.
  intros Hl H. unfold Lifetmm.s_primed_matrix in H.
  destruct (Lifetmm.i_matrix tm 0 1) as [i|] eqn:Ei; [|discriminate].
  cbn [rbind] in H.
  pose proof (lifetmm_chain_finite _ _ _ H) as [i0 ->].
  destruct (det_upto_first _ Ei) as (n0 & n1 & E0 & E1 & Hd).
  destruct (@chain_induction tm (det_upto tm n0) (@det_upto_step tm n0)
              _ _ _ _ _ E1 Hd H) as (nl & El & (Q0 & _ & Hdet)).
  replace (1 + (layer - 1))%nat with layer in El by lia.
  exists n0, nl. auto.
Qed.

Lemma halfwave_s_primed_matrix :
  Lifetmm.s_primed_matrix halfwave 2 = Ok (Finite (RM (- 1) 0 0 (- 1))).
Proof.
  unfold Lifetmm.s_primed_matrix. rewrite halfwave_i_01.
  cbn [rbind Nat.sub seq Lifetmm.chain].
  rewrite halfwave_l_matrix. cbn [rbind Nat.add].
  rewrite halfwave_i_12. cbn [rbind xmatmul].
  rewrite !RM_matmul. unfold RM. repeat f_equal; field.
Qed.

Lemma partial_matrix_determinant_witness :
  exists n0 nl,
    index (Lifetmm.n_list halfwave) 0 = Ok n0 /\
    index (Lifetmm.n_list halfwave) 2 = Ok nl /\
    xi_of n0 (Lifetmm.n_11 halfwave) <> C0 /\
    HelperFunctions.det (RM (- 1) 0 0 (- 1))
    = (xi_of nl (Lifetmm.n_11 halfwave) / xi_of n0 (Lifetmm.n_11 halfwave)
       * field_factor (Lifetmm.field halfwave) n0 nl)%C.
Proof.
  apply (@partial_matrix_determinant halfwave 2 (RM (- 1) 0 0 (- 1))).
  - lia.
  - exact halfwave_s_primed_matrix.
Defined.

(** ** Crossing an interface there and back *)

Lemma fresnel_round_trip (p : polarization) (f : field_kind)
    (nj nk qj qk : C) (a b : M2) :
  assemble AllInf (coefficients p f nj nk qj qk) = Finite a ->
  assemble AllInf (coefficients p f nk nj qk qj) = Finite b ->
  matmul a b = identity.
Proof.
  intros Ha Hb.
  apply assemble_finite_inv in Ha. destruct Ha as (r & t & E & Ht & ->).
  apply assemble_finite_inv in Hb. destruct Hb as (r' & t' & E' & Ht' & ->).
  pose proof (RtoC_neq0 (x:=2) ltac:(lra)) as N2.
  unfold coefficients, fresnel in E, E'.
  unfold matmul, interface_matrix, scale, identity. cbn [m00 m01 m10 m11].
  destruct (is_p p), f; cbn [to_field] in E, E';
    injection E as Er Et; injection E' as Er' Et';
    apply ediv_inv in Er; destruct Er as [Dr ->];
    apply ediv_inv in Er'; destruct Er' as [Dr' ->].
  - apply ediv_inv in Et. destruct Et as [Dt ->].
    apply ediv_inv in Et'. destruct Et' as [Dt' ->].
    pose proof (Cdiv_neq0_num Ht) as Hn. pose proof (Cdiv_neq0_num Ht') as Hn'.
    pose proof (Cmul_neq0_r Hn) as Qj. pose proof (Cmul_neq0_r Hn') as Qk.
    pose proof (Cmul_neq0_r (Cmul_neq0_l Hn)) as Nk.
    pose proof (Cmul_neq0_r (Cmul_neq0_l Hn')) as Nj.
    rewrite RtoC_2 in *.
    f_equal; field; repeat split; solve [assumption | exact N2].
  - apply to_field_H_inv in Et. destruct Et as (Dt & Nj & ->).
    apply to_field_H_inv in Et'. destruct Et' as (Dt' & Nk & ->).
    pose proof (Cdiv_neq0_num (Cmul_neq0_l Ht)) as Hn.
    pose proof (Cdiv_neq0_num (Cmul_neq0_l Ht')) as Hn'.
    pose proof (Cmul_neq0_r Hn) as Qj. pose proof (Cmul_neq0_r Hn') as Qk.
    rewrite RtoC_2 in *.
    f_equal; field; repeat split; solve [assumption | exact N2].
  - apply ediv_inv in Et. destruct Et as [Dt ->].
    apply ediv_inv in Et'. destruct Et' as [Dt' ->].
    pose proof (Cdiv_neq0_num Ht) as Hn. pose proof (Cdiv_neq0_num Ht') as Hn'.
    pose proof (Cmul_neq0_r Hn) as Qj. pose proof (Cmul_neq0_r Hn') as Qk.
    rewrite RtoC_2 in *.
    f_equal; field; repeat split; solve [assumption | exact N2].
  - apply to_field_H_inv in Et. destruct Et as (Dt & Nj & ->).
    apply to_field_H_inv in Et'. destruct Et' as (Dt' & Nk & ->).
    pose proof (Cdiv_neq0_num (Cmul_neq0_l Ht)) as Hn.
    pose proof (Cdiv_neq0_num (Cmul_neq0_l Ht')) as Hn'.
    pose proof (Cmul_neq0_r Hn) as Qj. pose proof (Cmul_neq0_r Hn') as Qk.
    rewrite RtoC_2 in *.
    f_equal; field; repeat split; solve [assumption | exact N2].
Qed.

(** The interface matrix from layer [k] back to layer [j] undoes the one
    from [j] to [k], for either polarisation and either field. *)
Theorem interface_round_trip (tm : Lifetmm.TransferMatrix) (j k : nat)
    (a b : M2) :
  Lifetmm.i_matrix tm j k = Ok (Finite a) ->
  Lifetmm.i_matrix tm k j = Ok (Finite b) ->
  matmul a b = identity.
Proof.
  intros Ha Hb.
  destruct (i_matrix_inv _ _ _ Ha) as (nj & nk & Ej & Ek & E).
  destruct (i_matrix_inv _ _ _ Hb) as (nk' & nj' & Ek' & Ej' & E').
  rewrite Ek in Ek'. injection Ek' as <-.
  rewrite Ej in Ej'. injection Ej' as <-.
  symmetry in E, E'. exact (fresnel_round_trip _ _ _ _ _ _ E E').
Qed.

Lemma interface_round_trip_witness :
  matmul (RM (3 / 2) (- (1 / 2)) (- (1 / 2)) (3 / 2))
         (RM ((2 + 1) / (2 * 2)) ((2 - 1) / (2 * 2))
             ((2 - 1) / (2 * 2)) ((2 + 1) / (2 * 2)))
  = identity.
Proof.
  apply (@interface_round_trip halfwave 0 1).
  - exact halfwave_i_01.
  - apply (@halfwave_i_matrix 1 0 2 1); reflexivity || lra.
Defined.

(** ** Adjacent layers of the same material *)

Lemma l_matrix_spec (tm : Lifetmm.TransferMatrix) (j : nat) (l : M2) :
  Lifetmm.l_matrix tm j = Ok l ->
  exists q d,
    Lifetmm.calc_q tm j = Ok q /\ index (Lifetmm.d_list tm) j = Ok d /\
    0 < d /\ l = propagation_matrix q d.
Proof.
  unfold Lifetmm.l_matrix.
  destruct (Lifetmm.calc_q tm j) as [q|]; [|discriminate]. cbn [rbind].
  destruct (index (Lifetmm.d_list tm) j) as [d|]; [|discriminate].
  cbn [rbind]. unfold assert at 1.
  destruct (Rltb 0 d) eqn:Hd; [|discriminate]. cbn [rbind].
  match goal with |- context [assert ?b ?e] => destruct (assert b e) end;
    [|discriminate].
  cbn [rbind]. intros E. injection E as <-.
  apply Rltb_true in Hd. exists q, d. auto.
Qed.

Lemma propagation_matrix_add (q : C) (d1 d2 : R) :
  matmul (propagation_matrix q d1) (propagation_matrix q d2)
  = propagation_matrix q (d1 + d2).
Proof.
  unfold matmul, propagation_matrix. cbn [m00 m01 m10 m11].
  replace (- Ci * q * RtoC (d1 + d2))%C
    with (- Ci * q * RtoC d1 + - Ci * q * RtoC d2)%C
    by (rewrite <- RtoC_add; ring).
  replace (Ci * q * RtoC (d1 + d2))%C
    with (Ci * q * RtoC d1 + Ci * q * RtoC d2)%C
    by (rewrite <- RtoC_add; ring).
  rewrite !Cexp_add. f_equal; ring.
Qed.

Lemma matmul_identity_r (a : M2) : matmul a identity = a.
Proof.
  destruct a. unfold matmul, identity. cbn [m00 m01 m10 m11].
  f_equal; ring.
Qed.

Lemma fresnel_same_medium (p : polarization) (f : field_kind) (n q : C)
    (i : M2) :
  assemble AllInf (coefficients p f n n q q) = Finite i -> i = identity.
Proof.
  intros H. apply assemble_finite_inv in H. destruct H as (r & t & E & Ht & ->).
  pose proof (RtoC_neq0 (x:=2) ltac:(lra)) as N2.
  unfold coefficients, fresnel in E.
  unfold interface_matrix, scale, identity. cbn [m00 m01 m10 m11].
  destruct (is_p p), f; cbn [to_field] in E; injection E as Er Et;
    apply ediv_inv in Er; destruct Er as [Dr ->].
  - apply ediv_inv in Et. destruct Et as [Dt ->].
    pose proof (Cdiv_neq0_num Ht) as Hn.
    pose proof (Cmul_neq0_r Hn) as Qj.
    pose proof (Cmul_neq0_r (Cmul_neq0_l Hn)) as Nk.
    rewrite RtoC_2 in *.
    f_equal; field; repeat split; solve [assumption | exact N2].
  - apply to_field_H_inv in Et. destruct Et as (Dt & Nj & ->).
    pose proof (Cdiv_neq0_num (Cmul_neq0_l Ht)) as Hn.
    pose proof (Cmul_neq0_r Hn) as Qj.
    rewrite RtoC_2 in *.
    f_equal; field; repeat split; solve [assumption | exact N2].
  - apply ediv_inv in Et. destruct Et as [Dt ->].
    pose proof (Cdiv_neq0_num Ht) as Hn.
    pose proof (Cmul_neq0_r Hn) as Qj.
    rewrite RtoC_2 in *.
    f_equal; field; repeat split; solve [assumption | exact N2].
  - apply to_field_H_inv in Et. destruct Et as (Dt & Nj & ->).
    pose proof (Cdiv_neq0_num (Cmul_neq0_l Ht)) as Hn.
    pose proof (Cmul_neq0_r Hn) as Qj.
    rewrite RtoC_2 in *.
    f_equal; field; repeat split; solve [assumption | exact N2].
Qed.

(** Two adjacent layers of the same refractive index act as one layer of
    their total thickness: the interface matrix between them is the
    identity, and the two propagation matrices multiply to the one of the
    sum of the thicknesses. *)
Theorem equal_index_layers_merge (tm : Lifetmm.TransferMatrix) (j : nat)
    (n q : C) (d1 d2 : R) (l1 l2 i : M2) :
  index (Lifetmm.n_list tm) j = Ok n ->
  index (Lifetmm.n_list tm) (j + 1) = Ok n ->
  index (Lifetmm.d_list tm) j = Ok d1 ->
  index (Lifetmm.d_list tm) (j + 1) = Ok d2 ->
  Lifetmm.calc_q tm j = Ok q ->
  Lifetmm.l_matrix tm j = Ok l1 ->
  Lifetmm.i_matrix tm j (j + 1) = Ok (Finite i) ->
  Lifetmm.l_matrix tm (j + 1) = Ok l2 ->
  i = identity /\
  matmul (matmul l1 i) l2 = propagation_matrix q (d1 + d2).
Proof.
  intros Hn Hn' Hd1 Hd2 Hq Hl1 Hi Hl2.
  destruct (i_matrix_inv _ _ _ Hi) as (nj & nk & Ej & Ek & E).
  rewrite Hn in Ej. injection Ej as <-. rewrite Hn' in Ek. injection Ek as <-.
  symmetry in E. apply fresnel_same_medium in E. subst i.
  split; [reflexivity|].
  apply l_matrix_spec in Hl1. destruct Hl1 as (q1 & e1 & Eq1 & Ed1 & _ & ->).
  apply l_matrix_spec in Hl2. destruct Hl2 as (q2 & e2 & Eq2 & Ed2 & _ & ->).
  rewrite Hq in Eq1. injection Eq1 as <-.
  rewrite Hd1 in Ed1. injection Ed1 as <-.
  rewrite Hd2 in Ed2. injection Ed2 as <-.
  assert (Hq2 : q2 = q).
  { unfold Lifetmm.calc_q, Lifetmm.calc_xi in Hq, Eq2.
    rewrite Hn in Hq. rewrite Hn' in Eq2.
    destruct (Lifetmm.get_k_vac tm); [|discriminate].
    cbn [rbind] in Hq, Eq2. congruence. }
  subst q2. rewrite matmul_identity_r. apply propagation_matrix_add.
Qed.

(** The half-wave film cut in two: two layers of index 2 and thickness 1. *)
Definition double_film : Lifetmm.TransferMatrix :=
  Lifetmm.mkTM [0; 1; 1; 0] [RtoC 1; RtoC 2; RtoC 2; RtoC 1]
               (cumsum [0; 1; 1; 0]) 4
               (Some 4) (Some (2 * PI / 4)) (Some (c_light * (2 * PI / 4)))
               field_E pol_TE 0 (RtoC 1 * RtoC (sin 0))%C.

Lemma double_film_n_11 : Lifetmm.n_11 double_film = C0.
Proof. simpl. rewrite sin_0. apply C_ext; simpl; ring. Qed.

Lemma double_film_q (j : nat) :
  index (Lifetmm.n_list double_film) j = Ok (RtoC 2) ->
  Lifetmm.calc_q double_film j = Ok (RtoC PI).
Proof.
  intros Hj.
  unfold Lifetmm.calc_q, Lifetmm.get_k_vac. cbn [Lifetmm.k_vac double_film rbind].
  rewrite (@lifetmm_calc_xi_index double_film j (RtoC 2) Hj).
  rewrite double_film_n_11, xi_of_normal by (simpl; lra).
  cbn [rbind]. rewrite RtoC_mul. f_equal. f_equal. field.
Qed.

Lemma double_film_l_matrix (j : nat) :
  index (Lifetmm.n_list double_film) j = Ok (RtoC 2) ->
  index (Lifetmm.d_list double_film) j = Ok 1 ->
  Lifetmm.l_matrix double_film j = Ok (propagation_matrix (RtoC PI) 1).
Proof.
  intros Hn Hd. unfold Lifetmm.l_matrix. rewrite (double_film_q j Hn), Hd.
  cbn [rbind].
  assert (E1 : Rltb 0 1 = true) by (apply Rltb_true; lra).
  rewrite E1. cbn [assert rbind]. rewrite Cexp_minus_i_pi, Cltb_RtoC.
  assert (E2 : Rltb (- 1) float_max = true).
  { apply Rltb_true. pose proof float_max_large. lra. }
  rewrite E2. reflexivity.
Qed.

Lemma double_film_i_12 :
  exists i, Lifetmm.i_matrix double_film 1 (1 + 1) = Ok (Finite i).
Proof.
  rewrite (@lifetmm_i_matrix_eq double_film 1 (1 + 1) (RtoC 2) (RtoC 2)
             eq_refl eq_refl).
  rewrite double_film_n_11.
  change (Lifetmm.pol double_film) with pol_TE.
  change (Lifetmm.field double_film) with field_E.
  rewrite te_real_interface by lra. eauto.
Qed.

Lemma equal_index_layers_merge_witness :
  exists i,
    Lifetmm.i_matrix double_film 1 (1 + 1) = Ok (Finite i) /\
    i = identity /\
    matmul (matmul (propagation_matrix (RtoC PI) 1) i)
           (propagation_matrix (RtoC PI) 1)
    = propagation_matrix (RtoC PI) (1 + 1).
Proof.
  destruct double_film_i_12 as [i Hi]. exists i. split; [exact Hi|].
  apply (@equal_index_layers_merge double_film 1 (RtoC 2) (RtoC PI) 1 1).
  - reflexivity.
  - reflexivity.
  - reflexivity.
  - reflexivity.
  - apply double_film_q. reflexivity.
  - apply double_film_l_matrix; reflexivity.
  - exact Hi.
  - apply double_film_l_matrix; reflexivity.
Defined.

(** ** Wave vectors *)

(** The principal square root squares back to its argument. *)
Lemma Csqrt_square (z : C) : (Csqrt z * Csqrt z)%C = z.
Proof.
  destruct z as [x y]. unfold Csqrt, Cabs, Cnorm2. cbn [Re Im fst snd].
  set (m := sqrt (x * x + y * y)).
  assert (Hm : 0 <= m) by apply sqrt_pos.
  assert (Hm2 : m * m = x * x + y * y) by (apply sqrt_sqrt; nra).
  assert (Hp : 0 <= (m + x) / 2) by nra.
  assert (Hq : 0 <= (m - x) / 2) by nra.
  set (a := sqrt ((m + x) / 2)). set (b := sqrt ((m - x) / 2)).
  assert (Ha : a * a = (m + x) / 2) by (apply sqrt_sqrt; exact Hp).
  assert (Hb : b * b = (m - x) / 2) by (apply sqrt_sqrt; exact Hq).
  assert (Hab : a * b = Rabs y / 2).
  { unfold a, b. rewrite <- sqrt_mult by assumption.
    replace ((m + x) / 2 * ((m - x) / 2)) with (Rsqr (y / 2))
      by (unfold Rsqr; nra).
    rewrite sqrt_Rsqr_abs. unfold Rdiv. rewrite Rabs_mult.
    rewrite (Rabs_pos_eq (/ 2)) by lra. reflexivity. }
  apply C_ext; simpl.
  - destruct (Rle_dec 0 y); nra.
  - destruct (Rle_dec 0 y) as [H|H].
    + rewrite Rabs_pos_eq in Hab by exact H. nra.
    + rewrite Rabs_left in Hab by lra. nra.
Qed.

(** The components returned for a layer satisfy the dispersion relation
    [q^2 + k_11^2 = (n_j k_vac)^2]; the magnitude [k] is computed from the
    real part of the index only, so that [q^2 + k_11^2 = k^2] in a layer
    of real index. *)
Theorem wave_vector_components_dispersion (tm : Lifetmm.TransferMatrix)
    (j : nat) (k : R) (q k_11 : C) :
  Lifetmm.calc_wave_vector_components tm j = Ok (k, q, k_11) ->
  exists nj kv,
    index (Lifetmm.n_list tm) j = Ok nj /\ Lifetmm.k_vac tm = Some kv /\
    k = Re nj * kv /\
    (q * q + k_11 * k_11 = nj * RtoC kv * (nj * RtoC kv))%C /\
    (Im nj = 0 -> (q * q + k_11 * k_11)%C = RtoC (k * k)).
Proof.
  unfold Lifetmm.calc_wave_vector_components, Lifetmm.calc_k,
    Lifetmm.calc_k_11, Lifetmm.calc_q, Lifetmm.calc_xi, Lifetmm.get_k_vac.
  destruct (assert (Nat.leb j (Lifetmm.num_layers tm - 1)
                    && Nat.ltb 0 (Lifetmm.num_layers tm)) LayerIndexRange);
    [|discriminate].
  cbn [rbind].
  destruct (Lifetmm.k_vac tm) as [kv|]; [|discriminate]. cbn [rbind].
  destruct (index (Lifetmm.n_list tm) j) as [nj|]; [|discriminate].
  cbn [rbind]. intros H. injection H as <- <- <-.
  exists nj, kv. split; [reflexivity|]. split; [reflexivity|].
  split; [reflexivity|].
  assert (E : (Csqrt (nj * nj - Lifetmm.n_11 tm * Lifetmm.n_11 tm) * RtoC kv
               * (Csqrt (nj * nj - Lifetmm.n_11 tm * Lifetmm.n_11 tm) * RtoC kv)
               + Lifetmm.n_11 tm * RtoC kv * (Lifetmm.n_11 tm * RtoC kv)
               = nj * RtoC kv * (nj * RtoC kv))%C).
  { transitivity
      ((Csqrt (nj * nj - Lifetmm.n_11 tm * Lifetmm.n_11 tm)
        * Csqrt (nj * nj - Lifetmm.n_11 tm * Lifetmm.n_11 tm)
        + Lifetmm.n_11 tm * Lifetmm.n_11 tm) * (RtoC kv * RtoC kv))%C;
      [ring|].
    rewrite Csqrt_square. ring. }
  split; [exact E|].
  intros Hi. rewrite E. rewrite (real_RtoC _ Hi) at 1 2.
  rewrite !RtoC_mul. reflexivity.
Qed.

(** *** A wavelength and an angle on the half-wave film *)

Lemma wave_vector_components_dispersion_witness :
  exists nj kv,
    index (Lifetmm.n_list halfwave) 1 = Ok nj /\
    Lifetmm.k_vac halfwave = Some kv /\
    2 * (2 * PI / 4) = Re nj * kv /\
    (RtoC PI * RtoC PI
     + Lifetmm.n_11 halfwave * RtoC (2 * PI / 4)
       * (Lifetmm.n_11 halfwave * RtoC (2 * PI / 4))
     = nj * RtoC kv * (nj * RtoC kv))%C /\
    (Im nj = 0 ->
     (RtoC PI * RtoC PI
      + Lifetmm.n_11 halfwave * RtoC (2 * PI / 4)
        * (Lifetmm.n_11 halfwave * RtoC (2 * PI / 4)))%C
     = RtoC (2 * (2 * PI / 4) * (2 * (2 * PI / 4)))).
Proof.
  apply (@wave_vector_components_dispersion halfwave 1).
  unfold Lifetmm.calc_wave_vector_components.
  rewrite halfwave_q. reflexivity.
Defined.

(** ** Setting the angle of incidence *)

(** An angle given in degrees is treated as the same angle in radians:
    the same check, the same exception or the same final object. *)
Theorem incident_angle_units_agree (a : R) (tm : Lifetmm.TransferMatrix) :
  Lifetmm.set_incident_angle a degrees tm
  = Lifetmm.set_incident_angle (a * (PI / 180)) radians tm.
Proof.
  unfold Lifetmm.set_incident_angle, bind, update.
  assert (E : Rleb 0 a && Rltb a 90
              = Rleb 0 (a * (PI / 180)) && Rltb (a * (PI / 180)) (PI / 2)).
  { pose proof PI_RGT_0 as Hpi.
    destruct (Rle_dec 0 a) as [H0|H0].
    - assert (E0 : Rleb 0 a = true) by (apply Rleb_true; exact H0).
      assert (E0' : Rleb 0 (a * (PI / 180)) = true) by (apply Rleb_true; nra).
      rewrite E0, E0'. cbn [andb].
      destruct (Rlt_dec a 90) as [H1|H1].
      + assert (E1 : Rltb a 90 = true) by (apply Rltb_true; exact H1).
        assert (E1' : Rltb (a * (PI / 180)) (PI / 2) = true)
          by (apply Rltb_true; nra).
        rewrite E1, E1'. reflexivity.
      + assert (E1 : Rltb a 90 = false) by (apply Rltb_false; lra).
        assert (E1' : Rltb (a * (PI / 180)) (PI / 2) = false)
          by (apply Rltb_false; nra).
        rewrite E1, E1'. reflexivity.
    - assert (E0 : Rleb 0 a = false) by (apply Rleb_false; lra).
      assert (E0' : Rleb 0 (a * (PI / 180)) = false) by (apply Rleb_false; nra).
      rewrite E0, E0'. reflexivity. }
  rewrite E. reflexivity.
Qed.

(** On a structure without layers an admissible angle is stored, and only
    then does reading the entry index raise [IndexError]: the call fails
    with [th] overwritten and [n_11] as it was. *)
Theorem incident_angle_on_empty_structure (a : R) (tm : Lifetmm.TransferMatrix) :
  Lifetmm.n_list tm = [] -> 0 <= a < PI / 2 ->
  Lifetmm.set_incident_angle a radians tm
  = (Raise IndexError, Lifetmm.with_th tm a).
Proof.
  intros Hn [H0 H1]. unfold Lifetmm.set_incident_angle, bind, update.
  assert (E : Rleb 0 a && Rltb a (PI / 2) = true).
  { apply andb_true_intro. split; [apply Rleb_true|apply Rltb_true]; assumption. }
  rewrite E. cbn [assert rbind Lifetmm.with_th Lifetmm.n_list].
  rewrite Hn. reflexivity.
Qed.

Lemma incident_angle_on_empty_structure_witness :
  Lifetmm.set_incident_angle 1 radians Lifetmm.init
  = (Raise IndexError, Lifetmm.with_th Lifetmm.init 1).
Proof.
  apply incident_angle_on_empty_structure.
  - reflexivity.
  - pose proof PI2_3_2. lra.
Defined.

(** ** Field amplitudes at the ends of the structure *)

(** For a radiative mode the amplitudes in the entry medium are [(1, r)]
    and those in the exit medium [(t, 0)], with the [r] and [t] of
    [calc_r_and_t]. *)
Theorem radiative_boundary_amplitudes (tm : Lifetmm.TransferMatrix) (r t : C) :
  Lifetmm.is_radiative tm = Ok true ->
  (2 <= Lifetmm.num_layers tm)%nat ->
  Lifetmm.calc_r_and_t tm = Ok (Exact (r, t)) ->
  Lifetmm.layer_field_amplitudes tm 0 = Ok (Exact (C1, r)) /\
  Lifetmm.layer_field_amplitudes tm (Lifetmm.num_layers tm - 1)
  = Ok (Exact (t, C0)).
Proof.
  intros Hrad HN H. unfold Lifetmm.calc_r_and_t in H.
  unfold Lifetmm.layer_field_amplitudes. rewrite Hrad. cbn [rbind].
  destruct (Lifetmm.s_matrix tm) as [s|]; [|discriminate].
  cbn [rbind] in *. injection H as H.
  destruct s as [s| | |]; cbn [entry idiv ibind imap ipair] in *;
    try discriminate.
  unfold ediv in *. destruct (Ceqb (m00 s) C0); [discriminate|].
  cbn [ibind imap ipair] in *. injection H as <- <-.
  split; [reflexivity|].
  destruct (Nat.eqb (Lifetmm.num_layers tm - 1) 0) eqn:E0.
  { apply Nat.eqb_eq in E0. lia. }
  rewrite Nat.eqb_refl. reflexivity.
Qed.

Lemma halfwave_r_and_t :
  Lifetmm.calc_r_and_t halfwave = Ok (Exact (RtoC (0 / - 1), RtoC (1 / - 1))).
Proof.
  unfold Lifetmm.calc_r_and_t. rewrite halfwave_s_matrix.
  cbn [rbind entry idiv ibind imap ipair RM m00 m01 m10 m11].
  change C1 with (RtoC 1). rewrite !ediv_real by lra. reflexivity.
Qed.

Lemma radiative_boundary_amplitudes_witness :
  Lifetmm.layer_field_amplitudes halfwave 0 = Ok (Exact (C1, RtoC (0 / - 1))) /\
  Lifetmm.layer_field_amplitudes halfwave (Lifetmm.num_layers halfwave - 1)
  = Ok (Exact (RtoC (1 / - 1), C0)).
Proof.
  apply radiative_boundary_amplitudes.
  - exact halfwave_radiative.
  - simpl. lia.
  - exact halfwave_r_and_t.
Defined.

(** For a guided mode the amplitudes computed in an internal layer are
    those that the partial matrix [S'] takes to the amplitudes [(0, 1)] of
    the entry medium: no incoming wave, an outgoing wave of amplitude 1. *)
Theorem guided_internal_amplitudes_match_entry (tm : Lifetmm.TransferMatrix)
    (layer : nat) (v : C * C) :
  Lifetmm.is_radiative tm = Ok false ->
  (0 < layer)%nat -> (layer < Lifetmm.num_layers tm - 1)%nat ->
  Lifetmm.layer_field_amplitudes tm layer = Ok (Exact v) ->
  exists sp,
    Lifetmm.s_primed_matrix tm layer = Ok (Finite sp) /\
    Lifetmm.layer_field_amplitudes tm 0 = Ok (Exact (mulv sp v)).
Proof.
  intros Hrad H0 H1. unfold Lifetmm.layer_field_amplitudes. rewrite Hrad.
  cbn [rbind Nat.eqb].
  destruct (Nat.eqb layer 0) eqn:E0; [apply Nat.eqb_eq in E0; lia|].
  destruct (Nat.eqb layer (Lifetmm.num_layers tm - 1)) eqn:E1;
    [apply Nat.eqb_eq in E1; lia|].
  destruct (Lifetmm.s_primed_matrix tm layer) as [sp|]; [|discriminate].
  cbn [rbind]. destruct sp as [sp| | |]; try discriminate.
  destruct (assert (negb (Lifetmm.isclose0 (HelperFunctions.det sp))) DetZero);
    [|discriminate].
  cbn [rbind]. unfold ediv.
  destruct (Ceqb (HelperFunctions.det sp) C0) eqn:Ed; [discriminate|].
  cbn [ipair ibind imap]. intros H. injection H as <-.
  apply Ceqb_false in Ed. exists sp. split; [reflexivity|].
  do 2 f_equal. unfold mulv, HelperFunctions.det in *. cbn [fst snd].
  f_equal; field; exact Ed.
Qed.

(** A film of index 13 between media of index 3, probed at [n_11 = 5]:
    evanescent in the claddings ([xi = 4i]), propagating in the film
    ([xi = 12]). *)
Definition guide : Lifetmm.TransferMatrix :=
  Lifetmm.mkTM [0; 1; 0] [RtoC 3; RtoC 13; RtoC 3] (cumsum [0; 1; 0]) 3
               None None None field_E pol_TE 0 (RtoC 5).

Lemma xi_of_13_5 : xi_of (RtoC 13) (RtoC 5) = RtoC 12.
Proof.
  rewrite xi_of_real_below by lra.
  replace (13 * 13 - 5 * 5) with (12 * 12) by lra.
  rewrite sqrt_square by lra. reflexivity.
Qed.

Lemma guide_not_radiative : Lifetmm.is_radiative guide = Ok false.
Proof.
  unfold Lifetmm.is_radiative, index_last, pymax. simpl.
  assert (E : Rltb 5 3 = false) by (apply Rltb_false; lra).
  destruct (Rltb 3 3); rewrite Cltb_RtoC, E; reflexivity.
Qed.

Lemma guide_s_primed_matrix :
  exists m,
    Lifetmm.s_primed_matrix guide 1 = Ok (Finite m) /\
    HelperFunctions.det m = (0, - 3).
Proof.
  unfold Lifetmm.s_primed_matrix.
  rewrite (@lifetmm_i_matrix_eq guide 0 1 (RtoC 3) (RtoC 13) eq_refl eq_refl).
  change (Lifetmm.n_11 guide) with (RtoC 5).
  change (Lifetmm.pol guide) with pol_TE.
  change (Lifetmm.field guide) with field_E.
  rewrite xi_of_3_5, xi_of_13_5.
  destruct (assemble AllInf
              (coefficients pol_TE field_E (RtoC 3) (RtoC 13) (0, 4) (RtoC 12)))
    as [m| | |] eqn:E.
  - cbn [rbind Nat.sub seq Lifetmm.chain].
    exists m. split; [reflexivity|].
    apply det_fresnel in E. destruct E as (_ & _ & ->).
    cbn [field_factor]. apply C_ext; simpl; unfold Cnorm2; simpl; field.
  - exfalso. revert E.
    unfold coefficients, fresnel, to_field. cbn [is_p].
    assert (D : ((0, 4) + RtoC 12)%C <> C0) by (apply C_neq0_re; simpl; lra).
    rewrite !ediv_exact by exact D.
    rewrite assemble_nonzero; [discriminate|].
    apply Cdiv_neq0; [|exact D].
    intros E. apply (f_equal Im) in E. simpl in E. lra.
  - exfalso. revert E.
    unfold coefficients, fresnel, to_field. cbn [is_p].
    assert (D : ((0, 4) + RtoC 12)%C <> C0) by (apply C_neq0_re; simpl; lra).
    rewrite !ediv_exact by exact D.
    rewrite assemble_nonzero; [discriminate|].
    apply Cdiv_neq0; [|exact D].
    intros E. apply (f_equal Im) in E. simpl in E. lra.
  - exfalso. revert E.
    unfold coefficients, fresnel, to_field. cbn [is_p].
    assert (D : ((0, 4) + RtoC 12)%C <> C0) by (apply C_neq0_re; simpl; lra).
    rewrite !ediv_exact by exact D.
    rewrite assemble_nonzero; [discriminate|].
    apply Cdiv_neq0; [|exact D].
    intros E. apply (f_equal Im) in E. simpl in E. lra.
Qed.

Lemma guided_internal_amplitudes_match_entry_witness :
  exists v sp,
    Lifetmm.layer_field_amplitudes guide 1 = Ok (Exact v) /\
    Lifetmm.s_primed_matrix guide 1 = Ok (Finite sp) /\
    Lifetmm.layer_field_amplitudes guide 0 = Ok (Exact (mulv sp v)).
Proof.
  destruct guide_s_primed_matrix as (m & Hm & Hd).
  assert (Hv : Lifetmm.layer_field_amplitudes guide 1
               = Ok (Exact ((- m01 m / (0, - 3))%C, (m00 m / (0, - 3))%C))).
  { unfold Lifetmm.layer_field_amplitudes.
    rewrite guide_not_radiative. cbn [rbind Nat.eqb Lifetmm.num_layers guide Nat.sub].
    rewrite Hm. cbn [rbind]. rewrite Hd.
    assert (Hc : Lifetmm.isclose0 (0, - 3) = false).
    { unfold Lifetmm.isclose0. apply Rleb_false.
      unfold Cabs, Cnorm2. simpl.
      replace (0 * 0 + - 3 * - 3) with (3 * 3) by ring.
      rewrite sqrt_square by lra.
      assert (/ 10 ^ 8 < 1); [|lra].
      rewrite <- Rinv_1. apply Rinv_lt_contravar; simpl; lra. }
    rewrite Hc. cbn [negb assert rbind].
    assert (N : (0, - 3) <> C0).
    { intros E. apply (f_equal Im) in E. simpl in E. lra. }
    rewrite !ediv_exact by exact N. reflexivity. }
  destruct (@guided_internal_amplitudes_match_entry guide 1 _
              guide_not_radiative ltac:(lia) ltac:(simpl; lia) Hv)
    as (sp & Hsp & H0).
  eauto.
Defined.

(** ** Guided modes: structures that cannot guide *)

(** A structure of one or two layers has no layer between the claddings,
    and [calc_guided_modes] refuses it without touching the object. *)
Theorem no_guided_modes_without_inner_layer
    (ieee_gt0 : R -> R -> bool)
    (brentq_next : R -> R -> list (R * ieee R) -> HelperFunctions.solver_action)
    (fuel : nat) (normalised : bool) (tm : Lifetmm.TransferMatrix) :
  (1 <= length (Lifetmm.n_list tm) <= 2)%nat ->
  Lifetmm.calc_guided_modes ieee_gt0 brentq_next fuel normalised tm
  = (Raise (AssertionError NoGuiding), tm).
Proof.
  intros H. unfold Lifetmm.calc_guided_modes, bind, lift.
  assert (E : Lifetmm.supports_guiding tm = Ok false).
  { unfold Lifetmm.supports_guiding, index_last, interior.
    destruct (Lifetmm.n_list tm) as [|a [|b [|c l]]]; simpl in H; try lia;
      reflexivity. }
  rewrite E. reflexivity.
Qed.

Lemma no_guided_modes_without_inner_layer_witness :
  Lifetmm.calc_guided_modes nan_compare left_end_solver 10 true glass_air
  = (Raise (AssertionError NoGuiding), glass_air).
Proof.
  apply no_guided_modes_without_inner_layer. simpl. lia.
Defined.

(** ** A sign change found past the end of the interval *)

Section RootsPastBound.

Variable S : Type.
Variable ieee_gt0 : R -> R -> bool.
Variable brentq_next :
  R -> R -> list (R * ieee R) -> HelperFunctions.solver_action.
Variable f : R -> M S (ieee R).

(** [root_search] can return a bracket whose upper end lies beyond [b]
    (the scan proceeds in whole steps).  [roots] then restarts the search
    from that end, and the assertion [a <= b] of [root_search] fails:
    the roots found so far are lost in an [AssertionError]. *)
Theorem roots_raises_past_upper_bound (n : nat) (a b eps x1 x2 root : R)
    (s s1 s2 : S) :
  0 < eps ->
  HelperFunctions.root_search ieee_gt0 (Datatypes.S (Datatypes.S n)) f a b eps s
  = (Ok (Some (x1, x2)), s1) ->
  HelperFunctions.brentq brentq_next f x1 x2 s1 = (Ok root, s2) ->
  b < x2 ->
  HelperFunctions.roots ieee_gt0 brentq_next (Datatypes.S (Datatypes.S n)) f a b eps s
  = (Raise (AssertionError RootSearchBounds), s2).
Proof.
  intros Heps Hrs Hbr Hb.
  assert (E : Rleb x2 b = false) by (apply Rleb_false; exact Hb).
  unfold HelperFunctions.roots.
  set (scan := Datatypes.S (Datatypes.S n)) in *.
  unfold scan at 1. cbn [HelperFunctions.roots_loop].
  unfold bind at 1. fold scan. rewrite Hrs.
  unfold bind at 1. rewrite Hbr.
  destruct (Reqb root 0).
  - unfold HelperFunctions.root_search, bind, lift. rewrite E. reflexivity.
  - unfold bind at 1, lift. unfold HelperFunctions.round_digits.
    destruct (Rlt_dec 0 eps); [|contradiction].
    unfold HelperFunctions.root_search, bind, lift. rewrite E. reflexivity.
Qed.

End RootsPastBound.

(** A line crossing zero at 0.3, scanned over [[0, 0.5]] in steps of 1. *)
Definition line (x : R) : M unit (ieee R) := ret (Exact (x - 3 / 10)).

Definition line_solver (x1 x2 : R) (seen : list (R * ieee R))
  : HelperFunctions.solver_action := HelperFunctions.Return (3 / 10).

Lemma line_root_search :
  HelperFunctions.root_search nan_compare 2 line 0 (1 / 2) 1 tt
  = (Ok (Some (0, 0 + 1)), tt).
Proof.
  unfold HelperFunctions.root_search, bind, lift, line, ret.
  assert (E : Rleb 0 (1 / 2) = true) by (apply Rleb_true; lra).
  rewrite E. cbn [assert HelperFunctions.root_search_loop HelperFunctions.prod_gt0].
  assert (E' : Rltb 0 ((0 - 3 / 10) * (0 + 1 - 3 / 10)) = false)
    by (apply Rltb_false; lra).
  rewrite E'. reflexivity.
Qed.

Lemma roots_raises_past_upper_bound_witness :
  HelperFunctions.roots nan_compare line_solver 2 line 0 (1 / 2) 1 tt
  = (Raise (AssertionError RootSearchBounds), tt).
Proof.
  apply (@roots_raises_past_upper_bound unit nan_compare line_solver line 0
           0 (1 / 2) 1 0 (0 + 1) (3 / 10) tt tt tt).
  - lra.
  - exact line_root_search.
  - reflexivity.
  - lra.
Defined.

(** ** Group velocity needs a wavelength of at least 2 *)

Lemma int_trunc_below_one (x : R) : x < 1 -> IZR (int_trunc x) <= 0.
Proof.
  intros Hx. destruct (Rle_dec (IZR (int_trunc x)) 0) as [H|H]; [exact H|].
  exfalso. assert (Hp : 0 < IZR (int_trunc x)) by lra.
  pose proof (int_trunc_nonneg_bound _ Hp) as Hb.
  assert (Hz : (1 <= int_trunc x)%Z).
  { apply Z.lt_pred_le. simpl. apply lt_IZR. exact Hp. }
  apply IZR_le in Hz. lra.
Qed.

Section GroupVelocityEdge.

Variable ieee_gt0 : R -> R -> bool.
Variable brentq_next :
  R -> R -> list (R * ieee R) -> HelperFunctions.solver_action.

Lemma group_velocity_raises (fuel : nat) (tm : Lifetmm.TransferMatrix) :
  (Lifetmm.lam_vac tm = None \/
   exists l, Lifetmm.lam_vac tm = Some l /\ l < 2) ->
  exists e tm',
    Lifetmm.calc_group_velocity ieee_gt0 brentq_next fuel tm = (Raise e, tm').
Proof.
  intros H. unfold Lifetmm.calc_group_velocity.
  unfold bind at 1. unfold lift at 1.
  destruct H as [H|(l & H & Hl)]; rewrite H.
  - unfold bind at 1. unfold lift at 1. cbn [Lifetmm.shifted_wavelength].
    eauto.
  - unfold bind at 1. unfold lift at 1. cbn [Lifetmm.shifted_wavelength].
    unfold bind at 1.
    destruct (update (Lifetmm.set_vacuum_wavelength (IZR (int_trunc (1 + l)))) tm)
      as [[[]|e] tm1]; [|eauto].
    unfold bind at 1. unfold lift at 1.
    unfold bind at 1.
    destruct (Lifetmm.calc_guided_modes ieee_gt0 brentq_next fuel false tm1)
      as [[beta|e] tm2]; [|eauto].
    unfold bind at 1. unfold lift at 1.
    unfold bind at 1.
    assert (E : forall s,
               update (Lifetmm.set_vacuum_wavelength (IZR (int_trunc (-1 + l)))) s
               = (Raise (AssertionError WavelengthPositive), s)).
    { intros s. unfold update, Lifetmm.set_vacuum_wavelength.
      assert (E0 : Rltb 0 (IZR (int_trunc (-1 + l))) = false).
      { apply Rltb_false. apply int_trunc_below_one. lra. }
      rewrite E0. reflexivity. }
    rewrite E. eauto.
Qed.

(** The method shifts the wavelength to [int(lam_vac - 1)], which is not
    positive when [lam_vac < 2]: whatever the structure, the call ends in
    an exception.  With the wavelength never set ([nan]), [int] raises
    [ValueError] at once. *)
Theorem group_velocity_needs_wavelength (fuel : nat)
    (tm : Lifetmm.TransferMatrix) :
  (Lifetmm.lam_vac tm = None \/
   exists l, Lifetmm.lam_vac tm = Some l /\ l < 2) ->
  exists e tm',
    Lifetmm.calc_group_velocity ieee_gt0 brentq_next fuel tm = (Raise e, tm').
Proof. exact (@group_velocity_raises fuel tm). Qed.

End GroupVelocityEdge.

Lemma group_velocity_needs_wavelength_witness :
  exists e tm',
    Lifetmm.calc_group_velocity nan_compare left_end_solver 4 (slab 1)
    = (Raise e, tm').
Proof.
  apply group_velocity_needs_wavelength.
  right. exists 1. split; [reflexivity|lra].
Defined.

(** ** Group velocity: the wavelength on return *)

Lemma update_vacuum_wavelength_inv (x : R) (s s' : Lifetmm.TransferMatrix) :
  update (Lifetmm.set_vacuum_wavelength x) s = (Ok tt, s') ->
  Lifetmm.lam_vac s' = Some x /\
  Lifetmm.k_vac s' = Some (2 * PI / x) /\
  Lifetmm.omega s' = Some (c_light * (2 * PI / x)) /\
  Lifetmm.n_list s' = Lifetmm.n_list s /\
  Lifetmm.d_list s' = Lifetmm.d_list s /\
  Lifetmm.d_cumulative s' = Lifetmm.d_cumulative s.
Proof.
  unfold update, Lifetmm.set_vacuum_wavelength.
  destruct (assert (Rltb 0 x) WavelengthPositive); [|discriminate].
  cbn [rbind].
  destruct (assert (Nat.ltb 0 (Lifetmm.num_layers s)) StructureFirst);
    [|discriminate].
  cbn [rbind]. intros H. injection H as <-. cbn. repeat split.
Qed.

Section GroupVelocityReturn.

Variable ieee_gt0 : R -> R -> bool.
Variable brentq_next :
  R -> R -> list (R * ieee R) -> HelperFunctions.solver_action.

(** When [calc_group_velocity] returns, the wavelength it was called with
    (at least 2) is back in place together with the wave vector and the
    frequency computed from it, and the layers are as they were. *)
Theorem group_velocity_restores_wavelength (fuel : nat)
    (tm tm' : Lifetmm.TransferMatrix) (vg : list (ieee R)) :
  Lifetmm.calc_group_velocity ieee_gt0 brentq_next fuel tm = (Ok vg, tm') ->
  exists l,
    Lifetmm.lam_vac tm = Some l /\ 2 <= l /\
    Lifetmm.lam_vac tm' = Some l /\
    Lifetmm.k_vac tm' = Some (2 * PI / l) /\
    Lifetmm.omega tm' = Some (c_light * (2 * PI / l)) /\
    Lifetmm.n_list tm' = Lifetmm.n_list tm /\
    Lifetmm.d_list tm' = Lifetmm.d_list tm /\
    Lifetmm.d_cumulative tm' = Lifetmm.d_cumulative tm.
Proof.
  intros H.
  destruct (Lifetmm.lam_vac tm) as [l|] eqn:Hlam.
  2:{ destruct (@group_velocity_raises ieee_gt0 brentq_next fuel tm
                  (or_introl Hlam)) as (e & s & E).
      rewrite E in H. discriminate. }
  destruct (Rlt_dec l 2) as [Hl|Hl].
  { destruct (@group_velocity_raises ieee_gt0 brentq_next fuel tm
                (or_intror (ex_intro _ l (conj Hlam Hl)))) as (e & s & E).
    rewrite E in H. discriminate. }
  exists l. split; [reflexivity|]. split; [lra|].
  unfold Lifetmm.calc_group_velocity in H.
  unfold bind at 1 in H. unfold lift at 1 in H. rewrite Hlam in H.
  unfold bind at 1 in H. unfold lift at 1 in H.
  cbn [Lifetmm.shifted_wavelength] in H.
  unfold bind at 1 in H.
  destruct (update (Lifetmm.set_vacuum_wavelength (IZR (int_trunc (1 + l)))) tm)
    as [[[]|e] tm1] eqn:E1; [|discriminate].
  unfold bind at 1 in H. unfold lift at 1 in H.
  unfold bind at 1 in H.
  destruct (Lifetmm.calc_guided_modes ieee_gt0 brentq_next fuel false tm1)
    as [[beta1|e] tm2] eqn:E2; [|discriminate].
  unfold bind at 1 in H. unfold lift at 1 in H.
  cbn [Lifetmm.shifted_wavelength] in H.
  unfold bind at 1 in H.
  destruct (update (Lifetmm.set_vacuum_wavelength (IZR (int_trunc (-1 + l)))) tm2)
    as [[[]|e] tm3] eqn:E3; [|discriminate].
  unfold bind at 1 in H. unfold lift at 1 in H.
  unfold bind at 1 in H.
  destruct (Lifetmm.calc_guided_modes ieee_gt0 brentq_next fuel false tm3)
    as [[beta2|e] tm4] eqn:E4; [|discriminate].
  unfold bind at 1 in H. unfold lift at 1 in H.
  destruct (assert (Nat.eqb (length beta1) (length beta2)) ModeCountMismatch);
    [|discriminate].
  unfold bind at 1 in H. cbn [Lifetmm.reset_wavelength] in H.
  destruct (update (Lifetmm.set_vacuum_wavelength l) tm4)
    as [[[]|e] tm5] eqn:E5; [|discriminate].
  unfold ret in H. injection H as _ <-.
  apply update_vacuum_wavelength_inv in E1, E3, E5.
  apply calc_guided_modes_ok in E2, E4.
  destruct E2 as (_ & _ & _ & _ & _ & _ & _ & _ & _ & F2 & _).
  destruct E4 as (_ & _ & _ & _ & _ & _ & _ & _ & _ & F4 & _).
  unfold only_n_11_changed in F2, F4.
  destruct E1 as (_ & _ & _ & N1 & D1 & C1').
  destruct E3 as (_ & _ & _ & N3 & D3 & C3).
  destruct E5 as (L5 & K5 & O5 & N5 & D5 & C5).
  rewrite F2 in N3, D3, C3. cbn in N3, D3, C3.
  rewrite F4 in N5, D5, C5. cbn in N5, D5, C5.
  repeat split; congruence.
Qed.

End GroupVelocityReturn.

(** * Further properties of the structure *)

Lemma prefix_sums_cumsum (ds cum : list R) :
  prefix_sums ds cum -> cum = cumsum ds.
Proof.
  intros [Hlen Hnth].
  pose proof (cumsum_prefix_sums ds) as [Hlen' Hnth'].
  apply (nth_ext _ _ 0 0); [congruence|].
  intros i Hi. rewrite Hlen in Hi.
  rewrite Hnth, Hnth' by exact Hi. reflexivity.
Qed.

(** Flipping a structure twice gives the structure back. *)
Theorem flip_involution (tm : Lifetmm.TransferMatrix) :
  LifetmmOps.bookkeeping tm -> Lifetmm.flip (Lifetmm.flip tm) = tm.
Proof.
  intros (Hc & _ & _). apply prefix_sums_cumsum in Hc.
  destruct tm; unfold Lifetmm.flip; cbn in *.
  rewrite !rev_involutive. subst. reflexivity.
Qed.

Lemma flip_involution_witness :
  Lifetmm.flip (Lifetmm.flip halfwave) = halfwave.
Proof.
  apply flip_involution. unfold LifetmmOps.bookkeeping.
  split; [apply cumsum_prefix_sums|]. split; reflexivity.
Defined.

Lemma sum_list_app (l l' : list R) :
  sum_list (l ++ l') = sum_list l + sum_list l'.
Proof.
  unfold sum_list. induction l as [|x l IH]; cbn [app fold_right].
  - lra.
  - rewrite IH. lra.
Qed.

Lemma sum_list_rev (l : list R) : sum_list (rev l) = sum_list l.
Proof.
  induction l as [|x l IH]; [reflexivity|].
  cbn [rev]. rewrite sum_list_app, IH. unfold sum_list. cbn [fold_right]. lra.
Qed.

Lemma index_last_cumsum (ds : list R) :
  ds <> [] -> index_last (cumsum ds) = Ok (sum_list ds).
Proof.
  intros Hne. pose proof (cumsum_prefix_sums ds) as [Hlen Hnth].
  assert (Hpos : (0 < length ds)%nat).
  { destruct ds; [congruence|simpl; lia]. }
  rewrite <- index_last_length.
  2:{ intros E. rewrite E in Hlen. simpl in Hlen. lia. }
  unfold index. rewrite Hlen.
  rewrite (nth_error_nth' _ 0) by lia.
  rewrite Hnth by lia.
  replace (S (length ds - 1)) with (length ds) by lia.
  rewrite firstn_all. reflexivity.
Qed.

(** The thickness reported for a structure is the sum of the thicknesses
    of its layers, and flipping the structure does not change it. *)
Theorem structure_thickness_is_total (tm : Lifetmm.TransferMatrix) :
  LifetmmOps.bookkeeping tm -> Lifetmm.d_list tm <> [] ->
  Lifetmm.get_structure_thickness tm = Ok (sum_list (Lifetmm.d_list tm)) /\
  Lifetmm.get_structure_thickness (Lifetmm.flip tm)
  = Lifetmm.get_structure_thickness tm.
Proof.
  intros (Hc & _ & _) Hne. apply prefix_sums_cumsum in Hc.
  unfold Lifetmm.get_structure_thickness.
  assert (E : index_last (Lifetmm.d_cumulative tm)
              = Ok (sum_list (Lifetmm.d_list tm))).
  { rewrite Hc. apply index_last_cumsum. exact Hne. }
  split; [exact E|]. rewrite E.
  unfold Lifetmm.flip. cbn [Lifetmm.d_cumulative].
  rewrite index_last_cumsum.
  - rewrite sum_list_rev. reflexivity.
  - intros Hr. apply Hne. apply (f_equal (@rev R)) in Hr.
    rewrite rev_involutive in Hr. exact Hr.
Qed.

Lemma structure_thickness_is_total_witness :
  Lifetmm.get_structure_thickness double_film
  = Ok (sum_list (Lifetmm.d_list double_film)) /\
  Lifetmm.get_structure_thickness (Lifetmm.flip double_film)
  = Lifetmm.get_structure_thickness double_film.
Proof.
  apply structure_thickness_is_total.
  - unfold LifetmmOps.bookkeeping.
    split; [apply cumsum_prefix_sums|]. split; reflexivity.
  - discriminate.
Defined.

(** ** Layer boundaries *)

Definition thicknesses_nonneg (tm : Lifetmm.TransferMatrix) : Prop :=
  Forall (fun d => 0 <= d) (Lifetmm.d_list tm).

Lemma thicknesses_nonneg_apply_op (tm : Lifetmm.TransferMatrix)
    (op : structure_op) :
  thicknesses_nonneg tm -> thicknesses_nonneg (LifetmmOps.apply_op tm op).
Proof.
  intros H. destruct op as [d n|]; cbn [LifetmmOps.apply_op].
  - destruct (Lifetmm.add_layer d n tm) as [tm'|] eqn:E; [|exact H].
    unfold Lifetmm.add_layer in E. unfold assert at 1 in E.
    destruct (Rleb 0 d) eqn:Hd; [|discriminate]. cbn [rbind] in E.
    destruct (if Nat.eqb (Lifetmm.num_layers tm) 0
              then assert (Reqb (Im n) 0) IncomingTransparent else Ok tt);
      [|discriminate].
    cbn [rbind] in E. injection E as <-.
    unfold thicknesses_nonneg. cbn [Lifetmm.d_list].
    apply Forall_app. split; [exact H|].
    constructor; [apply Rleb_true; exact Hd|constructor].
  - unfold thicknesses_nonneg, Lifetmm.flip. cbn [Lifetmm.d_list].
    apply Forall_rev. exact H.
Qed.

Lemma thicknesses_nonneg_run (ops : list structure_op) :
  thicknesses_nonneg (LifetmmOps.run ops).
Proof.
  unfold LifetmmOps.run.
  assert (H : thicknesses_nonneg Lifetmm.init) by constructor.
  revert H. generalize Lifetmm.init.
  induction ops as [|op ops IH]; intros tm H; cbn [fold_left]; [exact H|].
  apply IH, thicknesses_nonneg_apply_op, H.
Qed.

Lemma cumsum_from_bounds (l : list R) : forall acc,
  Forall (fun d => 0 <= d) l ->
  Forall (fun c => acc <= c) (cumsum_from acc l) /\
  StronglySorted Rle (cumsum_from acc l).
Proof.
  induction l as [|x l IH]; intros acc H; cbn [cumsum_from].
  - split; constructor.
  - inversion H as [|? ? Hx Hl]; subst.
    destruct (IH (acc + x) Hl) as [Hb Hs]. split.
    + constructor; [lra|].
      eapply Forall_impl; [|exact Hb]. intros c Hc. simpl in Hc. lra.
    + constructor; [exact Hs|exact Hb].
Qed.

(** Whatever sequence of [add_layer] and [flip] calls built the
    structure, no layer has a negative thickness, and the layer boundaries
    are non-negative and in ascending order. *)
Theorem layer_boundaries_ascending (ops : list structure_op) :
  let tm := LifetmmOps.run ops in
  Forall (fun d => 0 <= d) (Lifetmm.d_list tm) /\
  Forall (fun z => 0 <= z) (Lifetmm.get_layer_boundaries tm) /\
  StronglySorted Rle (Lifetmm.get_layer_boundaries tm).
Proof.
  intros tm. pose proof (thicknesses_nonneg_run ops) as H. fold tm in H.
  split; [exact H|].
  pose proof (LifetmmOps.bookkeeping_run ops) as (Hc & _ & _). fold tm in Hc.
  apply prefix_sums_cumsum in Hc.
  unfold Lifetmm.get_layer_boundaries. rewrite Hc. unfold cumsum.
  apply cumsum_from_bounds. exact H.
Qed.

(** ** The entry medium *)

Definition only_add_layer (ops : list structure_op) : Prop :=
  Forall (fun op => match op with OpAddLayer _ _ => True | OpFlip => False end)
         ops.

Definition entry_real (tm : Lifetmm.TransferMatrix) : Prop :=
  (Lifetmm.num_layers tm = 0%nat /\ Lifetmm.n_list tm = []) \/
  (Lifetmm.num_layers tm <> 0%nat /\
   exists n0 l, Lifetmm.n_list tm = n0 :: l /\ Im n0 = 0).

Lemma entry_real_add_layer (d : R) (n : C) (tm tm' : Lifetmm.TransferMatrix) :
  entry_real tm -> Lifetmm.add_layer d n tm = Ok tm' -> entry_real tm'.
Proof.
  intros H E. unfold Lifetmm.add_layer in E.
  destruct (assert (Rleb 0 d) ThicknessNonneg); [|discriminate].
  cbn [rbind] in E.
  destruct H as [[HN Hn]|(HN & n0 & l & Hn & Hr)].
  - rewrite HN in E. cbn [Nat.eqb] in E. unfold assert in E.
    destruct (Reqb (Im n) 0) eqn:Hi; [|discriminate].
    cbn [rbind] in E. injection E as <-. right.
    cbn [Lifetmm.num_layers Lifetmm.n_list]. split.
    + rewrite length_app. simpl. lia.
    + exists n, []. rewrite Hn. split; [reflexivity|].
      apply Reqb_true. exact Hi.
  - destruct (if Nat.eqb (Lifetmm.num_layers tm) 0
              then assert (Reqb (Im n) 0) IncomingTransparent else Ok tt);
      [|discriminate].
    cbn [rbind] in E. injection E as <-. right.
    cbn [Lifetmm.num_layers Lifetmm.n_list]. split.
    + rewrite length_app. simpl. lia.
    + exists n0, (l ++ [n]). rewrite Hn. split; [reflexivity|exact Hr].
Qed.

(** As long as the structure is built by [add_layer] alone, the entry
    medium has a real refractive index. *)
Theorem entry_medium_transparent (ops : list structure_op) (n0 : C) :
  only_add_layer ops ->
  index (Lifetmm.n_list (LifetmmOps.run ops)) 0 = Ok n0 -> Im n0 = 0.
Proof.
  intros Hops.
  assert (H : entry_real (LifetmmOps.run ops)).
  { unfold LifetmmOps.run.
    assert (H0 : entry_real Lifetmm.init) by (left; split; reflexivity).
    revert H0. generalize Lifetmm.init.
    induction Hops as [|op ops Hop _ IH]; intros tm H0; cbn [fold_left];
      [exact H0|].
    apply IH. destruct op as [d n|]; [|contradiction].
    cbn [LifetmmOps.apply_op].
    destruct (Lifetmm.add_layer d n tm) as [tm'|] eqn:E; [|exact H0].
    eapply entry_real_add_layer; eassumption. }
  destruct H as [[_ Hn]|(_ & m & l & Hn & Hr)]; rewrite Hn.
  - discriminate.
  - cbn. intros E. injection E as <-. exact Hr.
Qed.

Lemma entry_medium_transparent_witness :
  Im (RtoC 1) = 0.
Proof.
  apply (@entry_medium_transparent
           [OpAddLayer 0 (RtoC 1); OpAddLayer 1 (2, 1)] (RtoC 1)).
  - repeat constructor.
  - unfold LifetmmOps.run. cbn [fold_left LifetmmOps.apply_op].
    rewrite (@add_layer_ok 0 (RtoC 1) Lifetmm.init) by (simpl; auto; lra).
    cbv zeta.
    rewrite add_layer_ok; [reflexivity|lra|].
    simpl. discriminate.
Defined.

(** ** What the system matrix asks of the inner layers *)

Lemma chain_ok_layers (tm : Lifetmm.TransferMatrix) (js : list nat) :
  forall s0 s,
    Lifetmm.chain tm s0 js = Ok s ->
    Forall (fun j => exists l, Lifetmm.l_matrix tm j = Ok l) js.
Proof.
  induction js as [|j js IH]; intros s0 s H; [constructor|].
  cbn [Lifetmm.chain] in H.
  destruct (Lifetmm.l_matrix tm j) as [l|] eqn:El; [|discriminate].
  destruct (Lifetmm.i_matrix tm j (j + 1)) as [i|]; [|discriminate].
  cbn [rbind] in H. constructor; [eauto|]. eapply IH. exact H.
Qed.

(** [add_layer] accepts a thickness of zero, which is meant for the two
    claddings: [s_matrix] returns only if every layer between them has a
    positive thickness and, when there is such a layer, the wavelength has
    been set. *)
Theorem system_matrix_needs_thick_layers (tm : Lifetmm.TransferMatrix)
    (s : xmatrix) (j : nat) :
  Lifetmm.s_matrix tm = Ok s ->
  (1 <= j)%nat -> (j < Lifetmm.num_layers tm - 1)%nat ->
  exists d kv,
    index (Lifetmm.d_list tm) j = Ok d /\ 0 < d /\
    Lifetmm.k_vac tm = Some kv.
Proof.
  intros H H1 H2. unfold Lifetmm.s_matrix in H.
  destruct (Lifetmm.i_matrix tm 0 1) as [i|]; [|discriminate].
  cbn [rbind] in H. apply chain_ok_layers in H.
  rewrite Forall_forall in H.
  destruct (H j) as [l Hl].
  { apply in_seq. lia. }
  apply l_matrix_spec in Hl. destruct Hl as (q & d & Hq & Hd & Hpos & _).
  unfold Lifetmm.calc_q, Lifetmm.get_k_vac in Hq.
  destruct (Lifetmm.k_vac tm) as [kv|]; [|discriminate].
  exists d, kv. auto.
Qed.

Lemma system_matrix_needs_thick_layers_witness :
  exists d kv,
    index (Lifetmm.d_list halfwave) 1 = Ok d /\ 0 < d /\
    Lifetmm.k_vac halfwave = Some kv.
Proof.
  apply (@system_matrix_needs_thick_layers halfwave
           (Finite (RM (- 1) 0 0 (- 1))) 1).
  - exact halfwave_s_matrix.
  - lia.
  - simpl. lia.
Defined.

(** * Further properties of the helper functions *)

(** [sinc] is even and bounded by 1 in absolute value. *)
Theorem sinc_even_bounded (x : R) :
  HelperFunctions.sinc (- x) = HelperFunctions.sinc x /\
  -1 <= HelperFunctions.sinc x <= 1.
Proof.
  unfold HelperFunctions.sinc. split.
  - destruct (Req_dec_T x 0) as [H|H].
    + subst x. rewrite Ropp_0. reflexivity.
    + assert (E : Reqb x 0 = false) by (apply Reqb_false; exact H).
      assert (E' : Reqb (- x) 0 = false) by (apply Reqb_false; lra).
      rewrite E, E', sin_neg. field. exact H.
  - destruct (Req_dec_T x 0) as [H|H].
    + assert (E : Reqb x 0 = true) by (apply Reqb_true; exact H).
      rewrite E. lra.
    + assert (E : Reqb x 0 = false) by (apply Reqb_false; exact H).
      rewrite E. pose proof (SIN_bound x) as [Hl Hu].
      pose proof PI2_3_2 as Hpi.
      destruct (Rlt_dec 0 x) as [Hx|Hx].
      * pose proof (sin_lt_x x Hx) as Hs.
        assert (Hlow : - x <= sin x).
        { destruct (Rle_dec 1 x); [lra|].
          pose proof (sin_gt_0 x Hx ltac:(lra)). lra. }
        split.
        -- apply Rmult_le_reg_r with x; [exact Hx|]. field_simplify; lra.
        -- apply Rmult_le_reg_r with x; [exact Hx|]. field_simplify; lra.
      * assert (Hx' : x < 0) by lra.
        pose proof (sin_gt_x x Hx') as Hs.
        assert (Hup : sin x <= - x).
        { destruct (Rle_dec x (- 1)); [lra|].
          pose proof (sin_lt_0_var x ltac:(lra) Hx'). lra. }
        replace (sin x / x) with (- sin x / - x) by (field; lra).
        split.
        -- apply Rmult_le_reg_r with (- x); [lra|]. field_simplify; lra.
        -- apply Rmult_le_reg_r with (- x); [lra|]. field_simplify; lra.
Qed.

(** The frequency that [set_vacuum_wavelength] stores is the one that
    [lambda2omega] gives for the wavelength, and [omega2lambda] takes it
    back to the wavelength. *)
Theorem vacuum_wavelength_round_trip (lam : R)
    (tm tm' : Lifetmm.TransferMatrix) :
  Lifetmm.set_vacuum_wavelength lam tm = Ok tm' ->
  exists w,
    Lifetmm.omega tm' = Some w /\
    HelperFunctions.lambda2omega lam = Exact w /\
    HelperFunctions.omega2lambda w = Exact lam.
Proof.
  unfold Lifetmm.set_vacuum_wavelength. unfold assert at 1.
  destruct (Rltb 0 lam) eqn:Hl; [|discriminate]. cbn [rbind].
  destruct (assert (Nat.ltb 0 (Lifetmm.num_layers tm)) StructureFirst);
    [|discriminate].
  cbn [rbind]. intros H. injection H as <-. apply Rltb_true in Hl.
  exists (c_light * (2 * PI / lam)). split; [reflexivity|].
  pose proof PI_RGT_0 as Hpi.
  assert (Hc : 0 < c_light) by (unfold c_light; lra).
  unfold HelperFunctions.lambda2omega, HelperFunctions.omega2lambda,
    HelperFunctions.lambda2nu, HelperFunctions.nu2lambda.
  assert (E1 : Reqb lam 0 = false) by (apply Reqb_false; lra).
  rewrite E1. split.
  - f_equal. unfold HelperFunctions.speed_of_light, c_light. field. lra.
  - assert (Hw : 0 < c_light * (2 * PI / lam) / (2 * PI)).
    { apply Rdiv_lt_0_compat; [|lra].
      apply Rmult_lt_0_compat; [exact Hc|].
      apply Rdiv_lt_0_compat; lra. }
    assert (E2 : Reqb (c_light * (2 * PI / lam) / (2 * PI)) 0 = false)
      by (apply Reqb_false; lra).
    rewrite E2. f_equal.
    unfold HelperFunctions.speed_of_light, c_light. field. lra.
Qed.

Lemma vacuum_wavelength_round_trip_witness :
  exists w,
    Lifetmm.omega halfwave = Some w /\
    HelperFunctions.lambda2omega 4 = Exact w /\
    HelperFunctions.omega2lambda w = Exact 4.
Proof.
  apply (@vacuum_wavelength_round_trip 4 halfwave halfwave).
  unfold Lifetmm.set_vacuum_wavelength.
  assert (E : Rltb 0 4 = true) by (apply Rltb_true; lra).
  rewrite E. reflexivity.
Defined.

(** [numpy.sin] on a complex argument. *)
Definition Csin (z : C) : C :=
  (sin (Re z) * cosh (Im z), cos (Re z) * sinh (Im z)).

Lemma cosh_ln_sqrt (u : R) :
  1 < u -> cosh (ln (u + sqrt (u * u - 1))) = u.
Proof.
  intros Hu. set (s := sqrt (u * u - 1)).
  assert (Hs : 0 <= s) by apply sqrt_pos.
  assert (Hs2 : s * s = u * u - 1) by (apply sqrt_sqrt; nra).
  assert (Hp : 0 < u + s) by lra.
  unfold cosh. rewrite exp_Ropp, exp_ln by exact Hp.
  replace (/ (u + s)) with (u - s).
  - lra.
  - apply Rmult_eq_reg_l with (u + s); [|lra].
    rewrite Rinv_r by lra. nra.
Qed.

(** Snell's law, also beyond the critical angle, where the angle returned
    is complex: [n_2 sin(th_2) = n_1 sin(th_1)]. *)
Theorem snell_law (n_1 n_2 th_1 : R) :
  n_2 <> 0 ->
  (RtoC n_2 * Csin (HelperFunctions.snell n_1 n_2 th_1))%C
  = RtoC (n_1 * sin th_1).
Proof.
  intros H2. unfold HelperFunctions.snell, HelperFunctions.sp_arcsin.
  set (x := n_1 * sin th_1 / n_2).
  assert (Hx : n_2 * x = n_1 * sin th_1) by (unfold x; field; exact H2).
  rewrite <- Hx.
  destruct (Rle_dec (Rabs x) 1) as [Ha|Ha].
  - assert (Hb : -1 <= x <= 1).
    { unfold Rabs in Ha. destruct (Rcase_abs x); lra. }
    unfold Csin. cbn [Re Im fst snd].
    rewrite sin_asin by exact Hb. rewrite cosh_0, sinh_0.
    apply C_ext; simpl; ring.
  - destruct (Rlt_dec 1 x) as [Hg|Hg].
    + unfold Csin. cbn [Re Im fst snd].
      rewrite sin_PI2, cos_PI2, cosh_ln_sqrt by exact Hg.
      apply C_ext; simpl; ring.
    + assert (Hl : x < -1).
      { apply Rnot_le_lt in Ha. unfold Rabs in Ha.
        destruct (Rcase_abs x); lra. }
      unfold Csin. cbn [Re Im fst snd].
      rewrite sin_neg, cos_neg, sin_PI2, cos_PI2.
      replace (x * x - 1) with (- x * - x - 1) by ring.
      rewrite cosh_ln_sqrt by lra.
      apply C_ext; simpl; ring.
Qed.

Lemma snell_law_witness :
  (RtoC 1 * Csin (HelperFunctions.snell 2 1 (PI / 3)))%C
  = RtoC (2 * sin (PI / 3)).
Proof. apply snell_law. lra. Defined.

(** * The two implementations *)

(** Set up alike, the two implementations return the same reflection and
    transmission coefficients, or the same non-finite outcome. *)
Theorem implementations_agree_on_r_and_t (tm : Lifetmm.TransferMatrix)
    (tm' : Methods.TransferMatrix) (x x' : ieee (C * C)) :
  same_setup tm tm' ->
  Lifetmm.calc_r_and_t tm = Ok x ->
  Methods.calc_r_and_t tm' = Ok x' ->
  x' = x.
Proof.
  intros H Hx Hx'.
  unfold Lifetmm.calc_r_and_t, Lifetmm.s_matrix in Hx.
  unfold Methods.calc_r_and_t, Methods.calc_s_matrix in Hx'.
  destruct (Lifetmm.i_matrix tm 0 1) as [i|] eqn:Ei; [|discriminate].
  destruct (Methods.calc_i_matrix tm' 0 1) as [i'|] eqn:Ei'; [|discriminate].
  cbn [rbind] in Hx, Hx'.
  destruct (Lifetmm.chain tm i (seq 1 (Lifetmm.num_layers tm - 2)))
    as [s|] eqn:Es; [|discriminate].
  destruct (Methods.chain tm' i' (seq 1 (Methods.num_layers tm' - 2)))
    as [s'|] eqn:Es'; [|discriminate].
  cbn [rbind] in Hx, Hx'. injection Hx as <-. injection Hx' as <-.
  rewrite (ss_N H) in Es'.
  pose proof (@same_setup_chain tm tm' _ H _ _ _ _
                (@same_setup_i_matrix tm tm' 0 1 _ _ H Ei Ei') Es Es') as Hag.
  destruct s as [s| | |], s' as [s'| | |]; simpl in Hag; try contradiction;
    try reflexivity.
  subst s'. reflexivity.
Qed.

Lemma methods_halfwave_r_and_t :
  Methods.calc_r_and_t methods_halfwave
  = Ok (Exact (RtoC (0 / - 1), RtoC (1 / - 1))).
Proof.
  unfold Methods.calc_r_and_t. rewrite methods_halfwave_s_matrix.
  cbn [rbind entry idiv ibind imap ipair RM m00 m01 m10 m11].
  change C1 with (RtoC 1). rewrite !ediv_real by lra. reflexivity.
Qed.

Lemma implementations_agree_on_r_and_t_witness :
  Exact (RtoC (0 / - 1), RtoC (1 / - 1))
  = Exact (RtoC (0 / - 1), RtoC (1 / - 1)).
Proof.
  apply (@implementations_agree_on_r_and_t halfwave methods_halfwave).
  - exact halfwave_same_setup.
  - exact halfwave_r_and_t.
  - exact methods_halfwave_r_and_t.
Defined.

(** ** The film at long wavelengths *)

Lemma v0_pos_long (lam : R) : 3 <= lam -> 0 < v0 lam.
Proof.
  intros Hlam. unfold v0. rewrite phase_at_p0 by lra.
  rewrite kappa2_at_p0, beta0_value.
  pose proof kappa0_at_p0 as Hk.
  set (kappa0 := sqrt (p0 * p0 - 1 * 1)) in *.
  pose proof PI_RGT_0 as Hpi.
  assert (Hphi : 0 < PI / (2 * lam) <= PI / 6).
  { split.
    - apply Rdiv_lt_0_compat; lra.
    - apply Rmult_le_reg_r with (2 * lam); [lra|].
      replace (PI / (2 * lam) * (2 * lam)) with PI by (field; lra).
      nra. }
  set (phi := PI / (2 * lam)) in *.
  assert (Hc : 1 / 2 <= cos phi).
  { assert (H6 : cos (PI / 6) <= cos phi) by (apply cos_decr_1; lra).
    rewrite cos_PI6 in H6.
    assert (H3 : 1 <= sqrt 3).
    { rewrite <- sqrt_1 at 1. apply sqrt_le_1; lra. }
    lra. }
  pose proof (SIN_bound phi) as [_ Hs].
  unfold guided_value.
  apply Rdiv_lt_0_compat; [|nra].
  nra.
Qed.

Section SlabLongWavelength.

Variable ieee_gt0 : R -> R -> bool.
Variable brentq_next :
  R -> R -> list (R * ieee R) -> HelperFunctions.solver_action.

(** From the lower end, at a wavelength of 3 or more: no sign change. *)
Lemma slab_search_none_long (lam : R) (tm : Lifetmm.TransferMatrix) :
  3 <= lam -> only_n_11_changed (slab lam) tm ->
  HelperFunctions.root_search ieee_gt0 4 Lifetmm.calc_s11 p0 n_film
    Lifetmm.default_eps tm
  = (Ok None, Lifetmm.with_n_11 (slab lam) (RtoC p3)).
Proof.
  intros H3 Hfr. assert (Hlam : 1 <= lam) by lra.
  assert (Hlam0 : 0 < lam) by lra.
  unfold HelperFunctions.root_search, bind, lift.
  assert (E : Rleb p0 n_film = true) by (apply Rleb_true; unfold_probes; lra).
  rewrite E. cbn [assert].
  rewrite (slab_probe0 Hlam0 Hfr).
  change (p0 + Lifetmm.default_eps) with p1.
  rewrite (slab_probe1 Hlam0 (only_n_11_slab lam (RtoC p0))).
  rewrite root_search_loop_S, prod_gt0_exact.
  assert (Hs0 : Rltb 0 (v0 lam * v1 lam) = true).
  { apply Rltb_true. pose proof (v0_pos_long H3). pose proof (v1_pos Hlam). nra. }
  rewrite Hs0, hi_not_reached_p0. unfold bind.
  change (p1 + Lifetmm.default_eps) with p2.
  destruct p2_beyond as [H2a H2b]. destruct p3_beyond as [H3a H3b].
  destruct (@slab_probe_beyond lam p2 _ Hlam (only_n_11_slab lam (RtoC p1)) H2a H2b)
    as [E2 V2].
  rewrite E2.
  rewrite root_search_loop_S, prod_gt0_exact.
  assert (Hs1 : Rltb 0 (v1 lam * v_beyond lam p2) = true).
  { apply Rltb_true. pose proof (v1_pos Hlam). nra. }
  rewrite Hs1, hi_not_reached_p1. unfold bind.
  change (p2 + Lifetmm.default_eps) with p3.
  destruct (@slab_probe_beyond lam p3 _ Hlam (only_n_11_slab lam (RtoC p2)) H3a H3b)
    as [E3 V3].
  rewrite E3.
  rewrite root_search_loop_S, prod_gt0_exact.
  assert (Hs2 : Rltb 0 (v_beyond lam p2 * v_beyond lam p3) = true).
  { apply Rltb_true. nra. }
  rewrite Hs2, hi_reached_p2. reflexivity.
Qed.

Lemma slab_guided_modes_none_long (normalised : bool) (lam : R)
    (tm : Lifetmm.TransferMatrix) :
  3 <= lam -> only_n_11_changed (slab lam) tm ->
  Lifetmm.calc_guided_modes ieee_gt0 brentq_next 4 normalised tm
  = (Ok [], Lifetmm.with_n_11 (slab lam) (RtoC p3)).
Proof.
  intros H3 Hfr. rewrite (slab_guided_modes_eq _ _ _ _ Hfr).
  unfold HelperFunctions.roots. rewrite roots_loop_S. unfold bind at 1.
  rewrite (slab_search_none_long H3 Hfr). unfold ret.
  rewrite (slab_min_real (only_n_11_slab lam (RtoC p3))).
  destruct normalised; reflexivity.
Qed.

End SlabLongWavelength.

(** The film at the wavelength 4: no mode at [int(4 + 1) = 5] nor at
    [int(4 - 1) = 3], and an empty list of velocities. *)
Lemma slab_group_velocity :
  Lifetmm.calc_group_velocity nan_compare left_end_solver 4 (slab 4)
  = (Ok [], Lifetmm.with_n_11 (slab 4) (RtoC p3)).
Proof.
  assert (E5 : int_trunc (1 + 4) = 5%Z) by (apply int_trunc_IZR; [lia|simpl; lra]).
  assert (E3 : int_trunc (-1 + 4) = 3%Z) by (apply int_trunc_IZR; [lia|simpl; lra]).
  unfold Lifetmm.calc_group_velocity.
  unfold bind at 1. unfold lift at 1. cbn [Lifetmm.lam_vac slab].
  unfold bind at 1. unfold lift at 1. cbn [Lifetmm.shifted_wavelength].
  rewrite E5. unfold bind at 1. unfold update at 1.
  change (slab 4) with (Lifetmm.with_n_11 (slab 4) C0).
  rewrite (@slab_set_wavelength 4 5 C0) by (simpl; lra).
  unfold bind at 1. unfold lift at 1.
  unfold bind at 1.
  rewrite (@slab_guided_modes_none_long nan_compare left_end_solver false 5)
    by (lra || apply only_n_11_slab).
  unfold bind at 1. unfold lift at 1. cbn [Lifetmm.shifted_wavelength].
  rewrite E3. unfold bind at 1. unfold update at 1.
  rewrite (@slab_set_wavelength 5 3 (RtoC p3)) by (simpl; lra).
  unfold bind at 1. unfold lift at 1.
  unfold bind at 1.
  rewrite (@slab_guided_modes_none_long nan_compare left_end_solver false 3)
    by (lra || apply only_n_11_slab).
  unfold bind at 1. unfold lift at 1. cbn [length Nat.eqb assert].
  unfold bind at 1. cbn [Lifetmm.reset_wavelength]. unfold update.
  rewrite (@slab_set_wavelength 3 4 (RtoC p3)) by lra.
  reflexivity.
Qed.

Lemma group_velocity_restores_wavelength_witness :
  exists l,
    Lifetmm.lam_vac (slab 4) = Some l /\ 2 <= l /\
    Lifetmm.lam_vac (Lifetmm.with_n_11 (slab 4) (RtoC p3)) = Some l /\
    Lifetmm.k_vac (Lifetmm.with_n_11 (slab 4) (RtoC p3)) = Some (2 * PI / l) /\
    Lifetmm.omega (Lifetmm.with_n_11 (slab 4) (RtoC p3))
    = Some (c_light * (2 * PI / l)) /\
    Lifetmm.n_list (Lifetmm.with_n_11 (slab 4) (RtoC p3))
    = Lifetmm.n_list (slab 4) /\
    Lifetmm.d_list (Lifetmm.with_n_11 (slab 4) (RtoC p3))
    = Lifetmm.d_list (slab 4) /\
    Lifetmm.d_cumulative (Lifetmm.with_n_11 (slab 4) (RtoC p3))
    = Lifetmm.d_cumulative (slab 4).
Proof.
  apply (@group_velocity_restores_wavelength nan_compare left_end_solver 4
           (slab 4) (Lifetmm.with_n_11 (slab 4) (RtoC p3)) []).
  exact slab_group_velocity.
Defined.

(** * Reflectance of a lossless structure *)

Lemma reflectance_inv (tm : Lifetmm.TransferMatrix) (correction : bool)
    (Rf : R) (T : C) :
  Lifetmm.calc_reflectance_and_transmittance tm correction
  = Ok (Exact (Rf, T)) ->
  exists s,
    Lifetmm.s_matrix tm = Ok (Finite s) /\ m00 s <> C0 /\
    Rf = Cnorm2 (m10 s / m00 s).
Proof.
  unfold Lifetmm.calc_reflectance_and_transmittance, Lifetmm.calc_r_and_t.
  destruct (Lifetmm.s_matrix tm) as [s|]; [|discriminate].
  cbn [rbind].
  destruct s as [s| | |]; cbn [entry idiv ibind imap ipair].
  2-4: destruct correction; [|discriminate];
       destruct (index (Lifetmm.n_list tm) 0); cbn [rbind]; try discriminate;
       destruct (index_last (Lifetmm.n_list tm)); cbn [rbind]; discriminate.
  unfold ediv. destruct (Ceqb (m00 s) C0) eqn:E0; cbn [ibind imap].
  - destruct correction; [|discriminate].
    destruct (index (Lifetmm.n_list tm) 0); cbn [rbind]; try discriminate;
      destruct (index_last (Lifetmm.n_list tm)); cbn [rbind]; discriminate.
  - apply Ceqb_false in E0. intros H.
    assert (HR : Rf = Cabs (m10 s / m00 s) ^ 2).
    { destruct correction.
      - destruct (index (Lifetmm.n_list tm) 0) as [n_1|]; cbn [rbind] in H;
          [|discriminate].
        destruct (index_last (Lifetmm.n_list tm)) as [n_2|]; cbn [rbind] in H;
          [|discriminate].
        destruct (Lifetmm.beam_correction (Re n_1) (Re n_2) (Lifetmm.th tm));
          cbn [imap] in H; [|discriminate].
        injection H as <- _. reflexivity.
      - injection H as <- _. reflexivity. }
    exists s. rewrite HR, Cabs_sqr. auto.
Qed.

(** A lossless structure reflects at most all of the incident power, and
    all of it exactly when the exit medium is at or beyond its critical
    angle. *)
Theorem reflectance_at_most_one (tm0 tm : Lifetmm.TransferMatrix) (a : R)
    (u : angle_units) (correction : bool) (n_in n_out : C) (Rf : R) (T : C) :
  lossless tm0 ->
  Lifetmm.num_layers tm0 = length (Lifetmm.n_list tm0) ->
  Lifetmm.field tm0 = field_E ->
  Lifetmm.set_incident_angle a u tm0 = (Ok tt, tm) ->
  index (Lifetmm.n_list tm0) 0 = Ok n_in ->
  index_last (Lifetmm.n_list tm0) = Ok n_out ->
  0 < Re n_in ->
  Lifetmm.calc_reflectance_and_transmittance tm correction
  = Ok (Exact (Rf, T)) ->
  0 <= Rf <= 1 /\
  (Rf = 1 <->
   Re n_out * Re n_out
   <= Re n_in * sin (Lifetmm.th tm) * (Re n_in * sin (Lifetmm.th tm))).
Proof.
  intros Hl HN Hf Hset Hin Hout Pin Hres.
  apply set_incident_angle_inv in Hset.
  destruct Hset as (n0 & th & Hth & E0 & Htm).
  rewrite Hin in E0. injection E0 as <-.
  assert (Hn : Lifetmm.n_list tm = Lifetmm.n_list tm0) by (rewrite Htm; reflexivity).
  assert (HN' : Lifetmm.num_layers tm = Lifetmm.num_layers tm0)
    by (rewrite Htm; reflexivity).
  assert (Hf' : Lifetmm.field tm = field_E) by (rewrite Htm; exact Hf).
  assert (Hx : Lifetmm.n_11 tm = (n_in * RtoC (sin th))%C)
    by (rewrite Htm; reflexivity).
  assert (Ht : Lifetmm.th tm = th) by (rewrite Htm; reflexivity).
  clear Htm. rewrite Ht in *.
  assert (Hl' : lossless tm) by (unfold lossless; rewrite Hn; exact Hl).
  pose proof (@index_Forall _ _ _ _ _ Hl Hin) as Rin.
  assert (Rout : Im n_out = 0).
  { rewrite <- index_last_length in Hout.
    - exact (@index_Forall _ _ _ _ _ Hl Hout).
    - intros E. rewrite E in Hin. discriminate. }
  simpl in Rin.
  rewrite (real_RtoC _ Rin) in Hx. rewrite RtoC_mul in Hx.
  apply reflectance_inv in Hres.
  destruct Hres as (s & Hs & H00 & ->).
  destruct (s_matrix_transports Hl' ltac:(rewrite Hx; reflexivity) Hf' Hs)
    as (n0 & nN & E0 & EN & Htr).
  rewrite Hn, Hin in E0. injection E0 as <-.
  assert (E : index (Lifetmm.n_list tm) (1 + (Lifetmm.num_layers tm - 2))
              = Ok n_out).
  { rewrite Hn, HN', HN in EN |- *.
    assert (Hlen : (1 + (length (Lifetmm.n_list tm0) - 2)
                    < length (Lifetmm.n_list tm0))%nat).
    { apply nth_error_Some. unfold index in EN.
      destruct (nth_error (Lifetmm.n_list tm0)
                          (1 + (length (Lifetmm.n_list tm0) - 2)));
        [discriminate|discriminate EN]. }
    rewrite <- Hout, <- index_last_length.
    - f_equal. lia.
    - intros E. rewrite E in Hin. discriminate. }
  rewrite EN in E. injection E as ->.
  rewrite (real_RtoC _ Rin), (real_RtoC _ Rout) in Htr.
  rewrite Hx in Htr.
  assert (Hc0 : 0 < cos th) by (apply cos_gt_0; lra).
  pose proof (sin2_cos2 th) as Hsc. unfold Rsqr in Hsc.
  rewrite (@xi_of_real_below (Re n_in)) in Htr.
  2:{ replace (Re n_in * sin th * (Re n_in * sin th))
        with (Re n_in * Re n_in * (1 - cos th * cos th)) by nra.
      assert (0 <= Re n_in * Re n_in * (cos th * cos th)) by
        (apply Rmult_le_pos; nra).
      lra. }
  replace (Re n_in * Re n_in - Re n_in * sin th * (Re n_in * sin th))
    with ((Re n_in * cos th) * (Re n_in * cos th)) in Htr by nra.
  rewrite sqrt_square in Htr by nra.
  pose proof (power_balance H00 Htr) as Hp.
  pose proof (Cnorm2_nonneg (m10 s / m00 s)) as HR0.
  pose proof (Cnorm2_pos (Cdiv_neq0 C1_neq_C0 H00)) as HT0.
  assert (Hx0 : 0 < Re n_in * cos th) by (apply Rmult_lt_0_compat; lra).
  set (Rr := Cnorm2 (m10 s / m00 s)) in *.
  set (Tt := Cnorm2 (C1 / m00 s)) in *.
  set (x := Re n_in * sin th) in *.
  destruct (Rle_dec (x * x) (Re n_out * Re n_out)) as [Hb|Hb].
  - rewrite xi_of_real_below in Hp by exact Hb. simpl (Re (RtoC _)) in Hp.
    pose proof (sqrt_pos (Re n_out * Re n_out - x * x)) as Hq.
    assert (Hge : 0 <= Re n_in * cos th * (1 - Rr)).
    { rewrite Hp. apply Rmult_le_pos; lra. }
    split; [split; [exact HR0|nra]|]. split.
    + intros Hone. rewrite Hone in Hp.
      assert (Hz : sqrt (Re n_out * Re n_out - x * x) = 0) by nra.
      apply sqrt_eq_0 in Hz; lra.
    + intros Hcrit. assert (Heq : Re n_out * Re n_out - x * x = 0) by lra.
      rewrite Heq, sqrt_0 in Hp. nra.
  - rewrite xi_of_real_ge in Hp by lra. simpl (Re (_, _)) in Hp.
    assert (Hone : Rr = 1) by nra.
    split; [lra|]. split; [intros _; lra|intros _; exact Hone].
Qed.

Lemma glass_air_result :
  exists Rf T,
    Lifetmm.calc_reflectance_and_transmittance glass_air true
    = Ok (Exact (Rf, T)).
Proof.
  destruct glass_air_s_matrix as (s & Hs & H00).
  destruct glass_air_beam_correction as (y & Hy & Hb).
  unfold Lifetmm.calc_reflectance_and_transmittance, Lifetmm.calc_r_and_t.
  rewrite Hs. cbn [rbind entry idiv ibind imap ipair].
  rewrite !ediv_exact by exact H00.
  cbn [rbind entry idiv ibind imap ipair].
  unfold index_last.
  cbn [rbind Lifetmm.n_list glass_air index nth_error last_error last
       Lifetmm.th].
  simpl (Re (RtoC 2)). simpl (Re (RtoC 1)).
  rewrite Hb. cbn [imap]. eauto.
Qed.

Lemma reflectance_at_most_one_witness :
  exists Rf T,
    Lifetmm.calc_reflectance_and_transmittance glass_air true
    = Ok (Exact (Rf, T)) /\
    0 <= Rf <= 1 /\
    (Rf = 1 <->
     Re (RtoC 1) * Re (RtoC 1)
     <= Re (RtoC 2) * sin (Lifetmm.th glass_air)
        * (Re (RtoC 2) * sin (Lifetmm.th glass_air))).
Proof.
  destruct glass_air_result as (Rf & T & H).
  exists Rf, T. split; [exact H|].
  apply (@reflectance_at_most_one glass_air glass_air (PI / 3) radians true
           (RtoC 2) (RtoC 1) Rf T).
  - unfold lossless. simpl. repeat constructor.
  - reflexivity.
  - reflexivity.
  - exact glass_air_set_incident_angle.
  - reflexivity.
  - reflexivity.
  - simpl. lra.
  - exact H.
Defined.

(** * The scan interval of the guided modes *)

Lemma Cltb_real (z w : C) :
  Im z = 0 -> Im w = 0 -> Cltb z w = Rltb (Re z) (Re w).
Proof.
  intros Hz Hw. unfold Cltb. rewrite Hz, Hw.
  assert (E : Rltb 0 0 = false) by (apply Rltb_false; lra).
  rewrite E, andb_false_r, orb_false_r. reflexivity.
Qed.

Lemma in_interior {A} (x : A) (l : list A) : In x (interior l) -> In x l.
Proof.
  unfold interior. intros H.
  assert (Ht : In x (tl l)).
  { revert H. generalize (tl l). intros t.
    induction t as [|y t IH]; [intros []|].
    destruct t as [|z t]; [intros []|].
    cbn [removelast]. intros [E|H]; [left; exact E|right; apply IH; exact H]. }
  destruct l; [destruct Ht|right; exact Ht].
Qed.

(** For real refractive indices, a structure that [supports_guiding]
    accepts has a scan interval that is not empty: the largest index
    exceeds both claddings. *)
Theorem guiding_interval_nonempty (tm : Lifetmm.TransferMatrix) (lo hi : R) :
  lossless tm ->
  Lifetmm.supports_guiding tm = Ok true ->
  scan_lower tm = Ok lo -> scan_upper tm = Ok hi ->
  lo < hi.
Proof.
  intros Hl Hg Hlo Hhi. unfold Lifetmm.supports_guiding in Hg.
  unfold scan_lower in Hlo.
  destruct (index (Lifetmm.n_list tm) 0) as [n0|] eqn:E0; [|discriminate].
  destruct (index_last (Lifetmm.n_list tm)) as [nl|] eqn:El; [|discriminate].
  cbn [rbind] in Hg, Hlo. injection Hg as Hg. injection Hlo as <-.
  apply existsb_exists in Hg. destruct Hg as (n & Hin & Hn).
  apply in_interior in Hin.
  unfold lossless in Hl. rewrite Forall_forall in Hl.
  pose proof (Hl n Hin) as Rn.
  pose proof (@index_Forall _ _ _ _ _ (proj2 (Forall_forall _ _) Hl) E0) as R0.
  assert (Rl : Im nl = 0).
  { rewrite <- index_last_length in El.
    - exact (@index_Forall _ _ _ _ _ (proj2 (Forall_forall _ _) Hl) El).
    - intros E. rewrite E in E0. discriminate. }
  simpl in R0.
  assert (Hmax : Im (Cpymax n0 nl) = 0 /\
                 Re (Cpymax n0 nl) = pymax (Re n0) (Re nl)).
  { unfold Cpymax, pymax. rewrite (Cltb_real _ _ R0 Rl).
    destruct (Rltb (Re n0) (Re nl)); auto. }
  destruct Hmax as [Hi Hr].
  rewrite (Cltb_real _ _ Hi Rn), Hr in Hn. apply Rltb_true in Hn.
  apply scan_upper_spec in Hhi. destruct Hhi as [_ Hup].
  rewrite Forall_forall in Hup.
  assert (Re n <= hi) by (apply Hup, in_map, Hin).
  lra.
Qed.

Lemma guiding_interval_nonempty_witness : p0 < n_film.
Proof.
  apply (@guiding_interval_nonempty (slab 1) p0 n_film).
  - unfold lossless. simpl. repeat constructor.
  - apply (@slab_supports_guiding 1). apply only_n_11_refl.
  - apply (@slab_scan_lower 1). apply only_n_11_refl.
  - apply (@slab_scan_upper 1). apply only_n_11_refl.
Defined.

(** * Reversing the structure *)

(** [J @ m @ J] for the exchange matrix [J = [[0, 1], [1, 0]]]. *)
Definition exchange (m : M2) : M2 := mkM2 (m11 m) (m10 m) (m01 m) (m00 m).

Lemma exchange_matmul (a b : M2) :
  exchange (matmul a b) = matmul (exchange a) (exchange b).
Proof.
  unfold exchange, matmul. cbn [m00 m01 m10 m11]. f_equal; ring.
Qed.

Lemma exchange_interface_matrix (r t : C) :
  exchange (interface_matrix r t) = interface_matrix r t.
Proof. reflexivity. Qed.

Lemma propagation_matrix_exchange (q : C) (d : R) :
  matmul (propagation_matrix q d) (exchange (propagation_matrix q d))
  = identity.
Proof.
  unfold matmul, exchange, propagation_matrix, identity.
  cbn [m00 m01 m10 m11].
  replace (- Ci * q * RtoC d)%C with (- (Ci * q * RtoC d))%C by ring.
  pose proof (Cexp_opp (Ci * q * RtoC d)%C) as E.
  f_equal; try ring.
  - rewrite <- E. ring.
  - rewrite <- E. ring.
Qed.

Lemma matmul_identity_l (a : M2) : matmul identity a = a.
Proof.
  destruct a. unfold matmul, identity. cbn [m00 m01 m10 m11].
  f_equal; ring.
Qed.

Lemma matmul_cancel (a l i i' l' b : M2) :
  matmul i i' = identity -> matmul l l' = identity ->
  matmul a b = identity ->
  matmul (matmul (matmul a l) i) (matmul (matmul i' l') b) = identity.
Proof.
  intros Hi Hl Hab.
  rewrite (matmul_assoc (matmul a l) i).
  rewrite <- (matmul_assoc i (matmul i' l') b).
  rewrite <- (matmul_assoc i i' l'). rewrite Hi, matmul_identity_l.
  rewrite (matmul_assoc a l). rewrite <- (matmul_assoc l l' b).
  rewrite Hl, matmul_identity_l. exact Hab.
Qed.

Lemma index_rev {A} (l : list A) (j : nat) :
  (j < length l)%nat -> index (rev l) j = index l (length l - S j).
Proof.
  intros Hj. unfold index. rewrite nth_error_rev.
  apply Nat.ltb_lt in Hj. rewrite Hj. reflexivity.
Qed.

Lemma flip_i_matrix (tm : Lifetmm.TransferMatrix) (j k : nat) :
  (j < length (Lifetmm.n_list tm))%nat ->
  (k < length (Lifetmm.n_list tm))%nat ->
  Lifetmm.i_matrix (Lifetmm.flip tm) j k
  = Lifetmm.i_matrix tm (length (Lifetmm.n_list tm) - S j)
                        (length (Lifetmm.n_list tm) - S k).
Proof.
  intros Hj Hk. unfold Lifetmm.i_matrix, Lifetmm.calc_xi.
  cbn [Lifetmm.flip Lifetmm.n_list Lifetmm.n_11 Lifetmm.pol Lifetmm.field].
  rewrite !index_rev by assumption. reflexivity.
Qed.

Lemma flip_l_matrix (tm : Lifetmm.TransferMatrix) (j : nat) :
  length (Lifetmm.d_list tm) = length (Lifetmm.n_list tm) ->
  (j < length (Lifetmm.n_list tm))%nat ->
  Lifetmm.l_matrix (Lifetmm.flip tm) j
  = Lifetmm.l_matrix tm (length (Lifetmm.n_list tm) - S j).
Proof.
  intros Hd Hj.
  unfold Lifetmm.l_matrix, Lifetmm.calc_q, Lifetmm.calc_xi, Lifetmm.get_k_vac.
  cbn [Lifetmm.flip Lifetmm.n_list Lifetmm.d_list Lifetmm.n_11 Lifetmm.k_vac].
  rewrite !index_rev by (rewrite ?Hd; assumption).
  rewrite Hd. reflexivity.
Qed.

Lemma chain_app (tm : Lifetmm.TransferMatrix) (js1 js2 : list nat) :
  forall s,
    Lifetmm.chain tm s (js1 ++ js2)
    = rbind (Lifetmm.chain tm s js1) (fun x => Lifetmm.chain tm x js2).
Proof.
  induction js1 as [|j js1 IH]; intros s; [reflexivity|].
  cbn [app Lifetmm.chain].
  destruct (Lifetmm.l_matrix tm j) as [l|]; [|reflexivity].
  destruct (Lifetmm.i_matrix tm j (j + 1)) as [i|]; [|reflexivity].
  cbn [rbind]. apply IH.
Qed.

Lemma chain_factor (tm : Lifetmm.TransferMatrix) (m : M2) (js : list nat) :
  forall s r,
    Lifetmm.chain tm (Finite (matmul m s)) js = Ok (Finite r) ->
    exists r0,
      Lifetmm.chain tm (Finite s) js = Ok (Finite r0) /\ r = matmul m r0.
Proof.
  induction js as [|j js IH]; intros s r H.
  - cbn [Lifetmm.chain] in *. injection H as <-. eauto.
  - cbn [Lifetmm.chain] in *.
    destruct (Lifetmm.l_matrix tm j) as [l|]; [|discriminate].
    destruct (Lifetmm.i_matrix tm j (j + 1)) as [i|]; [|discriminate].
    cbn [rbind] in *.
    pose proof (lifetmm_chain_finite _ _ _ H) as [m0 Hm0].
    destruct i as [i| | |]; try discriminate.
    cbn [xmatmul] in *. rewrite !matmul_assoc in H.
    rewrite matmul_assoc. apply IH. exact H.
Qed.

Lemma i_matrix_pair (tm : Lifetmm.TransferMatrix) (j k : nat) (a b : M2) :
  Lifetmm.i_matrix tm j k = Ok (Finite a) ->
  Lifetmm.i_matrix tm k j = Ok (Finite b) ->
  matmul a b = identity /\ exchange b = b.
Proof.
  intros Ha Hb.
  destruct (i_matrix_inv _ _ _ Ha) as (nj & nk & Ej & Ek & E).
  destruct (i_matrix_inv _ _ _ Hb) as (nk' & nj' & Ek' & Ej' & E').
  rewrite Ek in Ek'. injection Ek' as <-.
  rewrite Ej in Ej'. injection Ej' as <-.
  symmetry in E, E'. split; [exact (fresnel_round_trip _ _ _ _ _ _ E E')|].
  apply assemble_finite_inv in E'. destruct E' as (r & t & _ & _ & ->).
  apply exchange_interface_matrix.
Qed.

(** The matrix accumulated from layer [u] over [len] further layers, and
    the one the reversed structure accumulates over the same layers. *)
Lemma reverse_path (tm : Lifetmm.TransferMatrix) :
  length (Lifetmm.d_list tm) = length (Lifetmm.n_list tm) ->
  forall (len u : nat) (i i' : xmatrix) (a b : M2),
    (u + len + 2 <= length (Lifetmm.n_list tm))%nat ->
    Lifetmm.i_matrix tm u (u + 1) = Ok i ->
    Lifetmm.chain tm i (seq (u + 1) len) = Ok (Finite a) ->
    Lifetmm.i_matrix (Lifetmm.flip tm)
      (length (Lifetmm.n_list tm) - u - len - 2)
      (length (Lifetmm.n_list tm) - u - len - 2 + 1) = Ok i' ->
    Lifetmm.chain (Lifetmm.flip tm) i'
      (seq (length (Lifetmm.n_list tm) - u - len - 2 + 1) len)
    = Ok (Finite b) ->
    matmul a (exchange b) = identity.
Proof.
  intros Hd. set (N := length (Lifetmm.n_list tm)).
  induction len as [|len IH]; intros u i i' a b Hu Hi Ha Hi' Hb.
  - cbn [seq Lifetmm.chain] in Ha, Hb. injection Ha as ->. injection Hb as ->.
    rewrite flip_i_matrix in Hi' by (fold N; lia). fold N in Hi'.
    replace (N - S (N - u - 0 - 2))%nat with (u + 1)%nat in Hi' by lia.
    replace (N - S (N - u - 0 - 2 + 1))%nat with u in Hi' by lia.
    destruct (i_matrix_pair _ _ _ Hi Hi') as [E1 E2].
    rewrite E2. exact E1.
  - rewrite seq_S, chain_app in Ha.
    destruct (Lifetmm.chain tm i (seq (u + 1) len)) as [x|] eqn:Ex;
      [|discriminate].
    cbn [rbind Lifetmm.chain] in Ha.
    destruct (Lifetmm.l_matrix tm (u + 1 + len)) as [l|] eqn:El;
      [|discriminate].
    destruct (Lifetmm.i_matrix tm (u + 1 + len) (u + 1 + len + 1))
      as [i2|] eqn:Ei2; [|discriminate].
    cbn [rbind] in Ha. injection Ha as Ha.
    destruct x as [a0| | |]; try discriminate.
    destruct i2 as [i2| | |]; try discriminate.
    cbn [xmatmul] in Ha. injection Ha as <-.
    replace (N - u - S len - 2 + 1)%nat with (N - u - len - 2)%nat in *
      by lia.
    cbn [seq Lifetmm.chain] in Hb.
    destruct (Lifetmm.l_matrix (Lifetmm.flip tm) (N - u - len - 2))
      as [l'|] eqn:El'; [|discriminate].
    destruct (Lifetmm.i_matrix (Lifetmm.flip tm) (N - u - len - 2)
                (N - u - len - 2 + 1)) as [ic|] eqn:Eic; [|discriminate].
    cbn [rbind] in Hb.
    pose proof (lifetmm_chain_finite _ _ _ Hb) as [m0 Hm0].
    destruct i' as [ib| | |]; try discriminate.
    destruct ic as [ic| | |]; try discriminate.
    cbn [xmatmul] in Hb.
    replace (S (N - u - len - 2)) with (N - u - len - 2 + 1)%nat in Hb
      by lia.
    apply chain_factor in Hb. destruct Hb as (b0 & Hb0 & ->).
    pose proof (IH u i (Finite ic) a0 b0 ltac:(lia) Hi Ex Eic Hb0) as E0.
    rewrite flip_l_matrix in El' by (assumption || (fold N; lia)).
    fold N in El'.
    replace (N - S (N - u - len - 2))%nat with (u + 1 + len)%nat in El'
      by lia.
    rewrite El in El'. injection El' as <-.
    rewrite flip_i_matrix in Hi' by (fold N; lia). fold N in Hi'.
    replace (N - S (N - u - S len - 2))%nat with (u + 1 + len + 1)%nat in Hi'
      by lia.
    replace (N - S (N - u - len - 2))%nat with (u + 1 + len)%nat in Hi'
      by lia.
    destruct (i_matrix_pair _ _ _ Ei2 Hi') as [E1 E2].
    apply l_matrix_spec in El. destruct El as (q & d & _ & _ & _ & ->).
    rewrite !exchange_matmul, E2.
    apply matmul_cancel; [exact E1|apply propagation_matrix_exchange|exact E0].
Qed.

(** The system matrix of the reversed structure undoes, up to the
    exchange of the two amplitudes, the system matrix of the structure. *)
Lemma flip_s_matrix (tm : Lifetmm.TransferMatrix) (s s' : M2) :
  Lifetmm.num_layers tm = length (Lifetmm.d_list tm) ->
  length (Lifetmm.d_list tm) = length (Lifetmm.n_list tm) ->
  Lifetmm.s_matrix tm = Ok (Finite s) ->
  Lifetmm.s_matrix (Lifetmm.flip tm) = Ok (Finite s') ->
  matmul s (exchange s') = identity.
Proof.
  intros Hn Hd Hs Hs'. unfold Lifetmm.s_matrix in Hs, Hs'.
  cbn [Lifetmm.flip Lifetmm.num_layers] in Hs'.
  destruct (Lifetmm.i_matrix tm 0 1) as [i|] eqn:Ei; [|discriminate].
  destruct (Lifetmm.i_matrix (Lifetmm.flip tm) 0 1) as [i'|] eqn:Ei';
    [|discriminate].
  cbn [rbind] in Hs, Hs'.
  destruct (i_matrix_inv _ _ _ Ei) as (n0 & n1 & _ & E1 & _).
  assert (Hlen : (2 <= length (Lifetmm.n_list tm))%nat).
  { unfold index in E1.
    destruct (nth_error (Lifetmm.n_list tm) 1) eqn:E; [|discriminate].
    assert (nth_error (Lifetmm.n_list tm) 1 <> None) by congruence.
    apply nth_error_Some in H. lia. }
  set (N := length (Lifetmm.n_list tm)) in *.
  assert (HN : Lifetmm.num_layers tm = N) by congruence.
  rewrite HN in Hs, Hs'.
  apply (@reverse_path tm Hd (N - 2) 0 i i' s s'); fold N.
  - lia.
  - exact Ei.
  - exact Hs.
  - replace (N - 0 - (N - 2) - 2)%nat with 0%nat by lia. exact Ei'.
  - replace (N - 0 - (N - 2) - 2)%nat with 0%nat by lia. exact Hs'.
Qed.

Lemma r_and_t_inv (tm : Lifetmm.TransferMatrix) (r t : C) :
  Lifetmm.calc_r_and_t tm = Ok (Exact (r, t)) ->
  exists s,
    Lifetmm.s_matrix tm = Ok (Finite s) /\ m00 s <> C0 /\
    t = (C1 / m00 s)%C /\ r = (m10 s / m00 s)%C.
Proof.
  unfold Lifetmm.calc_r_and_t.
  destruct (Lifetmm.s_matrix tm) as [s|]; [|discriminate].
  cbn [rbind]. destruct s as [s| | |]; try discriminate.
  cbn [entry idiv ibind ipair]. unfold ediv.
  destruct (Ceqb (m00 s) C0) eqn:E; [discriminate|].
  cbn [ibind imap]. intros H. injection H as <- <-.
  apply Ceqb_false in E. exists s. auto.
Qed.

(** Reciprocity: the transmission amplitude of the reversed structure, at
    the same [n_11], is the one of the structure times the determinant of
    its system matrix, i.e. times the ratio of the normalised
    perpendicular wave vectors of the last and first medium (for the H
    field, times the squared ratio of their indices). *)
Theorem flip_reciprocity (tm : Lifetmm.TransferMatrix) (r t r' t' : C) :
  Lifetmm.num_layers tm = length (Lifetmm.d_list tm) ->
  length (Lifetmm.d_list tm) = length (Lifetmm.n_list tm) ->
  Lifetmm.calc_r_and_t tm = Ok (Exact (r, t)) ->
  Lifetmm.calc_r_and_t (Lifetmm.flip tm) = Ok (Exact (r', t')) ->
  exists n0 nl,
    index (Lifetmm.n_list tm) 0 = Ok n0 /\
    index_last (Lifetmm.n_list tm) = Ok nl /\
    xi_of n0 (Lifetmm.n_11 tm) <> C0 /\
    t' = (t * (xi_of nl (Lifetmm.n_11 tm) / xi_of n0 (Lifetmm.n_11 tm)
               * field_factor (Lifetmm.field tm) n0 nl))%C.
Proof.
  intros Hn Hd Hrt Hrt'.
  apply r_and_t_inv in Hrt. destruct Hrt as (s & Hs & Hs0 & -> & _).
  apply r_and_t_inv in Hrt'. destruct Hrt' as (s' & Hs' & Hs0' & -> & _).
  pose proof (@flip_s_matrix tm s s' Hn Hd Hs Hs') as E.
  unfold Lifetmm.s_matrix in Hs.
  destruct (Lifetmm.i_matrix tm 0 1) as [i|] eqn:Ei; [|discriminate].
  cbn [rbind] in Hs.
  pose proof (lifetmm_chain_finite _ _ _ Hs) as [i0 ->].
  destruct (det_upto_first _ Ei) as (n0 & n1 & E0 & E1 & Hdet).
  destruct (@chain_induction tm (det_upto tm n0) (@det_upto_step tm n0)
              _ _ _ _ _ E1 Hdet Hs) as (nl & El & (Q0 & _ & Hds)).
  assert (Hlen : (2 <= length (Lifetmm.n_list tm))%nat).
  { unfold index in E1.
    destruct (nth_error (Lifetmm.n_list tm) 1) eqn:E'; [|discriminate].
    assert (H : nth_error (Lifetmm.n_list tm) 1 <> None) by congruence.
    apply nth_error_Some in H. lia. }
  replace (1 + (Lifetmm.num_layers tm - 2))%nat
    with (length (Lifetmm.n_list tm) - 1)%nat in El by lia.
  rewrite index_last_length in El
    by (intros Hnil; rewrite Hnil in Hlen; simpl in Hlen; lia).
  exists n0, nl. split; [exact E0|]. split; [exact El|]. split; [exact Q0|].
  rewrite <- Hds.
  pose proof (f_equal m01 E) as E01. pose proof (f_equal m11 E) as E11.
  unfold matmul, exchange, identity in E01, E11.
  cbn [m00 m01 m10 m11] in E01, E11.
  assert (Hk : (HelperFunctions.det s * m00 s')%C = m00 s).
  { unfold HelperFunctions.det.
    transitivity (m00 s * (m10 s * m10 s' + m11 s * m00 s')
                  - m10 s * (m00 s * m10 s' + m01 s * m00 s'))%C; [ring|].
    rewrite E01, E11. ring. }
  set (D := HelperFunctions.det s) in *.
  assert (HD : D <> C0).
  { intros HD. apply Hs0. rewrite <- Hk, HD. ring. }
  clearbody D. rewrite <- Hk. field. split; assumption.
Qed.

(** A single interface from index 1 to index 2, at normal incidence. *)
Definition single_step : Lifetmm.TransferMatrix :=
  Lifetmm.mkTM [0; 0] [RtoC 1; RtoC 2] (cumsum [0; 0]) 2 None None None
               field_E pol_TE 0 C0.

Lemma normal_r_and_t (tm : Lifetmm.TransferMatrix) (nj nk : R) :
  Lifetmm.n_list tm = [RtoC nj; RtoC nk] -> Lifetmm.num_layers tm = 2%nat ->
  Lifetmm.n_11 tm = C0 -> Lifetmm.pol tm = pol_TE ->
  Lifetmm.field tm = field_E -> 0 < nj -> 0 < nk ->
  Lifetmm.calc_r_and_t tm
  = Ok (Exact (RtoC ((nj - nk) / (2 * nj) / ((nj + nk) / (2 * nj))),
               RtoC (1 / ((nj + nk) / (2 * nj))))).
Proof.
  intros Hl Hn H11 Hp Hf Pj Pk.
  unfold Lifetmm.calc_r_and_t, Lifetmm.s_matrix.
  rewrite (@lifetmm_i_matrix_eq tm 0 1 (RtoC nj) (RtoC nk))
    by (rewrite Hl; reflexivity).
  rewrite H11, Hp, Hf, Hn, te_real_interface by assumption.
  cbn [rbind Nat.sub seq Lifetmm.chain entry idiv ibind imap ipair RM
       m00 m01 m10 m11].
  assert ((nj + nk) / (2 * nj) <> 0).
  { assert (0 < (nj + nk) / (2 * nj)) by (apply Rdiv_lt_0_compat; lra). lra. }
  change C1 with (RtoC 1). rewrite !ediv_real by assumption. reflexivity.
Qed.

Lemma flip_reciprocity_witness :
  exists n0 nl,
    index (Lifetmm.n_list single_step) 0 = Ok n0 /\
    index_last (Lifetmm.n_list single_step) = Ok nl /\
    xi_of n0 (Lifetmm.n_11 single_step) <> C0 /\
    RtoC (1 / ((2 + 1) / (2 * 2)))
    = (RtoC (1 / ((1 + 2) / (2 * 1)))
       * (xi_of nl (Lifetmm.n_11 single_step)
          / xi_of n0 (Lifetmm.n_11 single_step)
          * field_factor (Lifetmm.field single_step) n0 nl))%C.
Proof.
  apply (@flip_reciprocity single_step
           (RtoC ((1 - 2) / (2 * 1) / ((1 + 2) / (2 * 1))))
           (RtoC (1 / ((1 + 2) / (2 * 1))))
           (RtoC ((2 - 1) / (2 * 2) / ((2 + 1) / (2 * 2))))
           (RtoC (1 / ((2 + 1) / (2 * 2))))).
  - reflexivity.
  - reflexivity.
  - apply normal_r_and_t; reflexivity || lra.
  - apply normal_r_and_t; reflexivity || lra.
Defined.

(** * The Fresnel equations at oblique incidence *)

Lemma sqrt_minus_sin (n s c : R) :
  0 <= n * c -> s * s + c * c = 1 ->
  sqrt (n * n - n * s * (n * s)) = n * c.
Proof.
  intros Hc H1.
  replace (n * n - n * s * (n * s)) with (n * c * (n * c)) by nra.
  apply sqrt_square. exact Hc.
Qed.

Lemma sin_cos_one (x : R) : sin x * sin x + cos x * cos x = 1.
Proof. pose proof (sin2_cos2 x) as H. unfold Rsqr in H. exact H. Qed.

(** The amplitudes [calc_r_and_t] returns for one interface between
    transparent media, for light incident at the angle [a] and refracted
    to the angle [b] of Snell's law: the Fresnel equations, with the
    p-polarised [r] taken with the sign convention of the code. *)
Theorem fresnel_equations (tm0 tm : Lifetmm.TransferMatrix)
    (n1 n2 a b : R) :
  Lifetmm.n_list tm0 = [RtoC n1; RtoC n2] ->
  Lifetmm.num_layers tm0 = 2%nat ->
  Lifetmm.field tm0 = field_E ->
  0 < n1 -> 0 < n2 ->
  n1 * sin a = n2 * sin b -> 0 <= cos b ->
  Lifetmm.set_incident_angle a radians tm0 = (Ok tt, tm) ->
  Lifetmm.calc_r_and_t tm
  = Ok (Exact
          (if is_p (Lifetmm.pol tm0)
           then (RtoC ((n2 * cos a - n1 * cos b) / (n2 * cos a + n1 * cos b)),
                 RtoC (2 * n1 * cos a / (n2 * cos a + n1 * cos b)))
           else (RtoC ((n1 * cos a - n2 * cos b) / (n1 * cos a + n2 * cos b)),
                 RtoC (2 * n1 * cos a / (n1 * cos a + n2 * cos b))))).
Proof.
  intros Hl HN Hf P1 P2 Hsn Hcb Hset.
  unfold Lifetmm.set_incident_angle, bind, update in Hset.
  destruct (Rleb 0 a && Rltb a (PI / 2)) eqn:E; cbn [assert rbind] in Hset;
    [|discriminate].
  cbn [Lifetmm.with_th Lifetmm.n_list Lifetmm.th] in Hset.
  rewrite Hl in Hset. cbn [index nth_error rbind] in Hset.
  injection Hset as <-.
  apply andb_prop in E. destruct E as [E1 E2].
  apply Rleb_true in E1. apply Rltb_true in E2.
  assert (Hca : 0 < cos a) by (apply cos_gt_0; lra).
  pose proof (sin_cos_one a) as Ha. pose proof (sin_cos_one b) as Hb.
  assert (X1 : 0 < n1 * cos a) by (apply Rmult_lt_0_compat; assumption).
  assert (X2 : 0 <= n2 * cos b) by (apply Rmult_le_pos; lra).
  unfold Lifetmm.calc_r_and_t, Lifetmm.s_matrix.
  rewrite (@lifetmm_i_matrix_eq _ 0 1 (RtoC n1) (RtoC n2))
    by (cbn [Lifetmm.with_n_11 Lifetmm.with_th Lifetmm.n_list];
        rewrite Hl; reflexivity).
  cbn [Lifetmm.with_n_11 Lifetmm.with_th Lifetmm.n_11 Lifetmm.pol
       Lifetmm.field Lifetmm.num_layers Lifetmm.th].
  rewrite HN, Hf, RtoC_mul.
  rewrite (@xi_of_real_below n1) by nra.
  rewrite (@xi_of_real_below n2) by (rewrite Hsn; nra).
  rewrite (@sqrt_minus_sin n1 (sin a) (cos a)) by lra.
  rewrite Hsn, (@sqrt_minus_sin n2 (sin b) (cos b)) by lra.
  set (x1 := n1 * cos a) in *. set (x2 := n2 * cos b) in *.
  assert (Mp : 0 < n2 * n2 * x1) by (repeat apply Rmult_lt_0_compat; lra).
  assert (Mq : 0 <= n1 * n1 * x2) by (repeat apply Rmult_le_pos; lra).
  unfold coefficients, fresnel, to_field.
  destruct (is_p (Lifetmm.pol tm0)).
  - rewrite !RtoC_mul, RtoC_sub, !RtoC_add.
    rewrite !ediv_real by lra.
    set (r := (n2 * n2 * x1 - n1 * n1 * x2) / (n2 * n2 * x1 + n1 * n1 * x2)).
    set (t := 2 * n1 * n2 * x1 / (x1 * (n2 * n2) + x2 * (n1 * n1))).
    assert (Ht : 0 < t).
    { unfold t. apply Rdiv_lt_0_compat; [|lra].
      repeat apply Rmult_lt_0_compat; lra. }
    rewrite assemble_nonzero by (apply RtoC_neq0; lra).
    rewrite interface_matrix_real by lra.
    cbn [rbind Nat.sub seq Lifetmm.chain entry idiv ibind imap ipair RM
         m00 m01 m10 m11].
    assert (/ t <> 0) by (apply Rinv_neq_0_compat; lra).
    change C1 with (RtoC 1). rewrite !ediv_real by assumption.
    unfold ipair. cbn [ibind imap].
    assert (Ed : 0 < n2 * cos a + n1 * cos b)
      by (apply Rplus_lt_le_0_compat;
          [apply Rmult_lt_0_compat|apply Rmult_le_pos]; lra).
    assert (Er : r / t / / t
                 = (n2 * cos a - n1 * cos b) / (n2 * cos a + n1 * cos b)).
    { unfold r, t. unfold x1, x2 in *. field. repeat split; lra. }
    assert (Et : 1 / / t = 2 * n1 * cos a / (n2 * cos a + n1 * cos b)).
    { unfold t. unfold x1, x2 in *. field. repeat split; lra. }
    rewrite Er, Et. reflexivity.
  - rewrite RtoC_mul, RtoC_sub, !RtoC_add.
    rewrite !ediv_real by lra.
    set (r := (x1 - x2) / (x1 + x2)).
    set (t := 2 * x1 / (x1 + x2)).
    assert (Ht : 0 < t) by (unfold t; apply Rdiv_lt_0_compat; lra).
    rewrite assemble_nonzero by (apply RtoC_neq0; lra).
    rewrite interface_matrix_real by lra.
    cbn [rbind Nat.sub seq Lifetmm.chain entry idiv ibind imap ipair RM
         m00 m01 m10 m11].
    assert (/ t <> 0) by (apply Rinv_neq_0_compat; lra).
    change C1 with (RtoC 1). rewrite !ediv_real by assumption.
    unfold ipair. cbn [ibind imap].
    assert (Er : r / t / / t = (x1 - x2) / (x1 + x2)).
    { unfold r, t. field. repeat split; lra. }
    assert (Et : 1 / / t = 2 * x1 / (x1 + x2)).
    { unfold t. field. repeat split; lra. }
    rewrite Er, Et. unfold x1, x2.
    replace (2 * (n1 * cos a)) with (2 * n1 * cos a) by ring.
    reflexivity.
Qed.

(** An interface from index 2 to index 1, before an angle is set. *)
Definition dense_to_rare : Lifetmm.TransferMatrix :=
  Lifetmm.mkTM [0; 0] [RtoC 2; RtoC 1] (cumsum [0; 0]) 2 None None None
               field_E pol_TE 0 C0.

Definition at_critical_angle : Lifetmm.TransferMatrix :=
  Lifetmm.with_n_11 (Lifetmm.with_th dense_to_rare (PI / 6))
                    (RtoC 2 * RtoC (sin (PI / 6)))%C.

Lemma dense_to_rare_set_incident_angle :
  Lifetmm.set_incident_angle (PI / 6) radians dense_to_rare
  = (Ok tt, at_critical_angle).
Proof.
  unfold Lifetmm.set_incident_angle, bind, update.
  assert (E : Rleb 0 (PI / 6) && Rltb (PI / 6) (PI / 2) = true).
  { pose proof PI_RGT_0. apply andb_true_intro. split.
    - apply Rleb_true. lra.
    - apply Rltb_true. lra. }
  rewrite E. reflexivity.
Qed.

Lemma fresnel_equations_witness :
  Lifetmm.calc_r_and_t at_critical_angle
  = Ok (Exact
          (RtoC ((2 * cos (PI / 6) - 1 * cos (PI / 2))
                 / (2 * cos (PI / 6) + 1 * cos (PI / 2))),
           RtoC (2 * 2 * cos (PI / 6)
                 / (2 * cos (PI / 6) + 1 * cos (PI / 2))))).
Proof.
  apply (@fresnel_equations dense_to_rare at_critical_angle 2 1
           (PI / 6) (PI / 2)).
  - reflexivity.
  - reflexivity.
  - reflexivity.
  - lra.
  - lra.
  - rewrite sin_PI6, sin_PI2. lra.
  - rewrite cos_PI2. lra.
  - exact dense_to_rare_set_incident_angle.
Defined.

(** * Transmittance beyond the critical angle *)

(** Beyond the critical angle of the exit medium [snell] returns the
    complex angle [pi/2 + i y] with [y > 0], and the beam-expansion factor
    is the negative imaginary number [- i (n_out / n_in) sinh y / cos a]. *)
Lemma beam_correction_evanescent (n_in n_out a : R) :
  0 < n_in -> 0 < n_out -> 0 <= a < PI / 2 -> n_out < n_in * sin a ->
  exists y, 0 < y /\
    Lifetmm.beam_correction n_in n_out a
    = Exact (0, - (n_out / n_in * (sinh y / cos a))).
Proof.
  intros Hin Hout Ha Hc.
  assert (Hcos : 0 < cos a) by (apply cos_gt_0; lra).
  set (x := n_in * sin a / n_out).
  assert (Hx : 1 < x).
  { unfold x. apply Rmult_lt_reg_r with n_out; [exact Hout|].
    replace (n_in * sin a / n_out * n_out) with (n_in * sin a)
      by (field; lra).
    lra. }
  exists (ln (x + sqrt (x * x - 1))). split.
  - rewrite <- ln_1. apply ln_increasing; [lra|].
    pose proof (sqrt_pos (x * x - 1)). lra.
  - unfold Lifetmm.beam_correction.
    assert (E1 : Reqb n_out 0 = false) by (apply Reqb_false; lra).
    assert (E2 : Reqb n_in 0 = false) by (apply Reqb_false; lra).
    assert (E3 : Reqb (cos a) 0 = false) by (apply Reqb_false; lra).
    rewrite E1, E2, E3. f_equal.
    unfold HelperFunctions.snell, HelperFunctions.sp_arcsin. fold x.
    destruct (Rle_dec (Rabs x) 1) as [A|_].
    { exfalso. rewrite Rabs_pos_eq in A by lra. lra. }
    destruct (Rlt_dec 1 x) as [_|N]; [|contradiction].
    unfold Ccos. cbn [Re Im fst snd].
    rewrite cos_PI2, sin_PI2.
    set (y := ln (x + sqrt (x * x - 1))).
    apply C_ext; simpl; unfold Cnorm2; simpl; field; lra.
Qed.

(** The power balance of a lossless structure for the E field: the
    reflected fraction [R] and [|t|^2] are tied by the perpendicular wave
    vectors of the entry and exit media. *)
Lemma lossless_power_balance (tm0 tm : Lifetmm.TransferMatrix) (a : R)
    (u : angle_units) (n_in n_out : C) (s : M2) :
  lossless tm0 ->
  Lifetmm.num_layers tm0 = length (Lifetmm.n_list tm0) ->
  Lifetmm.field tm0 = field_E ->
  Lifetmm.set_incident_angle a u tm0 = (Ok tt, tm) ->
  index (Lifetmm.n_list tm0) 0 = Ok n_in ->
  index_last (Lifetmm.n_list tm0) = Ok n_out ->
  0 < Re n_in ->
  Lifetmm.s_matrix tm = Ok (Finite s) -> m00 s <> C0 ->
  0 <= Lifetmm.th tm < PI / 2 /\
  Lifetmm.n_list tm = Lifetmm.n_list tm0 /\
  Im n_in = 0 /\ Im n_out = 0 /\
  Re n_in * cos (Lifetmm.th tm) * (1 - Cnorm2 (m10 s / m00 s))
  = Re (xi_of (RtoC (Re n_out))
              (RtoC (Re n_in * sin (Lifetmm.th tm))))
    * Cnorm2 (C1 / m00 s).
Proof.
  intros Hl HN Hf Hset Hin Hout Pin Hs H00.
  apply set_incident_angle_inv in Hset.
  destruct Hset as (n0 & th & Hth & E0 & Htm).
  rewrite Hin in E0. injection E0 as <-.
  assert (Hn : Lifetmm.n_list tm = Lifetmm.n_list tm0) by (rewrite Htm; reflexivity).
  assert (HN' : Lifetmm.num_layers tm = Lifetmm.num_layers tm0)
    by (rewrite Htm; reflexivity).
  assert (Hf' : Lifetmm.field tm = field_E) by (rewrite Htm; exact Hf).
  assert (Hx : Lifetmm.n_11 tm = (n_in * RtoC (sin th))%C)
    by (rewrite Htm; reflexivity).
  assert (Ht : Lifetmm.th tm = th) by (rewrite Htm; reflexivity).
  clear Htm. rewrite Ht in *.
  assert (Hl' : lossless tm) by (unfold lossless; rewrite Hn; exact Hl).
  pose proof (@index_Forall _ _ _ _ _ Hl Hin) as Rin.
  assert (Rout : Im n_out = 0).
  { rewrite <- index_last_length in Hout.
    - exact (@index_Forall _ _ _ _ _ Hl Hout).
    - intros E. rewrite E in Hin. discriminate. }
  simpl in Rin.
  rewrite (real_RtoC _ Rin) in Hx. rewrite RtoC_mul in Hx.
  destruct (s_matrix_transports Hl' ltac:(rewrite Hx; reflexivity) Hf' Hs)
    as (n0 & nN & E0 & EN & Htr).
  rewrite Hn, Hin in E0. injection E0 as <-.
  assert (E : index (Lifetmm.n_list tm) (1 + (Lifetmm.num_layers tm - 2))
              = Ok n_out).
  { rewrite Hn, HN', HN in EN |- *.
    assert (Hlen : (1 + (length (Lifetmm.n_list tm0) - 2)
                    < length (Lifetmm.n_list tm0))%nat).
    { apply nth_error_Some. unfold index in EN.
      destruct (nth_error (Lifetmm.n_list tm0)
                          (1 + (length (Lifetmm.n_list tm0) - 2)));
        [discriminate|discriminate EN]. }
    rewrite <- Hout, <- index_last_length.
    - f_equal. lia.
    - intros E. rewrite E in Hin. discriminate. }
  rewrite EN in E. injection E as ->.
  rewrite (real_RtoC _ Rin), (real_RtoC _ Rout) in Htr.
  rewrite Hx in Htr.
  assert (Hc0 : 0 < cos th) by (apply cos_gt_0; lra).
  pose proof (sin2_cos2 th) as Hsc. unfold Rsqr in Hsc.
  rewrite (@xi_of_real_below (Re n_in)) in Htr.
  2:{ replace (Re n_in * sin th * (Re n_in * sin th))
        with (Re n_in * Re n_in * (1 - cos th * cos th)) by nra.
      assert (0 <= Re n_in * Re n_in * (cos th * cos th)) by
        (apply Rmult_le_pos; nra).
      lra. }
  replace (Re n_in * Re n_in - Re n_in * sin th * (Re n_in * sin th))
    with ((Re n_in * cos th) * (Re n_in * cos th)) in Htr by nra.
  rewrite sqrt_square in Htr by nra.
  pose proof (power_balance H00 Htr) as Hp.
  repeat (split; [assumption|]). exact Hp.
Qed.

(** C1. Beyond the critical angle of the exit medium the claim fails on
    the code.  For a structure whose layers all have real refractive
    indices, with positive entry and exit indices and the E field, at an
    angle that [set_incident_angle] accepts with
    [n_exit < n_entry * sin th]: whenever
    [calc_reflectance_and_transmittance] with the beam-expansion correction
    returns finite values, the reflectance is [1] and the value returned
    as the transmittance is a non-zero imaginary number, [|t|^2] times
    the cosine of the complex angle of [snell] whose real part is not
    taken, so that [R + T] is not [1]. *)
Theorem transmittance_imaginary_beyond_critical_angle
    (tm0 tm : Lifetmm.TransferMatrix) (a : R) (u : angle_units)
    (n_in n_out : C) (Rf : R) (T : C) :
  lossless tm0 ->
  Lifetmm.num_layers tm0 = length (Lifetmm.n_list tm0) ->
  Lifetmm.field tm0 = field_E ->
  Lifetmm.set_incident_angle a u tm0 = (Ok tt, tm) ->
  index (Lifetmm.n_list tm0) 0 = Ok n_in ->
  index_last (Lifetmm.n_list tm0) = Ok n_out ->
  0 < Re n_in -> 0 < Re n_out ->
  Re n_out < Re n_in * sin (Lifetmm.th tm) ->
  Lifetmm.calc_reflectance_and_transmittance tm true = Ok (Exact (Rf, T)) ->
  Rf = 1 /\ Re T = 0 /\ Im T < 0 /\ (RtoC Rf + T)%C <> C1.
Proof.
  intros Hl HN Hf Hset Hin Hout Pin Pout Hcrit Hres.
  apply reflectance_and_transmittance_inv in Hres.
  destruct Hres as (s & n_1 & n_2 & rm & Hs & H00 & E1 & E2 & Eb & -> & ->).
  destruct (@lossless_power_balance tm0 tm a u n_in n_out s
              Hl HN Hf Hset Hin Hout Pin Hs H00)
    as (Hth & Hn & Rin & Rout & Hp).
  rewrite Hn in E1, E2. rewrite Hin in E1. rewrite Hout in E2.
  injection E1 as <-. injection E2 as <-.
  destruct (@beam_correction_evanescent (Re n_in) (Re n_out) (Lifetmm.th tm)
              Pin Pout Hth Hcrit) as (y & Hy & Eb').
  rewrite Eb' in Eb. injection Eb as <-.
  assert (Hc0 : 0 < cos (Lifetmm.th tm)) by (apply cos_gt_0; lra).
  assert (Hs0 : 0 < sin (Lifetmm.th tm)).
  { destruct (Rle_dec (sin (Lifetmm.th tm)) 0) as [H|H]; [|lra].
    exfalso. assert (Re n_in * sin (Lifetmm.th tm) <= 0) by nra. lra. }
  rewrite xi_of_real_ge in Hp by nra. simpl (Re (_, _)) in Hp.
  pose proof (Cnorm2_pos (Cdiv_neq0 C1_neq_C0 H00)) as HT0.
  pose proof (sinh_pos Hy) as Hsh.
  set (Rr := Cnorm2 (m10 s / m00 s)) in *.
  set (Tt := Cnorm2 (C1 / m00 s)) in *.
  assert (Hone : Rr = 1).
  { assert (Hx0 : 0 < Re n_in * cos (Lifetmm.th tm))
      by (apply Rmult_lt_0_compat; lra).
    nra. }
  assert (Hfac : 0 < Re n_out / Re n_in * (sinh y / cos (Lifetmm.th tm))).
  { apply Rmult_lt_0_compat; apply Rdiv_lt_0_compat; assumption. }
  set (c := Re n_out / Re n_in * (sinh y / cos (Lifetmm.th tm))) in *.
  assert (HI : Im (Cmul (RtoC Tt) (0, - c)) = - (Tt * c)) by (simpl; ring).
  assert (HR : Re (Cmul (RtoC Tt) (0, - c)) = 0) by (simpl; ring).
  assert (Hneg : 0 < Tt * c) by (apply Rmult_lt_0_compat; assumption).
  split; [exact Hone|]. split; [exact HR|]. split; [rewrite HI; lra|].
  intros E. apply (f_equal Im) in E.
  change (Im (Cadd (RtoC Rr) (Cmul (RtoC Tt) (0, - c))))
    with (0 + Im (Cmul (RtoC Tt) (0, - c))) in E.
  rewrite HI in E. simpl in E. lra.
Qed.

Lemma glass_air_beyond_critical_angle :
  Re (RtoC 1) < Re (RtoC 2) * sin (Lifetmm.th glass_air).
Proof.
  simpl. rewrite sin_PI3.
  assert (H1 : 1 < sqrt 3).
  { rewrite <- sqrt_1 at 1. apply sqrt_lt_1; lra. }
  lra.
Qed.

Lemma transmittance_imaginary_beyond_critical_angle_witness :
  exists Rf T,
    Lifetmm.calc_reflectance_and_transmittance glass_air true
    = Ok (Exact (Rf, T)) /\
    Rf = 1 /\ Re T = 0 /\ Im T < 0 /\ (RtoC Rf + T)%C <> C1.
Proof.
  destruct glass_air_result as (Rf & T & H).
  exists Rf, T. split; [exact H|].
  apply (@transmittance_imaginary_beyond_critical_angle glass_air glass_air
           (PI / 3) radians (RtoC 2) (RtoC 1) Rf T).
  - unfold lossless. simpl. repeat constructor.
  - reflexivity.
  - reflexivity.
  - exact glass_air_set_incident_angle.
  - reflexivity.
  - reflexivity.
  - simpl. lra.
  - simpl. lra.
  - exact glass_air_beyond_critical_angle.
  - exact H.
Defined.

